(** * The use-def analysis of memtrace

    A model of [memtrace/python/memtrace_ext/memtrace_ext.cpp]: the trace
    reader ([TraceMm], [Seek]), the partial-use hash table
    ([PartialUses]), the live-writer map of an address space ([UdState])
    and the builder of the use-def graph ([Ud]), with the properties of
    their specification. *)

From Stdlib Require Import ZArith List Bool Lia Sorted.
From Stdlib.Strings Require Import Byte.
From stdpp Require Import base list sorting.
Import ListNotations.
Local Open Scope Z_scope.

(** * The model *)

(** ** Machine integers

    [std::uint32_t] and [size_t] values are integers in [Z]; every operation
    that can overflow in the source is followed by its wrap-around. *)

Definition wrap (bits : Z) (x : Z) : Z := x mod 2 ^ bits.
Definition wrap32 (x : Z) : Z := wrap 32 x.
Definition wrap64 (x : Z) : Z := wrap 64 x.

(** [static_cast<std::uint32_t>(-1)], the mark of an empty hash-table slot. *)
Definition UINT32_MAX : Z := 2 ^ 32 - 1.
(** [std::numeric_limits<size_t>::max()]. *)
Definition SIZE_MAX : Z := 2 ^ 64 - 1.

(** [size()] of an [MmVector] or [std::vector]. *)
Definition vsize {A} (l : list A) : Z := Z.of_nat (length l).

(** ** GetFirstPrimeGreaterThanOrEqualTo

    The function keeps a function-local [static std::vector<size_t> primes],
    which is threaded through the model as an argument and a result.  The
    source loops with [while (true)] and calls itself from the loop that
    extends [primes]; [fuel] bounds the nesting and the number of iterations,
    and [None] stands for a run that is not over when the fuel is. *)

(** [primes.back()] *)
Definition back (primes : list Z) : Z := List.last primes 0.

(** [for (primeIndex = 0; primes[primeIndex] <= valueSqrt; primeIndex++)
      if (value % primes[primeIndex] == 0) { isPrime = false; break; }]
    The result is [isPrime]; [None] is a read past the end of [primes]. *)
Fixpoint trial_division (primes : list Z) (valueSqrt value : Z) : option bool :=
  match primes with
  | [] => None
  | p :: rest =>
      if p <=? valueSqrt then
        if value mod p =? 0 then Some false
        else trial_division rest valueSqrt value
      else Some true
  end.

(** [while (primes.back() <= valueSqrt)
      primes.push_back(GetFirstPrimeGreaterThanOrEqualTo(primes.back() + 1));]
    [rec] is the recursive call. *)
Fixpoint grow_primes (rec : list Z -> Z -> option (list Z * Z)) (n : nat)
    (primes : list Z) (valueSqrt : Z) : option (list Z) :=
  match n with
  | O => None
  | S n' =>
      if back primes <=? valueSqrt then
        match rec primes (wrap64 (back primes + 1)) with
        | Some (primes', p) => grow_primes rec n' (primes' ++ [p]) valueSqrt
        | None => None
        end
      else Some primes
  end.

(** The [while (true)] loop.  [std::sqrt] works on [double]; the conversion
    of [value] and the rounded root are exact below [2^52], where
    [static_cast<size_t>(std::sqrt(value))] is [Z.sqrt value]. *)
Fixpoint prime_search (rec : list Z -> Z -> option (list Z * Z)) (n : nat)
    (primes : list Z) (value : Z) : option (list Z * Z) :=
  match n with
  | O => None
  | S n' =>
      let valueSqrt := Z.sqrt value in
      match grow_primes rec n' primes valueSqrt with
      | None => None
      | Some primes1 =>
          match trial_division primes1 valueSqrt value with
          | None => None
          | Some true => Some (primes1, value)
          | Some false => prime_search rec n' primes1 (wrap64 (value + 2))
          end
      end
  end.

Fixpoint GetFirstPrimeGreaterThanOrEqualTo (fuel : nat) (primes : list Z)
    (value : Z) : option (list Z * Z) :=
  match fuel with
  | O => None
  | S fuel' =>
      prime_search (GetFirstPrimeGreaterThanOrEqualTo fuel') fuel' primes
        (Z.lor value 1)
  end.

(** The initial value of the static vector. *)
Definition primes_init : list Z := [3].

(** Fuel that is enough for every [value] up to [2^34] (lemma
    [GetFirstPrime_total]); the callers below run the search with it. *)
Definition prime_fuel (value : Z) : nat := Z.to_nat (3 * value + 16).

(** ** Certified primes

    Termination of the search needs a prime between [p] and [p * p] for the
    last cached prime [p]; below [PRIME_BOUND] this follows from the chain
    of primes [bertrand_chain], each less than twice its predecessor,
    whose primality is checked by trial division. *)

(** [no_divisor_from n d p]: none of [d], [d + 2], [d + 6], [d + 8], ...
    ([n] pairs, six apart) whose square is at most [p] divides [p]. *)
Fixpoint no_divisor_from (n : nat) (d p : Z) : bool :=
  match n with
  | O => true
  | S n' =>
      if (d * d <=? p) && (p mod d =? 0) then false
      else if ((d + 2) * (d + 2) <=? p) && (p mod (d + 2) =? 0) then false
      else no_divisor_from n' (d + 6) p
  end.

Definition is_prime_trial (p : Z) : bool :=
  (3 <? p) && negb (p mod 2 =? 0) && negb (p mod 3 =? 0) &&
  no_divisor_from (Z.to_nat (Z.sqrt p / 6 + 1)) 5 p.

Definition bertrand_chain : list Z :=
  [2; 3; 5; 7; 13; 23; 43; 83; 163; 317; 631; 1259; 2503; 5003; 9973; 19937;
   39869; 79699; 159389; 318751; 637499; 1274989; 2549951; 5099893; 10199767;
   20399531; 40799041; 81598067; 163196129; 326392249; 652784471; 1305568919;
   2611137817; 5222275627; 10444551233; 20889102457; 41778204911].

Fixpoint chain_steps (c : Z) (l : list Z) : bool :=
  match l with
  | [] => true
  | x :: l' => (x <? 2 * c) && chain_steps x l'
  end.

Definition PRIME_BOUND : Z := 2 ^ 35.

(** The cache holds exactly the odd primes up to its last element. *)
Definition good_primes (primes : list Z) : Prop :=
  StronglySorted Z.lt primes /\ 3 <= back primes /\
  forall p, In p primes <-> (Z.prime p /\ 3 <= p <= back primes).

(** [q] is the least prime that is at least [v]. *)
Definition next_prime (v q : Z) : Prop :=
  Z.prime q /\ v <= q /\ forall p, Z.prime p -> v <= p -> q <= p.

(** ** Analyzer entities *)

(** [struct Def { W startAddr; W endAddr; }] *)
Record Def : Type := mkDef { startAddr : Z; endAddr : Z }.

(** [struct PartialUse { std::uint32_t first; Def<W> second; }] *)
Record PartialUse : Type := mkPartialUse { first : Z; second : Def }.

(** Value-initialised elements, as [MmVector::resize] and [emplace_back]
    create them. *)
Definition Def_zero : Def := mkDef 0 0.
Definition PartialUse_zero : PartialUse := mkPartialUse 0 Def_zero.

(** [MmVector::resize(n, val)]: the growth of the mapping is not modelled. *)
Definition resize {A} (n : Z) (val : A) (l : list A) : list A :=
  take (Z.to_nat n) l ++ replicate (Z.to_nat n - length l) val.

(** ** The partial-use hash table *)

(** [ScanPartialUses(partialUses, partialUseCount, useIndex)]: the offset of
    the first entry of the range that holds [useIndex] or is empty; [None]
    is [nullptr]. *)
Fixpoint ScanPartialUses (partialUses : list PartialUse) (useIndex : Z)
    : option nat :=
  match partialUses with
  | [] => None
  | partialUse :: rest =>
      if (first partialUse =? useIndex) || (first partialUse =? UINT32_MAX)
      then Some O
      else S <$> ScanPartialUses rest useIndex
  end.

(** [FindPartialUse(hashTable, hashTableSize, useIndex)]: the index of the
    slot found.  [None] is a failed [assert(use != nullptr)], or the
    division by a zero [hashTableSize]. *)
Definition FindPartialUse (hashTable : list PartialUse) (useIndex : Z)
    : option nat :=
  let hashTableSize := vsize hashTable in
  if hashTableSize =? 0 then None
  else
    let entryIndex := Z.to_nat (useIndex mod hashTableSize) in
    match ScanPartialUses (drop entryIndex hashTable) useIndex with
    | Some i => Some (entryIndex + i)%nat
    | None => ScanPartialUses (take entryIndex hashTable) useIndex
    end.

(** [class PartialUses]: [entries_], [load_], [maxLoad_] ([path_] only names
    the temporary file of [reserve]). *)
Record PartialUses : Type := mkPartialUses {
  entries_ : list PartialUse;
  load_ : Z;
  maxLoad_ : Z
}.

Definition clear_first (e : PartialUse) : PartialUse :=
  mkPartialUse UINT32_MAX (second e).

(** [PartialUses::Init] in a mode other than [OpenExisting]. *)
Definition PartialUses_Init : PartialUses :=
  let entries := clear_first <$> resize 11 PartialUse_zero [] in
  mkPartialUses entries 0 (vsize entries / 2).

(** The loop of [reserve] that puts the old entries into the cleared table;
    a failed [assert(newEntry.first == -1)] is [None]. *)
Fixpoint rehash_loop (oldEntries entries : list PartialUse)
    : option (list PartialUse) :=
  match oldEntries with
  | [] => Some entries
  | oldEntry :: rest =>
      if first oldEntry =? UINT32_MAX then rehash_loop rest entries
      else
        i ← FindPartialUse entries (first oldEntry);
        newEntry ← entries !! i;
        if first newEntry =? UINT32_MAX
        then rehash_loop rest (<[i := oldEntry]> entries)
        else None
  end.

(** [PartialUses::reserve(n)], with the static [primes] of the prime search. *)
Definition PartialUses_reserve (primes : list Z) (pu : PartialUses) (n : Z)
    : option (list Z * PartialUses) :=
  let value := wrap64 (n * 2) in
  '(primes', newSize) ←
    GetFirstPrimeGreaterThanOrEqualTo (prime_fuel value) primes value;
  let oldEntries := entries_ pu in
  let cleared := clear_first <$> resize newSize PartialUse_zero (entries_ pu) in
  entries ← rehash_loop oldEntries cleared;
  Some (primes', mkPartialUses entries (load_ pu) (newSize / 2)).

(** [PartialUses::operator[](useIndex)]: the new table and the index of the
    slot whose [second] the caller gets a reference to. *)
Definition PartialUses_index (primes : list Z) (pu : PartialUses) (useIndex : Z)
    : option (list Z * PartialUses * nat) :=
  i ← FindPartialUse (entries_ pu) useIndex;
  result1 ← entries_ pu !! i;
  if first result1 =? useIndex then Some (primes, pu, i)
  else
    let entries1 := <[i := mkPartialUse useIndex (second result1)]> (entries_ pu) in
    let load1 := wrap64 (load_ pu + 1) in
    if load1 <=? maxLoad_ pu
    then Some (primes, mkPartialUses entries1 load1 (maxLoad_ pu), i)
    else
      '(primes', pu2) ←
        PartialUses_reserve primes (mkPartialUses entries1 load1 (maxLoad_ pu))
          (wrap64 (load1 * 2));
      i2 ← FindPartialUse (entries_ pu2) useIndex;
      result2 ← entries_ pu2 !! i2;
      if first result2 =? useIndex then Some (primes', pu2, i2) else None.

(** [partialUses_[useIndex] = def]. *)
Definition PartialUses_set (primes : list Z) (pu : PartialUses)
    (useIndex : Z) (def : Def) : option (list Z * PartialUses) :=
  '(primes', pu', i) ← PartialUses_index primes pu useIndex;
  slot ← entries_ pu' !! i;
  Some (primes', mkPartialUses (<[i := mkPartialUse (first slot) def]> (entries_ pu'))
                   (load_ pu') (maxLoad_ pu')).

(** [PartialUses::find(useIndex)]: the inner [None] is [nullptr]. *)
Definition PartialUses_find (pu : PartialUses) (useIndex : Z)
    : option (option PartialUse) :=
  i ← FindPartialUse (entries_ pu) useIndex;
  result ← entries_ pu !! i;
  Some (if first result =? useIndex then Some result else None).



(** Invariants of the table: every stored key is a use index other than the
    empty mark and is found in its own slot; [used] counts the stored keys. *)
Fixpoint used (t : list PartialUse) : Z :=
  match t with
  | [] => 0
  | e :: rest => (if first e =? UINT32_MAX then 0 else 1) + used rest
  end.

Definition slots_ok (t : list PartialUse) : Prop :=
  forall j e, t !! j = Some e -> first e <> UINT32_MAX ->
    0 <= first e < UINT32_MAX /\ FindPartialUse t (first e) = Some j.

Definition PartialUses_ok (pu : PartialUses) : Prop :=
  slots_ok (entries_ pu) /\ load_ pu = used (entries_ pu) /\
  load_ pu <= maxLoad_ pu /\ maxLoad_ pu < vsize (entries_ pu).

(** ** Address-space live-writer index ([UdState<W>])

    [W] is the word size in bytes (4 or 8); addresses are [8 * W]-bit. *)

Definition wrapW (W : Z) (x : Z) : Z := wrap (8 * W) x.
(** [std::numeric_limits<W>::max()] *)
Definition WMAX (W : Z) : Z := 2 ^ (8 * W) - 1.

(** [struct EntryValue { W startAddr; std::uint32_t defIndex; }] *)
Module EntryValue.
Record t : Type := mk { startAddr : Z; defIndex : Z }.
End EntryValue.

(** [std::map<W, EntryValue>], [endAddr -> EntryValue]: the entries in key
    order.  Iterators are positions in the list, [end()] is its length. *)
Abbreviation AddressSpace := (list (Z * EntryValue.t)).

(** [lower_bound(k)]: the first position whose key is not less than [k]. *)
Fixpoint map_lower_bound (m : AddressSpace) (k : Z) : nat :=
  match m with
  | [] => O
  | (key, _) :: rest => if key <? k then S (map_lower_bound rest k) else O
  end.

(** [m[k] = v] *)
Fixpoint map_assign (m : AddressSpace) (k : Z) (v : EntryValue.t) : AddressSpace :=
  match m with
  | [] => [(k, v)]
  | (key, val) :: rest =>
      if k <? key then (k, v) :: m
      else if k =? key then (k, v) :: rest
      else (key, val) :: map_assign rest k v
  end.

(** [erase(first, last)] *)
Definition map_erase (m : AddressSpace) (first last : nat) : AddressSpace :=
  take first m ++ drop last m.

Record UdState : Type := mkUdState {
  uses_ : list Z;
  partialUses_ : PartialUses;
  defs_ : list Def;
  addressSpace_ : AddressSpace
}.

(** [-EINVAL] *)
Definition EINVAL : Z := 22.

(** The fields of a [Def], for the places where a parameter has the name
    of the field. *)
Abbreviation Def_startAddr := startAddr.
Abbreviation Def_endAddr := endAddr.

(** The loop of [AddUses], over the entries from [lower_bound(startAddr + 1)]
    on.  [None] is a read of [defs_] out of range or a failure of the
    partial-use table. *)
Fixpoint AddUses_loop (startAddr endAddr : Z) (its : AddressSpace)
    (primes : list Z) (st : UdState) : option (list Z * UdState) :=
  match its with
  | [] => Some (primes, st)
  | (key, ev) :: rest =>
      if EntryValue.startAddr ev <? endAddr then
        let useIndex := wrap32 (vsize (uses_ st)) in
        let uses1 := uses_ st ++ [EntryValue.defIndex ev] in
        def ← defs_ st !! Z.to_nat (EntryValue.defIndex ev);
        let maxStartAddr := Z.max startAddr (EntryValue.startAddr ev) in
        let minEndAddr := Z.min endAddr key in
        '(primes', partialUses1) ←
          (if negb (Def_startAddr def =? maxStartAddr) ||
              negb (Def_endAddr def =? minEndAddr)
           then PartialUses_set primes (partialUses_ st) useIndex
                  (mkDef maxStartAddr minEndAddr)
           else Some (primes, partialUses_ st));
        AddUses_loop startAddr endAddr rest primes'
          (mkUdState uses1 partialUses1 (defs_ st) (addressSpace_ st))
      else Some (primes, st)
  end.

Definition AddUses (W : Z) (primes : list Z) (st : UdState) (startAddr size : Z)
    : option (list Z * UdState) :=
  let endAddr := wrapW W (startAddr + size) in
  let it := map_lower_bound (addressSpace_ st) (wrapW W (startAddr + 1)) in
  AddUses_loop startAddr endAddr (drop it (addressSpace_ st)) primes st.

(** [for (lastAffected = firstAffected, affectedCount = 0; ...)]: the number
    of steps from [firstAffected] to [lastAffected]. *)
Fixpoint count_affected (its : AddressSpace) (endAddr : Z) : nat :=
  match its with
  | [] => O
  | (_, ev) :: rest =>
      if EntryValue.startAddr ev <? endAddr
      then S (count_affected rest endAddr) else O
  end.

(** The loop of [AddDefs] that puts back the residues of the erased
    entries. *)
Fixpoint AddDefs_loop (startAddr endAddr : Z) (affected : AddressSpace)
    (m : AddressSpace) : AddressSpace :=
  match affected with
  | [] => m
  | (entryEndAddr, ev) :: rest =>
      let entryStartAddr := EntryValue.startAddr ev in
      let entryDefIndex := EntryValue.defIndex ev in
      let m1 :=
        if startAddr <=? entryStartAddr then
          if endAddr <? entryEndAddr then
            (* Left overlap. *)
            map_assign m entryEndAddr (EntryValue.mk endAddr entryDefIndex)
          else
            (* Outer overlap. *)
            m
        else
          if endAddr <? entryEndAddr then
            (* Inner overlap. *)
            map_assign
              (map_assign m startAddr (EntryValue.mk entryStartAddr entryDefIndex))
              entryEndAddr (EntryValue.mk endAddr entryDefIndex)
          else
            (* Right overlap. *)
            map_assign m startAddr (EntryValue.mk entryStartAddr entryDefIndex)
      in
      AddDefs_loop startAddr endAddr rest m1
  end.

Definition AddDef (st : UdState) (startAddr endAddr : Z) : UdState :=
  let defIndex := wrap32 (vsize (defs_ st)) in
  mkUdState (uses_ st) (partialUses_ st)
    (defs_ st ++ [mkDef startAddr endAddr])
    (map_assign (addressSpace_ st) endAddr (EntryValue.mk startAddr defIndex)).

Definition kMaxAffectedCount : Z := 32.

(** [AddDefs] returns its [int] and the new state.  [affectedCount] is a
    [std::uint32_t]; [None] is the [std::copy] that would run past the
    [affected] array when the count has wrapped around. *)
Definition AddDefs (W : Z) (st : UdState) (startAddr size : Z)
    : option (Z * UdState) :=
  let endAddr := wrapW W (startAddr + size) in
  let m := addressSpace_ st in
  let firstAffected := map_lower_bound m (wrapW W (startAddr + 1)) in
  let n := count_affected (drop firstAffected m) endAddr in
  let lastAffected := (firstAffected + n)%nat in
  let affectedCount := wrap32 (Z.of_nat n) in
  if affectedCount >? kMaxAffectedCount then Some (- EINVAL, st)
  else if Z.of_nat n >? kMaxAffectedCount then None
  else
    let affected := take n (drop firstAffected m) in
    let m1 := map_erase m firstAffected lastAffected in
    let m2 := AddDefs_loop startAddr endAddr affected m1 in
    Some (0, AddDef (mkUdState (uses_ st) (partialUses_ st) (defs_ st) m2)
               startAddr endAddr).

(** [struct InsnInTrace] *)
Record InsnInTrace : Type := mkInsnInTrace {
  codeIndex : Z;
  regUseStartIndex : Z;
  regUseEndIndex : Z;
  memUseStartIndex : Z;
  memUseEndIndex : Z;
  regDefStartIndex : Z;
  regDefEndIndex : Z;
  memDefStartIndex : Z;
  memDefEndIndex : Z
}.

(** [std::upper_bound(traceBegin, traceEnd, defIndex, comp)] with
    [comp(defIndex, trace) = defIndex < trace.*startDefIndex]: by the
    contract of the standard library, on a range partitioned by [comp], the
    first position whose element satisfies [comp]. *)
Fixpoint upper_bound (startDefIndex : InsnInTrace -> Z) (trace : list InsnInTrace)
    (defIndex : Z) : nat :=
  match trace with
  | [] => O
  | t :: rest =>
      if defIndex <? startDefIndex t then O
      else S (upper_bound startDefIndex rest defIndex)
  end.

(** The free function [ResolveUse].  [None] is a read out of range, a
    failed assertion of [FindPartialUse], or [--it] at [traceBegin]. *)
Definition ResolveUse (useIndex : Z) (uses : list Z) (defs : list Def)
    (partialUses : list PartialUse) (trace : list InsnInTrace)
    (startDefIndex : InsnInTrace -> Z) : option (Def * Z) :=
  defIndex ← uses !! Z.to_nat useIndex;
  i ← FindPartialUse partialUses useIndex;
  partialUse ← partialUses !! i;
  def ← (if first partialUse =? UINT32_MAX
         then defs !! Z.to_nat defIndex
         else Some (second partialUse));
  match upper_bound startDefIndex trace defIndex with
  | O => None
  | S it => Some (def, wrap32 (Z.of_nat it))
  end.

(** [UdState::ResolveUse] *)
Definition UdState_ResolveUse (st : UdState) (useIndex : Z)
    (trace : list InsnInTrace) (startDefIndex : InsnInTrace -> Z)
    : option (Def * Z) :=
  ResolveUse useIndex (uses_ st) (defs_ st) (entries_ (partialUses_ st))
    trace startDefIndex.

(** ** Endian/word codec and TLV framing *)

Inductive Endianness : Type := Little | Big.

Definition Endianness_eqb (a b : Endianness) : bool :=
  match a, b with
  | Little, Little | Big, Big => true
  | _, _ => false
  end.

(** The model takes the [__ORDER_LITTLE_ENDIAN__] branch of the [#if]. *)
Definition kHostEndianness : Endianness := Little.

(** A native load of the host: little-endian. *)
Fixpoint le_decode (bytes : list byte) : Z :=
  match bytes with
  | [] => 0
  | b :: rest => Z.of_N (Byte.to_N b) + 256 * le_decode rest
  end.

Fixpoint le_encode (n : nat) (v : Z) : list Z :=
  match n with
  | O => []
  | S n' => v mod 256 :: le_encode n' (v / 256)
  end.

Fixpoint be_value (digits : list Z) : Z :=
  match digits with
  | [] => 0
  | d :: rest => d * 256 ^ Z.of_nat (length rest) + be_value rest
  end.

(** [__builtin_bswap16/32/64] on an [n]-byte value. *)
Definition BSwap (n : nat) (value : Z) : Z := be_value (le_encode n value).

(** [IntConversions<E, T>::ConvertToHost] *)
Definition ConvertToHost (E : Endianness) (n : nat) (value : Z) : Z :=
  if Endianness_eqb E kHostEndianness then value else BSwap n value.

(** [RawInt<E, T>(data + off).GetValue()] for an [n]-byte [T]; [None] is a
    read past the end of the mapping. *)
Definition RawInt (E : Endianness) (n : nat) (data : list byte) (off : Z)
    : option Z :=
  if (0 <=? off) && (off + Z.of_nat n <=? vsize data)
  then Some (ConvertToHost E n (le_decode (take n (drop (Z.to_nat off) data))))
  else None.

(** [enum class Tag] *)
Definition MT_LOAD : Z := 0x4c4c.
Definition MT_STORE : Z := 0x5353.
Definition MT_REG : Z := 0x5252.
Definition MT_INSN : Z := 0x4949.
Definition MT_GET_REG : Z := 0x4747.
Definition MT_PUT_REG : Z := 0x5050.
Definition MT_INSN_EXEC : Z := 0x5858.
Definition MT_GET_REG_NX : Z := 0x6767.
Definition MT_PUT_REG_NX : Z := 0x7070.
Definition MT_MMAP : Z := 0x4d4d.

(** [enum class MachineType] *)
Definition EM_386 : Z := 3.
Definition EM_X86_64 : Z := 62.
Definition EM_PPC : Z := 20.
Definition EM_PPC64 : Z := 21.
Definition EM_ARM : Z := 40.
Definition EM_AARCH64 : Z := 183.
Definition EM_S390 : Z := 22.
Definition EM_MIPS : Z := 8.
Definition EM_NANOMIPS : Z := 249.

(** The entry classes ([Tlv], [HeaderEntry], [LdStEntry], ...) all hold one
    pointer [data_] into the mapping: the mapping and an offset. *)
Record View : Type := mkView { v_data : list byte; v_off : Z }.

Section Reader.
Variable E : Endianness.
(** [sizeof(W)] *)
Variable W : Z.

(** [Tlv<E, W>] *)
Definition Tlv_kFixedLength : Z := 4.
Definition Tlv_GetTag (tlv : View) : option Z :=
  RawInt E 2 (v_data tlv) (v_off tlv).
Definition Tlv_GetLength (tlv : View) : option Z :=
  RawInt E 2 (v_data tlv) (v_off tlv + 2).
Definition Tlv_GetAlignedLength (tlv : View) : option Z :=
  len ← Tlv_GetLength tlv;
  Some (Z.land (wrapW W (len + (W - 1))) (wrapW W (Z.lnot (W - 1)))).

(** [HeaderEntry<E, W>] *)
Definition HeaderEntry_kFixedLength : Z := Tlv_kFixedLength + 2.
Definition HeaderEntry_GetMachineType (entry : View) : option Z :=
  RawInt E 2 (v_data entry) (v_off entry + Tlv_kFixedLength).

(** [LdStEntry<E, W>] *)
Definition kInsnSeqOffset : Z := Tlv_kFixedLength.
Definition kAddrOffset : Z := kInsnSeqOffset + 4.
Definition kValueOffset : Z := kAddrOffset + W.
Definition GetInsnSeq (entry : View) : option Z :=
  RawInt E 4 (v_data entry) (v_off entry + kInsnSeqOffset).
Definition LdStEntry_GetAddr (entry : View) : option Z :=
  RawInt E (Z.to_nat W) (v_data entry) (v_off entry + kAddrOffset).
Definition LdStEntry_GetSize (entry : View) : option Z :=
  len ← Tlv_GetLength entry;
  Some (wrapW W (len - kValueOffset)).

(** [InsnEntry<E, W>]: [GetInsnSeq] and [GetSize] as for [LdStEntry]. *)
Definition InsnEntry_GetPc (entry : View) : option Z :=
  RawInt E (Z.to_nat W) (v_data entry) (v_off entry + kAddrOffset).
(** The bytes from [GetValue()] to [GetValue() + GetSize()]. *)
Definition InsnEntry_GetValue (entry : View) : option (list byte) :=
  n ← LdStEntry_GetSize entry;
  let from := v_off entry + kValueOffset in
  if from + n <=? vsize (v_data entry)
  then Some (take (Z.to_nat n) (drop (Z.to_nat from) (v_data entry)))
  else None.

(** [LdStNxEntry<E, W>] *)
Definition kSizeOffset : Z := kAddrOffset + W.
Definition LdStNxEntry_GetSize (entry : View) : option Z :=
  RawInt E (Z.to_nat W) (v_data entry) (v_off entry + kSizeOffset).

(** [class TraceMm]: the mapping [data_] of [length_] bytes, the cursor
    [cur_] and [entryIndex_]; [end_] is [data_ + length_] and [header_]
    is the entry at [data_]. *)
Record TraceMm : Type := mkTraceMm {
  data_ : list byte;
  cur_ : Z;
  entryIndex_ : Z
}.

Definition length_ (tr : TraceMm) : Z := vsize (data_ tr).
Definition header_ (tr : TraceMm) : View := mkView (data_ tr) 0.

Definition Have (tr : TraceMm) (n : Z) : bool := cur_ tr + n <=? length_ tr.

Definition Advance (tr : TraceMm) (n : Z) : bool * TraceMm :=
  let next := cur_ tr + n in
  if next >? length_ tr then (false, tr)
  else (true, mkTraceMm (data_ tr) next (entryIndex_ tr)).

(** The constructor followed by [TraceMm::Init]. *)
Definition TraceMm_Init (data : list byte) : option (Z * TraceMm) :=
  let tr := mkTraceMm data 0 0 in
  if negb (Have tr HeaderEntry_kFixedLength) then Some (- EINVAL, tr)
  else
    n ← Tlv_GetAlignedLength (header_ tr);
    let '(ok, tr') := Advance tr n in
    if ok then Some (0, tr') else Some (- EINVAL, tr').

(** The [operator()] overloads of a visitor, by the entry class. *)
Class Visitor (V : Type) : Type := {
  visit_LdSt : V -> Z -> View -> option (Z * V);
  visit_Insn : V -> Z -> View -> option (Z * V);
  visit_InsnExec : V -> Z -> View -> option (Z * V);
  visit_LdStNx : V -> Z -> View -> option (Z * V);
  visit_Mmap : V -> Z -> View -> option (Z * V)
}.

(** [TraceMm::VisitOne(start, end, visitor)]: the returned [int], the
    cursor and the visitor. *)
Definition VisitOne {V} `{Visitor V} (tr : TraceMm) (start end_index : Z)
    (visitor : V) : option (Z * TraceMm * V) :=
  if negb (Have tr Tlv_kFixedLength) then Some (- EINVAL, tr, visitor)
  else
    let tlv := mkView (data_ tr) (cur_ tr) in
    aligned ← Tlv_GetAlignedLength tlv;
    if negb (Have tr aligned) then Some (- EINVAL, tr, visitor)
    else
      '(err, visitor') ←
        (if (start <=? entryIndex_ tr) && (entryIndex_ tr <? end_index) then
           tag ← Tlv_GetTag tlv;
           if (tag =? MT_LOAD) || (tag =? MT_STORE) || (tag =? MT_REG) ||
              (tag =? MT_GET_REG) || (tag =? MT_PUT_REG)
           then visit_LdSt visitor (entryIndex_ tr) tlv
           else if tag =? MT_INSN then visit_Insn visitor (entryIndex_ tr) tlv
           else if tag =? MT_INSN_EXEC
           then visit_InsnExec visitor (entryIndex_ tr) tlv
           else if (tag =? MT_GET_REG_NX) || (tag =? MT_PUT_REG_NX)
           then visit_LdStNx visitor (entryIndex_ tr) tlv
           else if tag =? MT_MMAP then visit_Mmap visitor (entryIndex_ tr) tlv
           else Some (- EINVAL, visitor)
         else Some (0, visitor));
      if err <? 0 then Some (err, tr, visitor')
      else
        let '(ok, tr') := Advance tr aligned in
        if ok
        then Some (0, mkTraceMm (data_ tr') (cur_ tr')
                        (wrap64 (entryIndex_ tr' + 1)), visitor')
        else Some (- EINVAL, tr', visitor').

(** [while (cur_ != end_) if ((err = VisitOne(...)) < 0) return err;]
    [fuel] bounds the number of entries visited. *)
Fixpoint Visit_loop {V} `{Visitor V} (fuel : nat) (tr : TraceMm)
    (start end_index : Z) (visitor : V) : option (Z * TraceMm * V) :=
  if cur_ tr =? length_ tr then Some (0, tr, visitor)
  else
    match fuel with
    | O => None
    | S fuel' =>
        '(err, tr', visitor') ← VisitOne tr start end_index visitor;
        if err <? 0 then Some (err, tr', visitor')
        else Visit_loop fuel' tr' start end_index visitor'
    end.

(** *** Seeking *)

(** [struct Seek] *)
Record Seek : Type := mkSeek { insnIndex : Z; prevInsnSeq : Z }.

Definition Seek_new : Seek := mkSeek SIZE_MAX UINT32_MAX.

Definition Seek_HandleInsnSeq (s : Seek) (insnSeq : Z) : Z * Seek :=
  if negb (insnSeq =? prevInsnSeq s)
  then (0, mkSeek (wrap64 (insnIndex s + 1)) insnSeq)
  else (0, s).

Definition Seek_with_seq (s : Seek) (entry : View) : option (Z * Seek) :=
  insnSeq ← GetInsnSeq entry;
  Some (Seek_HandleInsnSeq s insnSeq).

#[export] Instance Seek_Visitor : Visitor Seek := {
  visit_LdSt s _ entry := Seek_with_seq s entry;
  visit_Insn s _ _ := Some (0, s);
  visit_InsnExec s _ entry := Seek_with_seq s entry;
  visit_LdStNx s _ entry := Seek_with_seq s entry;
  visit_Mmap s _ _ := Some (0, s)
}.

(** What [SeekInsn] ends with: a return, or one of its two exceptions. *)
Inductive SeekResult : Type :=
| SeekDone (tr : TraceMm)
| NoSuchInsn                   (* std::invalid_argument("No such insn") *)
| FailedToParse.               (* std::runtime_error *)

(** The [while (true)] loop of [SeekInsn]. *)
Fixpoint SeekInsn_loop (fuel : nat) (tr : TraceMm) (visitor : Seek)
    (index : Z) : option SeekResult :=
  match fuel with
  | O => None
  | S fuel' =>
      if cur_ tr =? length_ tr then Some NoSuchInsn
      else
        let prev := cur_ tr in
        '(err, tr', visitor') ← VisitOne tr 0 SIZE_MAX visitor;
        if err <? 0 then Some FailedToParse
        else if insnIndex visitor' =? index
        then Some (SeekDone (mkTraceMm (data_ tr') prev
                               (wrap64 (entryIndex_ tr' - 1))))
        else SeekInsn_loop fuel' tr' visitor' index
  end.

(** [TraceMm::SeekInsn(index)] *)
Definition SeekInsn (fuel : nat) (tr : TraceMm) (index : Z)
    : option SeekResult :=
  n ← Tlv_GetAlignedLength (header_ tr);
  SeekInsn_loop fuel (mkTraceMm (data_ tr) n 0) Seek_new index.
End Reader.

(** ** Disassembler set-up

    [cs_open] belongs to the capstone library; whether it succeeds is the
    argument [cs_open_ok]. *)
Definition Disasm_Init (cs_open_ok : bool) (type : Z) (endianness : Endianness)
    (wordSize : Z) : Z :=
  let open := if cs_open_ok then 0 else -1 in
  if type =? EM_386 then
    if negb (Endianness_eqb endianness Little) || negb (wordSize =? 4)
    then - EINVAL else open
  else if type =? EM_X86_64 then
    if negb (Endianness_eqb endianness Little) || negb (wordSize =? 8)
    then - EINVAL else open
  else if type =? EM_PPC64 then
    if negb (wordSize =? 8) then - EINVAL else open
  else if type =? EM_ARM then
    if negb (wordSize =? 4) then - EINVAL else open
  else if type =? EM_AARCH64 then
    if negb (wordSize =? 8) then - EINVAL else open
  else if type =? EM_S390 then
    if negb (Endianness_eqb endianness Big) then - EINVAL else open
  else if type =? EM_MIPS then open
  else -1.

(** ** The ud builder ([Ud<W>]) *)

(** [struct InsnInCode] *)
Record InsnInCode : Type := mkInsnInCode {
  pc : Z;
  textIndex : Z;
  textSize : Z
}.

(** The members of [Ud<W>] that the analysis uses, and [primes]: the static
    vector of [GetFirstPrimeGreaterThanOrEqualTo], which the rehashes of
    both address spaces share.  The output paths, the disassembler handle
    and the disassembled strings are left out. *)
Record Ud : Type := mkUd {
  code_ : list InsnInCode;
  text_ : list byte;
  trace_ : list InsnInTrace;
  regState_ : UdState;
  memState_ : UdState;
  primes : list Z
}.

Definition set_regState (ud : Ud) (primes' : list Z) (st : UdState) : Ud :=
  mkUd (code_ ud) (text_ ud) (trace_ ud) st (memState_ ud) primes'.
Definition set_memState (ud : Ud) (primes' : list Z) (st : UdState) : Ud :=
  mkUd (code_ ud) (text_ ud) (trace_ ud) (regState_ ud) st primes'.
Definition set_trace (ud : Ud) (trace : list InsnInTrace) : Ud :=
  mkUd (code_ ud) (text_ ud) trace (regState_ ud) (memState_ ud) (primes ud).

(** [UdState::Init] in a mode other than [OpenExisting]; the files and the
    capacities reserved for [uses_] and [defs_] are not modelled. *)
Definition UdState_Init (primes : list Z) (expectedPartialUseCount : Z)
    : option (list Z * UdState) :=
  '(primes', partialUses) ←
    PartialUses_reserve primes PartialUses_Init expectedPartialUseCount;
  Some (primes', mkUdState [] partialUses [] []).

(** [Ud::AddTrace] *)
Definition AddTrace (ud : Ud) (codeIndex : Z) : Ud :=
  let trace :=
    mkInsnInTrace codeIndex
      (wrap32 (vsize (uses_ (regState_ ud)))) 0
      (wrap32 (vsize (uses_ (memState_ ud)))) 0
      (wrap32 (vsize (defs_ (regState_ ud)))) 0
      (wrap32 (vsize (defs_ (memState_ ud)))) 0 in
  set_trace ud (trace_ ud ++ [trace]).

(** [Ud::Flush], without the verbose dump; [None] is [trace_.back()] on an
    empty vector. *)
Definition Flush (ud : Ud) : option Ud :=
  match trace_ ud with
  | [] => None
  | _ :: _ =>
      let i := (length (trace_ ud) - 1)%nat in
      trace ← trace_ ud !! i;
      let trace' :=
        mkInsnInTrace (codeIndex trace)
          (regUseStartIndex trace) (wrap32 (vsize (uses_ (regState_ ud))))
          (memUseStartIndex trace) (wrap32 (vsize (uses_ (memState_ ud))))
          (regDefStartIndex trace) (wrap32 (vsize (defs_ (regState_ ud))))
          (memDefStartIndex trace) (wrap32 (vsize (defs_ (memState_ ud)))) in
      Some (set_trace ud (<[i := trace']> (trace_ ud)))
  end.

(** [Ud::HandleInsnSeq] *)
Definition HandleInsnSeq (ud : Ud) (insnSeq : Z) : option (Z * Ud) :=
  back_trace ← List.last (Some <$> trace_ ud) None;
  if codeIndex back_trace =? insnSeq then Some (0, ud)
  else
    ud1 ← Flush ud;
    Some (0, AddTrace ud1 insnSeq).

Section Builder.
Variable E : Endianness.
Variable W : Z.

(** [Ud::Init(mode, machineType, endianness, expectedInsnCount)] in a
    creating mode. *)
Definition Ud_Init (cs_open_ok : bool) (primes0 : list Z) (machineType : Z)
    (expectedInsnCount : Z) : option (Z * Ud) :=
  '(primes1, regState) ← UdState_Init primes0 (expectedInsnCount / 10);
  '(primes2, memState) ← UdState_Init primes1 (expectedInsnCount / 20);
  (* Add an initial catch-all entry. *)
  let codeIndex := wrap32 (vsize ([] : list InsnInCode)) in
  let ud0 := mkUd [mkInsnInCode 0 0 0] [] [] regState memState primes2 in
  let ud1 := AddTrace ud0 codeIndex in
  let ud2 := set_regState ud1 (primes ud1) (AddDef (regState_ ud1) 0 (WMAX W)) in
  let ud3 := set_memState ud2 (primes ud2) (AddDef (memState_ ud2) 0 (WMAX W)) in
  let err := Disasm_Init cs_open_ok machineType E W in
  if err <? 0 then Some (err, ud3) else Some (0, ud3).

Definition reg_AddUses (ud : Ud) (addr size : Z) : option (Z * Ud) :=
  '(primes', st) ← AddUses W (primes ud) (regState_ ud) addr size;
  Some (0, set_regState ud primes' st).
Definition mem_AddUses (ud : Ud) (addr size : Z) : option (Z * Ud) :=
  '(primes', st) ← AddUses W (primes ud) (memState_ ud) addr size;
  Some (0, set_memState ud primes' st).
Definition reg_AddDefs (ud : Ud) (addr size : Z) : option (Z * Ud) :=
  '(ret, st) ← AddDefs W (regState_ ud) addr size;
  Some (ret, set_regState ud (primes ud) st).
Definition mem_AddDefs (ud : Ud) (addr size : Z) : option (Z * Ud) :=
  '(ret, st) ← AddDefs W (memState_ ud) addr size;
  Some (ret, set_memState ud (primes ud) st).

(** [Ud::operator()(size_t, LdStEntry<E, W>)] *)
Definition Ud_LdSt (ud : Ud) (i : Z) (entry : View) : option (Z * Ud) :=
  insnSeq ← GetInsnSeq E entry;
  '(ret, ud1) ← HandleInsnSeq ud insnSeq;
  if ret <? 0 then Some (ret, ud1)
  else
    tag ← Tlv_GetTag E entry;
    let call (f : Ud -> Z -> Z -> option (Z * Ud)) :=
      addr ← LdStEntry_GetAddr E W entry;
      size ← LdStEntry_GetSize E W entry;
      f ud1 addr size in
    if tag =? MT_LOAD then call mem_AddUses
    else if tag =? MT_STORE then call mem_AddDefs
    else if tag =? MT_REG then Some (0, ud1)
    else if tag =? MT_GET_REG then call reg_AddUses
    else if tag =? MT_PUT_REG then call reg_AddDefs
    else Some (- EINVAL, ud1).

(** [Ud::operator()(size_t, InsnEntry<E, W>)], without the disassembly. *)
Definition Ud_Insn (ud : Ud) (i : Z) (entry : View) : option (Z * Ud) :=
  insnSeq ← GetInsnSeq E entry;
  if negb (insnSeq =? wrap32 (vsize (code_ ud))) then Some (- EINVAL, ud)
  else
    pc ← InsnEntry_GetPc E W entry;
    value ← InsnEntry_GetValue E W entry;
    size ← LdStEntry_GetSize E W entry;
    let code := mkInsnInCode pc (wrap32 (vsize (text_ ud))) (wrap32 size) in
    Some (0, mkUd (code_ ud ++ [code]) (text_ ud ++ value) (trace_ ud)
               (regState_ ud) (memState_ ud) (primes ud)).

(** [Ud::operator()(size_t, InsnExecEntry<E, W>)] *)
Definition Ud_InsnExec (ud : Ud) (i : Z) (entry : View) : option (Z * Ud) :=
  insnSeq ← GetInsnSeq E entry;
  '(ret, ud1) ← HandleInsnSeq ud insnSeq;
  if ret <? 0 then Some (ret, ud1) else Some (0, ud1).

(** [Ud::operator()(size_t, LdStNxEntry<E, W>)] *)
Definition Ud_LdStNx (ud : Ud) (i : Z) (entry : View) : option (Z * Ud) :=
  insnSeq ← GetInsnSeq E entry;
  '(ret, ud1) ← HandleInsnSeq ud insnSeq;
  if ret <? 0 then Some (ret, ud1)
  else
    tag ← Tlv_GetTag E entry;
    let call (f : Ud -> Z -> Z -> option (Z * Ud)) :=
      addr ← LdStEntry_GetAddr E W entry;
      size ← LdStNxEntry_GetSize E W entry;
      f ud1 addr size in
    if tag =? MT_GET_REG_NX then call reg_AddUses
    else if tag =? MT_PUT_REG_NX then call reg_AddDefs
    else Some (- EINVAL, ud1).

(** [Ud::operator()(size_t, MmapEntry<E, W>)] *)
Definition Ud_Mmap (ud : Ud) (i : Z) (entry : View) : option (Z * Ud) :=
  Some (0, ud).

#[export] Instance Ud_Visitor : Visitor Ud := {
  visit_LdSt := Ud_LdSt;
  visit_Insn := Ud_Insn;
  visit_InsnExec := Ud_InsnExec;
  visit_LdStNx := Ud_LdStNx;
  visit_Mmap := Ud_Mmap
}.

(** [Ud::Complete] with no output path set: the dumps return 0. *)
Definition Ud_Complete (ud : Ud) : option (Z * Ud) :=
  ud' ← Flush ud;
  Some (0, ud').

(** [TraceMm::CreateAndVisit] applied to [Visit<Ud>(start, end, ...)]:
    the returned [int] and the builder, if one was made. *)
Definition Ud_Visit (cs_open_ok : bool) (fuel : nat) (data : list byte)
    (start end_index : Z) : option (Z * option Ud) :=
  '(err, tr) ← TraceMm_Init E W data;
  if err <? 0 then Some (err, None)
  else
    machineType ← HeaderEntry_GetMachineType E (header_ tr);
    '(err, ud) ← Ud_Init cs_open_ok primes_init machineType (length_ tr / 128);
    if err <? 0 then Some (err, Some ud)
    else
      '(err, tr', ud') ← Visit_loop E W fuel tr start end_index ud;
      if err <? 0 then Some (err, Some ud')
      else
        '(err, ud'') ← Ud_Complete ud';
        Some (err, Some ud'').

(** [Ud::GetTraceForRegUse] and [Ud::GetTraceForMemUse] *)
Definition GetTraceForRegUse (ud : Ud) (regUse : Z) : option Z :=
  snd <$> UdState_ResolveUse (regState_ ud) regUse (trace_ ud) regDefStartIndex.
Definition GetTraceForMemUse (ud : Ud) (memUse : Z) : option Z :=
  snd <$> UdState_ResolveUse (memState_ ud) memUse (trace_ ud) memDefStartIndex.
End Builder.

(** [UdFile(path, start, end, ...)] on the contents of the file: the
    discrimination of [TraceMmBase::Visit] on the first two bytes, then the
    build. *)
Definition UdFile (cs_open_ok : bool) (fuel : nat) (data : list byte)
    (start end_index : Z) : option (Z * option Ud) :=
  match data with
  | b0 :: b1 :: _ =>
      let magic := Z.lor (Z.shiftl (Z.of_N (Byte.to_N b0)) 8) (Z.of_N (Byte.to_N b1)) in
      if magic =? 0x4d34 then Ud_Visit Big 4 cs_open_ok fuel data start end_index
      else if magic =? 0x4d38 then Ud_Visit Big 8 cs_open_ok fuel data start end_index
      else if magic =? 0x344d then Ud_Visit Little 4 cs_open_ok fuel data start end_index
      else if magic =? 0x384d then Ud_Visit Little 8 cs_open_ok fuel data start end_index
      else Some (- EINVAL, None)
  | _ => Some (- EINVAL, None)
  end.

(** ** Properties of the live-writer map *)

(** The keys of a [std::map] are strictly increasing. *)
Definition map_sorted (m : AddressSpace) : Prop :=
  StronglySorted Z.lt (fst <$> m).

(** Every interval [[startAddr, key)] is non-empty, and of two entries the
    one with the smaller end lies wholly before the other. *)
Definition live_ok (m : AddressSpace) : Prop :=
  map_sorted m /\
  (forall e v, In (e, v) m -> EntryValue.startAddr v < e) /\
  (forall e1 v1 e2 v2, In (e1, v1) m -> In (e2, v2) m -> e1 < e2 ->
     e1 <= EntryValue.startAddr v2).

(** No address lies in two entries of the map. *)
Definition pairwise_disjoint (m : AddressSpace) : Prop :=
  forall i j e1 v1 e2 v2, m !! i = Some (e1, v1) -> m !! j = Some (e2, v2) ->
    i <> j ->
    forall x, ~ (EntryValue.startAddr v1 <= x < e1 /\
                 EntryValue.startAddr v2 <= x < e2).

(** Every address from [lo] up to [hi] lies in an entry of the map. *)
Definition covers (m : AddressSpace) (lo hi : Z) : Prop :=
  forall x, lo <= x < hi ->
    exists e v, In (e, v) m /\ EntryValue.startAddr v <= x < e.

(** The entry [[s, e)] overlaps the range [[startAddr, endAddr)]. *)
Definition overlaps (startAddr endAddr : Z) (entry : Z * EntryValue.t) : Prop :=
  startAddr < fst entry /\ EntryValue.startAddr (snd entry) < endAddr.

Definition overlapsb (startAddr endAddr : Z) (entry : Z * EntryValue.t) : bool :=
  (startAddr <? fst entry) && (EntryValue.startAddr (snd entry) <? endAddr).

(** The residues of an overlapping entry, in the words of the
    specification: nothing if the new range contains the old one, the part
    after [endAddr] on a left overlap, both parts on an inner overlap, the
    part before [startAddr] on a right overlap; all with the old def. *)
Definition residues (startAddr endAddr : Z) (entry : Z * EntryValue.t)
    : list (Z * EntryValue.t) :=
  let s := EntryValue.startAddr (snd entry) in
  let e := fst entry in
  let d := EntryValue.defIndex (snd entry) in
  if (startAddr <=? s) && (e <=? endAddr) then []
  else if (startAddr <=? s) && (endAddr <? e) then [(e, EntryValue.mk endAddr d)]
  else if (s <? startAddr) && (endAddr <? e)
       then [(startAddr, EntryValue.mk s d); (e, EntryValue.mk endAddr d)]
  else [(startAddr, EntryValue.mk s d)].

(** The invariant of the live-writer map of a [W]-byte address space:
    well-formed intervals within [[0, WMAX W]] that cover [[0, WMAX W)]. *)
Definition map_inv (W : Z) (m : AddressSpace) : Prop :=
  live_ok m /\ covers m 0 (WMAX W) /\
  (forall e v, In (e, v) m -> 0 <= EntryValue.startAddr v /\ e <= WMAX W).

(** The calls that the builder makes on one [UdState]. *)
Inductive UdOp : Type :=
| OpAddUses (startAddr size : Z)
| OpAddDefs (startAddr size : Z).

Fixpoint UdState_run (W : Z) (primes : list Z) (st : UdState) (ops : list UdOp)
    : option (list Z * UdState) :=
  match ops with
  | [] => Some (primes, st)
  | OpAddUses startAddr size :: rest =>
      '(primes', st') ← AddUses W primes st startAddr size;
      UdState_run W primes' st' rest
  | OpAddDefs startAddr size :: rest =>
      '(_, st') ← AddDefs W st startAddr size;
      UdState_run W primes st' rest
  end.

(** A write of a non-empty range that ends within the address space. *)
Definition valid_op (W : Z) (op : UdOp) : Prop :=
  match op with
  | OpAddUses _ _ => True
  | OpAddDefs startAddr size =>
      0 <= startAddr /\ 0 < size /\ startAddr + size <= WMAX W
  end.

(** ** Invariants of a [UdState] *)

(** The part of the read range that lies in the live interval of an entry. *)
Definition overlap_of (startAddr endAddr : Z) (entry : Z * EntryValue.t) : Def :=
  mkDef (Z.max startAddr (EntryValue.startAddr (snd entry)))
        (Z.min endAddr (fst entry)).

Definition Def_eqb (d1 d2 : Def) : bool :=
  (startAddr d1 =? startAddr d2) && (endAddr d1 =? endAddr d2).

(** The entries that the loops of [AddUses] and [AddDefs] go over: from
    [lower_bound(k)] on, while [entry.startAddr < endAddr]. *)
Definition walk (m : AddressSpace) (k endAddr : Z) : AddressSpace :=
  let its := drop (map_lower_bound m k) m in
  take (count_affected its endAddr) its.

(** Indices are in range: the table is well-formed and only holds keys of
    recorded uses; the map and the uses only name recorded defs. *)
Definition UdState_wf (st : UdState) : Prop :=
  PartialUses_ok (partialUses_ st) /\
  (forall x, In x (entries_ (partialUses_ st)) -> first x <> UINT32_MAX ->
             first x < vsize (uses_ st)) /\
  (forall e v, In (e, v) (addressSpace_ st) ->
             0 <= EntryValue.defIndex v < vsize (defs_ st)) /\
  (forall d, In d (uses_ st) -> 0 <= d < vsize (defs_ st)).

(** Every live interval lies within the range of its def. *)
Definition live_within_defs (st : UdState) : Prop :=
  forall e v, In (e, v) (addressSpace_ st) ->
    exists def, defs_ st !! Z.to_nat (EntryValue.defIndex v) = Some def /\
                startAddr def <= EntryValue.startAddr v /\ e <= endAddr def.

(** The trace is in the order of the start-def-index field [proj]. *)
Definition sorted_by (proj : InsnInTrace -> Z) (trace : list InsnInTrace) : Prop :=
  StronglySorted (fun x y => proj x <= proj y) trace.

(** ** Invariants of the builder *)

(** The map and the uses name recorded defs. *)
Definition idx_inv (st : UdState) : Prop :=
  (forall e v, In (e, v) (addressSpace_ st) ->
     0 <= EntryValue.defIndex v < vsize (defs_ st)) /\
  (forall d, In d (uses_ st) -> 0 <= d < vsize (defs_ st)).

(** The trace table against one address space: the start-def-indices are in
    order, starting at 0, and every use in the range of a trace entry names
    a def that was recorded before the next trace entry was opened. *)
Definition trace_inv (defStart useStart useEnd : InsnInTrace -> Z)
    (st : UdState) (trace : list InsnInTrace) : Prop :=
  StronglySorted Z.le (defStart <$> trace) /\
  (forall t, trace !! O = Some t -> defStart t = 0) /\
  (forall i t, trace !! i = Some t ->
     0 <= defStart t <= vsize (defs_ st) /\ 0 <= useStart t) /\
  (forall i t u, trace !! i = Some t -> useStart t <= u < useEnd t ->
     u < vsize (uses_ st) /\
     forall t' d, trace !! S i = Some t' -> uses_ st !! Z.to_nat u = Some d ->
       d < defStart t').

Definition Ud_inv (ud : Ud) : Prop :=
  trace_ ud <> [] /\
  idx_inv (regState_ ud) /\ idx_inv (memState_ ud) /\
  trace_inv regDefStartIndex regUseStartIndex regUseEndIndex
    (regState_ ud) (trace_ ud) /\
  trace_inv memDefStartIndex memUseStartIndex memUseEndIndex
    (memState_ ud) (trace_ ud).

(** The def indices fit in [std::uint32_t]. *)
Definition Ud_bounded (ud : Ud) : Prop :=
  vsize (defs_ (regState_ ud)) < 2 ^ 32 /\
  vsize (defs_ (memState_ ud)) < 2 ^ 32.

(** ** Seeking, over the records of the stream *)

(** A record of the stream: its offset in the mapping, its tag and the
    32-bit field at [kInsnSeqOffset]. *)
Record TlvRecord : Type := mkTlvRecord {
  rec_off : Z;
  rec_tag : Z;
  rec_insnSeq : Z
}.

(** The tags of [enum class Tag]. *)
Definition known_tag (tag : Z) : bool :=
  (tag =? MT_LOAD) || (tag =? MT_STORE) || (tag =? MT_REG) ||
  (tag =? MT_INSN) || (tag =? MT_GET_REG) || (tag =? MT_PUT_REG) ||
  (tag =? MT_INSN_EXEC) || (tag =? MT_GET_REG_NX) || (tag =? MT_PUT_REG_NX) ||
  (tag =? MT_MMAP).

Section Records.
Variable E : Endianness.
Variable W : Z.

(** The records from offset [off] to the end of the mapping, when each
    has a tag of [enum class Tag] and an aligned length of at least 8
    bytes that ends within the mapping. *)
Fixpoint tlv_records (fuel : nat) (data : list byte) (off : Z)
    : option (list TlvRecord) :=
  if off =? vsize data then Some []
  else
    match fuel with
    | O => None
    | S fuel' =>
        let tlv := mkView data off in
        tag ← Tlv_GetTag E tlv;
        aligned ← Tlv_GetAlignedLength E W tlv;
        insnSeq ← GetInsnSeq E tlv;
        if known_tag tag && (8 <=? aligned) && (off + aligned <=? vsize data)
        then
          rest ← tlv_records fuel' data (off + aligned);
          Some (mkTlvRecord off tag insnSeq :: rest)
        else None
    end.
End Records.

(** The tags whose records reach [Seek::HandleInsnSeq]: [VisitOne] hands
    [MT_REG] to the [LdStEntry] overload with the loads and stores. *)
Definition counts_insnSeq (tag : Z) : bool :=
  (tag =? MT_LOAD) || (tag =? MT_STORE) || (tag =? MT_REG) ||
  (tag =? MT_GET_REG) || (tag =? MT_PUT_REG) || (tag =? MT_INSN_EXEC) ||
  (tag =? MT_GET_REG_NX) || (tag =? MT_PUT_REG_NX).

(** The tags that the specification lists for seeking. *)
Definition listed_insnSeq (tag : Z) : bool :=
  (tag =? MT_LOAD) || (tag =? MT_STORE) ||
  (tag =? MT_GET_REG) || (tag =? MT_PUT_REG) || (tag =? MT_INSN_EXEC) ||
  (tag =? MT_GET_REG_NX) || (tag =? MT_PUT_REG_NX).

Inductive SeekOutcome : Type :=
| SeekAt (offset entryIndex : Z)
| SeekNotFound.

(** The walk in the words of the specification: [insnIndex] grows by one
    at a record whose tag is in [counts] and whose sequence number differs
    from the one seen before; the walk stops at the record after which
    [insnIndex] is [k]. *)
Fixpoint seek_records (counts : Z -> bool) (recs : list TlvRecord)
    (entryIndex insnIndex prevInsnSeq k : Z) : SeekOutcome :=
  match recs with
  | [] => SeekNotFound
  | r :: rest =>
      let new := counts (rec_tag r) && negb (rec_insnSeq r =? prevInsnSeq) in
      let insnIndex' := if new then insnIndex + 1 else insnIndex in
      let prevInsnSeq' := if new then rec_insnSeq r else prevInsnSeq in
      if insnIndex' =? k then SeekAt (rec_off r) entryIndex
      else seek_records counts rest (entryIndex + 1) insnIndex' prevInsnSeq' k
  end.

Definition SeekResult_of (data : list byte) (o : SeekOutcome) : SeekResult :=
  match o with
  | SeekAt offset entryIndex => SeekDone (mkTraceMm data offset entryIndex)
  | SeekNotFound => NoSuchInsn
  end.

(** ** Definitions for the proofs *)

(** What the loop that extends the cache needs from the recursive call. *)
Definition rec_ok (rec : list Z -> Z -> option (list Z * Z)) (bound : Z) : Prop :=
  forall primes, good_primes primes -> back primes <= bound ->
    exists q, rec primes (wrap64 (back primes + 1)) = Some (primes, q) /\
              Z.prime q /\ back primes < q /\
              (forall p, Z.prime p -> back primes < p -> q <= p).

(** The test of [ScanPartialUses] on one slot, for the key [k]. *)
Definition matchb (k : Z) (e : PartialUse) : bool :=
  (first e =? k) || (first e =? UINT32_MAX).

(** The slots that a probe from slot [h] looks at before slot [j]. *)
Definition before (h j i : nat) : Prop :=
  if decide (h <= j)%nat then (h <= i < j)%nat else (h <= i \/ i < j)%nat.

(** [useIndex % hashTableSize] *)
Definition hash (k : Z) (t : list PartialUse) : nat := Z.to_nat (k mod vsize t).

Definition used1 (e : PartialUse) : Z := if first e =? UINT32_MAX then 0 else 1.

(** The stored keys, in slot order. *)
Fixpoint keys (t : list PartialUse) : list Z :=
  match t with
  | [] => []
  | e :: rest => if first e =? UINT32_MAX then keys rest else first e :: keys rest
  end.

Definition distinct_keys (t : list PartialUse) : Prop :=
  forall i j e e', t !! i = Some e -> t !! j = Some e' ->
    first e = first e' -> first e <> UINT32_MAX -> i = j.

(** An assignment keeps the size of the table, or rehashes it to the least
    prime above four times the new load. *)
Definition size_step (pu pu' : PartialUses) : Prop :=
  (length (entries_ pu') = length (entries_ pu) /\ maxLoad_ pu' = maxLoad_ pu) \/
  (maxLoad_ pu < load_ pu + 1 /\
   next_prime (4 * (load_ pu + 1) + 1) (vsize (entries_ pu')) /\
   maxLoad_ pu' = vsize (entries_ pu') / 2).

(** The table has a prime size of at least 11, and its largest load is
    half of it. *)
Definition prime_sized (pu : PartialUses) : Prop :=
  Z.prime (vsize (entries_ pu)) /\ 11 <= vsize (entries_ pu) /\
  maxLoad_ pu = vsize (entries_ pu) / 2.

(** A sequence of assignments to the map. *)
Definition fold_assign (m : AddressSpace) (assigns : list (Z * EntryValue.t))
    : AddressSpace :=
  fold_left (fun m kv => map_assign m (fst kv) (snd kv)) assigns m.

(** The entries of the map after a successful [AddDefs(a, b - a)]: the new
    entry, the entries that do not overlap the range, and the residues of
    those that do. *)
Definition after_AddDefs (m : AddressSpace) (a b d : Z) (x : Z * EntryValue.t) : Prop :=
  x = (b, EntryValue.mk a d) \/
  (In x m /\ ~ overlaps a b x) \/
  (exists y, In y m /\ overlaps a b y /\ In x (residues a b y)).

(** The partial-use entry written for the [i]-th entry of the walk of a
    read of [[a, b)], when the use index before the loop is [u0]. *)
Definition written (a b : Z) (defs : list Def) (u0 : Z) (wk : AddressSpace)
    (x : PartialUse) : Prop :=
  exists (i : nat) y def,
    wk !! i = Some y /\
    defs !! Z.to_nat (EntryValue.defIndex (snd y)) = Some def /\
    Def_eqb def (overlap_of a b y) = false /\
    x = mkPartialUse (u0 + Z.of_nat i) (overlap_of a b y).

(** The defs of a builder only grow. *)
Definition grows (ud ud' : Ud) : Prop :=
  vsize (defs_ (regState_ ud)) <= vsize (defs_ (regState_ ud')) /\
  vsize (defs_ (memState_ ud)) <= vsize (defs_ (memState_ ud')).

(** A step of the builder keeps the invariant, as long as the def indices
    fit. *)
Definition step_ok (ud ud' : Ud) : Prop :=
  grows ud ud' /\ (Ud_bounded ud' -> Ud_inv ud -> Ud_inv ud').

(** The partial-use table of an address space is well-formed and only
    holds keys of recorded uses. *)
Definition table_inv (st : UdState) : Prop :=
  PartialUses_ok (partialUses_ st) /\
  (forall x, In x (entries_ (partialUses_ st)) -> first x <> UINT32_MAX ->
             first x < vsize (uses_ st)).

Definition Ud_tables (ud : Ud) : Prop :=
  good_primes (primes ud) /\ table_inv (regState_ ud) /\ table_inv (memState_ ud).

(** The use indices fit in [std::uint32_t], below the key of an empty
    slot. *)
Definition Ud_small (ud : Ud) : Prop :=
  vsize (uses_ (regState_ ud)) <= UINT32_MAX /\
  vsize (uses_ (memState_ ud)) <= UINT32_MAX.

(** The uses of a builder only grow. *)
Definition uses_grow (ud ud' : Ud) : Prop :=
  vsize (uses_ (regState_ ud)) <= vsize (uses_ (regState_ ud')) /\
  vsize (uses_ (memState_ ud)) <= vsize (uses_ (memState_ ud')).

(** A step of the builder keeps the invariants of the trace and of the
    tables, as long as the indices fit. *)
Definition step_all (ud ud' : Ud) : Prop :=
  grows ud ud' /\ uses_grow ud ud' /\
  (Ud_bounded ud' -> Ud_small ud' -> Ud_inv ud /\ Ud_tables ud ->
   Ud_inv ud' /\ Ud_tables ud').

(** The counts of defs, of uses and of trace entries fit in
    [std::uint32_t]. *)
Definition Ud_fits (ud : Ud) : Prop :=
  Ud_bounded ud /\ Ud_small ud /\ vsize (trace_ ud) <= 2 ^ 32.

(** What the calls on one [UdState] keep: indices in range, a well-formed
    table, the invariant of the map, and every live interval within the
    range of its def. *)
Definition state_ok (W : Z) (st : UdState) : Prop :=
  UdState_wf st /\ map_inv W (addressSpace_ st) /\ live_within_defs st.

(** ** States and traces for the examples *)

(** A register space of 4-byte words after [Init] and the catch-all def. *)
Definition st_seed : UdState :=
  AddDef (mkUdState [] PartialUses_Init [] []) 0 (WMAX 4).

(** The same after a write of [[0, 4)]. *)
Definition st_one_write : UdState :=
  AddDef (mkUdState (uses_ st_seed) (partialUses_ st_seed) (defs_ st_seed)
            [(WMAX 4, EntryValue.mk 4 0)]) 0 4.

(** The writes of the 33 bytes at the addresses from 0 to 32. *)
Definition byte_writes : list UdOp :=
  (fun i => OpAddDefs (Z.of_nat i) 1) <$> seq 0 33.

Definition st_33_writes : UdState :=
  match UdState_run 4 primes_init st_seed byte_writes with
  | Some (_, st) => st
  | None => st_seed
  end.

(** Two uses, of def 1 and of def 0, and a trace of three entries that
    start at the defs 0, 1 and 2. *)
Definition st_two_uses : UdState :=
  mkUdState [1; 0] PartialUses_Init (defs_ st_one_write)
    (addressSpace_ st_one_write).

Definition trace_three : list InsnInTrace :=
  [mkInsnInTrace 0 0 0 0 0 0 1 0 1;
   mkInsnInTrace 1 0 0 0 0 1 2 1 1;
   mkInsnInTrace 2 0 2 0 0 2 2 1 1].

(** The builder of a 4-byte little-endian trace of an [EM_386] machine
    after [Ud::Init]. *)
Definition ud_seed : Ud :=
  match Ud_Init Little 4 true primes_init EM_386 0 with
  | Some (_, ud) => ud
  | None => mkUd [] [] [] st_seed st_seed []
  end.

Definition write_read_write : list UdOp :=
  [OpAddDefs 0 4; OpAddUses 2 4; OpAddDefs 2 4].

Definition st_write_read_write : UdState :=
  match UdState_run 4 primes_init (regState_ ud_seed) write_read_write with
  | Some (_, st) => st
  | None => st_seed
  end.


(** The little-endian 4-byte header with the machine type [machine], and
    the five records: [PUT_REG seq=1 addr=0] with the 4-byte value
    [0xdeadbeef], [INSN seq=1 pc=0x400000] with the byte [90],
    [INSN_EXEC seq=1], [GET_REG seq=2 addr=0] with the same value,
    [INSN_EXEC seq=2]. *)
Definition literal_header (machine : byte) : list byte :=
  [x34; x4d; x08; x00; machine; x00; x00; x00].

Definition literal_records : list byte :=
  [x50; x50; x10; x00; x01; x00; x00; x00;
   x00; x00; x00; x00; xef; xbe; xad; xde;
   x49; x49; x0d; x00; x01; x00; x00; x00;
   x00; x00; x40; x00; x90; x00; x00; x00;
   x58; x58; x08; x00; x01; x00; x00; x00;
   x47; x47; x10; x00; x02; x00; x00; x00;
   x00; x00; x00; x00; xef; xbe; xad; xde;
   x58; x58; x08; x00; x02; x00; x00; x00].

Definition literal_trace (machine : byte) : list byte :=
  literal_header machine ++ literal_records.

(** The builder that the literal trace with machine type 3 gives. *)
Definition ud_literal : Ud :=
  match UdFile true 5 (literal_trace x03) 0 SIZE_MAX with
  | Some (_, Some ud) => ud
  | _ => ud_seed
  end.

(** A header followed by one [REG] record with [insnSeq] 7. *)
Definition reg_trace : list byte :=
  literal_header x03 ++
  [x52; x52; x10; x00; x07; x00; x00; x00;
   x00; x00; x00; x00; x00; x00; x00; x00].

(** [PUT_REG seq=1 addr=0] and then [GET_REG seq=1 addr=0], both of 4
    bytes: the instruction reads the register that it has written. *)
Definition put_get_trace : list byte :=
  literal_header x03 ++
  [x50; x50; x10; x00; x01; x00; x00; x00;
   x00; x00; x00; x00; xef; xbe; xad; xde;
   x47; x47; x10; x00; x01; x00; x00; x00;
   x00; x00; x00; x00; xef; xbe; xad; xde].

Definition ud_put_get : Ud :=
  match UdFile true 2 put_get_trace 0 SIZE_MAX with
  | Some (_, Some ud) => ud
  | _ => ud_seed
  end.

(** ** The last writer of an address *)

(** The range of [def] holds the address [x]. *)
Definition Def_holds (def : Def) (x : Z) : bool :=
  (startAddr def <=? x) && (x <? endAddr def).

(** The index of the last def, counted from [i], whose range holds [x]. *)
Fixpoint last_def_from (i : Z) (defs : list Def) (x : Z) : option Z :=
  match defs with
  | [] => None
  | def :: rest =>
      match last_def_from (i + 1) rest x with
      | Some d => Some d
      | None => if Def_holds def x then Some i else None
      end
  end.

Definition last_def (defs : list Def) (x : Z) : option Z :=
  last_def_from 0 defs x.

(** The live interval [[startAddr, key)] of an entry holds [x]. *)
Definition entry_holds (x : Z) (entry : Z * EntryValue.t) : bool :=
  (EntryValue.startAddr (snd entry) <=? x) && (x <? fst entry).

(** The def index that the live-writer map gives for the address [x]. *)
Definition live_writer (m : AddressSpace) (x : Z) : option Z :=
  (fun y => EntryValue.defIndex (snd y)) <$> List.find (entry_holds x) m.

(** Every address of a live interval was last written by its def. *)
Definition latest_ok (st : UdState) : Prop :=
  forall e v x, In (e, v) (addressSpace_ st) ->
    EntryValue.startAddr v <= x < e ->
    last_def (defs_ st) x = Some (EntryValue.defIndex v).

(** The register space of [ud_seed] after a write of [[0, 4)], a read of
    [[2, 6)], a write of [[2, 6)] and a read of [[0, 8)]. *)
Definition st_read_after_writes : UdState :=
  match AddUses 4 primes_init st_write_read_write 0 8 with
  | Some (_, st) => st
  | None => st_seed
  end.

(** ** The queries of [Ud] *)

(** [for (std::uint32_t i = 0, size = static_cast<std::uint32_t>(v.size());
         i < size; i++) if (test(v[i])) out.push_back(i);]
    [None] is a read of [v] out of range, or a loop that is not over when
    the fuel is. *)
Fixpoint scan_loop {A} (test : A -> bool) (v : list A) (fuel : nat)
    (i size : Z) : option (list Z) :=
  if i <? size then
    match fuel with
    | O => None
    | S fuel' =>
        entry ← v !! Z.to_nat i;
        rest ← scan_loop test v fuel' (wrap32 (i + 1)) size;
        Some (if test entry then i :: rest else rest)
    end
  else Some [].

(** [Ud::GetCodesForPc] *)
Definition GetCodesForPc (ud : Ud) (pc0 : Z) : option (list Z) :=
  let size := wrap32 (vsize (code_ ud)) in
  scan_loop (fun entry => pc entry =? pc0) (code_ ud) (Z.to_nat size) 0 size.

(** [Ud::GetPcForCode] *)
Definition GetPcForCode (ud : Ud) (code : Z) : option Z :=
  pc <$> code_ ud !! Z.to_nat code.

(** [Ud::GetTracesForCode] *)
Definition GetTracesForCode (ud : Ud) (code : Z) : option (list Z) :=
  let size := wrap32 (vsize (trace_ ud)) in
  scan_loop (fun entry => codeIndex entry =? code) (trace_ ud)
    (Z.to_nat size) 0 size.

(** [Ud::GetCodeForTrace] *)
Definition GetCodeForTrace (ud : Ud) (trace : Z) : option Z :=
  codeIndex <$> trace_ ud !! Z.to_nat trace.

(** [for (std::uint32_t use = start; use < end; use++) out.push_back(use);]
    on two [std::uint32_t] fields. *)
Definition index_range (start end_index : Z) : list Z :=
  seqZ start (end_index - start).

(** [Ud::GetRegUsesForTrace] and [Ud::GetMemUsesForTrace] *)
Definition GetRegUsesForTrace (ud : Ud) (trace : Z) : option (list Z) :=
  entry ← trace_ ud !! Z.to_nat trace;
  Some (index_range (regUseStartIndex entry) (regUseEndIndex entry)).
Definition GetMemUsesForTrace (ud : Ud) (trace : Z) : option (list Z) :=
  entry ← trace_ ud !! Z.to_nat trace;
  Some (index_range (memUseStartIndex entry) (memUseEndIndex entry)).

(** ** The steps of the builder *)

(** What a record can do to the builder: nothing; add uses or defs to the
    address spaces; add an instruction to the code; close the open trace
    entry and open the next one. *)
Inductive Ud_step : Ud -> Ud -> Prop :=
| step_refl (ud : Ud) : Ud_step ud ud
| step_state (ud ud' : Ud) :
    trace_ ud' = trace_ ud -> code_ ud' = code_ ud -> text_ ud' = text_ ud ->
    grows ud ud' -> uses_grow ud ud' -> Ud_step ud ud'
| step_insn (ud : Ud) (pc0 size : Z) (value : list byte) :
    Ud_step ud
      (mkUd (code_ ud ++ [mkInsnInCode pc0 (wrap32 (vsize (text_ ud))) (wrap32 size)])
            (text_ ud ++ value) (trace_ ud) (regState_ ud) (memState_ ud)
            (primes ud))
| step_flush (ud ud1 : Ud) :
    Flush ud = Some ud1 -> Ud_step ud ud1
| step_next (ud ud1 : Ud) (insnSeq : Z) :
    Flush ud = Some ud1 -> Ud_step ud (AddTrace ud1 insnSeq)
| step_trans (ud1 ud2 ud3 : Ud) :
    Ud_step ud1 ud2 -> Ud_step ud2 ud3 -> Ud_step ud1 ud3.

(** The ranges [[start, end)] of the trace entries in a vector of [count]
    elements: the first range starts at 0, each closed range ends where
    the next one starts, and the open one starts within the vector. *)
Definition ranges_ok (start end_index : InsnInTrace -> Z) (count : Z)
    (trace : list InsnInTrace) : Prop :=
  (forall t, trace !! O = Some t -> start t = 0) /\
  (forall i t t', trace !! i = Some t -> trace !! S i = Some t' ->
     start t <= end_index t /\ end_index t = start t') /\
  (forall t, trace !! (length trace - 1)%nat = Some t -> start t <= count).

(** The last range ends with the vector. *)
Definition ranges_closed (start end_index : InsnInTrace -> Z) (count : Z)
    (trace : list InsnInTrace) : Prop :=
  ranges_ok start end_index count trace /\
  (forall t, trace !! (length trace - 1)%nat = Some t -> end_index t = count).

Definition Ud_ranges (P : (InsnInTrace -> Z) -> (InsnInTrace -> Z) -> Z ->
                         list InsnInTrace -> Prop) (ud : Ud) : Prop :=
  trace_ ud <> [] /\
  P regUseStartIndex regUseEndIndex (vsize (uses_ (regState_ ud))) (trace_ ud) /\
  P memUseStartIndex memUseEndIndex (vsize (uses_ (memState_ ud))) (trace_ ud) /\
  P regDefStartIndex regDefEndIndex (vsize (defs_ (regState_ ud))) (trace_ ud) /\
  P memDefStartIndex memDefEndIndex (vsize (defs_ (memState_ ud))) (trace_ ud).

(** ** Alignment and byte order *)

(** [GetAligned(pos, n)] for a type [T] of [bits] bits. *)
Definition GetAligned (bits : Z) (pos n : Z) : Z :=
  let uPos := wrap bits pos in
  Z.land (wrap bits (uPos + wrap bits (n - 1)))
         (wrap bits (Z.lnot (wrap bits (n - 1)))).

(** The value of a byte. *)
Definition byte_val (b : byte) : Z := Z.of_N (Byte.to_N b).

(** ** A visit, over the records of the stream *)

(** The call of the visitor that [VisitOne] makes for the record [r]. *)
Definition visit_record {V} `{Visitor V} (data : list byte) (visitor : V)
    (index : Z) (r : TlvRecord) : option (Z * V) :=
  let tlv := mkView data (rec_off r) in
  let tag := rec_tag r in
  if (tag =? MT_LOAD) || (tag =? MT_STORE) || (tag =? MT_REG) ||
     (tag =? MT_GET_REG) || (tag =? MT_PUT_REG)
  then visit_LdSt visitor index tlv
  else if tag =? MT_INSN then visit_Insn visitor index tlv
  else if tag =? MT_INSN_EXEC then visit_InsnExec visitor index tlv
  else if (tag =? MT_GET_REG_NX) || (tag =? MT_PUT_REG_NX)
  then visit_LdStNx visitor index tlv
  else if tag =? MT_MMAP then visit_Mmap visitor index tlv
  else Some (- EINVAL, visitor).

(** The visit of the records [recs], the first of which has the index
    [index]: the visitor is called for the records whose index is in
    [[start, end_index)], in order, up to the first call that returns a
    negative value.  The result is the returned [int], the cursor and the
    visitor. *)
Fixpoint visit_records {V} `{Visitor V} (data : list byte)
    (recs : list TlvRecord) (index start end_index : Z) (visitor : V)
    : option (Z * TraceMm * V) :=
  match recs with
  | [] => Some (0, mkTraceMm data (vsize data) index, visitor)
  | r :: rest =>
      '(err, visitor') ←
        (if (start <=? index) && (index <? end_index)
         then visit_record data visitor index r
         else Some (0, visitor));
      if err <? 0 then Some (err, mkTraceMm data (rec_off r) index, visitor')
      else visit_records data rest (index + 1) start end_index visitor'
  end.

(** A header followed by one [MMAP] record whose length field is 0. *)
Definition zero_length_trace : list byte :=
  literal_header x03 ++ [x4d; x4d; x00; x00].

(** The records of the literal trace. *)
Definition literal_recs : list TlvRecord :=
  match tlv_records Little 4 5 (literal_trace x03) 8 with
  | Some recs => recs
  | None => []
  end.

(** ** [MmVector<T>]

    The vector is the [size] entries of the mapping and its capacity, in
    entries; [ftruncate] and [mremap] are taken to succeed.  A write past
    the capacity is [None]. *)
Record MmVector (T : Type) : Type := mkMmVector {
  mm_entries : list T;
  mm_capacity : Z
}.
Arguments mkMmVector {T} _ _.
Arguments mm_entries {T} _.
Arguments mm_capacity {T} _.

Definition kGrowAmount : Z := 1024 * 1024 * 1024.

Section MmVectorOps.
Context {T : Type}.
(** [sizeof(T)] *)
Variable sizeofT : Z.

Definition mm_size (v : MmVector T) : Z := vsize (mm_entries v).

(** [MmVector::reserve(n)] *)
Definition MmVector_reserve (v : MmVector T) (n : Z) : MmVector T :=
  if n <=? mm_capacity v then v else mkMmVector (mm_entries v) n.

(** [MmVector::Grow(bytes)] *)
Definition MmVector_Grow (v : MmVector T) (bytes : Z) : MmVector T :=
  MmVector_reserve v (wrap64 (mm_capacity v + bytes / sizeofT)).

(** [MmVector::push_back(val)] *)
Definition MmVector_push_back (v : MmVector T) (val : T)
    : option (MmVector T) :=
  let v1 := if wrap64 (mm_size v + 1) >? mm_capacity v
            then MmVector_Grow v kGrowAmount else v in
  if mm_size v1 <? mm_capacity v1
  then Some (mkMmVector (mm_entries v1 ++ [val]) (mm_capacity v1))
  else None.

(** [MmVector::insert(position, first, last)], for the position
    [begin() + i] of the vector and the items from [first] to [last]:
    the entries from the position on are overwritten, and the items
    that are left are put after the end. *)
Definition MmVector_insert (v : MmVector T) (i : Z) (items : list T)
    : option (MmVector T) :=
  let n := vsize items in
  let v1 :=
    if wrap64 (i + n) >? mm_capacity v
    then MmVector_Grow v
           (GetAligned 64 (wrap64 (wrap64 (wrap64 (i + n) - mm_capacity v) * sizeofT))
              kGrowAmount)
    else v in
  if (0 <=? i) && (i <=? mm_size v1) && (i + n <=? mm_capacity v1)
  then Some (mkMmVector
               (take (Z.to_nat i) (mm_entries v1) ++ items ++
                drop (Z.to_nat (i + n)) (mm_entries v1))
               (mm_capacity v1))
  else None.

(** [MmVector::resize(n, val)] *)
Definition MmVector_resize (v : MmVector T) (n : Z) (val : T)
    : option (MmVector T) :=
  let v1 :=
    if n >? mm_capacity v
    then MmVector_Grow v
           (GetAligned 64 (wrap64 (wrap64 (n - mm_capacity v) * sizeofT))
              kGrowAmount)
    else v in
  if (0 <=? n) && (n <=? mm_capacity v1)
  then Some (mkMmVector (resize n val (mm_entries v1)) (mm_capacity v1))
  else None.
End MmVectorOps.

(** ** [PathWithPlaceholder]

    A C string is the list of its characters, without the final NUL. *)

Definition kPlaceholder : list byte := [x7b; x7d].
Definition kPlaceholderLength : nat := 2.

(** [needle] is at the start of [haystack]. *)
Fixpoint starts_with (needle haystack : list byte) : bool :=
  match needle, haystack with
  | [], _ => true
  | _ :: _, [] => false
  | n :: needle', h :: haystack' => Byte.eqb n h && starts_with needle' haystack'
  end.

(** [std::strstr(haystack, needle)]: the offset of the first occurrence;
    [None] is [nullptr]. *)
Fixpoint strstr (haystack needle : list byte) : option nat :=
  if starts_with needle haystack then Some O
  else
    match haystack with
    | [] => None
    | _ :: rest => S <$> strstr rest needle
    end.

(** [struct PathWithPlaceholder]: [before[0]], [before[1]] and [after]. *)
Record PathWithPlaceholder : Type := mkPathWithPlaceholder {
  before0 : list byte;
  before1 : list byte;
  after : list byte
}.

(** [PathWithPlaceholder::Init(path, description)], without the message
    on [std::cerr]. *)
Definition PathWithPlaceholder_Init (p : PathWithPlaceholder) (path : list byte)
    : Z * PathWithPlaceholder :=
  match strstr path kPlaceholder with
  | None => (- EINVAL, p)
  | Some placeholder =>
      (0, mkPathWithPlaceholder (take placeholder path) (before1 p)
            (drop (placeholder + kPlaceholderLength) path))
  end.

(** [PathWithPlaceholder::Get(value)] *)
Definition PathWithPlaceholder_Get (p : PathWithPlaceholder) (value : list byte)
    : list byte :=
  before0 p ++ before1 p ++ value ++ after p.

(** ** [HtmlDump] *)

(** The [switch] of [HtmlDump] on a character. *)
Definition html_escape (c : byte) : list byte :=
  if Byte.eqb c x22 then [x26; x71; x75; x6f; x74; x3b]       (* &quot; *)
  else if Byte.eqb c x26 then [x26; x61; x6d; x70; x3b]      (* &amp; *)
  else if Byte.eqb c x27 then [x26; x23; x33; x39; x3b]      (* &#39; *)
  else if Byte.eqb c x3c then [x26; x6c; x74; x3b]           (* &lt; *)
  else if Byte.eqb c x3e then [x26; x67; x74; x3b]           (* &gt; *)
  else [c].

(** [HtmlDump(f, s)]: what is written to [f], for the characters [s] up
    to the first NUL. *)
Fixpoint HtmlDump (s : list byte) : list byte :=
  match s with
  | [] => []
  | c :: rest =>
      if Byte.eqb c x00 then [] else html_escape c ++ HtmlDump rest
  end.

(** The characters that [HtmlDump] looks for. *)
Definition html_special (c : byte) : bool :=
  Byte.eqb c x22 || Byte.eqb c x26 || Byte.eqb c x27 || Byte.eqb c x3c ||
  Byte.eqb c x3e.

(** A vector of three 4-byte entries that is full, and the paths of the
    examples: [out/{}.bin] and [out.bin]. *)
Definition full_vector : MmVector Z := mkMmVector [10; 20; 30] 3.
Definition path_with : list byte :=
  [x6f; x75; x74; x2f; x7b; x7d; x2e; x62; x69; x6e].
Definition path_without : list byte := [x6f; x75; x74; x2e; x62; x69; x6e].

(** ** What the builder takes from the records *)

(** The records whose index is in [[start, end_index)], for records of
    which the first has the index [index]. *)
Fixpoint window_records (recs : list TlvRecord) (index start end_index : Z)
    : list TlvRecord :=
  match recs with
  | [] => []
  | r :: rest =>
      (if (start <=? index) && (index <? end_index) then [r] else []) ++
      window_records rest (index + 1) start end_index
  end.

(** The values that differ from the one before them, [prev] being the
    one before the first. *)
Fixpoint run_heads (prev : Z) (seqs : list Z) : list Z :=
  match seqs with
  | [] => []
  | s :: rest =>
      if s =? prev then run_heads prev rest else s :: run_heads s rest
  end.

Section RecordEffects.
Variable E : Endianness.
Variable W : Z.
Variable data : list byte.

(** The range [[addr, addr + size)] of a record of a load or a store;
    [nx] tells the records that carry their size from those that carry
    a value. *)
Definition range_of (nx : bool) (r : TlvRecord) : option Def :=
  let entry := mkView data (rec_off r) in
  addr ← LdStEntry_GetAddr E W entry;
  size ← (if nx then LdStNxEntry_GetSize E W entry
          else LdStEntry_GetSize E W entry);
  Some (mkDef addr (wrapW W (addr + size))).

(** The def that a record makes in the register space, and in the
    memory space. *)
Definition reg_write_of (r : TlvRecord) : option Def :=
  if rec_tag r =? MT_PUT_REG then range_of false r
  else if rec_tag r =? MT_PUT_REG_NX then range_of true r
  else None.
Definition mem_write_of (r : TlvRecord) : option Def :=
  if rec_tag r =? MT_STORE then range_of false r else None.

(** The pc, the size and the bytes of the instruction of an [INSN]
    record. *)
Definition insn_of (r : TlvRecord) : option (Z * Z * list byte) :=
  let entry := mkView data (rec_off r) in
  if rec_tag r =? MT_INSN then
    pc0 ← InsnEntry_GetPc E W entry;
    value ← InsnEntry_GetValue E W entry;
    size ← LdStEntry_GetSize E W entry;
    Some (pc0, size, value)
  else None.
End RecordEffects.

(** The code entries of a list of instructions, after [t] bytes of
    text. *)
Fixpoint code_of (t : Z) (insns : list (Z * Z * list byte)) : list InsnInCode :=
  match insns with
  | [] => []
  | (pc0, size, value) :: rest =>
      mkInsnInCode pc0 (wrap32 t) (wrap32 size) :: code_of (t + vsize value) rest
  end.

(** The sequence numbers of the records that reach [Ud::HandleInsnSeq],
    and those of the [INSN] records. *)
Definition trace_seqs (recs : list TlvRecord) : list Z :=
  rec_insnSeq <$> List.filter (fun r => counts_insnSeq (rec_tag r)) recs.
Definition insn_seqs (recs : list TlvRecord) : list Z :=
  rec_insnSeq <$> List.filter (fun r => rec_tag r =? MT_INSN) recs.

(** The builder [ud'] is [ud] after records with the sequence numbers
    [seqs], the writes [regw] and [memw], and the instructions [insns]
    with the sequence numbers [iseqs]. *)
Definition Ud_effect (ud ud' : Ud) (seqs : list Z) (regw memw : list Def)
    (insns : list (Z * Z * list byte)) (iseqs : list Z) : Prop :=
  trace_ ud' <> [] /\
  codeIndex <$> trace_ ud' =
    (codeIndex <$> trace_ ud) ++
    run_heads (List.last (codeIndex <$> trace_ ud) 0) seqs /\
  defs_ (regState_ ud') = defs_ (regState_ ud) ++ regw /\
  defs_ (memState_ ud') = defs_ (memState_ ud) ++ memw /\
  code_ ud' = code_ ud ++ code_of (vsize (text_ ud)) insns /\
  text_ ud' = text_ ud ++ concat ((fun x => snd x) <$> insns) /\
  iseqs = wrap32 <$> seqZ (vsize (code_ ud)) (vsize insns).

(** * Primes: trial division and gaps *)

Lemma mod_divide_iff (a b : Z) : 0 < b -> (a mod b = 0 <-> (b | a)).
Proof. intros Hb. apply Z.mod_divide. lia. Qed.

Lemma divisor_below_dec (n k : Z) :
  0 <= k ->
  (exists d, 1 < d < k /\ (d | n)) \/ (forall d, 1 < d < k -> ~ (d | n)).
Proof.
  intros Hk. pattern k. apply natlike_ind; [| |exact Hk]; clear k Hk.
  - right. intros d Hd. lia.
  - intros k Hk [(d & Hd & Hdn)|Hno].
    + left. exists d. split; [lia|done].
    + destruct (Z_le_gt_dec k 1) as [Hk1|Hk1].
      { right. intros d Hd. lia. }
      destruct (Z.eq_dec (n mod k) 0) as [Hz|Hnz].
      * left. exists k. split; [lia|]. apply mod_divide_iff; [lia|done].
      * right. intros d Hd. destruct (Z.eq_dec d k) as [->|Hne].
        -- intros Hdiv. apply Hnz. apply mod_divide_iff; [lia|done].
        -- apply Hno. lia.
Qed.

Lemma prime_or_divisor (n : Z) :
  2 <= n -> Z.prime n \/ exists d, 1 < d < n /\ (d | n).
Proof.
  intros Hn. destruct (divisor_below_dec n n ltac:(lia)) as [H|H].
  - by right.
  - left. split; [lia|done].
Qed.

Lemma prime_factor_exists (n : Z) : 2 <= n -> exists p, Z.prime p /\ (p | n).
Proof.
  intros Hn. assert (Hnn : 0 <= n) by lia. revert Hn.
  pattern n. apply (Zlt_0_ind); [|exact Hnn]. clear n Hnn.
  intros n IH _ Hn.
  destruct (prime_or_divisor n Hn) as [Hp|(d & Hd & Hdn)].
  - exists n. split; [done|]. apply Z.divide_refl.
  - destruct (IH d ltac:(lia) ltac:(lia)) as (p & Hp & Hpd).
    exists p. split; [done|]. by apply Z.divide_trans with d.
Qed.

Lemma small_prime_factor (n : Z) :
  2 <= n -> ~ Z.prime n -> exists p, Z.prime p /\ (p | n) /\ p * p <= n.
Proof.
  intros Hn Hnp.
  destruct (prime_or_divisor n Hn) as [|(d & Hd & [m Hm])]; [done|].
  assert (Hmpos : 1 < m) by nia.
  assert (Hmlt : m < n) by nia.
  destruct (Z_le_gt_dec d m) as [Hle|Hgt].
  - destruct (prime_factor_exists d ltac:(lia)) as (p & Hp & Hpd).
    exists p. split; [done|]. split.
    + apply Z.divide_trans with d; [done|]. exists m. lia.
    + pose proof (Z.prime_ge_2 p Hp).
      assert (p <= d) by (apply Z.divide_pos_le; [lia|done]).
      nia.
  - destruct (prime_factor_exists m ltac:(lia)) as (p & Hp & Hpd).
    exists p. split; [done|]. split.
    + apply Z.divide_trans with m; [done|]. exists d. lia.
    + pose proof (Z.prime_ge_2 p Hp).
      assert (p <= m) by (apply Z.divide_pos_le; [lia|done]).
      nia.
Qed.

Lemma prime_dec' (n : Z) : Z.prime n \/ ~ Z.prime n.
Proof.
  destruct (Z_le_gt_dec 2 n) as [Hn|Hn].
  - destruct (prime_or_divisor n Hn) as [|(d & Hd & Hdn)]; [by left|].
    right. intros [_ Hp]. by apply (Hp d).
  - right. intros Hp%Z.prime_ge_2. lia.
Qed.

Lemma sqrt_le_iff (a b : Z) : 0 <= a -> 0 <= b -> (b <= Z.sqrt a <-> b * b <= a).
Proof.
  intros Ha Hb. pose proof (Z.sqrt_spec a Ha) as Hs. cbv zeta in Hs.
  pose proof (Z.sqrt_nonneg a). split; intros Hb'; nia.
Qed.

(** ** A primality test by trial division, used to certify [bertrand_chain] *)

Lemma no_divisor_from_spec (n : nat) (d p : Z) :
  0 < d -> no_divisor_from n d p = true ->
  forall i, 0 <= i < Z.of_nat n ->
    ((d + 6 * i) * (d + 6 * i) <= p -> ~ (d + 6 * i | p)) /\
    ((d + 6 * i + 2) * (d + 6 * i + 2) <= p -> ~ (d + 6 * i + 2 | p)).
Proof.
  revert d. induction n as [|n IH]; intros d Hd Hnd i Hi; [lia|].
  simpl in Hnd.
  destruct (Z.eq_dec i 0) as [->|Hi0].
  - rewrite Z.mul_0_r, Z.add_0_r. split; intros Hsq Hdiv.
    + apply mod_divide_iff in Hdiv; [|lia].
      apply Z.leb_le in Hsq. apply Z.eqb_eq in Hdiv.
      by rewrite Hsq, Hdiv in Hnd.
    + apply mod_divide_iff in Hdiv; [|lia].
      apply Z.leb_le in Hsq. apply Z.eqb_eq in Hdiv.
      rewrite Hsq, Hdiv in Hnd. simpl in Hnd.
      by destruct ((d * d <=? p) && (p mod d =? 0)).
  - destruct ((d * d <=? p) && (p mod d =? 0)); [done|].
    destruct (((d + 2) * (d + 2) <=? p) && (p mod (d + 2) =? 0)); [done|].
    destruct (IH (d + 6) ltac:(lia) Hnd (i - 1) ltac:(lia)) as [H1 H2].
    replace (d + 6 + 6 * (i - 1)) with (d + 6 * i) in * by lia. done.
Qed.

Lemma prime_mod_6 (q : Z) : Z.prime q -> 3 < q -> q mod 6 = 1 \/ q mod 6 = 5.
Proof.
  intros [_ Hq] Hq3.
  pose proof (Z.mod_pos_bound q 6 ltac:(lia)) as Hb.
  pose proof (Z.div_mod q 6 ltac:(lia)) as Hdm.
  assert (Hn2 : ~ (2 | q)) by (apply Hq; lia).
  assert (Hn3 : ~ (3 | q)) by (apply Hq; lia).
  assert (Hc : q mod 6 = 0 \/ q mod 6 = 1 \/ q mod 6 = 2 \/ q mod 6 = 3 \/
               q mod 6 = 4 \/ q mod 6 = 5) by lia.
  destruct Hc as [Hc|[Hc|[Hc|[Hc|[Hc|Hc]]]]]; auto; exfalso.
  - apply Hn2. exists (3 * (q / 6)). lia.
  - apply Hn2. exists (3 * (q / 6) + 1). lia.
  - apply Hn3. exists (2 * (q / 6) + 1). lia.
  - apply Hn2. exists (3 * (q / 6) + 2). lia.
Qed.

Lemma is_prime_trial_sound (p : Z) : is_prime_trial p = true -> Z.prime p.
Proof.
  unfold is_prime_trial. intros H.
  apply andb_prop in H as [H H4]. apply andb_prop in H as [H H3].
  apply andb_prop in H as [H1 H2].
  apply Z.ltb_lt in H1. apply negb_true_iff in H2, H3.
  apply Z.eqb_neq in H2, H3.
  destruct (prime_dec' p) as [|Hnp]; [done|]. exfalso.
  destruct (small_prime_factor p ltac:(lia) Hnp) as (q & Hq & Hqp & Hqq).
  pose proof (Z.prime_ge_2 q Hq).
  assert (Hqs : q <= Z.sqrt p) by (apply sqrt_le_iff; lia).
  destruct (Z.eq_dec q 2) as [->|Hq2].
  { apply H2. apply mod_divide_iff; [lia|done]. }
  destruct (Z.eq_dec q 3) as [->|Hq3].
  { apply H3. apply mod_divide_iff; [lia|done]. }
  pose proof (prime_mod_6 q Hq ltac:(lia)) as Hm.
  pose proof (Z.div_mod q 6 ltac:(lia)) as Hdm.
  assert (Hpos5 : 0 < 5) by lia.
  assert (Hdq : q / 6 <= Z.sqrt p / 6) by (apply Z.div_le_mono; lia).
  assert (Hq6 : 0 <= q / 6) by (apply Z.div_pos; lia).
  destruct Hm as [Hm|Hm].
  - destruct (no_divisor_from_spec _ 5 p Hpos5 H4 (q / 6 - 1)) as [_ Hc].
    + assert (q / 6 <> 0) by lia. lia.
    + replace (5 + 6 * (q / 6 - 1) + 2) with q in Hc by lia. by apply Hc.
  - destruct (no_divisor_from_spec _ 5 p Hpos5 H4 (q / 6)) as [Hc _].
    + lia.
    + replace (5 + 6 * (q / 6)) with q in Hc by lia. by apply Hc.
Qed.

Lemma bertrand_chain_primes : Forall Z.prime bertrand_chain.
Proof.
  assert (H : forallb is_prime_trial (skipn 2 bertrand_chain) = true)
    by (vm_compute; reflexivity).
  rewrite forallb_forall in H.
  apply List.Forall_cons; [apply Z.prime_2|].
  apply List.Forall_cons; [apply Z.prime_3|].
  apply List.Forall_forall.
  intros x Hx. apply is_prime_trial_sound. by apply H.
Qed.

Lemma last_cons_default {A} (x : A) (l : list A) (c : A) :
  List.last (x :: l) c = List.last l x.
Proof.
  revert x c. induction l as [|y l IH]; intros x c; [done|].
  change (List.last (x :: y :: l) c) with (List.last (y :: l) c).
  by rewrite !IH.
Qed.

Lemma chain_steps_spec (c : Z) (l : list Z) (v : Z) :
  chain_steps c l = true -> c < v -> v <= List.last l c ->
  exists q, In q l /\ v <= q /\ q < 2 * v.
Proof.
  revert c. induction l as [|x l IH]; intros c H Hc Hv.
  { simpl in Hv. lia. }
  simpl in H. apply andb_prop in H as [Hx Hl]. apply Z.ltb_lt in Hx.
  rewrite last_cons_default in Hv.
  destruct (Z_le_gt_dec v x) as [Hle|Hgt].
  - exists x. split; [by left|]. lia.
  - destruct (IH x Hl ltac:(lia) Hv) as (q & Hq & Hq').
    exists q. split; [by right|]. done.
Qed.

(** Bertrand's postulate below [PRIME_BOUND]. *)
Lemma bertrand_bounded (v : Z) :
  3 <= v <= PRIME_BOUND -> exists q, Z.prime q /\ v <= q /\ q < 2 * v.
Proof.
  intros Hv.
  destruct (chain_steps_spec 2 (tl bertrand_chain) v) as (q & Hq & Hq').
  - vm_compute; reflexivity.
  - lia.
  - assert (Hl : PRIME_BOUND <= List.last (tl bertrand_chain) 2)
      by (vm_compute; discriminate).
    lia.
  - exists q. split; [|done].
    pose proof bertrand_chain_primes as Hall.
    rewrite List.Forall_forall in Hall. apply Hall. by right.
Qed.

(** * Correctness and termination of the prime search *)

Lemma wrap64_small (x : Z) : 0 <= x < 2 ^ 64 -> wrap64 x = x.
Proof. intros H. unfold wrap64, wrap. by apply Z.mod_small. Qed.

Lemma testbit_0_mod (x : Z) : x mod 2 = 1 -> Z.testbit x 0 = true.
Proof.
  intros Hx. apply Z.testbit_true; [lia|]. by rewrite Z.pow_0_r, Z.div_1_r.
Qed.

Lemma lor_1_odd (x : Z) : x mod 2 = 1 -> Z.lor x 1 = x.
Proof.
  intros Hx. apply Z.bits_inj'. intros n Hn. rewrite Z.lor_spec.
  destruct (Z.eq_dec n 0) as [->|Hn0].
  - by rewrite testbit_0_mod.
  - replace (Z.testbit 1 n) with false; [by rewrite orb_false_r|].
    symmetry. apply Z.bits_above_log2; simpl; lia.
Qed.

Lemma lor_1_even (x : Z) : x mod 2 = 0 -> Z.lor x 1 = x + 1.
Proof.
  intros Hx. apply Z.bits_inj'. intros n Hn. rewrite Z.lor_spec.
  pose proof (Z.div_mod x 2 ltac:(lia)) as Hdm.
  replace (x + 1) with (2 * (x / 2) + 1) by lia.
  destruct (Z.eq_dec n 0) as [->|Hn0].
  - rewrite Z.testbit_odd_0. by rewrite orb_true_r.
  - replace (Z.testbit 1 n) with false.
    2:{ symmetry. apply Z.bits_above_log2; simpl; lia. }
    rewrite orb_false_r.
    replace n with (Z.succ (n - 1)) by lia.
    rewrite Z.testbit_odd_succ by lia.
    replace x with (2 * (x / 2)) at 1 by lia.
    by rewrite Z.testbit_even_succ by lia.
Qed.

Lemma lor_1_cases (x : Z) :
  (x mod 2 = 1 /\ Z.lor x 1 = x) \/ (x mod 2 = 0 /\ Z.lor x 1 = x + 1).
Proof.
  pose proof (Z.mod_pos_bound x 2 ltac:(lia)).
  destruct (Z.eq_dec (x mod 2) 0) as [H0|H0].
  - right. split; [done|]. by apply lor_1_even.
  - left. assert (x mod 2 = 1) by lia. split; [done|]. by apply lor_1_odd.
Qed.

Lemma odd_prime (p : Z) : Z.prime p -> 3 <= p -> p mod 2 = 1.
Proof.
  intros [_ Hp] H3. pose proof (Z.mod_pos_bound p 2 ltac:(lia)).
  destruct (Z.eq_dec (p mod 2) 0) as [H0|H0]; [|lia].
  exfalso. apply (Hp 2); [lia|]. apply mod_divide_iff; [lia|done].
Qed.

Lemma next_prime_exists (v r : Z) :
  Z.prime r -> v <= r -> exists q, next_prime v q.
Proof.
  intros Hr Hvr.
  assert (Hk : 0 <= r - v) by lia.
  remember (r - v) as k eqn:Ek. revert v r Hr Hvr Ek.
  pattern k. apply natlike_ind; [| |exact Hk]; clear k Hk.
  - intros v r Hr Hvr Ek. exists r. split; [done|]. split; [lia|].
    intros p _ Hp. lia.
  - intros k Hk IH v r Hr Hvr Ek.
    destruct (prime_dec' v) as [Hv|Hv].
    + exists v. split; [done|]. split; [lia|]. by intros p _ Hp.
    + destruct (IH (v + 1) r Hr) as (q & Hq & Hvq & Hmin).
      * destruct (Z.eq_dec v r) as [->|]; [done|lia].
      * lia.
      * exists q. split; [done|]. split; [lia|].
        intros p Hp Hvp. apply Hmin; [done|].
        destruct (Z.eq_dec v p) as [->|]; [done|lia].
Qed.

Lemma next_prime_bertrand (v : Z) :
  3 <= v <= PRIME_BOUND -> exists q, next_prime v q /\ q < 2 * v.
Proof.
  intros Hv. destruct (bertrand_bounded v Hv) as (r & Hr & Hvr & Hr2).
  destruct (next_prime_exists v r Hr Hvr) as (q & Hq).
  exists q. split; [done|]. destruct Hq as (_ & _ & Hmin).
  specialize (Hmin r Hr Hvr). lia.
Qed.

(** ** Trial division decides primality of odd numbers *)

Lemma trial_division_list (l : list Z) (sq v : Z) :
  Forall (fun p => 0 < p) l -> (exists p, In p l /\ sq < p) ->
  StronglySorted Z.lt l ->
  exists b, trial_division l sq v = Some b /\
            (b = true <-> forall p, In p l -> p <= sq -> ~ (p | v)).
Proof.
  induction l as [|x l IH]; intros Hpos (p0 & Hin & Hsq) Hs.
  { destruct Hin. }
  simpl. apply Forall_cons_1 in Hpos as [Hx Hpos].
  apply StronglySorted_inv in Hs as [Hs Hxl].
  destruct (Z.leb_spec x sq) as [Hle|Hgt].
  - destruct (Z.eqb_spec (v mod x) 0) as [Hz|Hnz].
    + exists false. split; [done|]. split; [done|]. intros H. exfalso.
      apply (H x); [by left|done|]. apply mod_divide_iff; [lia|done].
    + destruct IH as (b & Hb & Hbs); [done| |done|].
      { destruct Hin as [->|Hin]; [lia|]. by exists p0. }
      exists b. split; [done|]. rewrite Hbs. split.
      * intros H p [->|Hp] Hp'; [|by apply H].
        intros Hd. apply Hnz. apply mod_divide_iff; [lia|done].
      * intros H p Hp. apply H. by right.
  - exists true. split; [done|]. split; [|done]. intros _ p [->|Hp] Hp'; [lia|].
    rewrite List.Forall_forall in Hxl. specialize (Hxl p Hp). lia.
Qed.

Lemma good_primes_pos (primes : list Z) :
  good_primes primes -> Forall (fun p => 0 < p) primes.
Proof.
  intros (_ & _ & H). apply List.Forall_forall. intros p Hp.
  apply H in Hp. lia.
Qed.

Lemma good_primes_back_in (primes : list Z) :
  good_primes primes -> In (back primes) primes.
Proof.
  intros (_ & H3 & _). unfold back in *. destruct primes as [|x l].
  - simpl in H3. lia.
  - destruct (exists_last (l := x :: l) ltac:(done)) as (l' & a & ->).
    rewrite List.last_last. apply in_or_app. right. by left.
Qed.

Lemma odd_prime_test (v : Z) :
  v mod 2 = 1 -> 3 <= v ->
  ((forall p, Z.prime p -> 3 <= p <= Z.sqrt v -> ~ (p | v)) <-> Z.prime v).
Proof.
  intros Hodd Hv. split.
  - intros H. destruct (prime_dec' v) as [|Hnp]; [done|]. exfalso.
    destruct (small_prime_factor v ltac:(lia) Hnp) as (p & Hp & Hpv & Hpp).
    pose proof (Z.prime_ge_2 p Hp).
    apply (H p Hp); [|done]. split.
    + destruct (Z.eq_dec p 2) as [->|]; [|lia].
      apply mod_divide_iff in Hpv; lia.
    + apply sqrt_le_iff; lia.
  - intros [_ Hp] p Hpp [H3 Hsq]. apply Hp.
    apply sqrt_le_iff in Hsq; [|lia|lia]. nia.
Qed.

Lemma trial_division_spec (primes : list Z) (v : Z) :
  good_primes primes -> v mod 2 = 1 -> 3 <= v -> Z.sqrt v < back primes ->
  exists b, trial_division primes (Z.sqrt v) v = Some b /\
            (b = true <-> Z.prime v).
Proof.
  intros Hg Hodd Hv Hsq.
  destruct (trial_division_list primes (Z.sqrt v) v) as (b & Hb & Hbs).
  - by apply good_primes_pos.
  - exists (back primes). split; [by apply good_primes_back_in|done].
  - by destruct Hg.
  - exists b. split; [done|]. rewrite Hbs, <- (odd_prime_test v Hodd Hv).
    destruct Hg as (_ & _ & Hin). split.
    + intros H p Hp Hp'. apply H; [|lia]. apply Hin. split; [done|lia].
    + intros H p Hp Hp'. apply Hin in Hp. apply H; [tauto|lia].
Qed.

(** ** The search loops *)

Lemma StronglySorted_snoc (l : list Z) (q : Z) :
  StronglySorted Z.lt l -> Forall (fun x => x < q) l ->
  StronglySorted Z.lt (l ++ [q]).
Proof.
  induction 1 as [|x l Hs IH Hx]; intros Hq; simpl.
  - constructor; constructor.
  - apply Forall_cons_1 in Hq as [Hxq Hq]. constructor; [by apply IH|].
    apply Forall_app. split; [done|]. by constructor.
Qed.

Lemma good_primes_snoc (primes : list Z) (q : Z) :
  good_primes primes -> Z.prime q -> back primes < q ->
  (forall p, Z.prime p -> back primes < p -> q <= p) ->
  good_primes (primes ++ [q]) /\ back (primes ++ [q]) = q.
Proof.
  intros (Hs & H3 & Hin) Hq Hbq Hmin.
  assert (Hback : back (primes ++ [q]) = q) by apply List.last_last.
  split; [|done]. split; [|split].
  - apply StronglySorted_snoc; [done|]. apply List.Forall_forall.
    intros x Hx. apply Hin in Hx. lia.
  - rewrite Hback. lia.
  - intros p. rewrite Hback, in_app_iff, Hin. simpl. split.
    + intros [[Hp Hr]|[<-|[]]]; [split; [done|lia]|]. split; [done|lia].
    + intros [Hp Hr]. destruct (Z_le_gt_dec p (back primes)) as [Hle|Hgt].
      * left. split; [done|lia].
      * right. left. specialize (Hmin p Hp). lia.
Qed.

Lemma next_prime_step (v q : Z) :
  v mod 2 = 1 -> 3 <= v -> next_prime v q -> ~ Z.prime v ->
  next_prime (v + 2) q /\ (v + 2) mod 2 = 1.
Proof.
  intros Hodd Hv (Hq & Hvq & Hmin) Hnp.
  assert (Hqo : q mod 2 = 1) by (apply odd_prime; [done|lia]).
  assert (v <> q) by (intros ->; done).
  assert (Hv2 : (v + 2) mod 2 = 1).
  { replace (v + 2) with (v + 1 * 2) by lia. by rewrite Z.mod_add by lia. }
  split; [|done]. split; [done|]. split.
  - destruct (Z.eq_dec q (v + 1)) as [->|]; [|lia].
    replace (v + 1) with (v - 1 + 1 * 2) in Hqo by lia.
    rewrite Z.mod_add in Hqo by lia.
    pose proof (Z.div_mod v 2 ltac:(lia)). pose proof (Z.div_mod (v - 1) 2 ltac:(lia)). lia.
  - intros p Hp Hvp. apply Hmin; [done|lia].
Qed.

(** With the cache already past the square root of every candidate, the
    search goes through the candidates without a nested call. *)
Lemma prime_search_no_growth rec (n : nat) (primes : list Z) (v q : Z) :
  good_primes primes -> v mod 2 = 1 -> 3 <= v -> next_prime v q ->
  q < back primes * back primes -> q < 2 ^ 63 ->
  (Z.to_nat ((q - v) / 2) + 2 <= n)%nat ->
  prime_search rec n primes v = Some (primes, q).
Proof.
  revert v. induction n as [|n IH]; intros v Hg Hodd Hv Hnext Hqb Hq63 Hn; [lia|].
  pose proof Hnext as (Hq & Hvq & Hmin).
  assert (Hsq : Z.sqrt v < back primes).
  { destruct Hg as (_ & H3 & _).
    destruct (Z_lt_ge_dec (Z.sqrt v) (back primes)) as [|Hge]; [done|].
    exfalso. assert (back primes <= Z.sqrt v) as Hle by lia.
    apply sqrt_le_iff in Hle; lia. }
  cbn [prime_search]. cbv zeta.
  destruct n as [|n]; [lia|]. cbn [grow_primes].
  destruct (Z.leb_spec (back primes) (Z.sqrt v)) as [|_]; [lia|].
  destruct (trial_division_spec primes v Hg Hodd Hv Hsq) as (b & -> & Hb).
  destruct b.
  - assert (Z.prime v) as Hpv by by apply Hb.
    specialize (Hmin v Hpv ltac:(lia)). by replace q with v by lia.
  - assert (~ Z.prime v) as Hnp by (intros Hp; apply Hb in Hp; done).
    destruct (next_prime_step v q Hodd Hv Hnext Hnp) as [Hnext' Hodd'].
    pose proof Hnext' as (_ & Hvq' & _).
    rewrite wrap64_small by lia.
    apply IH; try done; [lia|].
    assert (Hd : (q - v) / 2 = (q - (v + 2)) / 2 + 1).
    { replace (q - v) with (q - (v + 2) + 1 * 2) by lia.
      by rewrite Z.div_add by lia. }
    assert (0 <= (q - (v + 2)) / 2) by (apply Z.div_pos; lia).
    lia.
Qed.

Lemma grow_primes_spec rec (n : nat) (primes : list Z) (sq : Z) :
  good_primes primes -> rec_ok rec sq ->
  (Z.to_nat (sq + 1 - back primes) + 1 <= n)%nat ->
  exists primes1, grow_primes rec n primes sq = Some primes1 /\
                  good_primes primes1 /\ sq < back primes1.
Proof.
  revert primes. induction n as [|n IH]; intros primes Hg Hrec Hn; [lia|].
  cbn [grow_primes].
  destruct (Z.leb_spec (back primes) sq) as [Hle|Hgt].
  - destruct (Hrec primes Hg Hle) as (q & -> & Hq & Hbq & Hmin).
    destruct (good_primes_snoc primes q Hg Hq Hbq Hmin) as [Hg' Hb'].
    apply IH; [done|done|]. rewrite Hb'. lia.
  - by exists primes.
Qed.

Lemma prime_search_spec rec (n : nat) (primes : list Z) (v q : Z) :
  good_primes primes -> v mod 2 = 1 -> 3 <= v -> next_prime v q ->
  q < 2 ^ 63 -> rec_ok rec (Z.sqrt q) ->
  (Z.to_nat ((q - v) / 2 + Z.sqrt q + 3) <= n)%nat ->
  exists primes', prime_search rec n primes v = Some (primes', q) /\
                  good_primes primes'.
Proof.
  revert v primes.
  induction n as [|n IH]; intros v primes Hg Hodd Hv Hnext Hq63 Hrec Hn.
  { pose proof (Z.sqrt_nonneg q). destruct Hnext as (_ & ? & _).
    assert (0 <= (q - v) / 2) by (apply Z.div_pos; lia). lia. }
  pose proof Hnext as (Hq & Hvq & Hmin).
  pose proof (Z.sqrt_nonneg q) as Hsq0.
  assert (Hdiv0 : 0 <= (q - v) / 2) by (apply Z.div_pos; lia).
  assert (Hsqm : Z.sqrt v <= Z.sqrt q) by (apply Z.sqrt_le_mono; lia).
  cbn [prime_search]. cbv zeta.
  destruct (grow_primes_spec rec n primes (Z.sqrt v)) as (primes1 & -> & Hg1 & Hb1).
  - done.
  - intros ps Hps Hbs. apply Hrec; [done|lia].
  - destruct Hg as (_ & H3 & _). lia.
  - destruct (trial_division_spec primes1 v Hg1 Hodd Hv Hb1) as (b & -> & Hb).
    destruct b.
    + assert (Z.prime v) as Hpv by by apply Hb.
      specialize (Hmin v Hpv ltac:(lia)). replace q with v by lia.
      by exists primes1.
    + assert (~ Z.prime v) as Hnp by (intros Hp; apply Hb in Hp; done).
      destruct (next_prime_step v q Hodd Hv Hnext Hnp) as [Hnext' Hodd'].
      pose proof Hnext' as (_ & Hvq' & _).
      rewrite wrap64_small by lia.
      apply IH; try done; [lia|].
      assert (Hd : (q - v) / 2 = (q - (v + 2)) / 2 + 1).
      { replace (q - v) with (q - (v + 2) + 1 * 2) by lia.
        by rewrite Z.div_add by lia. }
      assert (0 <= (q - (v + 2)) / 2) by (apply Z.div_pos; lia).
      lia.
Qed.

(** The nested call: the next prime after the last cached one. *)
Lemma GetFirstPrime_nested (f : nat) (bound : Z) :
  bound < PRIME_BOUND -> (Z.to_nat bound + 4 <= f)%nat ->
  rec_ok (GetFirstPrimeGreaterThanOrEqualTo f) bound.
Proof.
  intros Hbound Hf primes Hg Hb.
  pose proof Hg as (_ & H3 & Hin).
  assert (Hbp : Z.prime (back primes)).
  { apply (Hin (back primes)). by apply good_primes_back_in. }
  assert (Hbo : back primes mod 2 = 1) by by apply odd_prime.
  destruct (next_prime_bertrand (back primes + 1)) as (q & Hnext & Hq2); [lia|].
  pose proof Hnext as (Hq & Hbq & Hmin).
  assert (PRIME_BOUND = 2 ^ 35) as HPB by done.
  assert (2 ^ 35 < 2 ^ 63) as Hpow by done.
  assert (2 ^ 63 < 2 ^ 64) as Hpow' by done.
  exists q. split; [|split; [done|split; [lia|]]].
  2:{ intros p Hp Hbpp. apply Hmin; [done|lia]. }
  destruct f as [|f]; [lia|]. cbn [GetFirstPrimeGreaterThanOrEqualTo].
  rewrite wrap64_small by lia.
  assert (Heven : (back primes + 1) mod 2 = 0).
  { pose proof (Z.div_mod (back primes) 2 ltac:(lia)).
    replace (back primes + 1) with (0 + (back primes / 2 + 1) * 2) by lia.
    by rewrite Z.mod_add by lia. }
  rewrite lor_1_even by done.
  assert (Hodd2 : (back primes + 1 + 1) mod 2 = 1).
  { replace (back primes + 1 + 1) with (back primes + 1 * 2) by lia.
    by rewrite Z.mod_add by lia. }
  assert (Hqne : q <> back primes + 1).
  { intros ->. apply odd_prime in Hq; lia. }
  apply prime_search_no_growth; try done; try lia.
  - split; [done|]. split; [lia|]. intros p Hp Hpp. apply Hmin; [done|lia].
  - nia.
  - assert ((q - (back primes + 1 + 1)) / 2 <= bound).
    { apply Z.div_le_upper_bound; lia. }
    assert (0 <= (q - (back primes + 1 + 1)) / 2) by (apply Z.div_pos; lia).
    lia.
Qed.

(** [GetFirstPrimeGreaterThanOrEqualTo] ends, with the least prime that is
    at least [value | 1], for every [value] from 2 to [2^34]. *)
Lemma GetFirstPrime_total (f : nat) (primes : list Z) (value : Z) :
  good_primes primes -> 2 <= value <= 2 ^ 34 ->
  (prime_fuel value <= f)%nat ->
  exists primes' q,
    GetFirstPrimeGreaterThanOrEqualTo f primes value = Some (primes', q) /\
    good_primes primes' /\ next_prime (Z.lor value 1) q /\ q < 2 * value + 2.
Proof.
  intros Hg Hv Hf. unfold prime_fuel in Hf.
  assert (2 ^ 34 = 17179869184) as Hpow34 by done.
  assert (PRIME_BOUND = 2 ^ 35) as HPB by done.
  assert (2 ^ 35 = 34359738368) as Hpow35 by done.
  assert (2 ^ 63 = 9223372036854775808) as Hpow63 by done.
  set (v := Z.lor value 1).
  assert (Hvc : v mod 2 = 1 /\ value <= v <= value + 1).
  { unfold v. destruct (lor_1_cases value) as [[Ho ->]|[He ->]].
    - split; [done|lia].
    - split; [|lia]. replace (value + 1) with (1 + (value / 2) * 2).
      + by rewrite Z.mod_add by lia.
      + pose proof (Z.div_mod value 2 ltac:(lia)). lia. }
  destruct Hvc as [Hodd Hvv].
  assert (Hv3 : 3 <= v).
  { destruct (Z.eq_dec v 2) as [E|]; [|lia]. rewrite E in Hodd. done. }
  destruct (next_prime_bertrand v) as (q & Hnext & Hq2); [lia|].
  pose proof Hnext as (Hq & Hvq & _).
  pose proof (Z.sqrt_nonneg q) as Hsq0.
  assert (Hsqq : Z.sqrt q <= q) by (apply Z.sqrt_le_lin; lia).
  assert (Hdiv : 0 <= (q - v) / 2 <= v).
  { split; [apply Z.div_pos; lia|]. apply Z.div_le_upper_bound; lia. }
  destruct f as [|f]; [lia|]. cbn [GetFirstPrimeGreaterThanOrEqualTo]. fold v.
  destruct (prime_search_spec (GetFirstPrimeGreaterThanOrEqualTo f) f primes v q)
    as (primes' & Hrun & Hg'); try done; try lia.
  - assert (Z.sqrt q < 2 ^ 18).
    { apply Z.sqrt_lt_square; lia. }
    apply GetFirstPrime_nested; lia.
  - exists primes', q. split; [done|]. split; [done|]. split; [done|lia].
Qed.

Lemma good_primes_init : good_primes primes_init.
Proof.
  split; [|split].
  - repeat constructor.
  - done.
  - intros p. unfold primes_init, back. simpl. split.
    + intros [<-|[]]. split; [apply Z.prime_3|lia].
    + intros [_ Hp]. left. lia.
Qed.

(** [GetFirstPrimeGreaterThanOrEqualTo(0)] is 1: no cached prime is at most
    the root of 1. *)
Lemma GetFirstPrime_0 (f : nat) (primes : list Z) :
  good_primes primes -> (3 <= f)%nat ->
  GetFirstPrimeGreaterThanOrEqualTo f primes 0 = Some (primes, 1).
Proof.
  intros (_ & H3 & Hin) Hf. destruct f as [|[|[|f]]]; try lia.
  cbn [GetFirstPrimeGreaterThanOrEqualTo prime_search grow_primes].
  change (Z.lor 0 1) with 1. change (Z.sqrt 1) with 1.
  destruct (Z.leb_spec (back primes) 1) as [|_]; [lia|].
  destruct primes as [|p rest]; [unfold back in H3; simpl in H3; lia|].
  assert (3 <= p) by (apply (Hin p); by left).
  cbn [trial_division]. destruct (Z.leb_spec p 1) as [|_]; [lia|done].
Qed.

(** * The partial-use hash table *)

Section Probe.
Variable k : Z.

Lemma Scan_Some_1 (l : list PartialUse) (i : nat) :
  ScanPartialUses l k = Some i ->
  (exists e, l !! i = Some e /\ matchb k e = true) /\
  (forall i' e', (i' < i)%nat -> l !! i' = Some e' -> matchb k e' = false).
Proof.
  revert i. induction l as [|x l IH]; intros i H; [done|].
  simpl in H. fold (matchb k x) in H. destruct (matchb k x) eqn:Hx.
  - injection H as <-. split; [by exists x|]. intros; lia.
  - destruct (ScanPartialUses l k) as [i0|] eqn:Hs; [|done].
    injection H as <-. destruct (IH i0 eq_refl) as [He Hb].
    split; [done|]. intros [|i'] e' Hi' Hl; simpl in Hl.
    + by injection Hl as <-.
    + apply (Hb i'); [lia|done].
Qed.

Lemma Scan_Some_2 (l : list PartialUse) (i : nat) (e : PartialUse) :
  l !! i = Some e -> matchb k e = true ->
  (forall i' e', (i' < i)%nat -> l !! i' = Some e' -> matchb k e' = false) ->
  ScanPartialUses l k = Some i.
Proof.
  revert i. induction l as [|x l IH]; intros i Hl He Hb; [done|].
  simpl. fold (matchb k x). destruct i as [|i]; simpl in Hl.
  - injection Hl as ->. by rewrite He.
  - rewrite (Hb O x) by (done || lia).
    rewrite (IH i Hl He); [done|].
    intros i' e' Hi' Hl'. apply (Hb (S i')); [lia|done].
Qed.

Lemma Scan_None_1 (l : list PartialUse) :
  ScanPartialUses l k = None ->
  forall i e, l !! i = Some e -> matchb k e = false.
Proof.
  induction l as [|x l IH]; intros H i e Hl; [done|].
  simpl in H. fold (matchb k x) in H. destruct (matchb k x) eqn:Hx; [done|].
  destruct (ScanPartialUses l k) eqn:Hs; [done|].
  destruct i as [|i]; simpl in Hl.
  - by injection Hl as <-.
  - by apply (IH eq_refl i).
Qed.

Lemma Scan_None_2 (l : list PartialUse) :
  (forall i e, l !! i = Some e -> matchb k e = false) ->
  ScanPartialUses l k = None.
Proof.
  induction l as [|x l IH]; intros H; [done|].
  simpl. fold (matchb k x). rewrite (H O x eq_refl).
  rewrite IH; [done|]. intros i e Hl. by apply (H (S i)).
Qed.

Lemma hash_lt (t : list PartialUse) : t <> [] -> (hash k t < length t)%nat.
Proof.
  intros Ht. unfold hash, vsize.
  assert (0 < Z.of_nat (length t)) by (destruct t; [done|simpl; lia]).
  pose proof (Z.mod_pos_bound k (Z.of_nat (length t)) ltac:(lia)). lia.
Qed.

Lemma Find_Some_1 (t : list PartialUse) (j : nat) :
  FindPartialUse t k = Some j ->
  (exists e, t !! j = Some e /\ matchb k e = true) /\
  (forall i e', before (hash k t) j i -> t !! i = Some e' -> matchb k e' = false).
Proof.
  unfold FindPartialUse. cbv zeta. fold (hash k t).
  destruct (Z.eqb_spec (vsize t) 0) as [|Hn]; [done|].
  destruct (ScanPartialUses (drop (hash k t) t) k) as [i|] eqn:Hd.
  - intros [= <-]. apply Scan_Some_1 in Hd as [(e & He & Hm) Hb].
    rewrite lookup_drop in He. split; [by exists e|].
    unfold before. intros i' e' Hi' Hl. rewrite decide_True in Hi' by lia.
    apply (Hb (i' - hash k t)%nat); [lia|].
    rewrite lookup_drop. by replace (hash k t + (i' - hash k t))%nat with i' by lia.
  - intros Ht. pose proof (Scan_None_1 _ Hd) as Hnone.
    apply Scan_Some_1 in Ht as [(e & He & Hm) Hb].
    apply lookup_take_Some in He as [He Hj].
    split; [by exists e|].
    unfold before. intros i' e' Hi' Hl. rewrite decide_False in Hi' by lia.
    destruct Hi' as [Hi'|Hi'].
    + apply (Hnone (i' - hash k t)%nat). rewrite lookup_drop.
      by replace (hash k t + (i' - hash k t))%nat with i' by lia.
    + apply (Hb i'); [done|]. apply lookup_take_Some. split; [done|lia].
Qed.

Lemma Find_Some_2 (t : list PartialUse) (j : nat) (e : PartialUse) :
  t !! j = Some e -> matchb k e = true ->
  (forall i e', before (hash k t) j i -> t !! i = Some e' -> matchb k e' = false) ->
  FindPartialUse t k = Some j.
Proof.
  intros He Hm Hb. unfold FindPartialUse. cbv zeta. fold (hash k t).
  assert (Hne : t <> []) by (intros ->; done).
  destruct (Z.eqb_spec (vsize t) 0) as [Hz|_].
  { unfold vsize in Hz. destruct t; [done|simpl in Hz; lia]. }
  unfold before in Hb. destruct (decide (hash k t <= j)%nat) as [Hle|Hgt].
  - rewrite (Scan_Some_2 _ (j - hash k t)%nat e).
    + f_equal. lia.
    + rewrite lookup_drop. by replace (hash k t + (j - hash k t))%nat with j by lia.
    + done.
    + intros i' e' Hi' Hl. rewrite lookup_drop in Hl.
      apply (Hb (hash k t + i')%nat); [lia|done].
  - rewrite Scan_None_2.
    + apply (Scan_Some_2 _ j e); [|done|].
      * apply lookup_take_Some. split; [done|lia].
      * intros i' e' Hi' Hl. apply lookup_take_Some in Hl as [Hl _].
        apply (Hb i'); [lia|done].
    + intros i' e' Hl. rewrite lookup_drop in Hl.
      apply (Hb (hash k t + i')%nat); [lia|done].
Qed.

Lemma Find_None_1 (t : list PartialUse) :
  FindPartialUse t k = None ->
  forall i e, t !! i = Some e -> matchb k e = false.
Proof.
  unfold FindPartialUse. cbv zeta. fold (hash k t).
  destruct (Z.eqb_spec (vsize t) 0) as [Hz|Hn].
  { intros _ i e Hl. unfold vsize in Hz. destruct t; [done|simpl in Hz; lia]. }
  destruct (ScanPartialUses (drop (hash k t) t) k) as [i|] eqn:Hd; [done|].
  intros Ht i e Hl. destruct (decide (hash k t <= i)%nat).
  - apply (Scan_None_1 _ Hd (i - hash k t)%nat). rewrite lookup_drop.
    by replace (hash k t + (i - hash k t))%nat with i by lia.
  - apply (Scan_None_1 _ Ht i). apply lookup_take_Some. split; [done|lia].
Qed.

Lemma not_before_self (h j : nat) : ~ before h j j.
Proof. unfold before. case_decide; lia. Qed.

(** A probe that ends at [j] is not disturbed by changes elsewhere that
    keep the slots before [j] unmatched. *)
Lemma Find_agree (t t' : list PartialUse) (j : nat) :
  FindPartialUse t k = Some j -> length t' = length t ->
  (forall i, i = j \/ before (hash k t) j i ->
             matchb k <$> t' !! i = matchb k <$> t !! i) ->
  FindPartialUse t' k = Some j.
Proof.
  intros Hf Hlen Hag. apply Find_Some_1 in Hf as [(e & He & Hm) Hb].
  assert (Hh : hash k t' = hash k t) by (unfold hash, vsize; by rewrite Hlen).
  pose proof (Hag j (or_introl eq_refl)) as Hj. rewrite He in Hj.
  destruct (t' !! j) as [e2|] eqn:He2; [|done]. simpl in Hj.
  injection Hj as Hj.
  apply (Find_Some_2 t' j e2); [done|congruence|].
  rewrite Hh. intros i e' Hi Hl. specialize (Hag i (or_intror Hi)).
  rewrite Hl in Hag. destruct (t !! i) as [e3|] eqn:He3; [|done].
  simpl in Hag. injection Hag as Hag. rewrite Hag. by apply (Hb i).
Qed.

Lemma Find_insert_other (t : list PartialUse) (j j0 : nat) (e0 e' : PartialUse) :
  FindPartialUse t k = Some j -> t !! j0 = Some e0 -> matchb k e0 = true ->
  j0 <> j -> FindPartialUse (<[j0 := e']> t) k = Some j.
Proof.
  intros Hf He0 Hm0 Hne. apply (Find_agree t); [done|apply length_insert|].
  intros i Hi. rewrite list_lookup_insert_ne; [done|]. intros <-.
  destruct Hi as [|Hi]; [done|].
  apply Find_Some_1 in Hf as [_ Hb]. specialize (Hb j0 e0 Hi He0). congruence.
Qed.

Lemma Find_insert_same_match (t : list PartialUse) (j j0 : nat) (e0 e' : PartialUse) :
  FindPartialUse t k = Some j -> t !! j0 = Some e0 -> matchb k e' = matchb k e0 ->
  FindPartialUse (<[j0 := e']> t) k = Some j.
Proof.
  intros Hf He0 Hm. apply (Find_agree t); [done|apply length_insert|].
  intros i Hi. destruct (decide (j0 = i)) as [<-|Hne].
  - rewrite list_lookup_insert_eq by (by apply lookup_lt_Some in He0).
    rewrite He0. simpl. by rewrite Hm.
  - by rewrite list_lookup_insert_ne.
Qed.

Lemma Find_is_Some (t : list PartialUse) (i : nat) (e : PartialUse) :
  t !! i = Some e -> matchb k e = true -> is_Some (FindPartialUse t k).
Proof.
  intros He Hm. destruct (FindPartialUse t k) eqn:Hf; [done|].
  pose proof (Find_None_1 t Hf i e He). congruence.
Qed.
End Probe.

(** ** Counting the stored keys *)

Lemma used_cons (e : PartialUse) (t : list PartialUse) :
  used (e :: t) = used1 e + used t.
Proof. done. Qed.

Lemma used_bounds (t : list PartialUse) : 0 <= used t <= vsize t.
Proof.
  unfold vsize. induction t as [|e t IH]; [done|].
  rewrite used_cons. unfold used1. simpl length. destruct (first e =? UINT32_MAX); lia.
Qed.

Lemma used_insert (t : list PartialUse) (j : nat) (e e' : PartialUse) :
  t !! j = Some e -> used (<[j := e']> t) = used t - used1 e + used1 e'.
Proof.
  revert j. induction t as [|x t IH]; intros j Hl; [done|].
  destruct j as [|j]; simpl in Hl.
  - injection Hl as ->. simpl insert. rewrite !used_cons. lia.
  - simpl insert. rewrite !used_cons, (IH j Hl). lia.
Qed.

Lemma used_lt_empty (t : list PartialUse) :
  used t < vsize t -> exists j e, t !! j = Some e /\ first e = UINT32_MAX.
Proof.
  unfold vsize. induction t as [|x t IH]; intros H; [simpl in H; lia|].
  rewrite used_cons in H. unfold used1 in H. simpl length in H.
  destruct (Z.eqb_spec (first x) UINT32_MAX) as [He|Hne].
  - by exists O, x.
  - destruct IH as (j & e & Hl & He); [lia|]. by exists (S j), e.
Qed.

Lemma used_all_empty (t : list PartialUse) :
  (forall e, In e t -> first e = UINT32_MAX) -> used t = 0.
Proof.
  induction t as [|x t IH]; intros H; [done|].
  rewrite used_cons, IH by (intros e He; apply H; by right).
  unfold used1. rewrite (H x) by (by left). by rewrite Z.eqb_refl.
Qed.

Lemma used_keys (t : list PartialUse) : used t = Z.of_nat (length (keys t)).
Proof.
  induction t as [|e t IH]; [done|]. rewrite used_cons. unfold used1. simpl.
  destruct (first e =? UINT32_MAX); simpl length; lia.
Qed.

Lemma keys_In (t : list PartialUse) (x : Z) :
  In x (keys t) <-> exists i e, t !! i = Some e /\ first e = x /\ x <> UINT32_MAX.
Proof.
  induction t as [|e t IH]; simpl.
  - split; [done|]. by intros (i & e & H & _).
  - destruct (Z.eqb_spec (first e) UINT32_MAX) as [He|Hne].
    + rewrite IH. split.
      * intros (i & e' & H). by exists (S i), e'.
      * intros ([|i] & e' & Hl & Hf & Hx); simpl in Hl.
        -- injection Hl as <-. congruence.
        -- by exists i, e'.
    + simpl. rewrite IH. split.
      * intros [<-|(i & e' & H)]; [by exists O, e|by exists (S i), e'].
      * intros ([|i] & e' & Hl & Hf & Hx); simpl in Hl.
        -- injection Hl as <-. by left.
        -- right. by exists i, e'.
Qed.

Lemma keys_NoDup (t : list PartialUse) : distinct_keys t -> List.NoDup (keys t).
Proof.
  induction t as [|e t IH]; intros Hd; simpl; [constructor|].
  assert (Hd' : distinct_keys t).
  { intros i j a b Ha Hb Hab Hne.
    assert (S i = S j) by by apply (Hd (S i) (S j) a b). lia. }
  destruct (Z.eqb_spec (first e) UINT32_MAX) as [He|Hne]; [by apply IH|].
  constructor; [|by apply IH].
  intros (i & e' & Hl & Hf & _)%keys_In.
  assert (O = S i) by by apply (Hd O (S i) e e'). done.
Qed.

Lemma slots_ok_distinct (t : list PartialUse) : slots_ok t -> distinct_keys t.
Proof.
  intros Hok i j e e' Hi Hj Hee Hne.
  destruct (Hok i e Hi Hne) as [_ H1].
  destruct (Hok j e' Hj ltac:(congruence)) as [_ H2].
  rewrite Hee in H1. congruence.
Qed.

Lemma used_le_range (t : list PartialUse) : slots_ok t -> used t <= UINT32_MAX.
Proof.
  intros Hok. rewrite used_keys.
  assert (Hinc : incl (keys t) (Z.of_nat <$> seq 0 (Z.to_nat UINT32_MAX))).
  { intros x (i & e & Hl & Hf & Hx)%keys_In.
    destruct (Hok i e Hl ltac:(congruence)) as [Hr _]. rewrite Hf in Hr.
    apply in_map_iff. exists (Z.to_nat x). split; [lia|].
    apply in_seq. lia. }
  apply NoDup_incl_length in Hinc; [|by apply keys_NoDup, slots_ok_distinct].
  rewrite length_fmap, length_seq in Hinc.
  assert (0 <= UINT32_MAX) by done. lia.
Qed.

(** ** Updates that keep every key in its slot *)

Lemma matchb_empty (k : Z) (e : PartialUse) :
  first e = UINT32_MAX -> matchb k e = true.
Proof. intros H. unfold matchb. rewrite H, Z.eqb_refl. apply orb_true_r. Qed.

Lemma matchb_key (e : PartialUse) : matchb (first e) e = true.
Proof. unfold matchb. by rewrite Z.eqb_refl. Qed.

Lemma matchb_true (k : Z) (e : PartialUse) :
  matchb k e = true -> first e = k \/ first e = UINT32_MAX.
Proof.
  unfold matchb. intros [H|H]%orb_prop; apply Z.eqb_eq in H; auto.
Qed.

Lemma matchb_same_first (k : Z) (e e' : PartialUse) :
  first e' = first e -> matchb k e' = matchb k e.
Proof. unfold matchb. by intros ->. Qed.

Lemma slots_ok_insert_new (t : list PartialUse) (k : Z) (j : nat) (e : PartialUse) (d : Def) :
  slots_ok t -> FindPartialUse t k = Some j -> t !! j = Some e ->
  first e = UINT32_MAX -> 0 <= k < UINT32_MAX ->
  slots_ok (<[j := mkPartialUse k d]> t).
Proof.
  intros Hok Hf He Hempty Hk j' e' Hl Hne.
  apply list_lookup_insert_Some in Hl as [(<- & <- & Hlt)|[Hjj Hl]]; simpl.
  - split; [done|]. apply (Find_insert_same_match k t j j e); [done|done|].
    unfold matchb. simpl. rewrite Z.eqb_refl. simpl. symmetry.
    by apply matchb_empty.
  - destruct (Hok j' e' Hl Hne) as [Hr Hf'].
    split; [done|].
    apply (Find_insert_other (first e') t j' j e); [done|done| |done].
    by apply matchb_empty.
Qed.

Lemma slots_ok_insert_value (t : list PartialUse) (j : nat) (e e' : PartialUse) :
  slots_ok t -> t !! j = Some e -> first e' = first e ->
  slots_ok (<[j := e']> t).
Proof.
  intros Hok He Hfirst j' e2 Hl Hne.
  assert (Hsame : forall k, matchb k e' = matchb k e)
    by (intros k; by apply matchb_same_first).
  apply list_lookup_insert_Some in Hl as [(<- & <- & Hlt)|[Hjj Hl]].
  - rewrite Hfirst in Hne |- *. destruct (Hok j e He Hne) as [Hr Hf].
    split; [done|]. by apply (Find_insert_same_match _ t j j e).
  - destruct (Hok j' e2 Hl Hne) as [Hr Hf]. split; [done|].
    by apply (Find_insert_same_match _ t j' j e).
Qed.

(** ** Lookup *)

Lemma Find_spec (t : list PartialUse) (k : Z) :
  slots_ok t -> used t < vsize t -> k <> UINT32_MAX ->
  exists j e, FindPartialUse t k = Some j /\ t !! j = Some e /\
    ((first e = k /\ forall j' e', t !! j' = Some e' -> first e' = k -> j' = j /\ e' = e) \/
     (first e = UINT32_MAX /\ forall j' e', t !! j' = Some e' -> first e' <> k)).
Proof.
  intros Hok Hused Hk.
  destruct (used_lt_empty t Hused) as (j0 & e0 & Hl0 & He0).
  destruct (Find_is_Some k t j0 e0 Hl0 (matchb_empty k e0 He0)) as [j Hf].
  pose proof (Find_Some_1 k t j Hf) as [(e & He & Hm) _].
  exists j, e. split; [done|]. split; [done|].
  destruct (matchb_true k e Hm) as [Hkey|Hempty].
  - left. split; [done|]. intros j' e' Hl' Hf'.
    destruct (Hok j' e' Hl' ltac:(congruence)) as [_ Hfind].
    rewrite Hf' in Hfind. assert (j' = j) as -> by congruence.
    split; [done|congruence].
  - right. split; [done|]. intros j' e' Hl' Hf'.
    destruct (Hok j' e' Hl' ltac:(congruence)) as [_ Hfind].
    rewrite Hf' in Hfind. assert (j' = j) as -> by congruence.
    congruence.
Qed.

(** What a lookup returns, in terms of the entries the table holds. *)
Lemma PartialUses_find_spec (pu : PartialUses) (k : Z) :
  PartialUses_ok pu -> k <> UINT32_MAX ->
  exists r, PartialUses_find pu k = Some r /\
    forall e, r = Some e <-> (In e (entries_ pu) /\ first e = k).
Proof.
  intros (Hok & Hload & Hmax & Hsize) Hk.
  destruct (Find_spec (entries_ pu) k Hok ltac:(lia) Hk)
    as (j & e & Hf & He & Hcase).
  unfold PartialUses_find. rewrite Hf. simpl. rewrite He. simpl.
  eexists. split; [done|]. intros e'.
  destruct Hcase as [[Hkey Huniq]|[Hempty Hnone]].
  - rewrite Hkey, Z.eqb_refl. split.
    + intros [= <-]. split; [|done]. apply list_elem_of_In.
      by apply list_elem_of_lookup_2 with j.
    + intros [Hin Hf']. apply list_elem_of_In, list_elem_of_lookup in Hin as [j' Hl'].
      destruct (Huniq j' e' Hl' Hf') as [_ ->]. done.
  - rewrite Hempty. destruct (Z.eqb_spec UINT32_MAX k) as [|_]; [congruence|].
    split; [done|]. intros [Hin Hf'].
    apply list_elem_of_In, list_elem_of_lookup in Hin as [j' Hl'].
    by destruct (Hnone j' e' Hl').
Qed.

(** ** Rehashing *)

Lemma In_insert_iff {A} (t : list A) (i : nat) (e0 e x : A) :
  t !! i = Some e0 ->
  (In x (<[i := e]> t) <-> x = e \/ exists j, j <> i /\ t !! j = Some x).
Proof.
  intros Hi. rewrite <- list_elem_of_In, list_elem_of_lookup. split.
  - intros (j & Hj). apply list_lookup_insert_Some in Hj as [(<- & <- & _)|[Hne Hj]].
    + by left.
    + right. by exists j.
  - intros [->|(j & Hne & Hj)].
    + exists i. apply list_lookup_insert_eq. by apply lookup_lt_Some in Hi.
    + exists j. by rewrite list_lookup_insert_ne.
Qed.

Lemma In_lookup {A} (t : list A) (x : A) : In x t <-> exists j, t !! j = Some x.
Proof. by rewrite <- list_elem_of_In, list_elem_of_lookup. Qed.

Lemma In_insert_empty (t : list PartialUse) (i : nat) (e0 e x : PartialUse) :
  t !! i = Some e0 -> first e0 = UINT32_MAX -> first x <> UINT32_MAX ->
  (In x (<[i := e]> t) <-> x = e \/ In x t).
Proof.
  intros Hi He0 Hx. rewrite (In_insert_iff t i e0 e x Hi), In_lookup. split.
  - intros [->|(j & _ & Hj)]; [by left|right; by exists j].
  - intros [->|(j & Hj)]; [by left|]. right. exists j. split; [|done].
    intros ->. congruence.
Qed.

Lemma distinct_keys_tail (e : PartialUse) (t : list PartialUse) :
  distinct_keys (e :: t) -> distinct_keys t.
Proof.
  intros Hd i j a b Ha Hb Hab Hne.
  assert (S i = S j) by by apply (Hd (S i) (S j) a b). lia.
Qed.

Lemma rehash_loop_spec (old t : list PartialUse) :
  slots_ok t -> distinct_keys old ->
  (forall e, In e old -> first e <> UINT32_MAX -> 0 <= first e < UINT32_MAX) ->
  (forall e e', In e old -> first e <> UINT32_MAX -> In e' t -> first e' <> first e) ->
  used t + used old < vsize t ->
  exists t', rehash_loop old t = Some t' /\ slots_ok t' /\
    length t' = length t /\ used t' = used t + used old /\
    (forall x, first x <> UINT32_MAX -> (In x t' <-> In x t \/ In x old)).
Proof.
  revert t. induction old as [|e old IH]; intros t Hok Hd Hvalid Hfresh Hroom.
  { exists t. simpl. split; [done|]. split; [done|]. split; [done|].
    split; [lia|]. intros x _. tauto. }
  rewrite used_cons in Hroom. unfold used1 in Hroom. cbn [rehash_loop].
  pose proof (used_bounds old) as Hub.
  destruct (Z.eqb_spec (first e) UINT32_MAX) as [Hempty|Hne].
  - destruct (IH t) as (t' & Hrun & Hok' & Hlen & Hused & Hin); try done.
    + by apply distinct_keys_tail in Hd.
    + intros x Hx. apply Hvalid. by right.
    + intros x x' Hx. apply Hfresh. by right.
    + exists t'. split; [done|]. split; [done|]. split; [done|].
      split; [rewrite used_cons; unfold used1;
              destruct (Z.eqb_spec (first e) UINT32_MAX); [lia|done]|].
      intros x Hx. rewrite (Hin x Hx). simpl. split; [tauto|].
      intros [?|[<-|?]]; [tauto|done|tauto].
  - destruct (Find_spec t (first e) Hok ltac:(lia) Hne)
      as (i & ne & Hf & Hl & Hcase).
    destruct Hcase as [[Hkey _]|[Hnempty _]].
    { exfalso. apply (Hfresh e ne); [by left|done| |done].
      apply In_lookup. by exists i. }
    rewrite Hf. simpl. rewrite Hl. simpl. rewrite Hnempty, Z.eqb_refl.
    assert (Hok1 : slots_ok (<[i := e]> t)).
    { destruct e as [k d]. apply (slots_ok_insert_new t k i ne d); try done.
      apply (Hvalid (mkPartialUse k d)); [by left|done]. }
    assert (Hused1 : used (<[i := e]> t) = used t + 1).
    { rewrite (used_insert t i ne e Hl). unfold used1.
      rewrite Hnempty, Z.eqb_refl.
      destruct (Z.eqb_spec (first e) UINT32_MAX); [done|lia]. }
    destruct (IH (<[i := e]> t)) as (t' & Hrun & Hok' & Hlen & Hused & Hin).
    + done.
    + by apply distinct_keys_tail in Hd.
    + intros x Hx. apply Hvalid. by right.
    + intros x x' Hx Hxne Hx'.
      apply (In_insert_iff t i ne e x' Hl) in Hx' as [->|(j & _ & Hj)].
      * apply In_lookup in Hx as (jx & Hjx). intros Heq.
        assert (O = S jx) by (apply (Hd O (S jx) e x); done). done.
      * apply (Hfresh x x'); [by right|done|]. apply In_lookup. by exists j.
    + unfold vsize in *. rewrite length_insert. lia.
    + exists t'. split; [done|]. split; [done|].
      split; [by rewrite Hlen, length_insert|].
      split; [rewrite Hused, Hused1;
              destruct (Z.eqb_spec (first e) UINT32_MAX); [done|lia]|].
      intros x Hx. rewrite (Hin x Hx), (In_insert_empty t i ne e x Hl Hnempty Hx).
      simpl. split; [intros [[->|?]|?]; tauto|intros [?|[<-|?]]; tauto].
Qed.

Lemma length_resize {A} (n : Z) (v : A) (l : list A) :
  length (resize n v l) = Z.to_nat n.
Proof.
  unfold resize. rewrite length_app, length_take, length_replicate. lia.
Qed.

Lemma cleared_all_empty (n : Z) (l : list PartialUse) (e : PartialUse) :
  In e (clear_first <$> resize n PartialUse_zero l) -> first e = UINT32_MAX.
Proof. intros (x & <- & _)%in_map_iff. done. Qed.

Lemma slots_ok_all_empty (t : list PartialUse) :
  (forall e, In e t -> first e = UINT32_MAX) -> slots_ok t.
Proof.
  intros H j e Hl Hne. exfalso. apply Hne, H, In_lookup. by exists j.
Qed.

(** [reserve(n)] makes the table size the least prime that is at least
    [2n + 1] and keeps the stored entries, when the table holds at most
    [2n] of them. *)
Lemma PartialUses_reserve_spec (primes : list Z) (pu : PartialUses) (n : Z) :
  good_primes primes -> slots_ok (entries_ pu) ->
  1 <= n <= 2 ^ 33 -> used (entries_ pu) <= 2 * n ->
  exists primes' pu' q,
    PartialUses_reserve primes pu n = Some (primes', pu') /\
    good_primes primes' /\ slots_ok (entries_ pu') /\
    vsize (entries_ pu') = q /\ next_prime (2 * n + 1) q /\ q < 4 * n + 2 /\
    load_ pu' = load_ pu /\ maxLoad_ pu' = q / 2 /\
    used (entries_ pu') = used (entries_ pu) /\
    (forall x, first x <> UINT32_MAX ->
               (In x (entries_ pu') <-> In x (entries_ pu))).
Proof.
  intros Hg Hok Hn Hused. unfold PartialUses_reserve. cbv zeta.
  assert (2 ^ 33 = 8589934592) as Hp33 by done.
  assert (2 ^ 34 = 17179869184) as Hp34 by done.
  assert (2 ^ 64 = 18446744073709551616) as Hp64 by done.
  rewrite wrap64_small by lia.
  destruct (GetFirstPrime_total (prime_fuel (n * 2)) primes (n * 2))
    as (primes' & q & -> & Hg' & Hnext & Hq); [done|lia|lia|].
  rewrite lor_1_even in Hnext.
  2:{ by rewrite Z.mod_mul by lia. }
  pose proof Hnext as (_ & Hle & _). simpl.
  set (cleared := clear_first <$> resize q PartialUse_zero (entries_ pu)).
  assert (Hclr : forall e, In e cleared -> first e = UINT32_MAX)
    by apply cleared_all_empty.
  assert (Hlen : length cleared = Z.to_nat q).
  { unfold cleared. by rewrite length_fmap, length_resize. }
  destruct (rehash_loop_spec (entries_ pu) cleared)
    as (t' & -> & Hok' & Hlen' & Hused' & Hin).
  - by apply slots_ok_all_empty.
  - by apply slots_ok_distinct.
  - intros e (j & Hj)%In_lookup Hne. by destruct (Hok j e Hj Hne).
  - intros e e' _ Hne He'. rewrite (Hclr e' He'). congruence.
  - rewrite (used_all_empty cleared Hclr). unfold vsize. lia.
  - simpl. eexists _, _, q. split; [done|]. simpl.
    split; [done|]. split; [done|].
    split; [unfold vsize; lia|]. split; [by replace (2 * n + 1) with (n * 2 + 1) by lia|].
    split; [lia|]. split; [done|]. split; [done|].
    split; [rewrite Hused', (used_all_empty cleared Hclr); lia|].
    intros x Hx. rewrite (Hin x Hx). split; [|tauto].
    intros [Hc|?]; [|done]. by apply Hclr in Hc.
Qed.

(** ** [operator[]] and assignment *)

Lemma PartialUses_index_spec (primes : list Z) (pu : PartialUses) (k : Z) :
  good_primes primes -> PartialUses_ok pu -> 0 <= k < UINT32_MAX ->
  exists primes' pu' i e,
    PartialUses_index primes pu k = Some (primes', pu', i) /\
    good_primes primes' /\ PartialUses_ok pu' /\
    entries_ pu' !! i = Some e /\ first e = k /\
    (forall x, first x <> UINT32_MAX -> first x <> k ->
               (In x (entries_ pu') <-> In x (entries_ pu))) /\
    size_step pu pu'.
Proof.
  intros Hg (Hok & Hload & Hmax & Hsize) Hk.
  assert (2 ^ 33 = 8589934592) as Hp33 by done.
  assert (2 ^ 64 = 18446744073709551616) as Hp64 by done.
  assert (UINT32_MAX = 4294967295) as HU by done.
  destruct (Find_spec (entries_ pu) k Hok ltac:(lia) ltac:(lia))
    as (j & e & Hf & He & Hcase).
  unfold PartialUses_index. rewrite Hf. cbn [mbind option_bind]. rewrite He.
  cbn [mbind option_bind].
  destruct Hcase as [[Hkey _]|[Hempty Hnone]].
  { rewrite Hkey, Z.eqb_refl. exists primes, pu, j, e.
    do 6 (split; [done|]). by left. }
  rewrite Hempty. destruct (Z.eqb_spec UINT32_MAX k) as [|_]; [lia|].
  set (entries1 := <[j := mkPartialUse k (second e)]> (entries_ pu)).
  assert (Hok1 : slots_ok entries1) by by apply (slots_ok_insert_new _ k j e).
  assert (Hused1 : used entries1 = used (entries_ pu) + 1).
  { unfold entries1. rewrite (used_insert _ j e _ He). unfold used1. simpl.
    rewrite Hempty, Z.eqb_refl. destruct (Z.eqb_spec k UINT32_MAX); lia. }
  assert (Hlen1 : length entries1 = length (entries_ pu)) by apply length_insert.
  assert (Hj1 : entries1 !! j = Some (mkPartialUse k (second e))).
  { apply list_lookup_insert_eq. by apply lookup_lt_Some in He. }
  assert (Hin1 : forall x, first x <> UINT32_MAX -> first x <> k ->
                           (In x entries1 <-> In x (entries_ pu))).
  { intros x Hx Hxk. unfold entries1.
    rewrite (In_insert_empty _ j e _ x He Hempty Hx). split; [|tauto].
    intros [->|?]; [done|done]. }
  pose proof (used_le_range entries1 Hok1) as Hrange.
  pose proof (used_bounds (entries_ pu)) as Hub.
  rewrite (wrap64_small (load_ pu + 1)) by lia.
  destruct (Z.leb_spec (load_ pu + 1) (maxLoad_ pu)) as [Hle|Hgt].
  - eexists primes, _, j, _. split; [done|]. split; [done|]. simpl.
    split; [split; [done|]; simpl; unfold vsize in *; lia|].
    do 3 (split; [done|]). by left.
  - rewrite (wrap64_small ((load_ pu + 1) * 2)) by lia.
    destruct (PartialUses_reserve_spec primes
                (mkPartialUses entries1 (load_ pu + 1) (maxLoad_ pu))
                ((load_ pu + 1) * 2))
      as (primes' & pu2 & q & -> & Hg' & Hok2 & Hsize2 & Hnext & Hq & Hload2 &
          Hmax2 & Hused2 & Hin2); simpl; try done; try lia.
    simpl in *. cbn [mbind option_bind].
    pose proof Hnext as (_ & Hqle & _).
    destruct (Find_spec (entries_ pu2) k Hok2 ltac:(lia) ltac:(lia))
      as (j2 & e2 & Hf2 & He2 & Hcase2).
    rewrite Hf2. cbn [mbind option_bind]. rewrite He2. cbn [mbind option_bind].
    destruct Hcase2 as [[Hkey2 _]|[_ Hnone2]].
    + rewrite Hkey2, Z.eqb_refl. exists primes', pu2, j2, e2.
      split; [done|]. split; [done|]. split.
      { split; [done|]. split; [lia|].
        assert (Hq2 : (load_ pu + 1) * 2 <= q / 2)
          by (apply Z.div_le_lower_bound; lia).
        assert (q / 2 < q) by (apply Z.div_lt; lia).
        lia. }
      split; [done|]. split; [done|].
      split; [intros x Hx Hxk; rewrite (Hin2 x Hx); by apply Hin1|].
      right. rewrite Hsize2. split; [lia|]. split; [|done].
      by replace (4 * (load_ pu + 1) + 1) with (2 * ((load_ pu + 1) * 2) + 1) by lia.
    + exfalso.
      assert (Hin : In (mkPartialUse k (second e)) (entries_ pu2)).
      { apply Hin2; [simpl; lia|]. apply In_lookup. by exists j. }
      apply In_lookup in Hin as (j' & Hj'). by apply (Hnone2 j' _ Hj').
Qed.

Lemma PartialUses_set_spec (primes : list Z) (pu : PartialUses) (k : Z) (d : Def) :
  good_primes primes -> PartialUses_ok pu -> 0 <= k < UINT32_MAX ->
  exists primes' pu',
    PartialUses_set primes pu k d = Some (primes', pu') /\
    good_primes primes' /\ PartialUses_ok pu' /\
    (forall x, first x <> UINT32_MAX ->
       (In x (entries_ pu') <->
        x = mkPartialUse k d \/ (first x <> k /\ In x (entries_ pu)))) /\
    size_step pu pu'.
Proof.
  intros Hg Hpu Hk.
  destruct (PartialUses_index_spec primes pu k Hg Hpu Hk)
    as (primes' & pu' & i & e & Hrun & Hg' & (Hok & Hload & Hmax & Hsize) &
        Hi & Hkey & Hin & Hstep).
  unfold PartialUses_set. rewrite Hrun. cbn [mbind option_bind]. rewrite Hi.
  cbn [mbind option_bind]. eexists _, _. split; [done|]. split; [done|].
  rewrite Hkey. simpl.
  assert (Hused : used (<[i := mkPartialUse k d]> (entries_ pu')) = used (entries_ pu')).
  { rewrite (used_insert _ i e _ Hi). unfold used1. simpl. rewrite Hkey. lia. }
  split; [|split].
  - split; [|split; [|split; [done|]]]; simpl.
    + by apply (slots_ok_insert_value _ i e).
    + lia.
    + unfold vsize in *. rewrite length_insert. lia.
  - intros x Hx. rewrite (In_insert_iff _ i e _ x Hi). split.
    + intros [->|(j & Hne & Hj)]; [by left|]. right.
      assert (Hxk : first x <> k).
      { intros Hxk. apply Hne.
        apply (slots_ok_distinct _ Hok j i x e Hj Hi); congruence. }
      split; [done|]. apply Hin; [done|done|]. apply In_lookup. by exists j.
    + intros [->|[Hxk Hinx]]; [by left|]. right.
      apply Hin in Hinx; [|done|done]. apply In_lookup in Hinx as (j & Hj).
      exists j. split; [|done]. intros ->. congruence.
  - unfold size_step, vsize in *. simpl. by rewrite length_insert.
Qed.


(** ** The size of the table *)

Lemma PartialUses_Init_ok : PartialUses_ok PartialUses_Init.
Proof.
  unfold PartialUses_ok, PartialUses_Init. cbn [entries_ load_ maxLoad_].
  split; [|split; [|done]].
  - apply slots_ok_all_empty. apply cleared_all_empty.
  - symmetry. apply used_all_empty. apply cleared_all_empty.
Qed.

Lemma prime_11 : Z.prime 11.
Proof. apply is_prime_trial_sound. by vm_compute. Qed.

Lemma PartialUses_Init_sized : prime_sized PartialUses_Init.
Proof. split; [apply prime_11|done]. Qed.







Lemma next_prime_even (n q : Z) :
  2 <= n -> next_prime (2 * n + 1) q -> next_prime (2 * n) q.
Proof.
  intros Hn (Hq & Hle & Hmin). split; [done|]. split; [lia|].
  intros p Hp Hnp. apply Hmin; [done|].
  destruct (Z.eq_dec p (2 * n)) as [->|]; [|lia]. exfalso.
  destruct Hp as [_ Hp]. apply (Hp 2); [lia|]. by exists n; lia.
Qed.


(** [reserve(0)] on the table of [Init] leaves one empty slot. *)
Lemma PartialUses_reserve_0 (primes : list Z) :
  good_primes primes ->
  PartialUses_reserve primes PartialUses_Init 0 =
    Some (primes, mkPartialUses [mkPartialUse UINT32_MAX Def_zero] 0 0).
Proof.
  intros Hg. unfold PartialUses_reserve. cbv zeta.
  change (wrap64 (0 * 2)) with 0.
  rewrite (GetFirstPrime_0 _ primes Hg) by (vm_compute; lia).
  reflexivity.
Qed.

(** The table of [UdState::Init]: well-formed and without entries. *)
Lemma PartialUses_reserve_Init (primes : list Z) (n : Z) :
  good_primes primes -> 0 <= n <= 2 ^ 33 ->
  exists primes' pu',
    PartialUses_reserve primes PartialUses_Init n = Some (primes', pu') /\
    good_primes primes' /\ PartialUses_ok pu' /\
    forall x, In x (entries_ pu') -> first x = UINT32_MAX.
Proof.
  intros Hg Hn. destruct (Z.eq_dec n 0) as [->|Hne].
  - rewrite (PartialUses_reserve_0 primes Hg). eexists _, _.
    split; [done|]. split; [done|]. split.
    + split; [|done]. apply slots_ok_all_empty.
      intros e [<-|[]]. done.
    + intros x [<-|[]]. done.
  - pose proof PartialUses_Init_ok as Hok. pose proof Hok as (Hs & _).
    destruct (PartialUses_reserve_spec primes PartialUses_Init n Hg Hs)
      as (primes' & pu' & q & Hrun & Hg' & Hs' & Hq & Hnext & Hlt & Hl & Hm &
          Hused & Hin); [lia| |].
    { replace (used (entries_ PartialUses_Init)) with 0; [lia|].
      symmetry. apply used_all_empty. apply cleared_all_empty. }
    exists primes', pu'. split; [done|]. split; [done|]. split.
    + split; [done|]. rewrite Hused, Hl, Hm, Hq.
      destruct Hnext as (_ & Hle & _).
      replace (used (entries_ PartialUses_Init)) with 0
        by (symmetry; apply used_all_empty, cleared_all_empty).
      change (load_ PartialUses_Init) with 0.
      split; [done|]. split.
      * apply Z.div_le_lower_bound; lia.
      * apply Z.div_lt_upper_bound; lia.
    + intros x Hx. destruct (Z.eq_dec (first x) UINT32_MAX) as [|Hk]; [done|].
      apply (Hin x Hk) in Hx. by apply (cleared_all_empty 11 [] x).
Qed.

(** * The live-writer map *)

Lemma Forall_lt_fmap_fst (k : Z) (m : AddressSpace) :
  Forall (Z.lt k) (fst <$> m) <-> forall e v, In (e, v) m -> k < e.
Proof.
  rewrite List.Forall_forall. split.
  - intros H e v Hin. apply H. apply in_map_iff. by exists (e, v).
  - intros H x (y & <- & Hy)%in_map_iff. destruct y as [e v]. by apply (H e v).
Qed.

Lemma map_sorted_cons (e : Z) (v : EntryValue.t) (m : AddressSpace) :
  map_sorted ((e, v) :: m) <->
  (forall e' v', In (e', v') m -> e < e') /\ map_sorted m.
Proof.
  unfold map_sorted. simpl. rewrite StronglySorted_cons.
  by rewrite Forall_lt_fmap_fst.
Qed.

Lemma map_sorted_unique (m : AddressSpace) (e : Z) (v v' : EntryValue.t) :
  map_sorted m -> In (e, v) m -> In (e, v') m -> v = v'.
Proof.
  induction m as [|[e0 v0] m IH]; intros Hs H1 H2; [done|].
  apply map_sorted_cons in Hs as [Hlt Hs].
  destruct H1 as [[= <- <-]|H1], H2 as [[= <-]|H2]; try done.
  - specialize (Hlt _ _ H2). lia.
  - specialize (Hlt _ _ H1). lia.
  - by apply IH.
Qed.

(** ** [m[k] = v] *)

Lemma map_assign_In (m : AddressSpace) (k : Z) (v : EntryValue.t) (x : Z * EntryValue.t) :
  map_sorted m ->
  (In x (map_assign m k v) <-> x = (k, v) \/ (fst x <> k /\ In x m)).
Proof.
  induction m as [|[e0 v0] m IH]; intros Hs; simpl.
  { split; [intros [<-|[]]; by left|intros [->|[_ []]]; by left]. }
  apply map_sorted_cons in Hs as [Hlt Hs].
  destruct (Z.ltb_spec k e0) as [Hk|Hk].
  - simpl. split.
    + intros [<-|[<-|Hin]]; [by left|right; simpl; split; [lia|by left]|].
      right. destruct x as [e v']. specialize (Hlt _ _ Hin). simpl.
      split; [lia|by right].
    + intros [->|[Hne [<-|Hin]]]; [by left|right; by left|right; by right].
  - destruct (Z.eqb_spec k e0) as [->|Hne].
    + simpl. split.
      * intros [<-|Hin]; [by left|]. right. destruct x as [e v'].
        specialize (Hlt _ _ Hin). simpl. split; [lia|by right].
      * intros [->|[Hne [<-|Hin]]]; [by left|done|by right].
    + simpl. rewrite (IH Hs). split.
      * intros [<-|[->|[Hx Hin]]]; [right; simpl; split; [lia|by left]|by left|].
        right. split; [done|by right].
      * intros [->|[Hx [<-|Hin]]]; [right; by left|by left|right; right; done].
Qed.

Lemma map_assign_sorted (m : AddressSpace) (k : Z) (v : EntryValue.t) :
  map_sorted m -> map_sorted (map_assign m k v).
Proof.
  induction m as [|[e0 v0] m IH]; intros Hs; simpl.
  { apply map_sorted_cons. split; [done|constructor]. }
  pose proof Hs as Hs0. apply map_sorted_cons in Hs as [Hlt Hs].
  destruct (Z.ltb_spec k e0) as [Hk|Hk].
  - apply map_sorted_cons. split; [|done].
    intros e' v' [[= <- <-]|Hin]; [done|]. specialize (Hlt _ _ Hin). lia.
  - destruct (Z.eqb_spec k e0) as [->|Hne].
    + apply map_sorted_cons. done.
    + apply map_sorted_cons. split; [|by apply IH].
      intros e' v' Hin. apply (map_assign_In m k v (e', v') Hs) in Hin.
      destruct Hin as [[= -> ->]|[_ Hin]]; [lia|by apply (Hlt e' v')].
Qed.

Lemma fold_assign_sorted (assigns : list (Z * EntryValue.t)) (m : AddressSpace) :
  map_sorted m -> map_sorted (fold_assign m assigns).
Proof.
  revert m. induction assigns as [|[k v] l IH]; intros m Hs; [done|].
  simpl. apply IH. by apply map_assign_sorted.
Qed.

Lemma fold_assign_In (assigns : list (Z * EntryValue.t)) (m : AddressSpace)
    (x : Z * EntryValue.t) :
  map_sorted m -> List.NoDup (fst <$> assigns) ->
  (In x (fold_assign m assigns) <->
   In x assigns \/ (~ In (fst x) (fst <$> assigns) /\ In x m)).
Proof.
  revert m. induction assigns as [|[k v] l IH]; intros m Hs Hnd.
  { simpl. split; [intros ?; right; split; [by intros []|done]|].
    by intros [[]|[_ ?]]. }
  simpl in Hnd. apply NoDup_cons_iff in Hnd as [Hk Hnd].
  simpl. rewrite (IH _ (map_assign_sorted m k v Hs) Hnd).
  rewrite (map_assign_In m k v x Hs). split.
  - intros [Hin|[Hnin [->|[Hne Hin]]]].
    + left. by right.
    + left. by left.
    + right. split; [|done]. intros [Heq|?]; [by apply Hne|done].
  - intros [[<-|Hin]|[Hnin Hin]].
    + right. split; [done|by left].
    + by left.
    + right. split; [intros ?; apply Hnin; by right|].
      right. split; [|done]. intros Heq. apply Hnin. by left.
Qed.

(** ** [lower_bound] and the walk over the affected entries *)

Lemma lower_bound_split (m : AddressSpace) (k : Z) :
  map_sorted m ->
  (forall x, In x (take (map_lower_bound m k) m) -> fst x < k) /\
  (forall x, In x (drop (map_lower_bound m k) m) -> k <= fst x).
Proof.
  induction m as [|[e0 v0] m IH]; intros Hs; simpl; [done|].
  apply map_sorted_cons in Hs as [Hlt Hs].
  destruct (Z.ltb_spec e0 k) as [Hk|Hk]; simpl.
  - destruct (IH Hs) as [H1 H2]. split; [|done].
    intros x [<-|Hx]; [done|by apply H1].
  - split; [done|]. intros [e v] [[= <- <-]|Hx]; [done|].
    specialize (Hlt _ _ Hx). simpl. lia.
Qed.

Lemma count_affected_split (l : AddressSpace) (endAddr : Z) :
  live_ok l ->
  (forall x, In x (take (count_affected l endAddr) l) ->
             EntryValue.startAddr (snd x) < endAddr) /\
  (forall x, In x (drop (count_affected l endAddr) l) ->
             endAddr <= EntryValue.startAddr (snd x)).
Proof.
  induction l as [|[e0 v0] l IH]; intros Hl; simpl; [done|].
  destruct Hl as (Hs & Hne & Hd).
  pose proof Hs as Hs0. apply map_sorted_cons in Hs as [Hlt Hs].
  assert (Hl' : live_ok l).
  { split; [done|]. split.
    - intros e v Hin. apply (Hne e v). by right.
    - intros e1 v1 e2 v2 H1 H2. apply (Hd e1 v1 e2 v2); by right. }
  destruct (Z.ltb_spec (EntryValue.startAddr v0) endAddr) as [Hk|Hk]; simpl.
  - destruct (IH Hl') as [H1 H2]. split; [|done].
    intros x [<-|Hx]; [done|by apply H1].
  - split; [done|]. intros [e v] [[= <- <-]|Hx]; [done|]. simpl.
    specialize (Hlt _ _ Hx).
    assert (e0 <= EntryValue.startAddr v).
    { apply (Hd e0 v0 e v); [by left|by right|done]. }
    specialize (Hne e0 v0 ltac:(by left)). lia.
Qed.

Lemma live_ok_drop (m : AddressSpace) (n : nat) : live_ok m -> live_ok (drop n m).
Proof.
  intros (Hs & Hne & Hd). split; [|split].
  - unfold map_sorted in *. rewrite <- (take_drop n m), fmap_app in Hs.
    by apply StronglySorted_app_1_r in Hs.
  - intros e v Hin. apply (Hne e v). rewrite <- (take_drop n m).
    apply in_or_app. by right.
  - intros e1 v1 e2 v2 H1 H2. apply (Hd e1 v1 e2 v2);
      rewrite <- (take_drop n m); apply in_or_app; by right.
Qed.

Section Affected.
Variables (m : AddressSpace) (k endAddr : Z).
Hypothesis Hlive : live_ok m.

Let f := map_lower_bound m k.
Let n := count_affected (drop f m) endAddr.

Lemma three_parts : m = take f m ++ take n (drop f m) ++ drop (f + n) m.
Proof.
  rewrite <- (drop_drop m n f), (take_drop n (drop f m)).
  by rewrite take_drop.
Qed.

Lemma affected_In (x : Z * EntryValue.t) :
  In x (take n (drop f m)) <->
  In x m /\ k <= fst x /\ EntryValue.startAddr (snd x) < endAddr.
Proof.
  destruct (lower_bound_split m k (proj1 Hlive)) as [Hpre Hsuf].
  destruct (count_affected_split (drop f m) endAddr (live_ok_drop m f Hlive))
    as [Haff Hpost].
  fold f in Hpre, Hsuf. fold n in Haff, Hpost. split.
  - intros Hin. split; [|split].
    + rewrite three_parts. apply in_or_app. right. apply in_or_app. by left.
    + apply Hsuf. rewrite <- (take_drop n (drop f m)). apply in_or_app. by left.
    + by apply Haff.
  - intros (Hin & Hk & He). rewrite three_parts in Hin.
    apply in_app_or in Hin as [Hin|Hin].
    { specialize (Hpre x Hin). lia. }
    apply in_app_or in Hin as [Hin|Hin]; [done|].
    rewrite <- drop_drop in Hin. specialize (Hpost x Hin). lia.
Qed.

Lemma erased_In (x : Z * EntryValue.t) :
  In x (map_erase m f (f + n)) <->
  In x m /\ ~ (k <= fst x /\ EntryValue.startAddr (snd x) < endAddr).
Proof.
  destruct (lower_bound_split m k (proj1 Hlive)) as [Hpre Hsuf].
  destruct (count_affected_split (drop f m) endAddr (live_ok_drop m f Hlive))
    as [Haff Hpost].
  fold f in Hpre, Hsuf. fold n in Haff, Hpost. unfold map_erase. split.
  - intros Hin. apply in_app_or in Hin as [Hin|Hin].
    + split; [|specialize (Hpre x Hin); lia].
      rewrite <- (take_drop f m). apply in_or_app. by left.
    + split.
      * rewrite three_parts. apply in_or_app. right. apply in_or_app. by right.
      * rewrite <- drop_drop in Hin. specialize (Hpost x Hin). lia.
  - intros (Hin & Hno). rewrite three_parts in Hin. apply in_or_app.
    apply in_app_or in Hin as [Hin|Hin]; [by left|].
    apply in_app_or in Hin as [Hin|Hin]; [|by right].
    exfalso. apply Hno. apply affected_In in Hin. tauto.
Qed.

Lemma erased_sorted : map_sorted (map_erase m f (f + n)).
Proof.
  destruct Hlive as (Hs & _). unfold map_sorted, map_erase in *.
  rewrite three_parts, !fmap_app in Hs. rewrite fmap_app.
  apply StronglySorted_app in Hs as (H12 & H1 & H23).
  apply StronglySorted_app in H23 as (_ & _ & H3).
  apply StronglySorted_app_2; [|done|done].
  intros x1 x2 Hx1 Hx2. apply H12; [done|]. apply elem_of_app. by right.
Qed.

Lemma affected_length : n = length (take n (drop f m)).
Proof.
  rewrite length_take. 
  assert (n <= length (drop f m))%nat; [|lia].
  unfold n. generalize (drop f m). intros l.
  induction l as [|[e v] l IH]; simpl; [lia|].
  destruct (EntryValue.startAddr v <? endAddr); simpl; lia.
Qed.
End Affected.

(** ** The residues *)

Lemma AddDefs_loop_fold (a b : Z) (affected m : AddressSpace) :
  AddDefs_loop a b affected m = fold_assign m (flat_map (residues a b) affected).
Proof.
  revert m. induction affected as [|[e v] l IH]; intros m; [done|].
  cbn [AddDefs_loop flat_map]. cbv zeta. rewrite IH.
  unfold fold_assign at 2. rewrite fold_left_app. fold (fold_assign m (residues a b (e, v))).
  f_equal. unfold residues. simpl.
  destruct (Z.leb_spec a (EntryValue.startAddr v)),
           (Z.ltb_spec b e), (Z.leb_spec e b),
           (Z.ltb_spec (EntryValue.startAddr v) a); simpl; try done; lia.
Qed.

Lemma residues_In (a b : Z) (y x : Z * EntryValue.t) :
  In x (residues a b y) <->
  (x = (a, EntryValue.mk (EntryValue.startAddr (snd y)) (EntryValue.defIndex (snd y))) /\
   EntryValue.startAddr (snd y) < a) \/
  (x = (fst y, EntryValue.mk b (EntryValue.defIndex (snd y))) /\ b < fst y).
Proof.
  unfold residues. cbv zeta.
  destruct (Z.leb_spec a (EntryValue.startAddr (snd y))),
           (Z.ltb_spec b (fst y)), (Z.leb_spec (fst y) b),
           (Z.ltb_spec (EntryValue.startAddr (snd y)) a); simpl;
    try lia; intuition (try congruence; try lia).
Qed.

Lemma live_ok_tail (y : Z * EntryValue.t) (l : AddressSpace) :
  live_ok (y :: l) -> live_ok l.
Proof. intros H. apply (live_ok_drop (y :: l) 1 H). Qed.

Lemma residues_keys_NoDup (a b : Z) (l : AddressSpace) :
  live_ok l -> a < b -> (forall y, In y l -> overlaps a b y) ->
  List.NoDup (fst <$> flat_map (residues a b) l).
Proof.
  induction l as [|[e v] l IH]; intros Hl Hab Hov; [constructor|].
  cbn [flat_map]. rewrite fmap_app.
  pose proof Hl as (Hs & Hne & Hd).
  apply map_sorted_cons in Hs as [Hlt Hs].
  assert (Hove : overlaps a b (e, v)) by (apply Hov; by left).
  destruct Hove as [Hae Hsb]. simpl in Hae, Hsb.
  apply NoDup_ListNoDup, NoDup_app. split; [|split].
  - apply NoDup_ListNoDup. unfold residues. simpl.
    destruct (Z.leb_spec a (EntryValue.startAddr v)),
           (Z.ltb_spec b e), (Z.leb_spec e b),
           (Z.ltb_spec (EntryValue.startAddr v) a); simpl;
      repeat constructor; simpl; try lia; try tauto.
  - intros k Hk Hk'.
    apply list_elem_of_In, in_map_iff in Hk as (x & <- & Hx).
    apply list_elem_of_In, in_map_iff in Hk' as (x' & Hfx & Hx').
    apply in_flat_map in Hx' as ([e' v'] & Hy' & Hx').
    apply residues_In in Hx, Hx'. simpl in Hx, Hx'.
    specialize (Hlt _ _ Hy').
    assert (e <= EntryValue.startAddr v').
    { apply (Hd e v e' v'); [by left|by right|done]. }
    destruct Hx as [[-> ?]|[-> ?]], Hx' as [[-> ?]|[-> ?]]; simpl in Hfx; lia.
  - apply NoDup_ListNoDup, IH; [by apply live_ok_tail in Hl|done|].
    intros y Hy. apply Hov. by right.
Qed.

Lemma filter_all (P : Z * EntryValue.t -> bool) (l : AddressSpace) :
  (forall x, In x l -> P x = true) -> List.filter P l = l.
Proof.
  induction l as [|x l IH]; intros H; [done|]. simpl.
  rewrite (H x) by (by left). f_equal. apply IH. intros y Hy. apply H. by right.
Qed.

Lemma filter_none (P : Z * EntryValue.t -> bool) (l : AddressSpace) :
  (forall x, In x l -> P x = false) -> List.filter P l = [].
Proof.
  induction l as [|x l IH]; intros H; [done|]. simpl.
  rewrite (H x) by (by left). apply IH. intros y Hy. apply H. by right.
Qed.

Lemma overlapsb_spec (a b : Z) (y : Z * EntryValue.t) :
  overlapsb a b y = true <-> overlaps a b y.
Proof.
  unfold overlapsb, overlaps. rewrite andb_true_iff, !Z.ltb_lt. done.
Qed.

(** For a non-empty range and a non-empty interval, [overlaps] says that
    they share an address. *)
Lemma overlaps_iff (a b : Z) (y : Z * EntryValue.t) :
  a < b -> EntryValue.startAddr (snd y) < fst y ->
  (overlaps a b y <->
   exists x, a <= x < b /\ EntryValue.startAddr (snd y) <= x < fst y).
Proof.
  intros Hab Hy. unfold overlaps. split.
  - intros [H1 H2]. exists (Z.max a (EntryValue.startAddr (snd y))). lia.
  - intros (x & H1 & H2). lia.
Qed.

(** The entries that the walk of [AddDefs] and [AddUses] goes over are the
    entries of the map that overlap the range. *)
Lemma affected_filter (m : AddressSpace) (a b : Z) :
  live_ok m ->
  take (count_affected (drop (map_lower_bound m (a + 1)) m) b)
       (drop (map_lower_bound m (a + 1)) m) =
  List.filter (overlapsb a b) m.
Proof.
  intros Hl.
  set (f := map_lower_bound m (a + 1)).
  set (n := count_affected (drop f m) b).
  rewrite (three_parts m (a + 1) b) at 2. fold f n.
  rewrite !List.filter_app.
  destruct (lower_bound_split m (a + 1) (proj1 Hl)) as [Hpre _].
  destruct (count_affected_split (drop f m) b (live_ok_drop m f Hl)) as [_ Hpost].
  fold f in Hpre. fold n in Hpost.
  rewrite (filter_none _ (take f m)), (filter_none _ (drop (f + n) m)).
  - rewrite filter_all; [by rewrite app_nil_r|].
    intros x Hx. apply (affected_In m (a + 1) b Hl) in Hx.
    apply overlapsb_spec. unfold overlaps. lia.
  - intros x Hx. rewrite <- drop_drop in Hx. specialize (Hpost x Hx).
    unfold overlapsb. destruct (Z.ltb_spec (EntryValue.startAddr (snd x)) b); [lia|].
    apply andb_false_r.
  - intros x Hx. specialize (Hpre x Hx). unfold overlapsb.
    destruct (Z.ltb_spec a (fst x)); [lia|done].
Qed.

Lemma wrapW_small (W x : Z) : 0 <= x <= WMAX W -> wrapW W x = x.
Proof.
  intros H. unfold wrapW, wrap, WMAX in *. apply Z.mod_small. lia.
Qed.

Lemma wrap32_small (x : Z) : 0 <= x < 2 ^ 32 -> wrap32 x = x.
Proof. intros H. unfold wrap32, wrap. by apply Z.mod_small. Qed.

Lemma WMAX_pos (W : Z) : 0 < W -> 0 < WMAX W.
Proof.
  intros HW. unfold WMAX.
  assert (2 ^ 8 <= 2 ^ (8 * W)) by (apply Z.pow_le_mono_r; lia).
  assert (2 ^ 8 = 256) by done. lia.
Qed.

(** ** The map after [AddDefs] *)

Lemma AddDefs_map_In (m : AddressSpace) (a b d : Z) (x : Z * EntryValue.t) :
  live_ok m -> a < b ->
  let f := map_lower_bound m (a + 1) in
  let n := count_affected (drop f m) b in
  In x (map_assign
          (AddDefs_loop a b (take n (drop f m)) (map_erase m f (f + n)))
          b (EntryValue.mk a d)) <->
  after_AddDefs m a b d x.
Proof.
  intros Hl Hab f n.
  pose proof (erased_sorted m (a + 1) b Hl) as Hes. fold f n in Hes.
  pose proof (affected_In m (a + 1) b Hl) as Haff. fold f n in Haff.
  pose proof (erased_In m (a + 1) b Hl) as Her. fold f n in Her.
  set (aff := take n (drop f m)) in *.
  set (m1 := map_erase m f (f + n)) in *.
  assert (Hov : forall y, In y aff <-> In y m /\ overlaps a b y).
  { intros y. rewrite Haff. unfold overlaps. intuition lia. }
  assert (Hlaff : live_ok aff).
  { destruct Hl as (Hs & Hne & Hd). split; [|split].
    - unfold map_sorted in *. rewrite (three_parts m (a + 1) b) in Hs.
      fold f n aff in Hs. rewrite !fmap_app in Hs.
      apply StronglySorted_app_1_r in Hs. by apply StronglySorted_app_1_l in Hs.
    - intros e v Hin. apply (Hne e v). by apply Hov in Hin as [? _].
    - intros e1 v1 e2 v2 H1 H2. apply (Hd e1 v1 e2 v2).
      + by apply Hov in H1 as [? _].
      + by apply Hov in H2 as [? _]. }
  rewrite AddDefs_loop_fold.
  set (R := flat_map (residues a b) aff).
  assert (HR : forall z, In z R <-> exists y, In y m /\ overlaps a b y /\ In z (residues a b y)).
  { intros z. unfold R. rewrite in_flat_map. split.
    - intros (y & Hy & Hz). exists y. apply Hov in Hy. tauto.
    - intros (y & Hy & Ho & Hz). exists y. split; [|done]. by apply Hov. }
  assert (Hfold : map_assign (fold_assign m1 R) b (EntryValue.mk a d) =
                  fold_assign m1 (R ++ [(b, EntryValue.mk a d)])).
  { unfold fold_assign. by rewrite fold_left_app. }
  rewrite Hfold. rewrite fold_assign_In; [|done|].
  2:{ rewrite fmap_app. apply NoDup_ListNoDup, NoDup_app. split; [|split].
      - apply NoDup_ListNoDup, residues_keys_NoDup; [done|done|].
        intros y Hy. by apply Hov in Hy as [_ ?].
      - intros k Hk Hk'. apply list_elem_of_In, in_map_iff in Hk as (z & <- & Hz).
        apply HR in Hz as (y & Hy & Ho & Hz). apply residues_In in Hz.
        simpl in Hk'. apply list_elem_of_In in Hk'. destruct Hk' as [Hk'|[]].
        destruct Hz as [[-> ?]|[-> ?]]; simpl in Hk'; lia.
      - apply NoDup_ListNoDup. simpl. repeat constructor. by intros []. }
  unfold after_AddDefs. rewrite in_app_iff, HR, Her. simpl. split.
  - intros [[Hres|[<-|[]]]|[Hnk [Hin Hno]]].
    + right. by right.
    + by left.
    + right. left. split; [done|]. unfold overlaps. lia.
  - intros [->|[[Hin Hno]|Hres]].
    + left. right. by left.
    + right. split; [|split; [done|unfold overlaps in Hno; lia]].
      rewrite fmap_app, in_app_iff. simpl.
      destruct Hl as (Hs & Hne & Hd). destruct x as [ex vx].
      specialize (Hne ex vx Hin). unfold overlaps in Hno. simpl in *.
      intros [Hk|[Hk|[]]].
      * apply in_map_iff in Hk as (z & Hfz & Hz).
        apply HR in Hz as ([ey vy] & Hy & [Ho1 Ho2] & Hz).
        apply residues_In in Hz. simpl in *.
        destruct Hz as [[-> ?]|[-> ?]]; simpl in Hfz.
        -- pose proof (Hd ex vx ey vy Hin Hy). lia.
        -- subst ey. assert (vx = vy) by by apply (map_sorted_unique m ex).
           subst vy. lia.
      * lia.
    + left. by left.
Qed.

Lemma AddDefs_map_sorted (m : AddressSpace) (a b d : Z) :
  live_ok m ->
  let f := map_lower_bound m (a + 1) in
  let n := count_affected (drop f m) b in
  map_sorted (map_assign
          (AddDefs_loop a b (take n (drop f m)) (map_erase m f (f + n)))
          b (EntryValue.mk a d)).
Proof.
  intros Hl f n. apply map_assign_sorted. rewrite AddDefs_loop_fold.
  apply fold_assign_sorted. apply (erased_sorted m (a + 1) b Hl).
Qed.

Ltac use_live Hne Hd :=
  repeat match goal with
  | H1 : In (?e1, ?v1) ?m, H2 : In (?e2, ?v2) ?m |- _ =>
      lazymatch goal with
      | _ : e1 < e2 -> e1 <= EntryValue.startAddr v2 |- _ => fail
      | _ => pose proof (Hd e1 v1 e2 v2 H1 H2)
      end
  | H1 : In (?e1, ?v1) ?m |- _ =>
      lazymatch goal with
      | _ : EntryValue.startAddr v1 < e1 |- _ => fail
      | _ => pose proof (Hne e1 v1 H1)
      end
  end.

Lemma after_AddDefs_cases (m : AddressSpace) (a b d : Z) (e : Z) (v : EntryValue.t) :
  after_AddDefs m a b d (e, v) ->
  (e = b /\ EntryValue.startAddr v = a) \/
  (In (e, v) m /\ (e <= a \/ b <= EntryValue.startAddr v)) \/
  (exists ey vy, In (ey, vy) m /\ a < ey /\ EntryValue.startAddr vy < b /\
     ((e = a /\ EntryValue.startAddr v = EntryValue.startAddr vy /\
       EntryValue.startAddr vy < a) \/
      (e = ey /\ EntryValue.startAddr v = b /\ b < ey))).
Proof.
  intros [[= -> ->]|[[Hin Hno]|([ey vy] & Hy & [Ho1 Ho2] & Hz)]].
  - by left.
  - right. left. split; [done|]. unfold overlaps in Hno. simpl in Hno. lia.
  - right. right. exists ey, vy. simpl in *. split; [done|].
    split; [done|]. split; [done|]. apply residues_In in Hz. simpl in Hz.
    destruct Hz as [[[= -> ->] ?]|[[= -> ->] ?]]; simpl; [left|right]; done.
Qed.

Lemma live_ok_after_AddDefs (m m' : AddressSpace) (a b d : Z) :
  live_ok m -> a < b -> map_sorted m' ->
  (forall x, In x m' <-> after_AddDefs m a b d x) ->
  live_ok m'.
Proof.
  intros (Hs & Hne & Hd) Hab Hs' Hin. split; [done|]. split.
  - intros e v Hx. apply Hin, after_AddDefs_cases in Hx.
    destruct Hx as [[? ?]|[[Hx _]|(ey & vy & Hy & ? & ? & [(? & ? & ?)|(? & ? & ?)])]];
      try lia. by apply Hne.
  - intros e1 v1 e2 v2 H1 H2 Hlt.
    apply Hin, after_AddDefs_cases in H1.
    apply Hin, after_AddDefs_cases in H2.
    destruct H1 as [[? ?]|[[H1 ?]|(ey1 & vy1 & Hy1 & ? & ? & [(? & ? & ?)|(? & ? & ?)])]];
    destruct H2 as [[? ?]|[[H2 ?]|(ey2 & vy2 & Hy2 & ? & ? & [(? & ? & ?)|(? & ? & ?)])]];
      use_live Hne Hd; lia.
Qed.

Lemma live_ok_pairwise_disjoint (m : AddressSpace) :
  live_ok m -> pairwise_disjoint m.
Proof.
  intros (Hs & Hne & Hd) i j e1 v1 e2 v2 Hi Hj Hij x [H1 H2].
  assert (In1 : In (e1, v1) m) by (apply In_lookup; by exists i).
  assert (In2 : In (e2, v2) m) by (apply In_lookup; by exists j).
  pose proof (Hd e1 v1 e2 v2 In1 In2). pose proof (Hd e2 v2 e1 v1 In2 In1).
  assert (e1 = e2) as -> by lia.
  assert (Hnd : List.NoDup (fst <$> m)).
  { apply NoDup_ListNoDup. unfold map_sorted in Hs.
    clear -Hs. induction Hs as [|k l Hs IH Hk]; constructor; [|done].
    intros Hin. rewrite List.Forall_forall in Hk.
    apply list_elem_of_In in Hin. specialize (Hk k Hin). lia. }
  apply NoDup_ListNoDup in Hnd. apply Hij.
  apply (NoDup_lookup (fst <$> m) i j e2); [done| |].
  - by rewrite list_lookup_fmap, Hi.
  - by rewrite list_lookup_fmap, Hj.
Qed.

Section AddDefs_spec.
Variable W : Z.
Variable st : UdState.
Variables a sz : Z.
Let b := a + sz.
Let m := addressSpace_ st.

Hypothesis Hlive : live_ok m.
Hypothesis Ha : 0 <= a.
Hypothesis Hb : b <= WMAX W.

Lemma AddDefs_count :
  0 <= sz ->
  count_affected (drop (map_lower_bound m (wrapW W (a + 1))) m) (wrapW W (a + sz)) =
  length (List.filter (overlapsb a b) m) \/ sz = 0.
Proof.
  intros Hsz. destruct (Z.eq_dec sz 0) as [|Hne]; [by right|]. left.
  unfold b in *. rewrite !wrapW_small by lia.
  rewrite <- affected_filter by done. apply affected_length.
Qed.

(** The count of [AddDefs] is the number of entries that overlap the
    range; above 32 the call fails and changes nothing. *)
Lemma AddDefs_too_many :
  0 < sz -> vsize m < 2 ^ 32 ->
  32 < Z.of_nat (length (List.filter (overlapsb a b) m)) ->
  AddDefs W st a sz = Some (- EINVAL, st).
Proof.
  intros Hsz Hm Hc. unfold AddDefs. cbv zeta. fold m.
  destruct AddDefs_count as [->|]; [lia| |lia].
  assert (length (List.filter (overlapsb a b) m) <= length m)%nat
    by apply List.filter_length_le.
  unfold vsize in Hm. rewrite wrap32_small by lia.
  unfold kMaxAffectedCount.
  destruct (Z.gtb_spec (Z.of_nat (length (List.filter (overlapsb a b) m))) 32);
    [done|lia].
Qed.

Lemma AddDefs_success :
  0 < sz ->
  Z.of_nat (length (List.filter (overlapsb a b) m)) <= 32 ->
  exists st',
    AddDefs W st a sz = Some (0, st') /\
    uses_ st' = uses_ st /\ partialUses_ st' = partialUses_ st /\
    defs_ st' = defs_ st ++ [mkDef a b] /\
    live_ok (addressSpace_ st') /\
    (forall x, In x (addressSpace_ st') <->
               after_AddDefs m a b (wrap32 (vsize (defs_ st))) x).
Proof.
  intros Hsz Hc. unfold AddDefs. cbv zeta. fold m.
  destruct AddDefs_count as [Hn|]; [lia| |lia].
  rewrite Hn. rewrite wrap32_small by (assert (2 ^ 32 = 4294967296) by done; lia).
  unfold kMaxAffectedCount.
  destruct (Z.gtb_spec (Z.of_nat (length (List.filter (overlapsb a b) m))) 32);
    [lia|].
  rewrite <- Hn. rewrite !wrapW_small by (unfold b in *; lia).
  eexists. split; [done|]. unfold AddDef. simpl.
  do 3 (split; [done|]). split.
  - apply (live_ok_after_AddDefs m _ a b (wrap32 (vsize (defs_ st))));
      [done|unfold b; lia| |].
    + apply (AddDefs_map_sorted m a b _ Hlive).
    + intros x. apply (AddDefs_map_In m a b _ x Hlive). unfold b. lia.
  - intros x. apply (AddDefs_map_In m a b _ x Hlive). unfold b. lia.
Qed.
End AddDefs_spec.

(** ** The invariant of the map *)

Lemma AddDefs_cases (W : Z) (st st' : UdState) (a sz ret : Z) :
  AddDefs W st a sz = Some (ret, st') ->
  (ret = - EINVAL /\ st' = st) \/
  (ret = 0 /\
   let m := addressSpace_ st in
   let b := wrapW W (a + sz) in
   let f := map_lower_bound m (wrapW W (a + 1)) in
   let n := count_affected (drop f m) b in
   st' = AddDef (mkUdState (uses_ st) (partialUses_ st) (defs_ st)
                   (AddDefs_loop a b (take n (drop f m)) (map_erase m f (f + n))))
           a b).
Proof.
  unfold AddDefs. cbv zeta.
  destruct (_ >? kMaxAffectedCount); [intros [= <- <-]; by left|].
  destruct (_ >? kMaxAffectedCount); [done|]. intros [= <- <-]. by right.
Qed.

Lemma AddDefs_map_inv (W : Z) (st st' : UdState) (a sz ret : Z) :
  map_inv W (addressSpace_ st) ->
  0 <= a -> 0 < sz -> a + sz <= WMAX W ->
  AddDefs W st a sz = Some (ret, st') ->
  map_inv W (addressSpace_ st').
Proof.
  intros (Hl & Hc & Hr) Ha Hsz Hb Hrun.
  apply AddDefs_cases in Hrun as [[_ ->]|[_ ->]]; [done|].
  cbv zeta. rewrite !wrapW_small by lia. unfold AddDef. simpl.
  set (d := wrap32 (vsize (defs_ st))).
  set (m := addressSpace_ st) in *.
  set (m' := map_assign _ _ _).
  assert (Hin : forall x, In x m' <-> after_AddDefs m a (a + sz) d x).
  { intros x. apply (AddDefs_map_In m a (a + sz) d x Hl). lia. }
  assert (Hl' : live_ok m').
  { apply (live_ok_after_AddDefs m m' a (a + sz) d); [done|lia| |done].
    apply (AddDefs_map_sorted m a (a + sz) d Hl). }
  split; [done|]. split.
  - intros x Hx. destruct (Z_lt_ge_dec x a) as [Hxa|Hxa];
      [|destruct (Z_lt_ge_dec x (a + sz)) as [Hxb|Hxb]].
    + destruct (Hc x Hx) as (e & v & Hev & Hcont).
      destruct (Z_lt_ge_dec a e) as [Hae|Hae].
      * exists a, (EntryValue.mk (EntryValue.startAddr v) (EntryValue.defIndex v)).
        split; [|simpl; lia]. apply Hin. right. right. exists (e, v).
        split; [done|]. split; [unfold overlaps; simpl; lia|].
        apply residues_In. left. simpl. split; [done|lia].
      * exists e, v. split; [|done]. apply Hin. right. left.
        split; [done|]. unfold overlaps. simpl. lia.
    + exists (a + sz), (EntryValue.mk a d). split; [|simpl; lia].
      apply Hin. by left.
    + destruct (Hc x Hx) as (e & v & Hev & Hcont).
      destruct (Z_lt_ge_dec (EntryValue.startAddr v) (a + sz)) as [Hsb|Hsb].
      * exists e, (EntryValue.mk (a + sz) (EntryValue.defIndex v)).
        split; [|simpl; lia]. apply Hin. right. right. exists (e, v).
        split; [done|]. split; [unfold overlaps; simpl; lia|].
        apply residues_In. right. simpl. split; [done|lia].
      * exists e, v. split; [|done]. apply Hin. right. left.
        split; [done|]. unfold overlaps. simpl. lia.
  - intros e v Hev. apply Hin, after_AddDefs_cases in Hev.
    destruct Hev as [[-> ->]|[[Hev _]|(ey & vy & Hy & ? & ? & [(-> & -> & ?)|(-> & -> & ?)])]].
    + lia.
    + by apply Hr.
    + destruct (Hr ey vy Hy). lia.
    + destruct (Hr ey vy Hy). lia.
Qed.

Lemma AddUses_loop_keeps (a b : Z) (its : AddressSpace) (primes primes' : list Z)
    (st st' : UdState) :
  AddUses_loop a b its primes st = Some (primes', st') ->
  addressSpace_ st' = addressSpace_ st /\ defs_ st' = defs_ st.
Proof.
  revert primes st. induction its as [|[e v] its IH]; intros primes st H.
  { by injection H as <- <-. }
  cbn [AddUses_loop] in H. cbv zeta in H.
  destruct (EntryValue.startAddr v <? b); [|by injection H as <- <-].
  destruct (defs_ st !! _) as [def|]; [|done]. cbn [mbind option_bind] in H.
  match type of H with
  | context [mbind _ ?X] => destruct X as [[p1 pu1]|]; [|done]
  end.
  cbn [mbind option_bind] in H. apply IH in H as [-> ->]. done.
Qed.

Lemma AddUses_keeps (W : Z) (primes primes' : list Z) (st st' : UdState) (a sz : Z) :
  AddUses W primes st a sz = Some (primes', st') ->
  addressSpace_ st' = addressSpace_ st /\ defs_ st' = defs_ st.
Proof. apply AddUses_loop_keeps. Qed.

Lemma map_inv_init (W : Z) (d : Z) :
  0 < WMAX W -> map_inv W (map_assign [] (WMAX W) (EntryValue.mk 0 d)).
Proof.
  intros HW. simpl. split; [split; [|split]|split].
  - repeat constructor.
  - intros e v [[= <- <-]|[]]. done.
  - intros e1 v1 e2 v2 [[= <- <-]|[]] [[= <- <-]|[]]. lia.
  - intros x Hx. eexists _, _. split; [by left|]. simpl. lia.
  - intros e v [[= <- <-]|[]]. simpl. lia.
Qed.

Lemma UdState_run_map_inv (W : Z) (ops : list UdOp) (primes primes' : list Z)
    (st st' : UdState) :
  map_inv W (addressSpace_ st) -> Forall (valid_op W) ops ->
  UdState_run W primes st ops = Some (primes', st') ->
  map_inv W (addressSpace_ st').
Proof.
  revert primes st. induction ops as [|op ops IH]; intros primes st Hinv Hv Hrun.
  { by injection Hrun as <- <-. }
  apply Forall_cons_1 in Hv as [Hop Hv]. destruct op as [a n|a n]; simpl in Hrun.
  - destruct (AddUses W primes st a n) as [[p1 st1]|] eqn:Hu; [|done].
    simpl in Hrun. apply AddUses_keeps in Hu as [Hm _].
    apply (IH p1 st1); [by rewrite Hm|done|done].
  - destruct (AddDefs W st a n) as [[r1 st1]|] eqn:Hd; [|done].
    simpl in Hrun. destruct Hop as (? & ? & ?).
    apply (IH primes st1); [|done|done].
    by apply (AddDefs_map_inv W st st1 a n r1).
Qed.

(** * [AddUses] *)

Lemma vsize_app {A} (l1 l2 : list A) : vsize (l1 ++ l2) = vsize l1 + vsize l2.
Proof. unfold vsize. rewrite length_app. lia. Qed.

Lemma vsize_nonneg {A} (l : list A) : 0 <= vsize l.
Proof. unfold vsize. lia. Qed.

Lemma lookup_Z_lt {A} (l : list A) (i : Z) :
  0 <= i < vsize l -> exists x, l !! Z.to_nat i = Some x.
Proof.
  intros Hi. apply lookup_lt_is_Some_2. unfold vsize in Hi. lia.
Qed.

(** What the loop appends to [uses_], whatever the state. *)
Lemma AddUses_loop_uses (a b : Z) (its : AddressSpace) (primes primes' : list Z)
    (st st' : UdState) :
  AddUses_loop a b its primes st = Some (primes', st') ->
  uses_ st' = uses_ st ++
    ((fun y => EntryValue.defIndex (snd y)) <$> take (count_affected its b) its).
Proof.
  revert primes st. induction its as [|[e v] its IH]; intros primes st H.
  { injection H as <- <-. simpl. by rewrite app_nil_r. }
  cbn [AddUses_loop] in H. cbv zeta in H. cbn [count_affected].
  destruct (EntryValue.startAddr v <? b).
  2:{ injection H as <- <-. simpl. by rewrite app_nil_r. }
  destruct (defs_ st !! _) as [def|]; [|done]. cbn [mbind option_bind] in H.
  match type of H with
  | context [mbind _ ?X] => destruct X as [[p1 pu1]|]; [|done]
  end.
  cbn [mbind option_bind] in H. apply IH in H. rewrite H. simpl.
  by rewrite <- app_assoc.
Qed.

Section Loop.
Variables a b : Z.

Lemma AddUses_loop_spec (its : AddressSpace) (primes : list Z) (st : UdState) :
  good_primes primes -> UdState_wf st ->
  (forall y, In y its -> In y (addressSpace_ st)) ->
  vsize (uses_ st) + Z.of_nat (length (take (count_affected its b) its)) <= UINT32_MAX ->
  exists primes' st',
    AddUses_loop a b its primes st = Some (primes', st') /\
    good_primes primes' /\ PartialUses_ok (partialUses_ st') /\
    (forall x, first x <> UINT32_MAX ->
       (In x (entries_ (partialUses_ st')) <->
        In x (entries_ (partialUses_ st)) \/
        written a b (defs_ st) (vsize (uses_ st))
          (take (count_affected its b) its) x)).
Proof.
  revert primes st.
  induction its as [|[e v] its IH]; intros primes st Hg Hwf Hits Hbound.
  { exists primes, st. simpl. split; [done|]. split; [done|].
    split; [by destruct Hwf|]. intros x _. split; [by left|].
    intros [?|(i & y & def & Hi & _)]; [done|]. by destruct i. }
  cbn [AddUses_loop count_affected] in *. cbv zeta.
  destruct (Z.ltb_spec (EntryValue.startAddr v) b) as [Hs|Hs].
  2:{ exists primes, st. split; [done|]. split; [done|].
      split; [by destruct Hwf|]. intros x _. split; [by left|].
      intros [?|(i & y & def & Hi & _)]; [done|]. by destruct i. }
  pose proof Hwf as (Hpu & Hkeys & Hmap & Huses).
  assert (Hev : In (e, v) (addressSpace_ st)) by (apply Hits; by left).
  destruct (lookup_Z_lt (defs_ st) (EntryValue.defIndex v) (Hmap e v Hev))
    as [def Hdef].
  rewrite Hdef. cbn [mbind option_bind].
  simpl length in Hbound.
  pose proof (vsize_nonneg (uses_ st)) as Hu0.
  assert (2 ^ 32 = 4294967296) as Hp32 by done.
  assert (UINT32_MAX = 4294967295) as HU by done.
  rewrite wrap32_small by lia.
  set (ov := mkDef (Z.max a (EntryValue.startAddr v)) (Z.min b e)).
  assert (Hcond : negb (startAddr def =? Z.max a (EntryValue.startAddr v)) ||
                  negb (endAddr def =? Z.min b e) = negb (Def_eqb def ov)).
  { unfold Def_eqb. simpl. by rewrite negb_andb. }
  rewrite Hcond.
  (* the state after the body of the loop *)
  assert (Hstep : exists primes1 pu1,
    (if negb (Def_eqb def ov)
     then PartialUses_set primes (partialUses_ st) (vsize (uses_ st)) ov
     else Some (primes, partialUses_ st)) = Some (primes1, pu1) /\
    good_primes primes1 /\ PartialUses_ok pu1 /\
    (forall x, first x <> UINT32_MAX ->
       (In x (entries_ pu1) <->
        In x (entries_ (partialUses_ st)) \/
        (Def_eqb def ov = false /\ x = mkPartialUse (vsize (uses_ st)) ov)))).
  { destruct (Def_eqb def ov) eqn:Heq; simpl.
    - exists primes, (partialUses_ st). split; [done|]. split; [done|].
      split; [done|]. intros x _. split; [by left|]. by intros [?|[? _]].
    - destruct (PartialUses_set_spec primes (partialUses_ st)
                  (vsize (uses_ st)) ov Hg Hpu ltac:(lia))
        as (p1 & pu1 & -> & Hg1 & Hpu1 & Hin1 & _).
      exists p1, pu1. split; [done|]. split; [done|]. split; [done|].
      intros x Hx. rewrite (Hin1 x Hx). split.
      + intros [->|[_ ?]]; [by right|by left].
      + intros [Hin|[_ ->]]; [|by left]. right. split; [|done].
        specialize (Hkeys x Hin Hx). lia. }
  destruct Hstep as (primes1 & pu1 & -> & Hg1 & Hpu1 & Hin1).
  cbn [mbind option_bind].
  set (st1 := mkUdState (uses_ st ++ [EntryValue.defIndex v]) pu1 (defs_ st)
                (addressSpace_ st)).
  destruct (IH primes1 st1) as (primes' & st' & Hrun & Hg' & Hpu' & Hin').
  - done.
  - split; [done|]. split; [|split]; simpl.
    + intros x Hx Hne. rewrite vsize_app. unfold vsize at 2. simpl.
      apply (Hin1 x Hne) in Hx as [Hx|[_ ->]]; [|simpl; lia].
      specialize (Hkeys x Hx Hne). lia.
    + done.
    + intros d [Hd|[<-|[]]]%in_app_or; [by apply Huses|].
      by apply (Hmap e v).
  - intros y Hy. apply Hits. by right.
  - simpl. rewrite vsize_app. unfold vsize at 2. simpl. lia.
  - exists primes', st'. split; [done|]. split; [done|]. split; [done|].
    intros x Hx. rewrite (Hin' x Hx). simpl. rewrite (Hin1 x Hx).
    rewrite vsize_app. unfold vsize at 3. simpl. split.
    + intros [[Hold|[Hneq ->]]|(i & y & d' & Hi & Hd' & Hne' & ->)].
      * by left.
      * right. exists O, (e, v), def. split; [done|]. split; [done|].
        split; [done|]. f_equal. lia.
      * right. exists (S i), y, d'. split; [done|]. split; [done|].
        split; [done|]. f_equal. lia.
    + intros [Hold|(i & y & d' & Hi & Hd' & Hne' & ->)]; [left; by left|].
      destruct i as [|i]; simpl in Hi.
      * injection Hi as <-. simpl in Hd'. left. right.
        assert (d' = def) as -> by congruence.
        split; [done|]. f_equal. lia.
      * right. exists i, y, d'. split; [done|]. split; [done|].
        split; [done|]. f_equal. lia.
Qed.
End Loop.

Section AddUses_spec.
Variable W : Z.
Variables (primes : list Z) (st : UdState) (a sz : Z).
Let b := wrapW W (a + sz).
Let k := wrapW W (a + 1).
Let m := addressSpace_ st.
Let wk := walk m k b.
Let u0 := vsize (uses_ st).

Hypothesis Hg : good_primes primes.
Hypothesis Hwf : UdState_wf st.
Hypothesis Hbound : u0 + vsize wk <= UINT32_MAX.

Lemma AddUses_total :
  exists primes' st',
    AddUses W primes st a sz = Some (primes', st') /\
    good_primes primes' /\ UdState_wf st' /\
    addressSpace_ st' = m /\ defs_ st' = defs_ st /\
    uses_ st' = uses_ st ++ ((fun y => EntryValue.defIndex (snd y)) <$> wk) /\
    (forall x, first x <> UINT32_MAX ->
       (In x (entries_ (partialUses_ st')) <->
        In x (entries_ (partialUses_ st)) \/ written a b (defs_ st) u0 wk x)).
Proof.
  unfold AddUses. cbv zeta. fold b k m.
  set (its := drop (map_lower_bound m k) m).
  assert (Hits : forall y, In y its -> In y m).
  { intros y Hy. rewrite <- (take_drop (map_lower_bound m k) m).
    apply in_or_app. by right. }
  destruct (AddUses_loop_spec a b its primes st Hg Hwf Hits Hbound)
    as (primes' & st' & Hrun & Hg' & Hpu' & Hin').
  exists primes', st'. split; [done|]. split; [done|].
  pose proof (AddUses_loop_keeps _ _ _ _ _ _ _ Hrun) as [Hm Hd].
  pose proof (AddUses_loop_uses _ _ _ _ _ _ _ Hrun) as Hu.
  change (take (count_affected its b) its) with wk in Hu, Hin'.
  destruct Hwf as (Hpu & Hkeys & Hmap & Huses).
  split; [|done]. split; [done|]. split; [|split].
  - intros x Hx Hne. rewrite Hu, vsize_app. fold u0.
    apply (Hin' x Hne) in Hx as [Hx|(i & y & def & Hi & _ & _ & ->)].
    + specialize (Hkeys x Hx Hne). pose proof (vsize_nonneg
        ((fun y => EntryValue.defIndex (snd y)) <$> wk)).
      unfold u0. lia.
    + simpl. apply lookup_lt_Some in Hi. change (i < length wk)%nat in Hi.
      unfold vsize. rewrite length_fmap. unfold u0, vsize. lia.
  - rewrite Hm, Hd. done.
  - rewrite Hu, Hd. intros d [Hd'|Hd']%in_app_or; [by apply Huses|].
    apply in_map_iff in Hd' as ([e v] & <- & Hy). apply (Hmap e v).
    apply Hits. unfold wk, walk in Hy. fold its in Hy.
    rewrite <- (take_drop (count_affected its b) its). apply in_or_app. by left.
Qed.

(** The lookup of the use index recorded for the [i]-th entry of the
    walk, after the call. *)
Lemma AddUses_find (primes' : list Z) (st' : UdState) (i : nat)
    (y : Z * EntryValue.t) :
  AddUses W primes st a sz = Some (primes', st') ->
  wk !! i = Some y ->
  exists def,
    defs_ st !! Z.to_nat (EntryValue.defIndex (snd y)) = Some def /\
    PartialUses_find (partialUses_ st') (u0 + Z.of_nat i) =
      Some (if Def_eqb def (overlap_of a b y) then None
            else Some (mkPartialUse (u0 + Z.of_nat i) (overlap_of a b y))).
Proof.
  intros Hrun Hi.
  destruct AddUses_total as (p2 & st2 & Hrun2 & _ & Hwf' & _ & _ & _ & Hin).
  rewrite Hrun in Hrun2. injection Hrun2 as <- <-.
  pose proof Hwf as (Hpu & Hkeys & Hmap & Huses).
  assert (Hy : In y m).
  { unfold wk, walk in Hi. apply list_elem_of_lookup_2, list_elem_of_In in Hi.
    rewrite <- (take_drop (map_lower_bound m k) m). apply in_or_app. right.
    set (its := drop (map_lower_bound m k) m) in *.
    rewrite <- (take_drop (count_affected its b) its). apply in_or_app. by left. }
  destruct y as [e v].
  destruct (lookup_Z_lt (defs_ st) (EntryValue.defIndex v) (Hmap e v Hy))
    as [def Hdef].
  exists def. split; [done|].
  pose proof (lookup_lt_Some _ _ _ Hi) as Hlt.
  assert (UINT32_MAX = 4294967295) as HU by done.
  unfold vsize in Hbound. fold u0 in Hbound.
  destruct (PartialUses_find_spec (partialUses_ st') (u0 + Z.of_nat i))
    as (r & -> & Hr); [by destruct Hwf'|lia|].
  f_equal. simpl in Hdef.
  destruct (Def_eqb def (overlap_of a b (e, v))) eqn:Heq.
  - destruct r as [x|]; [|done]. exfalso.
    destruct (Hr x) as [Hx _]. destruct (Hx eq_refl) as [Hinx Hfx].
    apply Hin in Hinx; [|lia].
    destruct Hinx as [Hold|(i' & y' & def' & Hi' & Hd' & Hne' & ->)].
    + specialize (Hkeys x Hold ltac:(lia)). lia.
    + simpl in Hfx. assert (i' = i) as -> by lia.
      rewrite Hi in Hi'. injection Hi' as <-. simpl in Hd'. congruence.
  - apply Hr. split; [|done]. apply Hin; [simpl; lia|]. right.
    by exists i, (e, v), def.
Qed.
End AddUses_spec.

(** * [ResolveUse] *)

Lemma upper_bound_spec (proj : InsnInTrace -> Z) (trace : list InsnInTrace) (d : Z) :
  sorted_by proj trace ->
  forall i t, trace !! i = Some t ->
    ((i < upper_bound proj trace d)%nat <-> proj t <= d).
Proof.
  induction 1 as [|t0 trace Hs IH Ht0]; intros i t Hi; [done|].
  simpl. destruct (Z.ltb_spec d (proj t0)) as [Hd|Hd].
  - split; [lia|]. intros Hp. destruct i as [|i]; simpl in Hi.
    + injection Hi as <-. lia.
    + rewrite List.Forall_forall in Ht0.
      apply list_elem_of_lookup_2, list_elem_of_In in Hi.
      specialize (Ht0 t Hi). simpl in Ht0. lia.
  - destruct i as [|i]; simpl in Hi.
    + injection Hi as <-. split; [done|lia].
    + rewrite <- (IH i t Hi). lia.
Qed.

Lemma upper_bound_le (proj : InsnInTrace -> Z) (trace : list InsnInTrace) (d : Z) :
  (upper_bound proj trace d <= length trace)%nat.
Proof.
  induction trace as [|t trace IH]; simpl; [lia|].
  destruct (d <? proj t); simpl; lia.
Qed.

Section ResolveUse_spec.
Variables (st : UdState) (u : Z) (trace : list InsnInTrace).
Variable proj : InsnInTrace -> Z.
Variables (d : Z) (def0 : Def) (t0 : InsnInTrace).

Hypothesis Hpu : PartialUses_ok (partialUses_ st).
Hypothesis Hu : 0 <= u < UINT32_MAX.
Hypothesis Huse : uses_ st !! Z.to_nat u = Some d.
Hypothesis Hd : defs_ st !! Z.to_nat d = Some def0.
Hypothesis Hsorted : sorted_by proj trace.
Hypothesis Hfirst : trace !! O = Some t0.
Hypothesis Hfirst_le : proj t0 <= d.
Hypothesis Hlen : vsize trace <= 2 ^ 32.

Lemma ResolveUse_spec :
  exists def t',
    UdState_ResolveUse st u trace proj = Some (def, t') /\
    def = match PartialUses_find (partialUses_ st) u with
          | Some (Some partialUse) => second partialUse
          | _ => def0
          end /\
    (exists tr, trace !! Z.to_nat t' = Some tr /\ proj tr <= d) /\
    0 <= t' /\
    (forall j tr, trace !! j = Some tr -> proj tr <= d -> Z.of_nat j <= t').
Proof.
  destruct Hpu as (Hok & Hload & Hmax & Hsize).
  destruct (Find_spec (entries_ (partialUses_ st)) u Hok ltac:(lia) ltac:(lia))
    as (j & e & Hf & He & Hcase).
  unfold UdState_ResolveUse, ResolveUse, PartialUses_find.
  rewrite Huse, Hf. cbn [mbind option_bind]. rewrite He.
  cbn [mbind option_bind].
  pose proof (upper_bound_spec proj trace d Hsorted) as Hub.
  pose proof (upper_bound_le proj trace d) as Hle.
  destruct (upper_bound proj trace d) as [|it] eqn:Hit.
  { exfalso. apply (Hub O t0 Hfirst) in Hfirst_le. lia. }
  assert (Hdef : exists def,
    (if first e =? UINT32_MAX then defs_ st !! Z.to_nat d else Some (second e))
      = Some def /\
    def = match (if first e =? u then Some e else None) with
          | Some partialUse => second partialUse
          | None => def0
          end).
  { destruct Hcase as [[Hkey _]|[Hempty _]].
    - rewrite Hkey, Z.eqb_refl. destruct (Z.eqb_spec u UINT32_MAX); [lia|].
      by exists (second e).
    - rewrite Hempty, Z.eqb_refl. destruct (Z.eqb_spec UINT32_MAX u); [lia|].
      by exists def0. }
  destruct Hdef as (def & -> & Hdefeq). cbn [mbind option_bind].
  unfold vsize in Hlen. assert (2 ^ 32 = 4294967296) as Hp32 by done.
  rewrite wrap32_small by lia.
  exists def, (Z.of_nat it). split; [done|]. split; [done|].
  rewrite Nat2Z.id. split; [|split; [lia|]].
  - destruct (lookup_lt_is_Some_2 trace it ltac:(lia)) as [tr Htr].
    exists tr. split; [done|]. apply (Hub it tr Htr). lia.
  - intros j' tr Htr Hp. apply (Hub j' tr Htr) in Hp. lia.
Qed.
End ResolveUse_spec.

(** * The builder keeps its indices consistent *)

Lemma wrap32_bounds (x : Z) : 0 <= x -> 0 <= wrap32 x <= x.
Proof.
  intros Hx. unfold wrap32, wrap.
  pose proof (Z.mod_pos_bound x (2 ^ 32) ltac:(done)).
  pose proof (Z.mod_le x (2 ^ 32) Hx ltac:(done)). lia.
Qed.

(** ** One address space *)

Lemma map_assign_In_weak (m : AddressSpace) (k : Z) (v : EntryValue.t)
    (x : Z * EntryValue.t) :
  In x (map_assign m k v) -> x = (k, v) \/ In x m.
Proof.
  induction m as [|[e0 v0] m IH]; simpl.
  { intros [<-|[]]. by left. }
  destruct (k <? e0); [|destruct (k =? e0)]; simpl.
  - intros [<-|H]; [by left|by right].
  - intros [<-|H]; [by left|right; by right].
  - intros [<-|H]; [right; by left|]. destruct (IH H); [by left|right; by right].
Qed.

Lemma AddDefs_loop_In_weak (a b : Z) (affected m : AddressSpace)
    (x : Z * EntryValue.t) :
  In x (AddDefs_loop a b affected m) ->
  In x m \/ exists y, In y affected /\
                      EntryValue.defIndex (snd x) = EntryValue.defIndex (snd y).
Proof.
  revert m. induction affected as [|[e v] l IH]; intros m; [by left|].
  cbn [AddDefs_loop]. cbv zeta. intros H. apply IH in H as [H|(y & Hy & Hd)].
  2:{ right. exists y. split; [by right|done]. }
  assert (Hhead : forall k s, x = (k, EntryValue.mk s (EntryValue.defIndex v)) ->
            exists y, In y ((e, v) :: l) /\
              EntryValue.defIndex (snd x) = EntryValue.defIndex (snd y)).
  { intros k s ->. exists (e, v). split; [by left|done]. }
  destruct (a <=? EntryValue.startAddr v), (b <? e);
    repeat (apply map_assign_In_weak in H as [H|H]); eauto.
Qed.

Lemma idx_inv_AddDefs (W : Z) (st st' : UdState) (a sz ret : Z) :
  AddDefs W st a sz = Some (ret, st') -> idx_inv st ->
  idx_inv st' /\ uses_ st' = uses_ st /\
  vsize (defs_ st) <= vsize (defs_ st').
Proof.
  intros Hrun [Hmap Huses].
  apply AddDefs_cases in Hrun as [[_ ->]|[_ ->]]; [done|].
  cbv zeta. unfold AddDef, idx_inv.
  cbn [defs_ uses_ addressSpace_ partialUses_]. rewrite vsize_app.
  pose proof (vsize_nonneg (defs_ st)) as Hd0.
  pose proof (wrap32_bounds _ Hd0) as Hw.
  assert (Hone : vsize [mkDef a (wrapW W (a + sz))] = 1) by done.
  rewrite Hone. split; [|split; [done|lia]]. split.
  - intros e v Hin. apply map_assign_In_weak in Hin as [[= -> ->]|Hin].
    { cbn [EntryValue.defIndex]. lia. }
    apply AddDefs_loop_In_weak in Hin as [Hin|([ey vy] & Hy & Hdef)].
    + unfold map_erase in Hin. apply in_app_or in Hin.
      assert (In (e, v) (addressSpace_ st)) as Hin'.
      { destruct Hin as [Hin|Hin].
        - rewrite <- (take_drop (map_lower_bound (addressSpace_ st) (wrapW W (a + 1)))
                        (addressSpace_ st)). apply in_or_app. by left.
        - match type of Hin with In _ (drop ?n _) =>
            rewrite <- (take_drop n (addressSpace_ st)) end.
          apply in_or_app. by right. }
      specialize (Hmap e v Hin'). lia.
    + simpl in Hdef. rewrite Hdef.
      assert (In (ey, vy) (addressSpace_ st)) as Hin'.
      { match type of Hy with In _ (take ?n (drop ?f _)) =>
          rewrite <- (take_drop f (addressSpace_ st)); apply in_or_app; right;
          rewrite <- (take_drop n (drop f (addressSpace_ st)));
          apply in_or_app; by left end. }
      specialize (Hmap ey vy Hin'). lia.
  - intros d Hd. specialize (Huses d Hd). lia.
Qed.

Lemma idx_inv_AddUses (W : Z) (primes primes' : list Z) (st st' : UdState) (a sz : Z) :
  AddUses W primes st a sz = Some (primes', st') -> idx_inv st ->
  idx_inv st' /\ defs_ st' = defs_ st /\
  exists new, uses_ st' = uses_ st ++ new.
Proof.
  intros Hrun [Hmap Huses].
  pose proof (AddUses_keeps _ _ _ _ _ _ _ Hrun) as [Hm Hd].
  pose proof (AddUses_loop_uses _ _ _ _ _ _ _ Hrun) as Hu.
  split; [|split; [done|eauto]]. split.
  - rewrite Hm, Hd. done.
  - rewrite Hu, Hd. intros d [Hin|Hin]%in_app_or; [by apply Huses|].
    apply in_map_iff in Hin as ([e v] & <- & Hy). apply (Hmap e v). simpl.
    match type of Hy with In _ (take ?n (drop ?f _)) =>
      rewrite <- (take_drop f (addressSpace_ st)); apply in_or_app; right;
      rewrite <- (take_drop n (drop f (addressSpace_ st)));
      apply in_or_app; by left end.
Qed.

(** ** The trace table *)

Section TraceInv.
Variables defStart useStart useEnd : InsnInTrace -> Z.

Lemma trace_inv_more_uses (st st' : UdState) (trace : list InsnInTrace) (new : list Z) :
  trace_inv defStart useStart useEnd st trace ->
  defs_ st' = defs_ st -> uses_ st' = uses_ st ++ new ->
  trace_inv defStart useStart useEnd st' trace.
Proof.
  intros (Hs & H0 & Hb & Hr) Hd Hu. split; [done|]. split; [done|]. split.
  - rewrite Hd. done.
  - intros i t u Hi Hu'. destruct (Hr i t u Hi Hu') as [Hlt Hnext].
    rewrite Hu, vsize_app. pose proof (vsize_nonneg new).
    split; [lia|]. intros t' d Ht' Hd'. apply (Hnext t' d Ht').
    destruct (Hb i t Hi) as [_ Hus].
    rewrite lookup_app_l in Hd'; [done|]. unfold vsize in Hlt. lia.
Qed.

Lemma trace_inv_more_defs (st st' : UdState) (trace : list InsnInTrace) :
  trace_inv defStart useStart useEnd st trace ->
  uses_ st' = uses_ st -> vsize (defs_ st) <= vsize (defs_ st') ->
  trace_inv defStart useStart useEnd st' trace.
Proof.
  intros (Hs & H0 & Hb & Hr) Hu Hd. split; [done|]. split; [done|]. split.
  - intros i t Hi. destruct (Hb i t Hi). lia.
  - rewrite Hu. done.
Qed.

(** [Flush] stores the end indices in the last entry. *)
Lemma trace_inv_flush (st : UdState) (trace : list InsnInTrace)
    (last new : InsnInTrace) :
  trace_inv defStart useStart useEnd st trace ->
  trace !! (length trace - 1)%nat = Some last ->
  defStart new = defStart last -> useStart new = useStart last ->
  useEnd new = wrap32 (vsize (uses_ st)) ->
  trace_inv defStart useStart useEnd st (<[(length trace - 1)%nat := new]> trace).
Proof.
  intros (Hs & H0 & Hb & Hr) Hlast Hd Hu He.
  set (n := (length trace - 1)%nat) in *.
  assert (Hn : (n < length trace)%nat) by (by apply lookup_lt_Some in Hlast).
  split; [|split; [|split]].
  - rewrite list_fmap_insert, Hd.
    rewrite list_insert_id; [done|]. by rewrite list_lookup_fmap, Hlast.
  - intros t Ht. apply list_lookup_insert_Some in Ht as [(Hn0 & <- & _)|[_ Ht]].
    + rewrite Hd. apply H0. rewrite <- Hlast. by rewrite Hn0.
    + by apply H0.
  - intros i t Ht. apply list_lookup_insert_Some in Ht as [(<- & <- & _)|[_ Ht]].
    + rewrite Hd, Hu. by apply (Hb n).
    + by apply (Hb i).
  - intros i t u Ht Hrange.
    apply list_lookup_insert_Some in Ht as [(<- & <- & _)|[Hne Ht]].
    + rewrite He in Hrange.
      pose proof (wrap32_bounds _ (vsize_nonneg (uses_ st))).
      split; [lia|]. intros t' d Ht'.
      apply lookup_lt_Some in Ht'. rewrite length_insert in Ht'. lia.
    + destruct (Hr i t u Ht Hrange) as [Hlt Hnext]. split; [done|].
      intros t' d Ht' Hd'.
      apply list_lookup_insert_Some in Ht' as [(HnS & <- & _)|[_ Ht']].
      * rewrite Hd. apply (Hnext last d); [|done]. by rewrite <- HnS.
      * by apply (Hnext t' d).
Qed.

(** [AddTrace] opens an entry at the current counts. *)
Lemma trace_inv_add (st : UdState) (trace : list InsnInTrace) (new : InsnInTrace) :
  trace_inv defStart useStart useEnd st trace ->
  idx_inv st -> vsize (defs_ st) < 2 ^ 32 ->
  defStart new = wrap32 (vsize (defs_ st)) ->
  useStart new = wrap32 (vsize (uses_ st)) -> useEnd new = 0 ->
  trace <> [] ->
  trace_inv defStart useStart useEnd st (trace ++ [new]).
Proof.
  intros (Hs & H0 & Hb & Hr) [Hmap Huses] Hbound Hd Hu He Hne.
  pose proof (vsize_nonneg (defs_ st)) as Hd0.
  rewrite wrap32_small in Hd by lia.
  pose proof (wrap32_bounds _ (vsize_nonneg (uses_ st))) as Hw.
  split; [|split; [|split]].
  - rewrite fmap_app. apply StronglySorted_app_2; [|done|repeat constructor].
    intros x1 x2 Hx1 Hx2. apply list_elem_of_fmap in Hx1 as (t & -> & Ht).
    apply list_elem_of_lookup in Ht as [i Hi]. destruct (Hb i t Hi).
    simpl in Hx2. apply list_elem_of_singleton in Hx2 as ->. lia.
  - intros t Ht. destruct trace as [|t1 trace]; [done|].
    simpl in Ht. injection Ht as <-. by apply H0.
  - intros i t Ht. apply lookup_app_Some in Ht as [Ht|[_ Ht]].
    + by apply (Hb i).
    + apply list_lookup_singleton_Some in Ht as [_ <-]. lia.
  - intros i t u Ht Hrange. apply lookup_app_Some in Ht as [Ht|[_ Ht]].
    + destruct (Hr i t u Ht Hrange) as [Hlt Hnext]. split; [done|].
      intros t' d Ht' Hd'. apply lookup_app_Some in Ht' as [Ht'|[Hlen Ht']].
      * by apply (Hnext t' d).
      * apply list_lookup_singleton_Some in Ht' as [_ <-]. rewrite Hd.
        apply list_elem_of_lookup_2, list_elem_of_In in Hd'.
        specialize (Huses d Hd'). lia.
    + apply list_lookup_singleton_Some in Ht as [_ <-]. lia.
Qed.
End TraceInv.

Lemma sorted_by_fmap (proj : InsnInTrace -> Z) (trace : list InsnInTrace) :
  StronglySorted Z.le (proj <$> trace) -> sorted_by proj trace.
Proof.
  unfold sorted_by. induction trace as [|t trace IH]; intros H; [constructor|].
  simpl in H. apply StronglySorted_inv in H as [Hs Hall].
  constructor; [by apply IH|].
  rewrite List.Forall_forall in Hall. apply List.Forall_forall.
  intros x Hx. apply Hall. apply in_map_iff. by exists x.
Qed.

(** A use in the range of trace entry [t] resolves to a trace index that
    is at most [t]. *)
Lemma resolve_le (defStart useStart useEnd : InsnInTrace -> Z) (st : UdState)
    (trace : list InsnInTrace) (t : nat) (tr : InsnInTrace) (u : Z) (d : Def) (t' : Z) :
  trace_inv defStart useStart useEnd st trace ->
  trace !! t = Some tr -> useStart tr <= u < useEnd tr ->
  UdState_ResolveUse st u trace defStart = Some (d, t') ->
  0 <= t' <= Z.of_nat t.
Proof.
  intros (Hs & H0 & Hb & Hr) Ht Hrange Hres.
  destruct (Hr t tr u Ht Hrange) as [Hlt Hnext].
  unfold UdState_ResolveUse, ResolveUse in Hres.
  destruct (uses_ st !! Z.to_nat u) as [dI|] eqn:Hu; [|done].
  cbn [mbind option_bind] in Hres.
  destruct (FindPartialUse _ _) as [j|]; [|done]. cbn [mbind option_bind] in Hres.
  destruct (_ !! j) as [e|]; [|done]. cbn [mbind option_bind] in Hres.
  match type of Hres with
  | context [mbind _ ?X] => destruct X as [def|]; [|done]
  end.
  cbn [mbind option_bind] in Hres.
  pose proof (upper_bound_spec defStart trace dI (sorted_by_fmap _ _ Hs)) as Hub.
  pose proof (upper_bound_le defStart trace dI) as Hle.
  destruct (upper_bound defStart trace dI) as [|it] eqn:Hit; [done|].
  injection Hres as <- <-.
  assert (Hit0 : 0 <= Z.of_nat it) by lia.
  pose proof (wrap32_bounds (Z.of_nat it) Hit0) as Hw.
  split; [lia|].
  destruct (decide (it <= t)%nat) as [|Hgt]; [lia|]. exfalso.
  assert (Hlen : (S t < length trace)%nat) by lia.
  destruct (lookup_lt_is_Some_2 trace (S t) Hlen) as [tn Htn].
  specialize (Hnext tn dI Htn eq_refl).
  pose proof (Hub (S t) tn Htn) as [Hlt' _]. lia.
Qed.

(** A use in the range of trace entry [t] resolves, to a trace index that
    is at most [t]. *)
Lemma resolve_total (defStart useStart useEnd : InsnInTrace -> Z) (st : UdState)
    (trace : list InsnInTrace) (t : nat) (tr : InsnInTrace) (u : Z) :
  trace_inv defStart useStart useEnd st trace -> idx_inv st -> table_inv st ->
  vsize (uses_ st) <= UINT32_MAX -> vsize trace <= 2 ^ 32 ->
  trace !! t = Some tr -> useStart tr <= u < useEnd tr ->
  exists d t',
    UdState_ResolveUse st u trace defStart = Some (d, t') /\
    0 <= t' <= Z.of_nat t.
Proof.
  intros Htr [Hmap Huses] [Hpu Hkeys] Hsmall Hlen Ht Hrange.
  pose proof Htr as (Hs & H0 & Hb & Hr).
  destruct (Hr t tr u Ht Hrange) as [Hlt _].
  destruct (Hb t tr Ht) as [_ Hu0].
  destruct (lookup_Z_lt (uses_ st) u) as [dI HdI]; [lia|].
  assert (HdIn : In dI (uses_ st)).
  { apply list_elem_of_In. by apply list_elem_of_lookup_2 with (Z.to_nat u). }
  destruct (lookup_Z_lt (defs_ st) dI (Huses dI HdIn)) as [def0 Hdef0].
  destruct (lookup_lt_is_Some_2 trace O) as [t0 Ht0].
  { apply lookup_lt_Some in Ht. lia. }
  destruct (ResolveUse_spec st u trace defStart dI def0 t0 Hpu) as
    (d & t' & Hrun & _); try done.
  - lia.
  - by apply sorted_by_fmap.
  - rewrite (H0 t0 Ht0). specialize (Huses dI HdIn). lia.
  - exists d, t'. split; [done|].
    by apply (resolve_le defStart useStart useEnd st trace t tr u d t').
Qed.

(** ** The steps of the builder *)

Lemma step_ok_refl (ud : Ud) : step_ok ud ud.
Proof. split; [split; lia|done]. Qed.

Lemma step_ok_trans (ud1 ud2 ud3 : Ud) :
  step_ok ud1 ud2 -> step_ok ud2 ud3 -> step_ok ud1 ud3.
Proof.
  intros [[G1 G1'] H1] [[G2 G2'] H2]. split; [split; lia|].
  intros Hb Hi. apply H2; [done|]. apply H1; [|done].
  destruct Hb. split; lia.
Qed.

Lemma last_lookup {A} (l : list A) (x : A) :
  List.last (Some <$> l) None = Some x -> l !! (length l - 1)%nat = Some x.
Proof.
  destruct (decide (l = [])) as [->|Hne]; [done|].
  destruct (exists_last Hne) as (l' & y & ->).
  rewrite fmap_app. simpl. rewrite List.last_last. intros [= ->].
  rewrite length_app. simpl.
  replace (length l' + 1 - 1)%nat with (length l' + 0)%nat by lia.
  by rewrite lookup_app_r, Nat.add_comm, Nat.add_sub by lia.
Qed.

Lemma Flush_step (ud ud' : Ud) : Flush ud = Some ud' -> step_ok ud ud'.
Proof.
  unfold Flush. destruct (trace_ ud) as [|t0 tl] eqn:Htr; [done|].
  rewrite <- Htr. destruct (trace_ ud !! _) as [last|] eqn:Hlast; [|done].
  cbn [mbind option_bind]. intros [= <-]. split; [split; simpl; lia|].
  intros _ (Hne & Hir & Him & Htr_r & Htr_m). unfold Ud_inv. simpl.
  split; [|split; [done|split; [done|split]]].
  - intros Heq. apply (f_equal length) in Heq. rewrite length_insert in Heq.
    rewrite Htr in Heq. done.
  - by apply (trace_inv_flush _ _ _ _ _ last).
  - by apply (trace_inv_flush _ _ _ _ _ last).
Qed.

Lemma AddTrace_step (ud : Ud) (c : Z) :
  grows ud (AddTrace ud c) /\
  (Ud_bounded ud -> Ud_inv ud -> Ud_inv (AddTrace ud c)).
Proof.
  split; [split; simpl; lia|].
  intros [Hbr Hbm] (Hne & Hir & Him & Htr_r & Htr_m). unfold Ud_inv, AddTrace.
  simpl. split; [by destruct (trace_ ud)|]. split; [done|]. split; [done|].
  split; by apply trace_inv_add.
Qed.

Lemma HandleInsnSeq_step (ud ud' : Ud) (seq ret : Z) :
  HandleInsnSeq ud seq = Some (ret, ud') -> step_ok ud ud'.
Proof.
  unfold HandleInsnSeq.
  destruct (List.last _ _) as [bt|]; [|done]. cbn [mbind option_bind].
  destruct (codeIndex bt =? seq); [intros [= <- <-]; apply step_ok_refl|].
  destruct (Flush ud) as [ud1|] eqn:Hf; [|done]. cbn [mbind option_bind].
  intros [= <- <-]. apply Flush_step in Hf.
  apply (step_ok_trans _ ud1); [done|].
  destruct (AddTrace_step ud1 seq) as [Hg Hi]. split; [done|].
  intros Hb. apply Hi. destruct Hb, Hg. simpl in *. split; lia.
Qed.

Section Steps.
Variable E : Endianness.
Variable W : Z.

Lemma reg_AddUses_step (ud ud' : Ud) (a sz ret : Z) :
  reg_AddUses W ud a sz = Some (ret, ud') -> step_ok ud ud'.
Proof.
  unfold reg_AddUses.
  destruct (AddUses _ _ _ _ _) as [[p st]|] eqn:Hu; [|done].
  cbn [mbind option_bind]. intros [= <- <-].
  split.
  { apply AddUses_keeps in Hu as [_ Hd]. split; simpl; [rewrite Hd|]; lia. }
  intros _ (Hne & Hir & Him & Htr_r & Htr_m).
  destruct (idx_inv_AddUses _ _ _ _ _ _ _ Hu Hir) as (Hir' & Hd & new & Hnew).
  unfold Ud_inv. simpl. split; [done|]. split; [done|]. split; [done|].
  split; [|done]. by apply (trace_inv_more_uses _ _ _ (regState_ ud) _ _ new).
Qed.

Lemma mem_AddUses_step (ud ud' : Ud) (a sz ret : Z) :
  mem_AddUses W ud a sz = Some (ret, ud') -> step_ok ud ud'.
Proof.
  unfold mem_AddUses.
  destruct (AddUses _ _ _ _ _) as [[p st]|] eqn:Hu; [|done].
  cbn [mbind option_bind]. intros [= <- <-].
  split.
  { apply AddUses_keeps in Hu as [_ Hd]. split; simpl; [|rewrite Hd]; lia. }
  intros _ (Hne & Hir & Him & Htr_r & Htr_m).
  destruct (idx_inv_AddUses _ _ _ _ _ _ _ Hu Him) as (Him' & Hd & new & Hnew).
  unfold Ud_inv. simpl. split; [done|]. split; [done|]. split; [done|].
  split; [done|]. by apply (trace_inv_more_uses _ _ _ (memState_ ud) _ _ new).
Qed.

Lemma reg_AddDefs_step (ud ud' : Ud) (a sz ret : Z) :
  reg_AddDefs W ud a sz = Some (ret, ud') -> step_ok ud ud'.
Proof.
  unfold reg_AddDefs.
  destruct (AddDefs _ _ _ _) as [[r st]|] eqn:Hd; [|done].
  cbn [mbind option_bind]. intros [= <- <-].
  assert (Hgrow : idx_inv (regState_ ud) -> vsize (defs_ (regState_ ud)) <= vsize (defs_ st)).
  { intros Hi. by destruct (idx_inv_AddDefs _ _ _ _ _ _ Hd Hi) as (_ & _ & ?). }
  split.
  { split; simpl; [|lia]. apply AddDefs_cases in Hd as [[_ ->]|[_ ->]]; [lia|].
    cbv zeta. unfold AddDef. simpl. rewrite vsize_app.
    pose proof (vsize_nonneg [mkDef a (wrapW W (a + sz))]). lia. }
  intros _ (Hne & Hir & Him & Htr_r & Htr_m).
  destruct (idx_inv_AddDefs _ _ _ _ _ _ Hd Hir) as (Hir' & Hu & Hle).
  unfold Ud_inv. simpl. split; [done|]. split; [done|]. split; [done|].
  split; [|done]. by apply (trace_inv_more_defs _ _ _ (regState_ ud)).
Qed.

Lemma mem_AddDefs_step (ud ud' : Ud) (a sz ret : Z) :
  mem_AddDefs W ud a sz = Some (ret, ud') -> step_ok ud ud'.
Proof.
  unfold mem_AddDefs.
  destruct (AddDefs _ _ _ _) as [[r st]|] eqn:Hd; [|done].
  cbn [mbind option_bind]. intros [= <- <-].
  split.
  { split; simpl; [lia|]. apply AddDefs_cases in Hd as [[_ ->]|[_ ->]]; [lia|].
    cbv zeta. unfold AddDef. simpl. rewrite vsize_app.
    pose proof (vsize_nonneg [mkDef a (wrapW W (a + sz))]). lia. }
  intros _ (Hne & Hir & Him & Htr_r & Htr_m).
  destruct (idx_inv_AddDefs _ _ _ _ _ _ Hd Him) as (Him' & Hu & Hle).
  unfold Ud_inv. simpl. split; [done|]. split; [done|]. split; [done|].
  split; [done|]. by apply (trace_inv_more_defs _ _ _ (memState_ ud)).
Qed.
End Steps.

(** ** The steps of the builder, with the tables *)

Lemma step_all_refl (ud : Ud) : step_all ud ud.
Proof. split; [split; lia|]. split; [split; lia|]. by intros _ _ H. Qed.

Lemma step_all_trans (ud1 ud2 ud3 : Ud) :
  step_all ud1 ud2 -> step_all ud2 ud3 -> step_all ud1 ud3.
Proof.
  intros ([G1 G1'] & [U1 U1'] & H1) ([G2 G2'] & [U2 U2'] & H2).
  split; [split; lia|]. split; [split; lia|].
  intros [Hb Hb'] [Hs Hs'] Hi. apply H2; [by split|by split|].
  apply H1; [split; lia|split; lia|done].
Qed.

Lemma step_all_intro (ud ud' : Ud) :
  step_ok ud ud' -> uses_grow ud ud' ->
  (Ud_small ud' -> Ud_inv ud -> Ud_tables ud -> Ud_tables ud') ->
  step_all ud ud'.
Proof.
  intros [Hg Hok] Hu Ht. split; [done|]. split; [done|].
  intros Hb Hs [Hi Htab]. split; [by apply Hok|by apply Ht].
Qed.

(** A step that leaves the uses, the tables and the cache of primes as
    they are. *)
Lemma step_all_same (ud ud' : Ud) :
  step_ok ud ud' ->
  uses_ (regState_ ud') = uses_ (regState_ ud) ->
  partialUses_ (regState_ ud') = partialUses_ (regState_ ud) ->
  uses_ (memState_ ud') = uses_ (memState_ ud) ->
  partialUses_ (memState_ ud') = partialUses_ (memState_ ud) ->
  primes ud' = primes ud ->
  step_all ud ud'.
Proof.
  intros Hok Hru Hrp Hmu Hmp Hp. apply step_all_intro; [done| |].
  - unfold uses_grow. rewrite Hru, Hmu. lia.
  - intros _ _ (Hg & Hr & Hm). unfold Ud_tables, table_inv.
    by rewrite Hru, Hrp, Hmu, Hmp, Hp.
Qed.

Lemma Flush_states (ud ud' : Ud) :
  Flush ud = Some ud' ->
  regState_ ud' = regState_ ud /\ memState_ ud' = memState_ ud /\
  primes ud' = primes ud.
Proof.
  unfold Flush. destruct (trace_ ud) as [|t0 tl]; [done|].
  destruct (_ !! _) as [last|]; [|done]. by intros [= <-].
Qed.

Lemma HandleInsnSeq_states (ud ud' : Ud) (seq ret : Z) :
  HandleInsnSeq ud seq = Some (ret, ud') ->
  regState_ ud' = regState_ ud /\ memState_ ud' = memState_ ud /\
  primes ud' = primes ud.
Proof.
  unfold HandleInsnSeq.
  destruct (List.last _ _) as [bt|]; [|done]. cbn [mbind option_bind].
  destruct (codeIndex bt =? seq); [by intros [= <- <-]|].
  destruct (Flush ud) as [ud1|] eqn:Hf; [|done]. cbn [mbind option_bind].
  intros [= <- <-]. by apply Flush_states in Hf.
Qed.

Lemma Flush_all (ud ud' : Ud) : Flush ud = Some ud' -> step_all ud ud'.
Proof.
  intros H. destruct (Flush_states _ _ H) as (Hr & Hm & Hp).
  apply step_all_same; [by apply Flush_step|..]; by rewrite ?Hr, ?Hm.
Qed.

Lemma HandleInsnSeq_all (ud ud' : Ud) (seq ret : Z) :
  HandleInsnSeq ud seq = Some (ret, ud') -> step_all ud ud'.
Proof.
  intros H. destruct (HandleInsnSeq_states _ _ _ _ H) as (Hr & Hm & Hp).
  apply step_all_same; [by apply (HandleInsnSeq_step _ _ seq ret)|..];
    by rewrite ?Hr, ?Hm.
Qed.

Lemma UdState_wf_split (st : UdState) :
  UdState_wf st <-> table_inv st /\ idx_inv st.
Proof. unfold UdState_wf, table_inv, idx_inv. tauto. Qed.

(** [AddUses] keeps the table well-formed, when the use indices fit. *)
Lemma AddUses_tables (W : Z) (primes primes' : list Z) (st st' : UdState)
    (a sz : Z) :
  AddUses W primes st a sz = Some (primes', st') ->
  good_primes primes -> table_inv st -> idx_inv st ->
  vsize (uses_ st') <= UINT32_MAX ->
  good_primes primes' /\ table_inv st' /\
  vsize (uses_ st) <= vsize (uses_ st').
Proof.
  intros Hrun Hg Ht Hi Hsmall.
  pose proof (AddUses_loop_uses _ _ _ _ _ _ _ Hrun) as Hu.
  assert (Hbound : vsize (uses_ st) +
    vsize (walk (addressSpace_ st) (wrapW W (a + 1)) (wrapW W (a + sz)))
    <= UINT32_MAX).
  { rewrite Hu, vsize_app in Hsmall. unfold vsize in Hsmall.
    rewrite length_fmap in Hsmall. done. }
  assert (Hwf : UdState_wf st) by (by apply UdState_wf_split).
  destruct (AddUses_total W primes st a sz Hg Hwf Hbound) as
    (p2 & st2 & Hrun2 & Hg2 & Hwf2 & _).
  rewrite Hrun in Hrun2. injection Hrun2 as <- <-.
  apply UdState_wf_split in Hwf2 as [Ht2 _].
  split; [done|]. split; [done|].
  rewrite Hu, vsize_app. pose proof (vsize_nonneg
    ((fun y => EntryValue.defIndex (snd y)) <$>
     take (count_affected (drop (map_lower_bound (addressSpace_ st)
       (wrapW W (a + 1))) (addressSpace_ st)) (wrapW W (a + sz)))
       (drop (map_lower_bound (addressSpace_ st) (wrapW W (a + 1)))
          (addressSpace_ st)))). lia.
Qed.

(** [AddDefs] leaves the uses and the table as they are. *)
Lemma AddDefs_same (W : Z) (st st' : UdState) (a sz ret : Z) :
  AddDefs W st a sz = Some (ret, st') ->
  uses_ st' = uses_ st /\ partialUses_ st' = partialUses_ st.
Proof.
  intros H. by apply AddDefs_cases in H as [[_ ->]|[_ ->]].
Qed.

Section StepsAll.
Variable W : Z.

Lemma reg_AddUses_all (ud ud' : Ud) (a sz ret : Z) :
  reg_AddUses W ud a sz = Some (ret, ud') -> step_all ud ud'.
Proof.
  intros H. apply step_all_intro; [by apply (reg_AddUses_step W _ _ a sz ret)|..];
    unfold reg_AddUses in H;
    destruct (AddUses _ _ _ _ _) as [[p st]|] eqn:Hu; try done;
    cbn [mbind option_bind] in H; injection H as <- <-.
  - pose proof (AddUses_loop_uses _ _ _ _ _ _ _ Hu) as Huses.
    split; simpl; [|lia]. rewrite Huses, vsize_app.
    match goal with |- _ <= _ + vsize ?l => pose proof (vsize_nonneg l) end.
    lia.
  - intros [Hs _] (_ & Hir & _) (Hg & Hr & Hm). simpl in Hs.
    destruct (AddUses_tables _ _ _ _ _ _ _ Hu Hg Hr Hir Hs) as (Hg' & Hr' & _).
    by split.
Qed.

Lemma mem_AddUses_all (ud ud' : Ud) (a sz ret : Z) :
  mem_AddUses W ud a sz = Some (ret, ud') -> step_all ud ud'.
Proof.
  intros H. apply step_all_intro; [by apply (mem_AddUses_step W _ _ a sz ret)|..];
    unfold mem_AddUses in H;
    destruct (AddUses _ _ _ _ _) as [[p st]|] eqn:Hu; try done;
    cbn [mbind option_bind] in H; injection H as <- <-.
  - pose proof (AddUses_loop_uses _ _ _ _ _ _ _ Hu) as Huses.
    split; simpl; [lia|]. rewrite Huses, vsize_app.
    match goal with |- _ <= _ + vsize ?l => pose proof (vsize_nonneg l) end.
    lia.
  - intros [_ Hs] (_ & _ & Him & _) (Hg & Hr & Hm). simpl in Hs.
    destruct (AddUses_tables _ _ _ _ _ _ _ Hu Hg Hm Him Hs) as (Hg' & Hm' & _).
    by split.
Qed.

Lemma reg_AddDefs_all (ud ud' : Ud) (a sz ret : Z) :
  reg_AddDefs W ud a sz = Some (ret, ud') -> step_all ud ud'.
Proof.
  intros H. pose proof (reg_AddDefs_step W _ _ a sz ret H) as Hok.
  unfold reg_AddDefs in H.
  destruct (AddDefs _ _ _ _) as [[r st]|] eqn:Hd; [|done].
  cbn [mbind option_bind] in H. injection H as <- <-.
  destruct (AddDefs_same _ _ _ _ _ _ Hd) as [Hu Hp].
  by apply step_all_same.
Qed.

Lemma mem_AddDefs_all (ud ud' : Ud) (a sz ret : Z) :
  mem_AddDefs W ud a sz = Some (ret, ud') -> step_all ud ud'.
Proof.
  intros H. pose proof (mem_AddDefs_step W _ _ a sz ret H) as Hok.
  unfold mem_AddDefs in H.
  destruct (AddDefs _ _ _ _) as [[r st]|] eqn:Hd; [|done].
  cbn [mbind option_bind] in H. injection H as <- <-.
  destruct (AddDefs_same _ _ _ _ _ _ Hd) as [Hu Hp].
  by apply step_all_same.
Qed.
End StepsAll.

Section Visit.
Variable E : Endianness.
Variable W : Z.

Ltac step_bind H :=
  match type of H with
  | mbind _ ?X = Some _ =>
      let Hx := fresh "Hx" in
      destruct X eqn:Hx; [cbn [mbind option_bind] in H|done]
  end.

Lemma Ud_LdSt_step (ud ud' : Ud) (i ret : Z) (entry : View) :
  Ud_LdSt E W ud i entry = Some (ret, ud') -> step_all ud ud'.
Proof.
  unfold Ud_LdSt. intros H.
  step_bind H. step_bind H. destruct p as [r ud1].
  apply HandleInsnSeq_all in Hx0.
  destruct (r <? 0); [by injection H as <- <-|].
  step_bind H.
  assert (Hcall : forall f : Ud -> Z -> Z -> option (Z * Ud),
    (forall a sz r' u', f ud1 a sz = Some (r', u') -> step_all ud1 u') ->
    (addr ← LdStEntry_GetAddr E W entry;
     size ← LdStEntry_GetSize E W entry; f ud1 addr size) = Some (ret, ud') ->
    step_all ud ud').
  { intros f Hf Hc. step_bind Hc. step_bind Hc.
    apply (step_all_trans _ ud1); [done|]. by apply (Hf _ _ _ _ Hc). }
  cbv zeta in H.
  repeat match type of H with
  | (if ?c then _ else _) = _ => destruct c
  end.
  - apply (Hcall _ (fun a sz r' u' => mem_AddUses_all W ud1 u' a sz r') H).
  - apply (Hcall _ (fun a sz r' u' => mem_AddDefs_all W ud1 u' a sz r') H).
  - by injection H as <- <-.
  - apply (Hcall _ (fun a sz r' u' => reg_AddUses_all W ud1 u' a sz r') H).
  - apply (Hcall _ (fun a sz r' u' => reg_AddDefs_all W ud1 u' a sz r') H).
  - by injection H as <- <-.
Qed.

Lemma Ud_LdStNx_step (ud ud' : Ud) (i ret : Z) (entry : View) :
  Ud_LdStNx E W ud i entry = Some (ret, ud') -> step_all ud ud'.
Proof.
  unfold Ud_LdStNx. intros H.
  step_bind H. step_bind H. destruct p as [r ud1].
  apply HandleInsnSeq_all in Hx0.
  destruct (r <? 0); [by injection H as <- <-|].
  step_bind H.
  assert (Hcall : forall f : Ud -> Z -> Z -> option (Z * Ud),
    (forall a sz r' u', f ud1 a sz = Some (r', u') -> step_all ud1 u') ->
    (addr ← LdStEntry_GetAddr E W entry;
     size ← LdStNxEntry_GetSize E W entry; f ud1 addr size) = Some (ret, ud') ->
    step_all ud ud').
  { intros f Hf Hc. step_bind Hc. step_bind Hc.
    apply (step_all_trans _ ud1); [done|]. by apply (Hf _ _ _ _ Hc). }
  cbv zeta in H.
  repeat match type of H with
  | (if ?c then _ else _) = _ => destruct c
  end.
  - apply (Hcall _ (fun a sz r' u' => reg_AddUses_all W ud1 u' a sz r') H).
  - apply (Hcall _ (fun a sz r' u' => reg_AddDefs_all W ud1 u' a sz r') H).
  - by injection H as <- <-.
Qed.

Lemma Ud_InsnExec_step (ud ud' : Ud) (i ret : Z) (entry : View) :
  Ud_InsnExec E ud i entry = Some (ret, ud') -> step_all ud ud'.
Proof.
  unfold Ud_InsnExec. intros H.
  step_bind H. step_bind H. destruct p as [r ud1].
  apply HandleInsnSeq_all in Hx0.
  by destruct (r <? 0); injection H as <- <-.
Qed.

Lemma Ud_Insn_step (ud ud' : Ud) (i ret : Z) (entry : View) :
  Ud_Insn E W ud i entry = Some (ret, ud') -> step_all ud ud'.
Proof.
  unfold Ud_Insn. intros H. step_bind H.
  destruct (negb _); [injection H as <- <-; apply step_all_refl|].
  step_bind H. step_bind H. step_bind H. injection H as <- <-.
  split; [split; simpl; lia|]. split; [split; simpl; lia|].
  by intros _ _ Hi.
Qed.

Lemma Ud_visit_step (ud ud' : Ud) (tr tr' : TraceMm) (s e ret : Z) :
  @VisitOne E W Ud (Ud_Visitor E W) tr s e ud = Some (ret, tr', ud') ->
  step_all ud ud'.
Proof.
  unfold VisitOne. intros H.
  destruct (negb _); [injection H as <- <- <-; apply step_all_refl|].
  step_bind H.
  destruct (negb _); [injection H as <- <- <-; apply step_all_refl|].
  step_bind H. destruct p as [err v'].
  assert (Hv : step_all ud v').
  { destruct (_ && _); [|injection Hx0 as <- <-; apply step_all_refl].
    step_bind Hx0.
    repeat match type of Hx0 with
    | (if ?c then _ else _) = _ => destruct c
    end.
    - by apply Ud_LdSt_step in Hx0.
    - by apply Ud_Insn_step in Hx0.
    - by apply Ud_InsnExec_step in Hx0.
    - by apply Ud_LdStNx_step in Hx0.
    - injection Hx0 as <- <-; apply step_all_refl.
    - injection Hx0 as <- <-; apply step_all_refl. }
  destruct (err <? 0); [by injection H as <- <- <-|].
  destruct (Advance _ _) as [[] tr1]; by injection H as <- <- <-.
Qed.

Lemma Visit_loop_step (fuel : nat) (ud ud' : Ud) (tr tr' : TraceMm) (s e ret : Z) :
  @Visit_loop E W Ud (Ud_Visitor E W) fuel tr s e ud = Some (ret, tr', ud') ->
  step_all ud ud'.
Proof.
  revert ud tr. induction fuel as [|fuel IH]; intros ud tr; simpl.
  - destruct (_ =? _); [|done]. intros [= <- <- <-]. apply step_all_refl.
  - destruct (_ =? _); [intros [= <- <- <-]; apply step_all_refl|].
    intros H. step_bind H. destruct p as [[err tr1] ud1].
    apply Ud_visit_step in Hx.
    destruct (err <? 0).
    + by injection H as <- <- <-.
    + apply (step_all_trans _ ud1); [done|]. by apply (IH _ _ H).
Qed.

Lemma UdState_Init_empty (primes0 primes1 : list Z) (n : Z) (st : UdState) :
  UdState_Init primes0 n = Some (primes1, st) ->
  uses_ st = [] /\ defs_ st = [] /\ addressSpace_ st = [].
Proof.
  unfold UdState_Init. intros H. step_bind H. destruct p. by injection H as <- <-.
Qed.

Lemma AddDef_first_inv (defStart useStart useEnd : InsnInTrace -> Z)
    (st : UdState) (t0 : InsnInTrace) (a b : Z) :
  uses_ st = [] -> defs_ st = [] -> addressSpace_ st = [] ->
  defStart t0 = 0 -> useStart t0 = 0 -> useEnd t0 = 0 ->
  idx_inv (AddDef st a b) /\
  trace_inv defStart useStart useEnd (AddDef st a b) [t0].
Proof.
  intros Hu Hd Hm Hd0 Hu0 He0. split.
  - unfold idx_inv, AddDef. rewrite Hu, Hd, Hm. simpl. split.
    + intros e v [[= <- <-]|[]]. simpl. change (wrap32 (vsize [])) with 0.
      unfold vsize. simpl. lia.
    + intros d [].
  - unfold trace_inv. split; [|split; [|split]].
    + simpl. repeat constructor.
    + by intros t [= <-].
    + intros [|i] t [= <-]. rewrite Hd0, Hu0. pose proof (vsize_nonneg (defs_ (AddDef st a b))). lia.
    + intros [|i] t u [= <-]. lia.
Qed.

Lemma Ud_Init_inv (ok : bool) (primes0 : list Z) (machineType n ret : Z) (ud : Ud) :
  Ud_Init E W ok primes0 machineType n = Some (ret, ud) -> Ud_inv ud.
Proof.
  unfold Ud_Init. intros H. step_bind H. destruct p as [primes1 rs].
  step_bind H. destruct p as [primes2 ms].
  apply UdState_Init_empty in Hx as (Hru & Hrd & Hrm).
  apply UdState_Init_empty in Hx0 as (Hmu & Hmd & Hmm).
  cbv zeta in H.
  assert (ud = set_memState
    (set_regState (AddTrace (mkUd [mkInsnInCode 0 0 0] [] [] rs ms primes2)
                     (wrap32 (vsize ([] : list InsnInCode))))
       primes2 (AddDef rs 0 (WMAX W)))
    primes2 (AddDef ms 0 (WMAX W))) as ->.
  { destruct (_ <? 0); by injection H as <- <-. }
  clear H. unfold Ud_inv. simpl.
  rewrite Hru, Hrd, Hmu, Hmd. change (wrap32 (vsize [])) with 0.
  destruct (AddDef_first_inv regDefStartIndex regUseStartIndex regUseEndIndex
    rs (mkInsnInTrace 0 0 0 0 0 0 0 0 0) 0 (WMAX W)) as [? ?]; try done.
  destruct (AddDef_first_inv memDefStartIndex memUseStartIndex memUseEndIndex
    ms (mkInsnInTrace 0 0 0 0 0 0 0 0 0) 0 (WMAX W)) as [? ?]; done.
Qed.

Lemma UdState_Init_tables (primes0 primes1 : list Z) (n : Z) (st : UdState) :
  good_primes primes0 -> 0 <= n <= 2 ^ 33 ->
  UdState_Init primes0 n = Some (primes1, st) ->
  good_primes primes1 /\ PartialUses_ok (partialUses_ st) /\
  forall x, In x (entries_ (partialUses_ st)) -> first x = UINT32_MAX.
Proof.
  intros Hg Hn. unfold UdState_Init.
  destruct (PartialUses_reserve_Init primes0 n Hg Hn)
    as (primes' & pu' & -> & Hg' & Hok & Hempty).
  cbn [mbind option_bind]. by intros [= <- <-].
Qed.

Lemma Ud_Init_tables (ok : bool) (primes0 : list Z) (machineType n ret : Z)
    (ud : Ud) :
  good_primes primes0 -> 0 <= n <= 2 ^ 36 ->
  Ud_Init E W ok primes0 machineType n = Some (ret, ud) -> Ud_tables ud.
Proof.
  intros Hg Hn. unfold Ud_Init. intros H.
  assert (2 ^ 36 = 68719476736) as Hp36 by done.
  assert (2 ^ 33 = 8589934592) as Hp33 by done.
  step_bind H. destruct p as [primes1 rs].
  step_bind H. destruct p as [primes2 ms].
  apply UdState_Init_tables in Hx as (Hg1 & Hrok & Hrempty); [|done|].
  2:{ split; [apply Z.div_pos; lia|apply Z.div_le_upper_bound; lia]. }
  apply UdState_Init_tables in Hx0 as (Hg2 & Hmok & Hmempty); [|done|].
  2:{ split; [apply Z.div_pos; lia|apply Z.div_le_upper_bound; lia]. }
  cbv zeta in H.
  assert (ud = set_memState
    (set_regState (AddTrace (mkUd [mkInsnInCode 0 0 0] [] [] rs ms primes2)
                     (wrap32 (vsize ([] : list InsnInCode))))
       primes2 (AddDef rs 0 (WMAX W)))
    primes2 (AddDef ms 0 (WMAX W))) as ->.
  { destruct (_ <? 0); by injection H as <- <-. }
  clear H. unfold Ud_tables, table_inv. simpl.
  split; [done|]. split; (split; [done|]); intros x Hx Hne; exfalso;
    apply Hne; auto.
Qed.

(** The graph that a visit produces satisfies the invariants of the trace
    and of the tables, when its indices fit. *)
Lemma Ud_Visit_inv (ok : bool) (fuel : nat) (data : list byte) (s e ret : Z) (ud : Ud) :
  Ud_Visit E W ok fuel data s e = Some (ret, Some ud) ->
  vsize data <= 2 ^ 40 ->
  Ud_bounded ud -> Ud_small ud -> Ud_inv ud /\ Ud_tables ud.
Proof.
  unfold Ud_Visit. intros H Hdata Hb Hs. step_bind H. destruct p as [err tr].
  assert (Htr : data_ tr = data).
  { unfold TraceMm_Init in Hx. destruct (negb _); [by injection Hx as <- <-|].
    step_bind Hx. unfold Advance in Hx. cbn [cur_ data_ entryIndex_] in Hx.
    destruct (_ >? _); by injection Hx as <- <-. }
  destruct (err <? 0); [done|]. step_bind H. step_bind H. destruct p as [err1 ud1].
  pose proof (Ud_Init_inv _ _ _ _ _ _ Hx1) as Hinv1.
  assert (Htab1 : Ud_tables ud1).
  { apply (Ud_Init_tables _ _ _ _ _ _ good_primes_init) in Hx1; [done|].
    unfold length_. rewrite Htr.
    assert (2 ^ 40 = 1099511627776) as Hp40 by done.
    assert (2 ^ 36 = 68719476736) as Hp36 by done.
    pose proof (vsize_nonneg data).
    split; [apply Z.div_pos; lia|apply Z.div_le_upper_bound; lia]. }
  destruct (err1 <? 0); [by injection H as <- <-|].
  step_bind H. destruct p as [[err2 tr2] ud2].
  apply Visit_loop_step in Hx2.
  destruct (err2 <? 0).
  - injection H as <- <-. by apply Hx2.
  - step_bind H. destruct p as [err3 ud3]. injection H as <- <-.
    unfold Ud_Complete in Hx3. step_bind Hx3. injection Hx3 as <- <-.
    apply Flush_all in Hx4.
    by apply (step_all_trans _ _ _ Hx2 Hx4).
Qed.
End Visit.

(** ** Fuel *)

Section Fuel.
Variable E : Endianness.
Variable W : Z.

(** More fuel gives the same result. *)
Lemma Visit_loop_fuel_mono {V : Type} (Vis : Visitor V) (f f' : nat)
    (tr : TraceMm) (s e : Z) (v : V) (r : Z * TraceMm * V) :
  @Visit_loop E W V Vis f tr s e v = Some r -> (f <= f')%nat ->
  @Visit_loop E W V Vis f' tr s e v = Some r.
Proof.
  revert f' tr v. induction f as [|f IH]; intros f' tr v H Hle.
  - simpl in H. destruct (cur_ tr =? length_ tr) eqn:Hc; [|done].
    destruct f'; simpl; by rewrite Hc.
  - destruct f' as [|f']; [lia|]. simpl in *.
    destruct (cur_ tr =? length_ tr); [done|].
    destruct (VisitOne E W tr s e v) as [[[err tr1] v1]|]; [|done].
    cbn [mbind option_bind] in *.
    destruct (err <? 0); [done|]. apply IH; [done|lia].
Qed.

Lemma Ud_Visit_fuel_mono (ok : bool) (f f' : nat) (data : list byte)
    (s e : Z) (r : Z * option Ud) :
  Ud_Visit E W ok f data s e = Some r -> (f <= f')%nat ->
  Ud_Visit E W ok f' data s e = Some r.
Proof.
  unfold Ud_Visit. intros H Hle.
  destruct (TraceMm_Init E W data) as [[err tr]|]; [|done].
  cbn [mbind option_bind] in *.
  destruct (err <? 0); [done|].
  destruct (HeaderEntry_GetMachineType E (header_ tr)) as [mt|]; [|done].
  cbn [mbind option_bind] in *.
  destruct (Ud_Init E W ok primes_init mt _) as [[err1 ud1]|]; [|done].
  cbn [mbind option_bind] in *.
  destruct (err1 <? 0); [done|].
  destruct (@Visit_loop E W Ud (Ud_Visitor E W) f tr s e ud1)
    as [[[err2 tr2] ud2]|] eqn:Hloop; [|done].
  by rewrite (Visit_loop_fuel_mono _ f f' _ _ _ _ _ Hloop Hle).
Qed.
End Fuel.

Lemma UdFile_fuel_mono (ok : bool) (f f' : nat) (data : list byte)
    (s e : Z) (r : Z * option Ud) :
  UdFile ok f data s e = Some r -> (f <= f')%nat ->
  UdFile ok f' data s e = Some r.
Proof.
  unfold UdFile. intros H Hle.
  destruct data as [|b0 [|b1 data]]; [done|done|].
  cbv zeta in *.
  repeat match goal with
  | |- context [if ?c then _ else _] => destruct c
  end; try done; by apply (Ud_Visit_fuel_mono _ _ _ f f').
Qed.

Lemma UdFile_cases (ok : bool) (f : nat) (data : list byte) (s e ret : Z) (ud : Ud) :
  UdFile ok f data s e = Some (ret, Some ud) ->
  exists E W, Ud_Visit E W ok f data s e = Some (ret, Some ud).
Proof.
  unfold UdFile. intros H. destruct data as [|b0 [|b1 data]]; [done|done|].
  cbv zeta in H.
  repeat match type of H with
  | (if ?c then _ else _) = _ => destruct c
  end; try done; by eexists _, _.
Qed.

(** * The states that the calls reach *)

(** [AddDefs] keeps every live interval within the range of its def. *)
Lemma AddDefs_within (W : Z) (st st' : UdState) (a sz ret : Z) :
  live_ok (addressSpace_ st) -> live_within_defs st ->
  vsize (defs_ st) < 2 ^ 32 ->
  0 <= a -> 0 < sz -> a + sz <= WMAX W ->
  AddDefs W st a sz = Some (ret, st') ->
  live_within_defs st'.
Proof.
  intros Hl Hw Hd Ha Hsz Hb Hrun.
  apply AddDefs_cases in Hrun as [[_ ->]|[_ ->]]; [done|].
  cbv zeta. rewrite !wrapW_small by lia. unfold AddDef, live_within_defs.
  cbn [defs_ addressSpace_].
  rewrite wrap32_small by (pose proof (vsize_nonneg (defs_ st)); lia).
  set (m := addressSpace_ st) in *.
  intros e v Hin.
  apply (AddDefs_map_In m a (a + sz) (vsize (defs_ st)) (e, v) Hl) in Hin; [|lia].
  assert (Hold : forall ey vy, In (ey, vy) m ->
    exists def, (defs_ st ++ [mkDef a (a + sz)]) !!
                  Z.to_nat (EntryValue.defIndex vy) = Some def /\
                startAddr def <= EntryValue.startAddr vy /\ ey <= endAddr def).
  { intros ey vy Hy. destruct (Hw ey vy Hy) as (def & Hdef & Hs & He).
    exists def. split; [|done]. rewrite lookup_app_l; [done|].
    by apply lookup_lt_Some in Hdef. }
  destruct Hin as [[= -> ->]|[[Hin _]|([ey vy] & Hy & [Ho1 Ho2] & Hres)]].
  - exists (mkDef a (a + sz)). cbn [EntryValue.defIndex EntryValue.startAddr].
    split; [|simpl; lia]. unfold vsize. rewrite Nat2Z.id.
    by rewrite lookup_app_r, Nat.sub_diag by lia.
  - by apply Hold.
  - destruct (Hold ey vy Hy) as (def & Hdef & Hs & He).
    simpl in Ho1, Ho2. apply residues_In in Hres. simpl in Hres.
    destruct Hres as [[[= -> ->] ?]|[[= -> ->] ?]]; exists def;
      (split; [done|simpl; lia]).
Qed.

(** [AddDefs] on a state that is in order. *)
Lemma AddDefs_state_ok (W : Z) (st st' : UdState) (a sz ret : Z) :
  state_ok W st -> vsize (defs_ st) < 2 ^ 32 ->
  0 <= a -> 0 < sz -> a + sz <= WMAX W ->
  AddDefs W st a sz = Some (ret, st') ->
  state_ok W st'.
Proof.
  intros (Hwf & Hinv & Hw) Hd Ha Hsz Hb Hrun.
  apply UdState_wf_split in Hwf as [Ht Hi].
  destruct (idx_inv_AddDefs _ _ _ _ _ _ Hrun Hi) as (Hi' & Hu & _).
  destruct (AddDefs_same _ _ _ _ _ _ Hrun) as [_ Hp].
  split; [|split].
  - apply UdState_wf_split. split; [|done]. unfold table_inv.
    by rewrite Hu, Hp.
  - by apply (AddDefs_map_inv W st st' a sz ret).
  - apply (AddDefs_within W st st' a sz ret); try done. by destruct Hinv.
Qed.

(** [AddUses] on a state that is in order. *)
Lemma AddUses_state_ok (W : Z) (primes primes' : list Z) (st st' : UdState)
    (a sz : Z) :
  good_primes primes -> state_ok W st ->
  vsize (uses_ st') <= UINT32_MAX ->
  AddUses W primes st a sz = Some (primes', st') ->
  good_primes primes' /\ state_ok W st'.
Proof.
  intros Hg (Hwf & Hinv & Hw) Hs Hrun.
  apply UdState_wf_split in Hwf as [Ht Hi].
  destruct (AddUses_tables _ _ _ _ _ _ _ Hrun Hg Ht Hi Hs) as (Hg' & Ht' & _).
  destruct (idx_inv_AddUses _ _ _ _ _ _ _ Hrun Hi) as (Hi' & _).
  destruct (AddUses_keeps _ _ _ _ _ _ _ Hrun) as [Hm Hd].
  split; [done|]. split; [|split].
  - by apply UdState_wf_split.
  - by rewrite Hm.
  - unfold live_within_defs. by rewrite Hm, Hd.
Qed.

(** The defs and the uses only grow. *)
Lemma UdState_run_grows (W : Z) (ops : list UdOp) (primes primes' : list Z)
    (st st' : UdState) :
  UdState_run W primes st ops = Some (primes', st') ->
  vsize (defs_ st) <= vsize (defs_ st') /\
  vsize (uses_ st) <= vsize (uses_ st').
Proof.
  revert primes st. induction ops as [|op ops IH]; intros primes st Hrun.
  { injection Hrun as <- <-. lia. }
  destruct op as [a n|a n]; simpl in Hrun.
  - destruct (AddUses W primes st a n) as [[p1 st1]|] eqn:Hu; [|done].
    simpl in Hrun. apply IH in Hrun as [Hd1 Hu1].
    pose proof (AddUses_loop_uses _ _ _ _ _ _ _ Hu) as Huses.
    destruct (AddUses_keeps _ _ _ _ _ _ _ Hu) as [_ Hd].
    rewrite Hd in Hd1. rewrite Huses, vsize_app in Hu1.
    match type of Hu1 with _ + vsize ?l <= _ => pose proof (vsize_nonneg l) end.
    lia.
  - destruct (AddDefs W st a n) as [[r1 st1]|] eqn:Hd; [|done].
    simpl in Hrun. apply IH in Hrun as [Hd1 Hu1].
    destruct (AddDefs_same _ _ _ _ _ _ Hd) as [Hu _]. rewrite Hu in Hu1.
    split; [|done].
    apply AddDefs_cases in Hd as [[_ ->]|[_ ->]]; [done|].
    cbv zeta in Hd1. unfold AddDef in Hd1. cbn [defs_] in Hd1.
    rewrite vsize_app in Hd1.
    match type of Hd1 with _ + vsize ?l <= _ => pose proof (vsize_nonneg l) end.
    lia.
Qed.

(** Every state that non-empty writes within the address space and reads
    reach from a state in order is in order, as long as the indices fit. *)
Lemma UdState_run_state_ok (W : Z) (ops : list UdOp) (primes primes' : list Z)
    (st st' : UdState) :
  good_primes primes -> state_ok W st -> Forall (valid_op W) ops ->
  UdState_run W primes st ops = Some (primes', st') ->
  vsize (defs_ st') < 2 ^ 32 -> vsize (uses_ st') <= UINT32_MAX ->
  good_primes primes' /\ state_ok W st'.
Proof.
  revert primes st. induction ops as [|op ops IH];
    intros primes st Hg Hok Hv Hrun Hd Hu.
  { by injection Hrun as <- <-. }
  apply Forall_cons_1 in Hv as [Hop Hv]. destruct op as [a n|a n]; simpl in Hrun.
  - destruct (AddUses W primes st a n) as [[p1 st1]|] eqn:Hu1; [|done].
    simpl in Hrun. destruct (UdState_run_grows _ _ _ _ _ _ Hrun) as [_ Hgu].
    destruct (AddUses_state_ok W primes p1 st st1 a n Hg Hok) as [Hg1 Hok1];
      [lia|done|].
    by apply (IH p1 st1).
  - destruct (AddDefs W st a n) as [[r1 st1]|] eqn:Hd1; [|done].
    simpl in Hrun. destruct (UdState_run_grows _ _ _ _ _ _ Hrun) as [Hgd _].
    destruct Hop as (Ha & Hn & Hb).
    assert (Hlt : vsize (defs_ st) < 2 ^ 32).
    { destruct Hok as (Hwf & _). apply UdState_wf_split in Hwf as [_ Hi].
      destruct (idx_inv_AddDefs _ _ _ _ _ _ Hd1 Hi) as (_ & _ & Hle). lia. }
    apply (IH primes st1); try done.
    by apply (AddDefs_state_ok W st st1 a n r1).
Qed.

(** The state after [UdState::Init] and the catch-all def is in order. *)
Lemma seed_state_ok (W : Z) (primes primes' : list Z) (n : Z) (st : UdState) :
  0 < W -> good_primes primes -> 0 <= n <= 2 ^ 33 ->
  UdState_Init primes n = Some (primes', st) ->
  good_primes primes' /\ state_ok W (AddDef st 0 (WMAX W)).
Proof.
  intros HW Hg Hn Hinit.
  destruct (UdState_Init_empty _ _ _ _ Hinit) as (Hu & Hd & Hm).
  destruct (UdState_Init_tables _ _ _ _ Hg Hn Hinit) as (Hg' & Hok & Hempty).
  split; [done|]. unfold state_ok, UdState_wf, live_within_defs, AddDef.
  cbn [uses_ defs_ partialUses_ addressSpace_]. rewrite Hu, Hd, Hm.
  change (wrap32 (vsize [])) with 0. split; [|split].
  - split; [done|]. split; [|split].
    + intros x Hx Hne. exfalso. by apply Hne, Hempty.
    + intros e v [[= <- <-]|[]]. done.
    + intros d [].
  - apply (map_inv_init W 0). by apply WMAX_pos.
  - intros e v [[= <- <-]|[]]. exists (mkDef 0 (WMAX W)). split; [done|].
    simpl. lia.
Qed.

(** * Seeking *)

Lemma wrap64_id (x : Z) : 0 <= x < 2 ^ 64 -> wrap64 x = x.
Proof. intros Hx. unfold wrap64, wrap. by apply Z.mod_small. Qed.

Lemma wrap64_succ (idx : Z) :
  -1 <= idx < 2 ^ 63 -> wrap64 (wrap64 idx + 1) = idx + 1.
Proof.
  intros Hx. destruct (decide (idx = -1)) as [->|Hne]; [done|].
  rewrite (wrap64_id idx) by lia. apply wrap64_id. lia.
Qed.

Lemma wrap64_eqb (idx k : Z) :
  -1 <= idx < 2 ^ 63 -> 0 <= k < 2 ^ 32 -> (wrap64 idx =? k) = (idx =? k).
Proof.
  intros Hx Hk. destruct (decide (idx = -1)) as [->|Hne].
  - change (wrap64 (-1)) with (2 ^ 64 - 1).
    destruct (Z.eqb_spec (2 ^ 64 - 1) k), (Z.eqb_spec (-1) k); lia.
  - by rewrite wrap64_id by lia.
Qed.

Section Seeking.
Variable E : Endianness.
Variable W : Z.

(** One step of the loop of [SeekInsn] at a well-formed record. *)
Lemma VisitOne_record (data : list byte) (off e idx prev tag aligned seq : Z) :
  vsize data < 2 ^ 64 -> 0 <= e < 2 ^ 63 -> -1 <= idx < 2 ^ 63 ->
  Tlv_GetTag E (mkView data off) = Some tag ->
  Tlv_GetAlignedLength E W (mkView data off) = Some aligned ->
  GetInsnSeq E (mkView data off) = Some seq ->
  known_tag tag = true -> 8 <= aligned -> off + aligned <= vsize data ->
  let new := counts_insnSeq tag && negb (seq =? prev) in
  @VisitOne E W Seek (Seek_Visitor E) (mkTraceMm data off e) 0 SIZE_MAX
    (mkSeek (wrap64 idx) prev) =
    Some (0, mkTraceMm data (off + aligned) (e + 1),
          mkSeek (wrap64 (if new then idx + 1 else idx))
                 (if new then seq else prev)).
Proof.
  intros Hdata He Hidx Htag Hal Hseq Hknown H8 Hfit new.
  unfold VisitOne, Have, Advance, length_, Tlv_kFixedLength.
  cbn [cur_ data_ entryIndex_].
  destruct (Z.leb_spec (off + 4) (vsize data)) as [_|]; [|lia].
  cbn [negb]. rewrite Hal. cbn [mbind option_bind].
  destruct (Z.leb_spec (off + aligned) (vsize data)) as [_|]; [|lia].
  cbn [negb].
  destruct (Z.leb_spec 0 e) as [_|]; [|lia].
  destruct (Z.ltb_spec e SIZE_MAX) as [_|Hbig]; [|unfold SIZE_MAX in Hbig; lia].
  cbn [andb]. rewrite Htag. cbn [mbind option_bind].
  assert (Hstep : Seek_with_seq E (mkSeek (wrap64 idx) prev) (mkView data off) =
    Some (0, mkSeek (wrap64 (if negb (seq =? prev) then idx + 1 else idx))
               (if negb (seq =? prev) then seq else prev))).
  { unfold Seek_with_seq, Seek_HandleInsnSeq. rewrite Hseq.
    cbn [mbind option_bind prevInsnSeq insnIndex].
    destruct (negb (seq =? prev)); [|done]. rewrite wrap64_succ by done.
    by rewrite wrap64_id by lia. }
  assert (Hend : forall s : Seek,
    (let '(err, visitor') := (0, s) in
     if err <? 0 then Some (err, mkTraceMm data off e, visitor')
     else
       let '(ok, tr') :=
         if off + aligned >? vsize data then (false, mkTraceMm data off e)
         else (true, mkTraceMm data (off + aligned) e) in
       if ok then Some (0, mkTraceMm (data_ tr') (cur_ tr')
                             (wrap64 (entryIndex_ tr' + 1)), visitor')
       else Some (- EINVAL, tr', visitor')) =
    Some (0, mkTraceMm data (off + aligned) (e + 1), s)).
  { intros s. cbn [Z.ltb Z.compare].
    destruct (Z.gtb_spec (off + aligned) (vsize data)) as [|_]; [lia|].
    cbn [data_ cur_ entryIndex_]. by rewrite wrap64_id by lia. }
  unfold known_tag in Hknown. unfold new, counts_insnSeq.
  destruct (Z.eqb_spec tag MT_LOAD) as [->|];
    [cbn [orb andb visit_LdSt Seek_Visitor]; rewrite Hstep; apply Hend|].
  destruct (Z.eqb_spec tag MT_STORE) as [->|];
    [cbn [orb andb visit_LdSt Seek_Visitor]; rewrite Hstep; apply Hend|].
  destruct (Z.eqb_spec tag MT_REG) as [->|];
    [cbn [orb andb visit_LdSt Seek_Visitor]; rewrite Hstep; apply Hend|].
  destruct (Z.eqb_spec tag MT_GET_REG) as [->|];
    [cbn [orb andb visit_LdSt Seek_Visitor]; rewrite Hstep; apply Hend|].
  destruct (Z.eqb_spec tag MT_PUT_REG) as [->|];
    [cbn [orb andb visit_LdSt Seek_Visitor]; rewrite Hstep; apply Hend|].
  cbn [orb andb].
  destruct (Z.eqb_spec tag MT_INSN) as [->|];
    [cbn [orb andb visit_Insn Seek_Visitor]; apply Hend|].
  destruct (Z.eqb_spec tag MT_INSN_EXEC) as [->|];
    [cbn [orb andb visit_InsnExec Seek_Visitor]; rewrite Hstep; apply Hend|].
  destruct (Z.eqb_spec tag MT_GET_REG_NX) as [->|];
    [cbn [orb andb visit_LdStNx Seek_Visitor]; rewrite Hstep; apply Hend|].
  destruct (Z.eqb_spec tag MT_PUT_REG_NX) as [->|];
    [cbn [orb andb visit_LdStNx Seek_Visitor]; rewrite Hstep; apply Hend|].
  cbn [orb andb].
  destruct (Z.eqb_spec tag MT_MMAP) as [->|]; [|done].
  cbn [visit_Mmap Seek_Visitor]. apply Hend.
Qed.

(** The loop of [SeekInsn] against the walk over the records. *)
Lemma SeekInsn_loop_records (fuel : nat) :
  forall (f : nat) (data : list byte) (off e idx prev k : Z)
         (recs : list TlvRecord),
  vsize data < 2 ^ 64 -> 0 <= off -> 0 <= e -> 8 * e <= off ->
  -1 <= idx < e -> 0 <= k < 2 ^ 32 ->
  tlv_records E W fuel data off = Some recs ->
  (length recs < f)%nat ->
  SeekInsn_loop E W f (mkTraceMm data off e) (mkSeek (wrap64 idx) prev) k =
    Some (SeekResult_of data (seek_records counts_insnSeq recs e idx prev k)).
Proof.
  induction fuel as [|fuel IH];
    intros f data off e idx prev k recs Hdata Hoff He He8 Hidx Hk Hrecs Hf.
  - cbn [tlv_records] in Hrecs. destruct f as [|f]; [lia|].
    cbn [SeekInsn_loop cur_]. unfold length_. cbn [data_].
    destruct (off =? vsize data); [|done]. by injection Hrecs as <-.
  - cbn [tlv_records] in Hrecs. destruct f as [|f]; [lia|].
    cbn [SeekInsn_loop cur_]. unfold length_. cbn [data_].
    destruct (Z.eqb_spec off (vsize data)) as [|Hne]; [by injection Hrecs as <-|].
    destruct (Tlv_GetTag _ _) as [tag|] eqn:Htag; [|done].
    cbn [mbind option_bind] in Hrecs.
    destruct (Tlv_GetAlignedLength _ _ _) as [aligned|] eqn:Hal; [|done].
    cbn [mbind option_bind] in Hrecs.
    destruct (GetInsnSeq _ _) as [seq|] eqn:Hseq; [|done].
    cbn [mbind option_bind] in Hrecs.
    destruct (known_tag tag) eqn:Hknown; [|done].
    destruct (Z.leb_spec 8 aligned) as [H8|]; [|done].
    destruct (Z.leb_spec (off + aligned) (vsize data)) as [Hfit|]; [|done].
    cbn [andb] in Hrecs.
    destruct (tlv_records E W fuel data (off + aligned)) as [rest|] eqn:Hrest;
      [|done].
    cbn [mbind option_bind] in Hrecs. injection Hrecs as <-.
    assert (He' : 0 <= e < 2 ^ 63) by (clear - Hdata He He8 H8 Hfit; lia).
    assert (Hidx63 : -1 <= idx < 2 ^ 63) by lia.
    rewrite (VisitOne_record data off e idx prev tag aligned seq
               Hdata He' Hidx63 Htag Hal Hseq Hknown H8 Hfit).
    cbn [mbind option_bind Z.ltb Z.compare insnIndex data_ entryIndex_
         seek_records rec_tag rec_insnSeq rec_off].
    set (new := counts_insnSeq tag && negb (seq =? prev)).
    assert (Hidx' : -1 <= (if new then idx + 1 else idx) < e + 1)
      by (destruct new; lia).
    assert (Hidx'63 : -1 <= (if new then idx + 1 else idx) < 2 ^ 63) by lia.
    rewrite (wrap64_eqb _ k Hidx'63 Hk).
    destruct (_ =? k).
    + cbn [SeekResult_of]. replace (e + 1 - 1) with e by lia.
      by rewrite wrap64_id by lia.
    + simpl in Hf. apply IH; try done; try lia.
Qed.
End Seeking.

(** * The properties of the specification *)

(** Closed facts by evaluation. *)
Ltac by_eval :=
  vm_compute; repeat split;
  first [reflexivity | discriminate | (intros; discriminate)].

(** ** States for the examples *)

Lemma st_one_write_run : AddDefs 4 st_seed 0 4 = Some (0, st_one_write).
Proof. by vm_compute. Qed.

Lemma st_one_write_map :
  addressSpace_ st_one_write =
    [(4, EntryValue.mk 0 1); (WMAX 4, EntryValue.mk 4 0)].
Proof. by vm_compute. Qed.

Lemma st_one_write_defs : defs_ st_one_write = [mkDef 0 (WMAX 4); mkDef 0 4].
Proof. by vm_compute. Qed.

Lemma st_one_write_live : live_ok (addressSpace_ st_one_write).
Proof.
  rewrite st_one_write_map. split; [|split].
  - unfold map_sorted. simpl. repeat constructor.
  - intros e v [[= <- <-]|[[= <- <-]|[]]]; by vm_compute.
  - intros e1 v1 e2 v2 [[= <- <-]|[[= <- <-]|[]]] [[= <- <-]|[[= <- <-]|[]]];
      by vm_compute.
Qed.

Lemma st_one_write_wf : UdState_wf st_one_write.
Proof.
  split; [apply PartialUses_Init_ok|]. split; [|split].
  - intros x Hx Hne. exfalso. apply Hne.
    by apply (cleared_all_empty 11 [] x).
  - rewrite st_one_write_map, st_one_write_defs.
    intros e v [[= <- <-]|[[= <- <-]|[]]]; by vm_compute.
  - intros d [].
Qed.

Lemma st_one_write_within : live_within_defs st_one_write.
Proof.
  unfold live_within_defs. rewrite st_one_write_map, st_one_write_defs.
  intros e v [[= <- <-]|[[= <- <-]|[]]]; eexists; (split; [reflexivity|by vm_compute]).
Qed.

Lemma st_seed_inv : map_inv 4 (addressSpace_ st_seed).
Proof. by apply (map_inv_init 4 (wrap32 0)). Qed.

Lemma st_one_write_ok : state_ok 4 st_one_write.
Proof.
  split; [apply st_one_write_wf|]. split; [|apply st_one_write_within].
  apply (AddDefs_map_inv 4 st_seed st_one_write 0 4 0 st_seed_inv);
    [lia|lia|by_eval|apply st_one_write_run].
Qed.

(** The state after the 33 one-byte writes. *)
Lemma st_33_writes_run :
  UdState_run 4 primes_init st_seed byte_writes = Some (primes_init, st_33_writes).
Proof. by vm_compute. Qed.

Lemma st_33_writes_live : live_ok (addressSpace_ st_33_writes).
Proof.
  apply (UdState_run_map_inv 4 byte_writes primes_init primes_init st_seed).
  - apply st_seed_inv.
  - unfold byte_writes. apply List.Forall_forall.
    intros op (i & <- & Hi%in_seq)%in_map_iff. simpl.
    assert (WMAX 4 = 4294967295) by done. lia.
  - apply st_33_writes_run.
Qed.

(** C1: a call [AddUses(start, size)] whose [start + 1] and [start + size]
    do not wrap around (both at most [2^(8W) - 1]), on a state in order
    (indices in range, a well-formed table, non-empty disjoint live
    intervals, each within the range of its def: the states of
    [UdState_run_state_ok]) appends one use for each live interval
    [[s, e)] with [start < e] and [s < start + size] (for a non-empty
    range: the intervals that overlap [[start, start + size)]), in the
    order of the map, and changes neither the map nor the defs.  For the
    use at index [u] recorded for the live interval [y = [s, e)]:
    [uses[u]] is the def index of [y]; the overlap [[max(start, s),
    min(start + size, e))] is the intersection of the read range with [y]
    and lies within the range of [defs[uses[u]]]; and the lookup of [u] in
    the partial-use table is absent when the overlap is the whole range of
    that def, and [PartialUse{u, overlap}] when it is a strict part of
    it. *)
Theorem C1_AddUses_overlaps (W : Z) (primes : list Z) (st : UdState) (a sz : Z) :
  let m := addressSpace_ st in
  let b := a + sz in
  let wk := List.filter (overlapsb a b) m in
  good_primes primes -> state_ok W st ->
  0 <= a -> 0 <= sz -> a + 1 <= WMAX W -> b <= WMAX W ->
  vsize (uses_ st) + vsize wk <= UINT32_MAX ->
  exists primes' st',
    AddUses W primes st a sz = Some (primes', st') /\
    addressSpace_ st' = m /\ defs_ st' = defs_ st /\
    uses_ st' = uses_ st ++ ((fun y => EntryValue.defIndex (snd y)) <$> wk) /\
    forall (i : nat) (y : Z * EntryValue.t),
      wk !! i = Some y ->
      let u := vsize (uses_ st) + Z.of_nat i in
      let overlap := overlap_of a b y in
      exists def,
        uses_ st' !! Z.to_nat u = Some (EntryValue.defIndex (snd y)) /\
        defs_ st' !! Z.to_nat (EntryValue.defIndex (snd y)) = Some def /\
        (forall x, startAddr overlap <= x < endAddr overlap <->
                   a <= x < b /\ EntryValue.startAddr (snd y) <= x < fst y) /\
        startAddr def <= startAddr overlap /\ endAddr overlap <= endAddr def /\
        PartialUses_find (partialUses_ st') u =
          Some (if Def_eqb def overlap then None
                else Some (mkPartialUse u overlap)).
Proof.
  intros m b wk Hg (Hwf & (Hlive & _) & Hwithin) Ha Hsz Ha1 Hb Hbound.
  assert (Hwk : walk m (wrapW W (a + 1)) (wrapW W (a + sz)) = wk).
  { unfold walk. rewrite !wrapW_small by (unfold b in Hb; lia).
    by apply affected_filter. }
  destruct (AddUses_total W primes st a sz Hg Hwf) as
    (primes' & st' & Hrun & _ & _ & Hm & Hd & Hu & _).
  { fold m. rewrite Hwk. done. }
  fold m in Hu. rewrite Hwk in Hu.
  exists primes', st'. do 4 (split; [done|]).
  intros i y Hi u overlap.
  destruct (AddUses_find W primes st a sz Hg Hwf) with (primes' := primes')
    (st' := st') (i := i) (y := y) as (def & Hdef & Hfind); try done.
  { fold m. rewrite Hwk. done. }
  { fold m. by rewrite Hwk. }
  rewrite wrapW_small in Hfind by (unfold b in Hb; lia).
  exists def. split; [|split; [by rewrite Hd|]].
  - rewrite Hu. unfold u, vsize.
    replace (Z.to_nat (Z.of_nat (length (uses_ st)) + Z.of_nat i))
      with (length (uses_ st) + i)%nat by lia.
    rewrite lookup_app_r, Nat.add_comm, Nat.add_sub by lia.
    by rewrite list_lookup_fmap, Hi.
  - assert (Hy : In y m).
    { apply list_elem_of_lookup_2, list_elem_of_In in Hi.
      unfold wk in Hi. by apply List.filter_In in Hi as [? _]. }
    destruct y as [e v]. destruct (Hwithin e v Hy) as (def' & Hdef' & Hs & He).
    simpl in Hdef. rewrite Hdef in Hdef'. injection Hdef' as <-.
    destruct Hlive as (_ & Hne & _). specialize (Hne e v Hy).
    unfold overlap, overlap_of. simpl.
    split; [intros x; lia|]. split; [lia|]. split; [lia|]. done.
Qed.

(** The read of [[2, 6)] after a write of [[0, 4)]. *)
Lemma C1_AddUses_overlaps_witness :
  exists primes' st',
    AddUses 4 primes_init st_one_write 2 4 = Some (primes', st') /\
    uses_ st' = [1; 0] /\
    PartialUses_find (partialUses_ st') 0 = Some (Some (mkPartialUse 0 (mkDef 2 4))) /\
    PartialUses_find (partialUses_ st') 1 = Some (Some (mkPartialUse 1 (mkDef 4 6))).
Proof.
  destruct (C1_AddUses_overlaps 4 primes_init st_one_write 2 4
              good_primes_init st_one_write_ok)
    as (primes' & st' & Hrun & _ & _ & Hu & Hall);
    [lia|lia|by vm_compute|by vm_compute|by vm_compute|].
  exists primes', st'. split; [exact Hrun|]. split; [exact Hu|].
  destruct (Hall 0%nat (4, EntryValue.mk 0 1) eq_refl) as (d0 & _ & Hd0 & _ & _ & _ & H0).
  destruct (Hall 1%nat (WMAX 4, EntryValue.mk 4 0) eq_refl) as (d1 & _ & Hd1 & _ & _ & _ & H1).
  pose proof (AddUses_keeps _ _ _ _ _ _ _ Hrun) as [_ Hdefs].
  rewrite Hdefs in Hd0, Hd1. injection Hd0 as <-. injection Hd1 as <-.
  split; [exact H0|exact H1].
Defined.

(** Reads whose end [start + size] wraps around, on the seeded map of a
    32-bit address space, where the interval [[0, 2^32 - 1)] of the def 0
    is live.  The read of 4 bytes at [2^32 - 2] appends the use of the def
    0, and the partial use that it stores for it is [{2^32 - 2, 2}]: not
    [[max(start, s), min(start + size, e))], which is [[2^32 - 2,
    2^32 - 1)].  The read of 2 bytes at [2^32 - 2] appends no use, though
    the live interval holds the address [2^32 - 2] of the read, has
    [s < start + size] and is the one that [lower_bound(start + 1)]
    finds. *)
Lemma C1_wrap_counterexample :
  let start := 2 ^ 32 - 2 in
  let s := 0 in
  let e := WMAX 4 in
  In (e, EntryValue.mk s 0) (addressSpace_ st_seed) /\
  (addressSpace_ st_seed) !! map_lower_bound (addressSpace_ st_seed) (start + 1)
    = Some (e, EntryValue.mk s 0) /\
  s <= start < e /\
  (exists primes' st',
     AddUses 4 primes_init st_seed start 4 = Some (primes', st') /\
     s < start + 4 /\
     uses_ st' = uses_ st_seed ++ [0] /\
     PartialUses_find (partialUses_ st') (vsize (uses_ st_seed)) =
       Some (Some (mkPartialUse (vsize (uses_ st_seed)) (mkDef start 2))) /\
     mkDef start 2 <> mkDef (Z.max start s) (Z.min (start + 4) e)) /\
  (exists primes' st',
     AddUses 4 primes_init st_seed start 2 = Some (primes', st') /\
     s < start + 2 /\
     uses_ st' = uses_ st_seed).
Proof.
  cbv zeta. split; [by left|]. split; [by vm_compute|].
  split; [by vm_compute|]. split.
  - eexists _, _. split; [by vm_compute|]. split; [done|].
    split; [by vm_compute|]. split; [by vm_compute|]. by vm_compute.
  - eexists _, _. split; [by vm_compute|]. split; [done|]. by vm_compute.
Qed.

(** C2: a call [AddDefs(start, size)] that overlaps at most 32 live
    intervals, with [0 < size] and its range [[start, end)], [end = start +
    size], within the address space, returns 0; it appends [Def{start,
    end}] to the defs, and the map then holds exactly: the new interval
    [[start, end)] with the new def index, the intervals that do not overlap
    the range, unchanged, and for each interval that overlaps it the
    residues with the old def index (none on an outer overlap, the part
    after [end] on a left overlap, both parts on an inner overlap, the part
    before [start] on a right overlap).  The intervals of the map stay
    pairwise disjoint. *)
Theorem C2_AddDefs_residues (W : Z) (st : UdState) (a sz : Z) :
  let m := addressSpace_ st in
  let b := a + sz in
  live_ok m -> 0 <= a -> 0 < sz -> b <= WMAX W ->
  Z.of_nat (length (List.filter (overlapsb a b) m)) <= 32 ->
  exists st',
    AddDefs W st a sz = Some (0, st') /\
    defs_ st' = defs_ st ++ [mkDef a b] /\
    (forall x, In x (addressSpace_ st') <->
       x = (b, EntryValue.mk a (wrap32 (vsize (defs_ st)))) \/
       (In x m /\ ~ overlaps a b x) \/
       (exists y, In y m /\ overlaps a b y /\ In x (residues a b y))) /\
    pairwise_disjoint (addressSpace_ st').
Proof.
  intros m b Hlive Ha Hsz Hb Hc.
  destruct (AddDefs_success W st a sz Hlive Ha Hb Hsz Hc)
    as (st' & Hrun & _ & _ & Hd & Hl' & Hin).
  exists st'. split; [done|]. split; [done|]. split; [done|].
  by apply live_ok_pairwise_disjoint.
Qed.

(** The write of [[2, 6)] after the write of [[0, 4)]: a right overlap and
    a left overlap. *)
Lemma C2_AddDefs_residues_witness :
  exists st',
    AddDefs 4 st_one_write 2 4 = Some (0, st') /\
    defs_ st' = [mkDef 0 (WMAX 4); mkDef 0 4; mkDef 2 6] /\
    In (2, EntryValue.mk 0 1) (addressSpace_ st') /\
    In (6, EntryValue.mk 2 2) (addressSpace_ st') /\
    In (WMAX 4, EntryValue.mk 6 0) (addressSpace_ st').
Proof.
  destruct (C2_AddDefs_residues 4 st_one_write 2 4 st_one_write_live)
    as (st' & Hrun & Hd & Hin & _); [lia|lia|by vm_compute|by vm_compute|].
  exists st'. split; [exact Hrun|]. split; [exact Hd|].
  rewrite st_one_write_map in Hin. split; [|split].
  - apply Hin. right. right. exists (4, EntryValue.mk 0 1).
    split; [by left|]. split; [by vm_compute|]. by left.
  - apply Hin. by left.
  - apply Hin. right. right. exists (WMAX 4, EntryValue.mk 4 0).
    split; [right; by left|]. split; [by vm_compute|]. by left.
Defined.

(** A write that spans the 33 one-byte intervals: the call returns
    [-EINVAL]; the overlapping interval [[0, 1)] is still in the map, no
    def is appended, and the range [[0, 33)] is not in the map. *)
Lemma C2_too_many_counterexample :
  exists ret st',
    AddDefs 4 st_33_writes 0 33 = Some (ret, st') /\
    ret <> 0 /\
    overlaps 0 33 (1, EntryValue.mk 0 1) /\
    In (1, EntryValue.mk 0 1) (addressSpace_ st_33_writes) /\
    In (1, EntryValue.mk 0 1) (addressSpace_ st') /\
    defs_ st' = defs_ st_33_writes /\
    ~ In (33, EntryValue.mk 0 (wrap32 (vsize (defs_ st_33_writes))))
         (addressSpace_ st').
Proof.
  exists (- EINVAL), st_33_writes.
  split; [by vm_compute|]. split; [done|]. split; [by vm_compute|].
  assert (Hin : In (1, EntryValue.mk 0 1) (addressSpace_ st_33_writes)).
  { vm_compute. by left. }
  do 3 (split; [done|]).
  assert (Hall : forallb (fun x => negb ((fst x =? 33) &&
                   (EntryValue.defIndex (snd x) =? 34)))
                   (addressSpace_ st_33_writes) = true) by (by vm_compute).
  rewrite forallb_forall in Hall. intros Hc. apply Hall in Hc.
  cbn [fst snd EntryValue.defIndex] in Hc. rewrite Z.eqb_refl in Hc.
  change (wrap32 (vsize (defs_ st_33_writes)) =? 34) with true in Hc.
  discriminate Hc.
Qed.

(** An empty write at address 4 into the seeded map: the interval
    [[0, WMAX)] has the residue [[0, 4)] on an inner overlap, but the map
    after the call does not hold it. *)
Lemma AddDefs_empty_write :
  exists st',
    AddDefs 4 st_seed 4 0 = Some (0, st') /\
    In (WMAX 4, EntryValue.mk 0 0) (addressSpace_ st_seed) /\
    0 < 4 /\ 4 < WMAX 4 /\
    In (4, EntryValue.mk 0 0) (residues 4 4 (WMAX 4, EntryValue.mk 0 0)) /\
    ~ In (4, EntryValue.mk 0 0) (addressSpace_ st').
Proof.
  eexists. split; [by vm_compute|]. split; [by left|].
  split; [done|]. split; [done|]. split; [by left|].
  intros [H|[H|[]]]; discriminate H.
Qed.

(** The count of [AddDefs] when neither [start + 1] nor [start + size]
    wraps around. *)
Lemma AddDefs_count_nowrap (W : Z) (m : AddressSpace) (a sz : Z) :
  live_ok m -> 0 <= a -> 0 <= sz -> a + 1 <= WMAX W -> a + sz <= WMAX W ->
  count_affected (drop (map_lower_bound m (wrapW W (a + 1))) m)
    (wrapW W (a + sz)) =
  length (List.filter (overlapsb a (a + sz)) m).
Proof.
  intros Hlive Ha Hsz Ha1 Hb. rewrite !wrapW_small by lia.
  rewrite <- affected_filter by done. apply affected_length.
Qed.

(** C8: for a call [AddDefs(start, size)] whose [start + 1] and
    [start + size] do not wrap around (both at most [2^(8W) - 1]), the
    count that [AddDefs] compares with 32 is the number of live intervals
    [[s, e)] with [start < e] and [s < start + size]: for a non-empty
    range, the live intervals that overlap it.  Above 32 the call returns
    [-EINVAL] and the state (the map, the defs and all else) is as
    before; up to 32 the call returns 0 and records the def. *)
Theorem C8_AddDefs_cap (W : Z) (st : UdState) (a sz : Z) :
  let m := addressSpace_ st in
  let count := Z.of_nat (length (List.filter (overlapsb a (a + sz)) m)) in
  live_ok m -> 0 <= a -> 0 <= sz -> a + 1 <= WMAX W -> a + sz <= WMAX W ->
  vsize m < 2 ^ 32 ->
  (32 < count -> AddDefs W st a sz = Some (- EINVAL, st)) /\
  (count <= 32 ->
   exists st', AddDefs W st a sz = Some (0, st') /\
               defs_ st' = defs_ st ++ [mkDef a (a + sz)]).
Proof.
  intros m count Hlive Ha Hsz Ha1 Hb Hm.
  pose proof (AddDefs_count_nowrap W m a sz Hlive Ha Hsz Ha1 Hb) as Hn.
  assert (Hle : (length (List.filter (overlapsb a (a + sz)) m) <= length m)%nat)
    by apply List.filter_length_le.
  assert (Hw : wrap32 count = count).
  { unfold vsize in Hm. apply wrap32_small. unfold count. lia. }
  unfold AddDefs. cbv zeta. fold m. rewrite Hn. fold count. rewrite Hw.
  unfold kMaxAffectedCount. split; intros Hc.
  - destruct (Z.gtb_spec count 32); [done|lia].
  - destruct (Z.gtb_spec count 32); [lia|].
    eexists. split; [reflexivity|]. unfold AddDef. cbn [defs_].
    by rewrite (wrapW_small W (a + sz)) by lia.
Qed.

(** After 33 one-byte writes, a write that spans them all fails and
    changes nothing, and a write that spans 32 of them succeeds. *)
Lemma C8_AddDefs_cap_witness :
  AddDefs 4 st_33_writes 0 33 = Some (- EINVAL, st_33_writes) /\
  exists st', AddDefs 4 st_33_writes 0 32 = Some (0, st') /\
              defs_ st' = defs_ st_33_writes ++ [mkDef 0 32].
Proof.
  split.
  - apply (C8_AddDefs_cap 4 st_33_writes 0 33 st_33_writes_live); by_eval.
  - apply (C8_AddDefs_cap 4 st_33_writes 0 32 st_33_writes_live); by_eval.
Defined.

(** Writes that wrap around, after the 33 one-byte writes on a 32-bit
    address space (the live intervals are [[0, 1)], ..., [[32, 33)] and
    [[33, 2^32 - 1)]).  The write of [2^32 - 1] bytes at 1 has the range
    [[1, 2^32)], which overlaps 33 live intervals; its end wraps to 0, the
    count is 0, and the call returns 0, appends the def [{1, 0}] and puts
    an interval under the key 0 into the map.  The write of 35 bytes at
    [2^32 - 2] has its end wrap to 33: the call returns 0 and the new
    interval takes the key 33, so that the live interval [[32, 33)] of the
    def 33 is lost.  The empty write at [2^32 - 1], whose [start + 1]
    wraps to 0, overlaps no interval and returns [-EINVAL]. *)
Lemma C8_wrap_counterexample :
  let m := addressSpace_ st_33_writes in
  (32 < Z.of_nat (length (List.filter (overlapsb 1 (1 + (2 ^ 32 - 1))) m)) /\
   exists st',
     AddDefs 4 st_33_writes 1 (2 ^ 32 - 1) = Some (0, st') /\
     defs_ st' = defs_ st_33_writes ++ [mkDef 1 0] /\
     In (0, EntryValue.mk 1 34) (addressSpace_ st') /\
     ~ In (0, EntryValue.mk 1 34) m) /\
  (In (33, EntryValue.mk 32 33) m /\
   exists st',
     AddDefs 4 st_33_writes (2 ^ 32 - 2) 35 = Some (0, st') /\
     In (33, EntryValue.mk (2 ^ 32 - 2) 34) (addressSpace_ st') /\
     forall e v, In (e, v) (addressSpace_ st') -> EntryValue.defIndex v <> 33) /\
  (List.filter (overlapsb (WMAX 4) (WMAX 4 + 0)) m = [] /\
   AddDefs 4 st_33_writes (WMAX 4) 0 = Some (- EINVAL, st_33_writes)).
Proof.
  cbv zeta. split; [|split].
  - split; [by vm_compute|]. eexists. split; [by vm_compute|].
    split; [by vm_compute|]. split; [vm_compute; by left|].
    assert (Hall : forallb (fun x => negb (fst x =? 0))
                     (addressSpace_ st_33_writes) = true) by (by vm_compute).
    rewrite forallb_forall in Hall. intros Hc. apply Hall in Hc. done.
  - split.
    { vm_compute. repeat ((left; reflexivity) || right). }
    eexists. split; [by vm_compute|].
    match goal with |- In _ (addressSpace_ ?st) /\ _ =>
      assert (Hall : forallb (fun x => negb (EntryValue.defIndex (snd x) =? 33))
                       (addressSpace_ st) = true) by (by vm_compute)
    end.
    split.
    + vm_compute. repeat ((left; reflexivity) || right).
    + rewrite forallb_forall in Hall. intros e v Hin Hd.
      apply Hall in Hin. cbn [snd] in Hin. rewrite Hd in Hin. done.
  - split; by vm_compute.
Qed.

(** C3: for a use index [u] whose use names a recorded def, on a trace in
    the order of the start-def-index field whose first entry starts at or
    below that def index, [ResolveUse(u, trace, startDefIndex)] returns the
    pair [(d, t)]: [d] is the range of the entry of [u] in the partial-use
    table when there is one and [defs[uses[u]]] when there is none, and [t]
    is the largest trace index with [trace[t].startDefIndex <= uses[u]]. *)
Theorem C3_ResolveUse (st : UdState) (u : Z) (trace : list InsnInTrace)
    (startDefIndex : InsnInTrace -> Z) (defIndex : Z) (def0 : Def)
    (t0 : InsnInTrace) :
  PartialUses_ok (partialUses_ st) ->
  0 <= u < UINT32_MAX ->
  uses_ st !! Z.to_nat u = Some defIndex ->
  defs_ st !! Z.to_nat defIndex = Some def0 ->
  sorted_by startDefIndex trace ->
  trace !! O = Some t0 -> startDefIndex t0 <= defIndex ->
  vsize trace <= 2 ^ 32 ->
  exists d t,
    UdState_ResolveUse st u trace startDefIndex = Some (d, t) /\
    d = match PartialUses_find (partialUses_ st) u with
        | Some (Some partialUse) => second partialUse
        | _ => def0
        end /\
    0 <= t /\
    (exists tr, trace !! Z.to_nat t = Some tr /\ startDefIndex tr <= defIndex) /\
    (forall j tr, trace !! j = Some tr -> startDefIndex tr <= defIndex ->
                  Z.of_nat j <= t).
Proof.
  intros Hpu Hu Huse Hd Hsorted Hfirst Hle Hlen.
  destruct (ResolveUse_spec st u trace startDefIndex defIndex def0 t0
              Hpu Hu Huse Hd Hsorted Hfirst Hle Hlen)
    as (d & t & Hrun & Hdef & Htr & Ht & Hmax).
  by exists d, t.
Qed.

Lemma trace_three_sorted : sorted_by regDefStartIndex trace_three.
Proof.
  unfold sorted_by, trace_three.
  repeat (constructor; [|repeat (constructor; [by_eval|]); constructor]).
  constructor.
Qed.

Lemma C3_ResolveUse_witness :
  UdState_ResolveUse st_two_uses 0 trace_three regDefStartIndex =
    Some (mkDef 0 4, 1).
Proof.
  destruct (C3_ResolveUse st_two_uses 0 trace_three regDefStartIndex 1
              (mkDef 0 4) (mkInsnInTrace 0 0 0 0 0 0 1 0 1)
              PartialUses_Init_ok)
    as (d & t & Hrun & _); [by_eval|reflexivity|reflexivity|
      apply trace_three_sorted|reflexivity|by_eval|by_eval|].
  rewrite Hrun. vm_compute in Hrun. symmetry. exact Hrun.
Defined.

Lemma Ud_Init_catch_all (E : Endianness) (W : Z) (ok : bool) (primes0 : list Z)
    (machineType n ret : Z) (ud : Ud) :
  Ud_Init E W ok primes0 machineType n = Some (ret, ud) ->
  (defs_ (regState_ ud) = [mkDef 0 (WMAX W)] /\
   addressSpace_ (regState_ ud) = [(WMAX W, EntryValue.mk 0 0)]) /\
  (defs_ (memState_ ud) = [mkDef 0 (WMAX W)] /\
   addressSpace_ (memState_ ud) = [(WMAX W, EntryValue.mk 0 0)]).
Proof.
  unfold Ud_Init. intros H.
  destruct (UdState_Init primes0 _) as [[primes1 rs]|] eqn:Hr; [|done].
  cbn [mbind option_bind] in H.
  destruct (UdState_Init primes1 _) as [[primes2 ms]|] eqn:Hm; [|done].
  cbn [mbind option_bind] in H.
  apply UdState_Init_empty in Hr as (Hru & Hrd & Hrm).
  apply UdState_Init_empty in Hm as (Hmu & Hmd & Hmm).
  cbv zeta in H.
  destruct (_ <? 0); injection H as <- <-; unfold AddDef; simpl;
    rewrite Hrd, Hrm, Hmd, Hmm; done.
Qed.

(** C5: before any record is replayed, [Ud::Init] installs in each of the
    two address spaces the catch-all [Def(0, 2^(8W) - 1)] with def index 0,
    live on [[0, 2^(8W) - 1)]; and after any sequence of [AddUses] calls and
    of [AddDefs] calls of non-empty ranges within [[0, 2^(8W) - 1]] from
    there, the intervals of the live-writer map are non-empty, pairwise
    disjoint, and cover [[0, 2^(8W) - 1)]. *)
Theorem C5_map_invariant (E : Endianness) (W : Z) (ok : bool)
    (primes0 : list Z) (machineType n ret : Z) (ud : Ud) :
  0 < W ->
  Ud_Init E W ok primes0 machineType n = Some (ret, ud) ->
  forall st, st = regState_ ud \/ st = memState_ ud ->
    defs_ st = [mkDef 0 (WMAX W)] /\
    addressSpace_ st = [(WMAX W, EntryValue.mk 0 0)] /\
    forall ops primes primes' st',
      Forall (valid_op W) ops ->
      UdState_run W primes st ops = Some (primes', st') ->
      (forall e v, In (e, v) (addressSpace_ st') -> EntryValue.startAddr v < e) /\
      pairwise_disjoint (addressSpace_ st') /\
      covers (addressSpace_ st') 0 (WMAX W).
Proof.
  intros HW Hinit st Hst.
  destruct (Ud_Init_catch_all _ _ _ _ _ _ _ _ Hinit) as [[Hrd Hrm] [Hmd Hmm]].
  assert (Hd : defs_ st = [mkDef 0 (WMAX W)]) by (by destruct Hst as [->| ->]).
  assert (Hm : addressSpace_ st = [(WMAX W, EntryValue.mk 0 0)])
    by (by destruct Hst as [->| ->]).
  split; [done|]. split; [done|].
  intros ops primes primes' st' Hops Hrun.
  assert (Hinv : map_inv W (addressSpace_ st)).
  { rewrite Hm. apply (map_inv_init W 0). by apply WMAX_pos. }
  destruct (UdState_run_map_inv W ops primes primes' st st' Hinv Hops Hrun)
    as (Hlive & Hcov & _).
  split; [by destruct Hlive as (_ & ? & _)|]. split; [|done].
  by apply live_ok_pairwise_disjoint.
Qed.

Lemma ud_seed_init :
  Ud_Init Little 4 true primes_init EM_386 0 = Some (0, ud_seed).
Proof. by vm_compute. Qed.

Lemma st_write_read_write_run :
  UdState_run 4 primes_init (regState_ ud_seed) write_read_write =
    Some (primes_init, st_write_read_write).
Proof. by vm_compute. Qed.

Lemma write_read_write_valid : Forall (valid_op 4) write_read_write.
Proof. repeat constructor; by_eval. Qed.

(** The register space of that builder after a write of [[0, 4)], a read
    of [[2, 6)] and a write of [[2, 6)]. *)
Lemma C5_map_invariant_witness :
  pairwise_disjoint (addressSpace_ st_write_read_write) /\
  covers (addressSpace_ st_write_read_write) 0 (WMAX 4).
Proof.
  assert (H4 : 0 < 4) by lia.
  destruct (C5_map_invariant Little 4 true primes_init EM_386 0 0 ud_seed
              H4 ud_seed_init (regState_ ud_seed) (or_introl eq_refl))
    as (_ & _ & Hall).
  destruct (Hall write_read_write primes_init primes_init st_write_read_write
              write_read_write_valid st_write_read_write_run) as (_ & Hd & Hc).
  split; [exact Hd|exact Hc].
Defined.

(** With 4-byte words the catch-all is [Def(0, 2^32 - 1)], not
    [Def(0, 2^32)], and no interval of the map holds the address
    [2^32 - 1]. *)
Lemma C5_catch_all_counterexample :
  Ud_Init Little 4 true primes_init EM_386 0 = Some (0, ud_seed) /\
  defs_ (regState_ ud_seed) <> [mkDef 0 (2 ^ (8 * 4))] /\
  ~ covers (addressSpace_ (regState_ ud_seed)) 0 (2 ^ (8 * 4)).
Proof.
  split; [by vm_compute|]. split; [by vm_compute|].
  intros H. destruct (H (2 ^ 32 - 1)) as (e & v & Hin & Hr); [done|].
  vm_compute in Hin. destruct Hin as [[= <- <-]|[]]. simpl in Hr. lia.
Qed.










Lemma ud_literal_run :
  UdFile true 5 (literal_trace x03) 0 SIZE_MAX = Some (0, Some ud_literal).
Proof. by vm_compute. Qed.

(** C6: for the literal little-endian 4-byte trace with the machine type
    3 ([EM_386]) in its header, and a disassembler that opens, the build
    returns 0 once the fuel covers the 5 records, and the graph has a
    trace of length 3, a code of length 2, the register defs [[0,
    2^32 - 1)] (the catch-all) and [[0, 4)], the one register use, of def
    1, and [GetTraceForRegUse(0) = 1]. *)
Theorem C6_literal_trace (fuel : nat) :
  (5 <= fuel)%nat ->
  exists ud,
    UdFile true fuel (literal_trace x03) 0 SIZE_MAX = Some (0, Some ud) /\
    length (trace_ ud) = 3%nat /\ length (code_ ud) = 2%nat /\
    defs_ (regState_ ud) = [mkDef 0 (WMAX 4); mkDef 0 4] /\
    uses_ (regState_ ud) = [1] /\
    GetTraceForRegUse ud 0 = Some 1.
Proof.
  intros Hfuel. exists ud_literal. split.
  - apply (UdFile_fuel_mono true 5 fuel); [apply ud_literal_run|done].
  - by vm_compute.
Qed.

Lemma C6_literal_trace_witness :
  exists ud,
    UdFile true 8 (literal_trace x03) 0 SIZE_MAX = Some (0, Some ud) /\
    length (trace_ ud) = 3%nat /\ length (code_ ud) = 2%nat /\
    defs_ (regState_ ud) = [mkDef 0 (WMAX 4); mkDef 0 4] /\
    uses_ (regState_ ud) = [1] /\
    GetTraceForRegUse ud 0 = Some 1.
Proof. apply (C6_literal_trace 8). lia. Defined.

(** With the machine type 62 ([EM_X86_64]) that the header of the literal
    trace carries, [Disasm::Init] refuses the 4-byte word size: the build
    returns [-EINVAL] with the seed as the only trace entry, and no record
    is replayed. *)
Lemma C6_machine_62_counterexample :
  exists ud,
    UdFile true 5 (literal_trace x3e) 0 SIZE_MAX = Some (- EINVAL, Some ud) /\
    length (trace_ ud) = 1%nat /\ uses_ (regState_ ud) = [].
Proof. exists ud_seed. split; [by vm_compute|]. by vm_compute. Qed.

(** C7: on a mapping whose records after the header all have a tag of
    [enum class Tag] and an aligned length of at least 8 bytes within the
    mapping, [SeekInsn(k)] starts again just past the header, whatever the
    cursor was, and walks the records: [insnIndex], which starts one below
    0, grows by one exactly at a record with one of the tags LOAD, STORE,
    REG, GET_REG, PUT_REG, INSN_EXEC, GET_REG_NX, PUT_REG_NX whose [insnSeq]
    differs from the one seen before (at first: from [0xffffffff]), and
    never at an MMAP or INSN record.  The walk stops at the first record
    after which [insnIndex] is [k], with the cursor at the offset of that
    record and [entryIndex_] its index; when the records end before that,
    the result is the exception [No such insn]. *)
Theorem C7_SeekInsn_walk (E : Endianness) (W : Z) (fuel f : nat)
    (tr : TraceMm) (n k : Z) (recs : list TlvRecord) :
  vsize (data_ tr) < 2 ^ 64 ->
  Tlv_GetAlignedLength E W (header_ tr) = Some n -> 0 <= n ->
  tlv_records E W fuel (data_ tr) n = Some recs ->
  0 <= k < 2 ^ 32 -> (length recs < f)%nat ->
  SeekInsn E W f tr k =
    Some (SeekResult_of (data_ tr)
            (seek_records counts_insnSeq recs 0 (-1) UINT32_MAX k)).
Proof.
  intros Hdata Hn Hn0 Hrecs Hk Hf. unfold SeekInsn. rewrite Hn.
  cbn [mbind option_bind].
  change (Seek_new) with (mkSeek (wrap64 (-1)) UINT32_MAX).
  apply (SeekInsn_loop_records E W fuel); try done; lia.
Qed.

(** Seeking to the instructions 0, 1 and 2 of the literal trace, from a
    cursor at its end. *)
Lemma C7_SeekInsn_walk_witness :
  let tr := mkTraceMm (literal_trace x03) 72 5 in
  SeekInsn Little 4 6 tr 0 = Some (SeekDone (mkTraceMm (literal_trace x03) 8 0)) /\
  SeekInsn Little 4 6 tr 1 = Some (SeekDone (mkTraceMm (literal_trace x03) 48 3)) /\
  SeekInsn Little 4 6 tr 2 = Some NoSuchInsn.
Proof.
  intros tr.
  assert (Hrecs : tlv_records Little 4 5 (data_ tr) 8 =
    Some [mkTlvRecord 8 MT_PUT_REG 1; mkTlvRecord 24 MT_INSN 1;
          mkTlvRecord 40 MT_INSN_EXEC 1; mkTlvRecord 48 MT_GET_REG 2;
          mkTlvRecord 64 MT_INSN_EXEC 2]) by (by vm_compute).
  assert (Hsize : vsize (data_ tr) < 2 ^ 64) by (by vm_compute).
  assert (Hn : Tlv_GetAlignedLength Little 4 (header_ tr) = Some 8)
    by (by vm_compute).
  assert (Hn0 : 0 <= 8) by lia.
  assert (Hf : (5 < 6)%nat) by lia.
  split; [|split].
  - rewrite (C7_SeekInsn_walk Little 4 5 6 tr 8 0 _ Hsize Hn Hn0 Hrecs); [|lia|exact Hf].
    reflexivity.
  - rewrite (C7_SeekInsn_walk Little 4 5 6 tr 8 1 _ Hsize Hn Hn0 Hrecs); [|lia|exact Hf].
    reflexivity.
  - rewrite (C7_SeekInsn_walk Little 4 5 6 tr 8 2 _ Hsize Hn Hn0 Hrecs); [|lia|exact Hf].
    reflexivity.
Defined.

(** [SeekInsn(0)] stops at the [REG] record, on which a walk that counts
    only the tags LOAD, STORE, GET_REG, PUT_REG, INSN_EXEC, GET_REG_NX and
    PUT_REG_NX does not find instruction 0. *)
Lemma C7_REG_counterexample :
  tlv_records Little 4 1 reg_trace 8 = Some [mkTlvRecord 8 MT_REG 7] /\
  SeekInsn Little 4 2 (mkTraceMm reg_trace 0 0) 0 =
    Some (SeekDone (mkTraceMm reg_trace 8 0)) /\
  seek_records listed_insnSeq [mkTlvRecord 8 MT_REG 7] 0 (-1) UINT32_MAX 0 =
    SeekNotFound.
Proof. split; [by vm_compute|]. split; by vm_compute. Qed.

(** ** Temporal order *)

(** C4: in a graph that the builder produced from a trace of at most
    [2^40] bytes, whose counts of defs, uses and trace entries fit in
    [std::uint32_t], a use [u] recorded while trace entry [t] was open is
    resolved by [ResolveUse] to a producing trace index [t'] with
    [0 <= t' <= t], in the register space and in the memory space: the
    producing entry is never a later one, and it can be the entry [t]
    itself. *)
Theorem C4_temporal_order (cs_open_ok : bool) (fuel : nat) (data : list byte)
    (start end_index : Z) (ud : Ud) :
  UdFile cs_open_ok fuel data start end_index = Some (0, Some ud) ->
  vsize data <= 2 ^ 40 -> Ud_fits ud ->
  forall (t : nat) (entry : InsnInTrace) (u : Z),
    trace_ ud !! t = Some entry ->
    (regUseStartIndex entry <= u < regUseEndIndex entry ->
     exists d t',
       UdState_ResolveUse (regState_ ud) u (trace_ ud) regDefStartIndex =
         Some (d, t') /\
       0 <= t' <= Z.of_nat t) /\
    (memUseStartIndex entry <= u < memUseEndIndex entry ->
     exists d t',
       UdState_ResolveUse (memState_ ud) u (trace_ ud) memDefStartIndex =
         Some (d, t') /\
       0 <= t' <= Z.of_nat t).
Proof.
  intros Hrun Hdata (Hb & [Hsr Hsm] & Hlen) t entry u Ht.
  destruct (UdFile_cases _ _ _ _ _ _ _ Hrun) as (E & W & Hvisit).
  destruct (Ud_Visit_inv E W _ _ _ _ _ _ _ Hvisit Hdata Hb (conj Hsr Hsm))
    as [(_ & Hir & Him & Hreg & Hmem) (_ & Hrt & Hmt)].
  split; intros Hu.
  - by apply (resolve_total _ _ _ _ _ t entry u Hreg).
  - by apply (resolve_total _ _ _ _ _ t entry u Hmem).
Qed.

Lemma ud_literal_fits : Ud_fits ud_literal.
Proof. repeat split; by_eval. Qed.

(** The literal trace: the use 0, of trace entry 2, resolves to entry 1. *)
Lemma C4_temporal_order_witness :
  exists d t',
    UdState_ResolveUse (regState_ ud_literal) 0 (trace_ ud_literal)
      regDefStartIndex = Some (d, t') /\
    0 <= t' <= Z.of_nat 2.
Proof.
  assert (Hdata : vsize (literal_trace x03) <= 2 ^ 40) by by_eval.
  destruct (C4_temporal_order true 5 (literal_trace x03) 0 SIZE_MAX ud_literal
              ud_literal_run Hdata ud_literal_fits 2
              (mkInsnInTrace 2 0 1 0 0 2 2 1 1) 0) as [Hreg _];
    [by vm_compute|].
  apply Hreg. by_eval.
Defined.

(** The use 0 was recorded while trace entry 1 was open, and resolves to
    trace entry 1: not to a strictly earlier one. *)
Lemma C4_same_entry_counterexample :
  UdFile true 2 put_get_trace 0 SIZE_MAX = Some (0, Some ud_put_get) /\
  exists entry,
    trace_ ud_put_get !! 1%nat = Some entry /\
    regUseStartIndex entry <= 0 < regUseEndIndex entry /\
    GetTraceForRegUse ud_put_get 0 = Some 1 /\
    ~ 1 < Z.of_nat 1.
Proof.
  split; [by vm_compute|]. eexists. split; [by vm_compute|].
  split; [by_eval|]. split; [by vm_compute|]. lia.
Qed.

(** * Further properties of the prime search *)

Lemma GetFirstPrime_1 (f : nat) (primes : list Z) :
  good_primes primes -> (3 <= f)%nat ->
  GetFirstPrimeGreaterThanOrEqualTo f primes 1 = Some (primes, 1).
Proof.
  intros Hg Hf. rewrite <- (GetFirstPrime_0 f primes Hg Hf).
  destruct f as [|f]; [lia|]. done.
Qed.

(** X1: with the cache [primes] in order (the odd primes up to its last
    element, as it is at first and after every call),
    [GetFirstPrimeGreaterThanOrEqualTo(value)] returns, for
    [3 <= value <= 2^34], the least prime that is at least [value], and
    leaves the cache in order.  For [value] 0 or 1 it returns 1, which is
    not a prime, and for [value] 2 it returns 3: the search starts at
    [value | 1] and only looks at odd numbers. *)
Theorem X1_GetFirstPrime_least (f : nat) (primes : list Z) (value : Z) :
  good_primes primes ->
  (3 <= value <= 2 ^ 34 -> (prime_fuel value <= f)%nat ->
   exists primes' q,
     GetFirstPrimeGreaterThanOrEqualTo f primes value = Some (primes', q) /\
     good_primes primes' /\ next_prime value q) /\
  (0 <= value <= 1 -> (3 <= f)%nat ->
   GetFirstPrimeGreaterThanOrEqualTo f primes value = Some (primes, 1)) /\
  (value = 2 -> (prime_fuel 2 <= f)%nat ->
   exists primes',
     GetFirstPrimeGreaterThanOrEqualTo f primes value = Some (primes', 3) /\
     good_primes primes').
Proof.
  intros Hg. split; [|split].
  - intros Hv Hf.
    destruct (GetFirstPrime_total f primes value Hg ltac:(lia) Hf)
      as (primes' & q & Hrun & Hg' & Hnext & _).
    exists primes', q. split; [done|]. split; [done|].
    destruct (lor_1_cases value) as [[_ Heq]|[Heven Heq]]; rewrite Heq in Hnext;
      [done|].
    assert (value = 2 * (value / 2)) as Hhalf.
    { pose proof (Z.div_mod value 2 ltac:(lia)). lia. }
    rewrite Hhalf. apply next_prime_even; [lia|]. by rewrite <- Hhalf.
  - intros Hv Hf. assert (value = 0 \/ value = 1) as [->| ->] by lia.
    + by apply GetFirstPrime_0.
    + by apply GetFirstPrime_1.
  - intros -> Hf.
    destruct (GetFirstPrime_total f primes 2 Hg ltac:(lia) Hf)
      as (primes' & q & Hrun & Hg' & (Hq & Hle & Hmin) & _).
    change (Z.lor 2 1) with 3 in Hle, Hmin.
    pose proof (Hmin 3 Z.prime_3 ltac:(lia)).
    assert (q = 3) as -> by lia. by exists primes'.
Qed.

(** From the first cache [[3]], the least prime from 90 on is 97, and the
    cache then holds the odd primes up to 11. *)
Lemma X1_GetFirstPrime_least_witness :
  (exists primes' q,
     GetFirstPrimeGreaterThanOrEqualTo (prime_fuel 90) primes_init 90 =
       Some (primes', q) /\
     good_primes primes' /\ next_prime 90 q) /\
  GetFirstPrimeGreaterThanOrEqualTo (prime_fuel 90) primes_init 90 =
    Some ([3; 5; 7; 11], 97).
Proof.
  split; [|by vm_compute].
  apply (X1_GetFirstPrime_least (prime_fuel 90) primes_init 90 good_primes_init);
    [by vm_compute|lia].
Defined.

(** * Further properties of the address spaces *)

Lemma last_def_from_app (defs : list Def) (new : Def) (x i : Z) :
  last_def_from i (defs ++ [new]) x =
    if Def_holds new x then Some (i + vsize defs) else last_def_from i defs x.
Proof.
  revert i. induction defs as [|def defs IH]; intros i.
  - simpl. unfold vsize. simpl. rewrite Z.add_0_r. done.
  - cbn [app last_def_from]. rewrite IH.
    replace (i + 1 + vsize defs) with (i + vsize (def :: defs))
      by (unfold vsize; simpl length; lia).
    by destruct (Def_holds new x).
Qed.

Lemma last_def_app (defs : list Def) (new : Def) (x : Z) :
  last_def (defs ++ [new]) x =
    if Def_holds new x then Some (vsize defs) else last_def defs x.
Proof. unfold last_def. by rewrite last_def_from_app. Qed.

Lemma last_def_from_None (defs : list Def) (x i : Z) :
  last_def_from i defs x = None ->
  forall j def, defs !! j = Some def -> Def_holds def x = false.
Proof.
  revert i. induction defs as [|d1 defs IH]; intros i H j def Hj; [done|].
  cbn [last_def_from] in H.
  destruct (last_def_from (i + 1) defs x) eqn:Hr; [done|].
  destruct j as [|j]; simpl in Hj.
  - injection Hj as <-. by destruct (Def_holds d1 x).
  - by apply (IH (i + 1) Hr j).
Qed.

Lemma last_def_from_spec (defs : list Def) (x i d : Z) :
  last_def_from i defs x = Some d ->
  i <= d < i + vsize defs /\
  (exists def, defs !! Z.to_nat (d - i) = Some def /\ Def_holds def x = true) /\
  (forall j def, (Z.to_nat (d - i) < j)%nat -> defs !! j = Some def ->
                 Def_holds def x = false).
Proof.
  revert i. induction defs as [|def defs IH]; intros i H; [done|].
  cbn [last_def_from] in H.
  assert (Hsz : vsize (def :: defs) = 1 + vsize defs)
    by (unfold vsize; simpl length; lia).
  pose proof (vsize_nonneg defs) as Hnn.
  destruct (last_def_from (i + 1) defs x) as [d'|] eqn:Hrest.
  - injection H as ->. destruct (IH _ Hrest) as (Hr & (def' & Hdef' & Hh) & Hlater).
    split; [lia|]. split.
    + exists def'. split; [|done].
      replace (Z.to_nat (d - i)) with (S (Z.to_nat (d - (i + 1)))) by lia. done.
    + intros j def0 Hj Hdef0. destruct j as [|j]; [lia|]. simpl in Hdef0.
      apply (Hlater j def0); [lia|done].
  - destruct (Def_holds def x) eqn:Hh; [|done]. injection H as <-.
    split; [lia|]. rewrite Z.sub_diag. split.
    + by exists def.
    + intros j def0 Hj Hdef0. destruct j as [|j]; [lia|]. simpl in Hdef0.
      by apply (last_def_from_None defs x (i + 1) Hrest j).
Qed.

(** [last_def] names the last def that holds the address. *)
Lemma last_def_spec (defs : list Def) (x d : Z) :
  last_def defs x = Some d ->
  0 <= d < vsize defs /\
  (exists def, defs !! Z.to_nat d = Some def /\ Def_holds def x = true) /\
  (forall j def, (Z.to_nat d < j)%nat -> defs !! j = Some def ->
                 Def_holds def x = false).
Proof.
  intros H. apply last_def_from_spec in H. by rewrite Z.sub_0_r, Z.add_0_l in H.
Qed.

Lemma Def_holds_mk (a b x : Z) :
  Def_holds (mkDef a b) x = true <-> a <= x < b.
Proof.
  unfold Def_holds. simpl. destruct (Z.leb_spec a x), (Z.ltb_spec x b);
    simpl; split; try done; lia.
Qed.

Lemma AddDefs_latest (W : Z) (st st' : UdState) (a sz ret : Z) :
  live_ok (addressSpace_ st) -> latest_ok st ->
  0 <= a -> 0 < sz -> a + sz <= WMAX W ->
  vsize (defs_ st) < 2 ^ 32 ->
  AddDefs W st a sz = Some (ret, st') ->
  latest_ok st'.
Proof.
  intros Hl Hlat Ha Hsz Hb Hd Hrun.
  apply AddDefs_cases in Hrun as [[_ ->]|[_ ->]]; [done|].
  cbv zeta. rewrite !wrapW_small by lia. unfold AddDef, latest_ok.
  cbn [addressSpace_ defs_].
  pose proof (vsize_nonneg (defs_ st)) as Hnn.
  rewrite wrap32_small by lia.
  set (d := vsize (defs_ st)).
  set (m := addressSpace_ st) in *.
  intros e v x Hin Hx. rewrite last_def_app.
  apply (AddDefs_map_In m a (a + sz) d (e, v) Hl) in Hin; [|lia].
  destruct (Def_holds (mkDef a (a + sz)) x) eqn:Hh.
  - apply Def_holds_mk in Hh.
    destruct Hin as [[= -> ->]|[[Hin Hno]|([ey vy] & Hy & [Ho1 Ho2] & Hz)]].
    + done.
    + exfalso. destruct Hl as (_ & Hne & _). specialize (Hne e v Hin).
      apply Hno. unfold overlaps. simpl. lia.
    + exfalso. apply residues_In in Hz. simpl in Hz.
      destruct Hz as [[[= -> ->] ?]|[[= -> ->] ?]]; simpl in Hx; lia.
  - assert (Hout : ~ a <= x < a + sz).
    { intros Hc. apply Def_holds_mk in Hc. congruence. }
    destruct Hin as [[= -> ->]|[[Hin Hno]|([ey vy] & Hy & [Ho1 Ho2] & Hz)]].
    + simpl in Hx. lia.
    + by apply (Hlat e v x).
    + apply residues_In in Hz. simpl in Hz, Ho1, Ho2.
      destruct Hl as (_ & Hne & _). specialize (Hne ey vy Hy).
      destruct Hz as [[[= -> ->] ?]|[[= -> ->] ?]]; simpl in Hx |- *;
        apply (Hlat ey vy x Hy); lia.
Qed.

Lemma UdState_run_defs_grow (W : Z) (ops : list UdOp) (primes primes' : list Z)
    (st st' : UdState) :
  UdState_run W primes st ops = Some (primes', st') ->
  vsize (defs_ st) <= vsize (defs_ st').
Proof.
  revert primes st. induction ops as [|op ops IH]; intros primes st Hrun.
  { injection Hrun as <- <-. lia. }
  destruct op as [a n|a n]; simpl in Hrun.
  - destruct (AddUses W primes st a n) as [[p1 st1]|] eqn:Hu; [|done].
    simpl in Hrun. apply AddUses_keeps in Hu as [_ Hd].
    apply IH in Hrun. by rewrite Hd in Hrun.
  - destruct (AddDefs W st a n) as [[r1 st1]|] eqn:Hd; [|done].
    simpl in Hrun. apply IH in Hrun.
    apply AddDefs_cases in Hd as [[_ ->]|[_ ->]]; [done|].
    revert Hrun. cbv zeta. unfold AddDef. cbn [defs_]. rewrite vsize_app.
    unfold vsize at 2. simpl length. lia.
Qed.

Lemma UdState_run_latest (W : Z) (ops : list UdOp) (primes primes' : list Z)
    (st st' : UdState) :
  map_inv W (addressSpace_ st) -> latest_ok st -> Forall (valid_op W) ops ->
  UdState_run W primes st ops = Some (primes', st') ->
  vsize (defs_ st') < 2 ^ 32 ->
  map_inv W (addressSpace_ st') /\ latest_ok st'.
Proof.
  revert primes st. induction ops as [|op ops IH];
    intros primes st Hinv Hlat Hv Hrun Hd.
  { by injection Hrun as <- <-. }
  apply Forall_cons_1 in Hv as [Hop Hv]. destruct op as [a n|a n]; simpl in Hrun.
  - destruct (AddUses W primes st a n) as [[p1 st1]|] eqn:Hu; [|done].
    simpl in Hrun. apply AddUses_keeps in Hu as [Hm Hdf].
    apply (IH p1 st1); try done; [by rewrite Hm|].
    unfold latest_ok. rewrite Hm, Hdf. done.
  - destruct (AddDefs W st a n) as [[r1 st1]|] eqn:Hd1; [|done].
    simpl in Hrun. destruct Hop as (? & ? & ?).
    pose proof (UdState_run_defs_grow _ _ _ _ _ _ Hrun) as Hg.
    assert (Hlt : vsize (defs_ st) < 2 ^ 32).
    { apply AddDefs_cases in Hd1 as [[_ ->]|[_ ->]]; [lia|].
      revert Hg. cbv zeta. unfold AddDef. cbn [defs_]. rewrite vsize_app.
      unfold vsize at 2. simpl length. lia. }
    apply (IH primes st1); try done.
    + by apply (AddDefs_map_inv W st st1 a n r1).
    + apply (AddDefs_latest W st st1 a n r1); try done. by destruct Hinv.
Qed.

Lemma seed_latest (W : Z) (st : UdState) :
  0 < W -> uses_ st = [] -> defs_ st = [] -> addressSpace_ st = [] ->
  map_inv W (addressSpace_ (AddDef st 0 (WMAX W))) /\
  latest_ok (AddDef st 0 (WMAX W)).
Proof.
  intros HW Hu Hd Hm. unfold AddDef, latest_ok. cbn [addressSpace_ defs_].
  rewrite Hd, Hm. split.
  - apply (map_inv_init W _). by apply WMAX_pos.
  - intros e v x [[= <- <-]|[]] Hx. simpl in Hx. unfold last_def. simpl.
    unfold Def_holds. simpl.
    destruct (Z.leb_spec 0 x); [|lia]. destruct (Z.ltb_spec x (WMAX W)); [|lia].
    done.
Qed.

Lemma live_writer_covers (W : Z) (st : UdState) (x : Z) :
  map_inv W (addressSpace_ st) -> latest_ok st -> 0 <= x < WMAX W ->
  exists d, live_writer (addressSpace_ st) x = Some d /\
            last_def (defs_ st) x = Some d.
Proof.
  intros (Hl & Hc & _) Hlat Hx. unfold live_writer.
  destruct (List.find (entry_holds x) (addressSpace_ st)) as [[e v]|] eqn:Hf.
  - apply List.find_some in Hf as [Hin Hh]. exists (EntryValue.defIndex v).
    split; [done|]. apply (Hlat e v x Hin). unfold entry_holds in Hh.
    simpl in Hh. lia.
  - exfalso. destruct (Hc x Hx) as (e & v & Hin & Hh).
    pose proof (List.find_none _ _ Hf (e, v) Hin) as Hn.
    unfold entry_holds in Hn. simpl in Hn. lia.
Qed.

Lemma Ud_Init_state_ok (E : Endianness) (W : Z) (ok : bool) (primes0 : list Z)
    (machineType n ret : Z) (ud : Ud) :
  0 < W -> good_primes primes0 -> 0 <= n <= 2 ^ 36 ->
  Ud_Init E W ok primes0 machineType n = Some (ret, ud) ->
  state_ok W (regState_ ud) /\ state_ok W (memState_ ud).
Proof.
  intros HW Hg Hn. unfold Ud_Init. intros H.
  assert (2 ^ 36 = 68719476736) as Hp36 by done.
  assert (2 ^ 33 = 8589934592) as Hp33 by done.
  destruct (UdState_Init primes0 _) as [[primes1 rs]|] eqn:Hr; [|done].
  cbn [mbind option_bind] in H.
  destruct (UdState_Init primes1 _) as [[primes2 ms]|] eqn:Hm; [|done].
  cbn [mbind option_bind] in H.
  apply (seed_state_ok W) in Hr as [Hg1 Hrok]; [|done|done|].
  2:{ split; [apply Z.div_pos; lia|apply Z.div_le_upper_bound; lia]. }
  apply (seed_state_ok W) in Hm as [Hg2 Hmok]; [|done|done|].
  2:{ split; [apply Z.div_pos; lia|apply Z.div_le_upper_bound; lia]. }
  cbv zeta in H. destruct (_ <? 0); by injection H as <- <-.
Qed.

Lemma Ud_Init_latest (E : Endianness) (W : Z) (ok : bool) (primes0 : list Z)
    (machineType n ret : Z) (ud : Ud) (st : UdState) :
  0 < W ->
  Ud_Init E W ok primes0 machineType n = Some (ret, ud) ->
  st = regState_ ud \/ st = memState_ ud ->
  map_inv W (addressSpace_ st) /\ latest_ok st.
Proof.
  intros HW Hinit Hst.
  destruct (Ud_Init_catch_all E W ok primes0 machineType n ret ud Hinit)
    as [[Hrd Hrm] [Hmd Hmm]].
  assert (Hd : defs_ st = [mkDef 0 (WMAX W)]) by (by destruct Hst as [->| ->]).
  assert (Hm : addressSpace_ st = [(WMAX W, EntryValue.mk 0 0)])
    by (by destruct Hst as [->| ->]).
  pose proof (WMAX_pos W HW) as Hpos.
  unfold latest_ok. rewrite Hm, Hd. split.
  - apply (map_inv_init W 0 Hpos).
  - intros e v x [[= <- <-]|[]] Hx. simpl in Hx. unfold last_def. simpl.
    unfold Def_holds. simpl.
    destruct (Z.leb_spec 0 x); [|lia]. destruct (Z.ltb_spec x (WMAX W)); [|lia].
    done.
Qed.

(** X2: in each of the two address spaces that [Ud::Init] makes, after any
    sequence of [AddUses] calls and of [AddDefs] calls of non-empty ranges
    within the address space that returns, and whose counts of defs and of
    uses fit in [std::uint32_t], no index dangles: every use names a
    recorded def, every entry of the live-writer map names a recorded def
    whose range holds the interval of the entry, and every key of the
    partial-use table is the index of a recorded use that [find] gives
    back. *)
Theorem X2_indices_in_range (E : Endianness) (W : Z) (ok : bool)
    (primes0 : list Z) (machineType n ret : Z) (ud : Ud) :
  0 < W -> good_primes primes0 -> 0 <= n <= 2 ^ 36 ->
  Ud_Init E W ok primes0 machineType n = Some (ret, ud) ->
  forall st, st = regState_ ud \/ st = memState_ ud ->
  forall ops primes primes' st',
    good_primes primes -> Forall (valid_op W) ops ->
    UdState_run W primes st ops = Some (primes', st') ->
    vsize (defs_ st') < 2 ^ 32 -> vsize (uses_ st') <= UINT32_MAX ->
    (forall d, In d (uses_ st') -> 0 <= d < vsize (defs_ st')) /\
    (forall e v, In (e, v) (addressSpace_ st') ->
       exists def, defs_ st' !! Z.to_nat (EntryValue.defIndex v) = Some def /\
                   0 <= EntryValue.defIndex v /\
                   startAddr def <= EntryValue.startAddr v /\ e <= endAddr def) /\
    (forall x, In x (entries_ (partialUses_ st')) -> first x <> UINT32_MAX ->
       0 <= first x < vsize (uses_ st') /\
       PartialUses_find (partialUses_ st') (first x) = Some (Some x)).
Proof.
  intros HW Hg0 Hn Hinit st Hst ops primes primes' st' Hg Hops Hrun Hd Hu.
  destruct (Ud_Init_state_ok E W ok primes0 machineType n ret ud HW Hg0 Hn Hinit)
    as [Hr Hm].
  assert (Hok : state_ok W st) by (by destruct Hst as [->| ->]).
  destruct (UdState_run_state_ok W ops primes primes' st st' Hg Hok Hops Hrun Hd Hu)
    as [_ ((Hpu & Hkeys & Hmap & Huses) & _ & Hwithin)].
  split; [done|]. split.
  - intros e v Hev. destruct (Hwithin e v Hev) as (def & Hdef & Hs & He).
    exists def. specialize (Hmap e v Hev). repeat split; try done. lia.
  - intros x Hx Hne. pose proof Hpu as (Hslots & _).
    apply list_elem_of_In, list_elem_of_lookup_1 in Hx as [j Hj].
    destruct (Hslots j x Hj Hne) as [Hrange Hfind].
    assert (Hin : In x (entries_ (partialUses_ st')))
      by (apply list_elem_of_In; by apply list_elem_of_lookup_2 with j).
    specialize (Hkeys x Hin Hne). split; [lia|].
    unfold PartialUses_find. rewrite Hfind. cbn [mbind option_bind].
    rewrite Hj. cbn [mbind option_bind]. by rewrite Z.eqb_refl.
Qed.

(** The register space of the seed builder after a write, a read and a
    write. *)
Lemma X2_indices_in_range_witness :
  (forall d, In d (uses_ st_write_read_write) ->
     0 <= d < vsize (defs_ st_write_read_write)) /\
  (forall e v, In (e, v) (addressSpace_ st_write_read_write) ->
     exists def,
       defs_ st_write_read_write !! Z.to_nat (EntryValue.defIndex v) = Some def /\
       0 <= EntryValue.defIndex v /\
       startAddr def <= EntryValue.startAddr v /\ e <= endAddr def) /\
  (forall x, In x (entries_ (partialUses_ st_write_read_write)) ->
     first x <> UINT32_MAX ->
     0 <= first x < vsize (uses_ st_write_read_write) /\
     PartialUses_find (partialUses_ st_write_read_write) (first x) =
       Some (Some x)).
Proof.
  apply (X2_indices_in_range Little 4 true primes_init EM_386 0 0 ud_seed
           ltac:(lia) good_primes_init ltac:(lia) ud_seed_init
           (regState_ ud_seed) (or_introl eq_refl)
           write_read_write primes_init primes_init st_write_read_write
           good_primes_init write_read_write_valid st_write_read_write_run);
    by vm_compute.
Defined.

(** X3: in each of the two address spaces that [Ud::Init] makes, after any
    sequence of [AddUses] calls and of [AddDefs] calls of non-empty ranges
    within the address space, with fewer than [2^32] defs, the live-writer
    map gives for every address [x] of [[0, 2^(8W) - 1)] the index of the
    last recorded def whose range holds [x]: the map answers which write
    of [x] was the last one. *)
Theorem X3_live_writer_is_last_def (E : Endianness) (W : Z) (ok : bool)
    (primes0 : list Z) (machineType n ret : Z) (ud : Ud) :
  0 < W ->
  Ud_Init E W ok primes0 machineType n = Some (ret, ud) ->
  forall st, st = regState_ ud \/ st = memState_ ud ->
  forall ops primes primes' st',
    Forall (valid_op W) ops ->
    UdState_run W primes st ops = Some (primes', st') ->
    vsize (defs_ st') < 2 ^ 32 ->
    forall x, 0 <= x < WMAX W ->
      exists d, live_writer (addressSpace_ st') x = Some d /\
                last_def (defs_ st') x = Some d.
Proof.
  intros HW Hinit st Hst ops primes primes' st' Hops Hrun Hd x Hx.
  destruct (Ud_Init_latest E W ok primes0 machineType n ret ud st HW Hinit Hst)
    as [Hinv Hlat].
  destruct (UdState_run_latest W ops primes primes' st st' Hinv Hlat Hops Hrun Hd)
    as [Hinv' Hlat'].
  by apply (live_writer_covers W).
Qed.

(** After the writes of [[0, 4)] and [[2, 6)], the last writer of the
    address 3 is the def 2 and that of the address 1 is the def 1. *)
Lemma X3_live_writer_is_last_def_witness :
  (exists d, live_writer (addressSpace_ st_write_read_write) 3 = Some d /\
             last_def (defs_ st_write_read_write) 3 = Some d) /\
  live_writer (addressSpace_ st_write_read_write) 3 = Some 2 /\
  live_writer (addressSpace_ st_write_read_write) 1 = Some 1.
Proof.
  split; [|by vm_compute].
  apply (X3_live_writer_is_last_def Little 4 true primes_init EM_386 0 0 ud_seed
           ltac:(lia) ud_seed_init (regState_ ud_seed) (or_introl eq_refl)
           write_read_write primes_init primes_init st_write_read_write
           write_read_write_valid st_write_read_write_run);
    by vm_compute.
Defined.

Lemma st_read_after_writes_run :
  AddUses 4 primes_init st_write_read_write 0 8 =
    Some ([3; 5], st_read_after_writes).
Proof. by vm_compute. Qed.

(** X4: a read links every address to its last write.  In an address
    space that [Ud::Init] made and that a sequence of [AddUses] calls and
    of [AddDefs] calls of non-empty ranges within the address space has
    brought to fewer than [2^32] defs, a call [AddUses(start, size)] of a
    non-empty range within the address space that returns appends uses such
    that, for every address [x] of [[start, start + size)], one of them is
    the last recorded def whose range holds [x]; and every use appended is
    the last def of some address of the range. *)
Theorem X4_read_links_last_writes (E : Endianness) (W : Z) (ok : bool)
    (primes0 : list Z) (machineType n ret : Z) (ud : Ud) :
  0 < W ->
  Ud_Init E W ok primes0 machineType n = Some (ret, ud) ->
  forall st, st = regState_ ud \/ st = memState_ ud ->
  forall ops primes primes1 st1 a sz primes2 st2,
    Forall (valid_op W) ops ->
    UdState_run W primes st ops = Some (primes1, st1) ->
    vsize (defs_ st1) < 2 ^ 32 ->
    0 <= a -> 0 < sz -> a + sz <= WMAX W ->
    AddUses W primes1 st1 a sz = Some (primes2, st2) ->
    exists new,
      uses_ st2 = uses_ st1 ++ new /\ defs_ st2 = defs_ st1 /\
      (forall x, a <= x < a + sz ->
         exists d, last_def (defs_ st2) x = Some d /\ In d new) /\
      (forall d, In d new ->
         exists x, a <= x < a + sz /\ last_def (defs_ st2) x = Some d).
Proof.
  intros HW Hinit st Hst ops primes primes1 st1 a sz primes2 st2 Hops Hrun Hd
    Ha Hsz Hb Huse.
  destruct (Ud_Init_latest E W ok primes0 machineType n ret ud st HW Hinit Hst)
    as [Hinv Hlat].
  destruct (UdState_run_latest W ops primes primes1 st st1 Hinv Hlat Hops Hrun Hd)
    as [(Hlive & Hcov & Hrange) Hlat1].
  pose proof (AddUses_keeps _ _ _ _ _ _ _ Huse) as [_ Hdefs].
  unfold AddUses in Huse. cbv zeta in Huse.
  rewrite !wrapW_small in Huse by lia.
  apply AddUses_loop_uses in Huse.
  rewrite (affected_filter (addressSpace_ st1) a (a + sz) Hlive) in Huse.
  set (wk := List.filter (overlapsb a (a + sz)) (addressSpace_ st1)) in Huse.
  exists ((fun y => EntryValue.defIndex (snd y)) <$> wk).
  split; [done|]. split; [done|]. rewrite Hdefs. split.
  - intros x Hx. destruct (Hcov x ltac:(lia)) as (e & v & Hin & Hh).
    exists (EntryValue.defIndex v). split; [by apply (Hlat1 e v x)|].
    apply in_map_iff. exists (e, v). split; [done|].
    apply List.filter_In. split; [done|]. unfold overlapsb. simpl.
    destruct (Z.ltb_spec a e); [|lia].
    destruct (Z.ltb_spec (EntryValue.startAddr v) (a + sz)); [done|lia].
  - intros d Hdin. apply in_map_iff in Hdin as ([e v] & <- & Hy).
    apply List.filter_In in Hy as [Hin Ho]. unfold overlapsb in Ho.
    simpl in Ho. destruct Hlive as (_ & Hne & _). specialize (Hne e v Hin).
    exists (Z.max a (EntryValue.startAddr v)). split; [lia|].
    simpl. apply (Hlat1 e v); [done|]. lia.
Qed.

(** After the writes of [[0, 4)] and [[2, 6)], the read of [[0, 8)] adds
    the uses of the defs 1, 2 and 0: the halves of the first write and of
    the second one that are still live, and the catch-all. *)
Lemma X4_read_links_last_writes_witness :
  (exists new,
     uses_ st_read_after_writes = uses_ st_write_read_write ++ new /\
     defs_ st_read_after_writes = defs_ st_write_read_write /\
     (forall x, 0 <= x < 0 + 8 ->
        exists d, last_def (defs_ st_read_after_writes) x = Some d /\ In d new) /\
     (forall d, In d new ->
        exists x, 0 <= x < 0 + 8 /\
                  last_def (defs_ st_read_after_writes) x = Some d)) /\
  uses_ st_read_after_writes = uses_ st_write_read_write ++ [1; 2; 0].
Proof.
  split; [|by vm_compute].
  apply (X4_read_links_last_writes Little 4 true primes_init EM_386 0 0 ud_seed
           ltac:(lia) ud_seed_init (regState_ ud_seed) (or_introl eq_refl)
           write_read_write primes_init primes_init st_write_read_write
           0 8 [3; 5] st_read_after_writes
           write_read_write_valid st_write_read_write_run);
    [by vm_compute|lia|lia|by vm_compute|apply st_read_after_writes_run].
Defined.

(** * Further properties of the builder *)

(** ** The steps of a visit *)

Lemma Ud_step_grows (ud ud' : Ud) :
  Ud_step ud ud' -> grows ud ud' /\ uses_grow ud ud'.
Proof.
  induction 1 as [ud|ud ud' _ _ _ Hg Hu|ud pc0 size value|ud ud1 Hf
                 |ud ud1 seq Hf|ud1 ud2 ud3 _ [G1 U1] _ [G2 U2]].
  - split; split; lia.
  - done.
  - split; split; simpl; lia.
  - apply Flush_states in Hf as (Hr & Hm & _). unfold grows, uses_grow.
    rewrite Hr, Hm. split; split; lia.
  - apply Flush_states in Hf as (Hr & Hm & _). unfold grows, uses_grow.
    simpl. rewrite Hr, Hm. split; split; lia.
  - destruct G1, U1, G2, U2. split; split; lia.
Qed.

Lemma HandleInsnSeq_steps (ud ud' : Ud) (seq ret : Z) :
  HandleInsnSeq ud seq = Some (ret, ud') -> Ud_step ud ud'.
Proof.
  unfold HandleInsnSeq.
  destruct (List.last _ _) as [bt|]; [|done]. cbn [mbind option_bind].
  destruct (codeIndex bt =? seq); [intros [= <- <-]; apply step_refl|].
  destruct (Flush ud) as [ud1|] eqn:Hf; [|done]. cbn [mbind option_bind].
  intros [= <- <-]. by apply (step_next ud ud1).
Qed.

Section VisitSteps.
Variable E : Endianness.
Variable W : Z.

Ltac step_bind H :=
  match type of H with
  | mbind _ ?X = Some _ =>
      let Hx := fresh "Hx" in
      destruct X eqn:Hx; [cbn [mbind option_bind] in H|done]
  end.

Lemma reg_AddUses_steps (ud ud' : Ud) (a sz ret : Z) :
  reg_AddUses W ud a sz = Some (ret, ud') -> Ud_step ud ud'.
Proof.
  intros H. destruct (reg_AddUses_all W ud ud' a sz ret H) as (Hg & Hu & _).
  unfold reg_AddUses in H. step_bind H. destruct p. injection H as <- <-.
  by apply step_state.
Qed.

Lemma mem_AddUses_steps (ud ud' : Ud) (a sz ret : Z) :
  mem_AddUses W ud a sz = Some (ret, ud') -> Ud_step ud ud'.
Proof.
  intros H. destruct (mem_AddUses_all W ud ud' a sz ret H) as (Hg & Hu & _).
  unfold mem_AddUses in H. step_bind H. destruct p. injection H as <- <-.
  by apply step_state.
Qed.

Lemma reg_AddDefs_steps (ud ud' : Ud) (a sz ret : Z) :
  reg_AddDefs W ud a sz = Some (ret, ud') -> Ud_step ud ud'.
Proof.
  intros H. destruct (reg_AddDefs_all W ud ud' a sz ret H) as (Hg & Hu & _).
  unfold reg_AddDefs in H. step_bind H. destruct p. injection H as <- <-.
  by apply step_state.
Qed.

Lemma mem_AddDefs_steps (ud ud' : Ud) (a sz ret : Z) :
  mem_AddDefs W ud a sz = Some (ret, ud') -> Ud_step ud ud'.
Proof.
  intros H. destruct (mem_AddDefs_all W ud ud' a sz ret H) as (Hg & Hu & _).
  unfold mem_AddDefs in H. step_bind H. destruct p. injection H as <- <-.
  by apply step_state.
Qed.

Lemma Ud_LdSt_steps (ud ud' : Ud) (i ret : Z) (entry : View) :
  Ud_LdSt E W ud i entry = Some (ret, ud') -> Ud_step ud ud'.
Proof.
  unfold Ud_LdSt. intros H.
  step_bind H. step_bind H. destruct p as [r ud1].
  apply HandleInsnSeq_steps in Hx0.
  destruct (r <? 0); [by injection H as <- <-|].
  step_bind H.
  assert (Hcall : forall f : Ud -> Z -> Z -> option (Z * Ud),
    (forall a sz r' u', f ud1 a sz = Some (r', u') -> Ud_step ud1 u') ->
    (addr ← LdStEntry_GetAddr E W entry;
     size ← LdStEntry_GetSize E W entry; f ud1 addr size) = Some (ret, ud') ->
    Ud_step ud ud').
  { intros f Hf Hc. step_bind Hc. step_bind Hc.
    apply (step_trans _ ud1); [done|]. by apply (Hf _ _ _ _ Hc). }
  cbv zeta in H.
  repeat match type of H with
  | (if ?c then _ else _) = _ => destruct c
  end.
  - apply (Hcall _ (fun a sz r' u' => mem_AddUses_steps ud1 u' a sz r') H).
  - apply (Hcall _ (fun a sz r' u' => mem_AddDefs_steps ud1 u' a sz r') H).
  - by injection H as <- <-.
  - apply (Hcall _ (fun a sz r' u' => reg_AddUses_steps ud1 u' a sz r') H).
  - apply (Hcall _ (fun a sz r' u' => reg_AddDefs_steps ud1 u' a sz r') H).
  - by injection H as <- <-.
Qed.

Lemma Ud_LdStNx_steps (ud ud' : Ud) (i ret : Z) (entry : View) :
  Ud_LdStNx E W ud i entry = Some (ret, ud') -> Ud_step ud ud'.
Proof.
  unfold Ud_LdStNx. intros H.
  step_bind H. step_bind H. destruct p as [r ud1].
  apply HandleInsnSeq_steps in Hx0.
  destruct (r <? 0); [by injection H as <- <-|].
  step_bind H.
  assert (Hcall : forall f : Ud -> Z -> Z -> option (Z * Ud),
    (forall a sz r' u', f ud1 a sz = Some (r', u') -> Ud_step ud1 u') ->
    (addr ← LdStEntry_GetAddr E W entry;
     size ← LdStNxEntry_GetSize E W entry; f ud1 addr size) = Some (ret, ud') ->
    Ud_step ud ud').
  { intros f Hf Hc. step_bind Hc. step_bind Hc.
    apply (step_trans _ ud1); [done|]. by apply (Hf _ _ _ _ Hc). }
  cbv zeta in H.
  repeat match type of H with
  | (if ?c then _ else _) = _ => destruct c
  end.
  - apply (Hcall _ (fun a sz r' u' => reg_AddUses_steps ud1 u' a sz r') H).
  - apply (Hcall _ (fun a sz r' u' => reg_AddDefs_steps ud1 u' a sz r') H).
  - by injection H as <- <-.
Qed.

Lemma Ud_InsnExec_steps (ud ud' : Ud) (i ret : Z) (entry : View) :
  Ud_InsnExec E ud i entry = Some (ret, ud') -> Ud_step ud ud'.
Proof.
  unfold Ud_InsnExec. intros H.
  step_bind H. step_bind H. destruct p as [r ud1].
  apply HandleInsnSeq_steps in Hx0.
  by destruct (r <? 0); injection H as <- <-.
Qed.

Lemma Ud_Insn_steps (ud ud' : Ud) (i ret : Z) (entry : View) :
  Ud_Insn E W ud i entry = Some (ret, ud') -> Ud_step ud ud'.
Proof.
  unfold Ud_Insn. intros H. step_bind H.
  destruct (negb _); [injection H as <- <-; apply step_refl|].
  step_bind H. step_bind H. step_bind H. injection H as <- <-.
  apply step_insn.
Qed.

Lemma Ud_visit_steps (ud ud' : Ud) (tr tr' : TraceMm) (s e ret : Z) :
  @VisitOne E W Ud (Ud_Visitor E W) tr s e ud = Some (ret, tr', ud') ->
  Ud_step ud ud'.
Proof.
  unfold VisitOne. intros H.
  destruct (negb _); [injection H as <- <- <-; apply step_refl|].
  step_bind H.
  destruct (negb _); [injection H as <- <- <-; apply step_refl|].
  step_bind H. destruct p as [err v'].
  assert (Hv : Ud_step ud v').
  { destruct (_ && _); [|injection Hx0 as <- <-; apply step_refl].
    step_bind Hx0.
    repeat match type of Hx0 with
    | (if ?c then _ else _) = _ => destruct c
    end.
    - by apply Ud_LdSt_steps in Hx0.
    - by apply Ud_Insn_steps in Hx0.
    - by apply Ud_InsnExec_steps in Hx0.
    - by apply Ud_LdStNx_steps in Hx0.
    - injection Hx0 as <- <-; apply step_refl.
    - injection Hx0 as <- <-; apply step_refl. }
  destruct (err <? 0); [by injection H as <- <- <-|].
  destruct (Advance _ _) as [[] tr1]; by injection H as <- <- <-.
Qed.

Lemma Visit_loop_steps (fuel : nat) (ud ud' : Ud) (tr tr' : TraceMm)
    (s e ret : Z) :
  @Visit_loop E W Ud (Ud_Visitor E W) fuel tr s e ud = Some (ret, tr', ud') ->
  Ud_step ud ud'.
Proof.
  revert ud tr. induction fuel as [|fuel IH]; intros ud tr; simpl.
  - destruct (_ =? _); [|done]. intros [= <- <- <-]. apply step_refl.
  - destruct (_ =? _); [intros [= <- <- <-]; apply step_refl|].
    intros H. step_bind H. destruct p as [[err tr1] ud1].
    apply Ud_visit_steps in Hx.
    destruct (err <? 0).
    + by injection H as <- <- <-.
    + apply (step_trans _ ud1); [done|]. by apply (IH _ _ H).
Qed.

(** A visit that returns 0 is [Ud::Init], steps of the builder, and the
    flush of [Ud::Complete]. *)
Lemma Ud_Visit_steps (ok : bool) (fuel : nat) (data : list byte)
    (s e : Z) (ud : Ud) :
  Ud_Visit E W ok fuel data s e = Some (0, Some ud) ->
  exists machineType n ud0 ud1,
    Ud_Init E W ok primes_init machineType n = Some (0, ud0) /\
    Ud_step ud0 ud1 /\ Flush ud1 = Some ud.
Proof.
  unfold Ud_Visit. intros H. step_bind H. destruct p as [err tr].
  destruct (err <? 0); [done|]. step_bind H. step_bind H.
  destruct p as [err1 ud1].
  destruct (err1 <? 0) eqn:He1; [injection H as Hz _; by rewrite Hz in He1|].
  step_bind H. destruct p as [[err2 tr2] ud2].
  apply Visit_loop_steps in Hx2.
  destruct (err2 <? 0) eqn:He2; [injection H as Hz _; by rewrite Hz in He2|].
  step_bind H. destruct p as [err3 ud3]. injection H as <- <-.
  unfold Ud_Complete in Hx3. step_bind Hx3. injection Hx3 as <- <-.
  exists z, (length_ tr / 128), ud1, ud2. split; [|done].
  assert (err1 = 0) as ->; [|done].
  unfold Ud_Init in Hx1. step_bind Hx1. destruct p. step_bind Hx1. destruct p.
  cbv zeta in Hx1. destruct (_ <? 0) eqn:Hneg; injection Hx1 as <- <-;
    [|done]. by rewrite Hneg in He1.
Qed.
End VisitSteps.

(** ** The ranges of the trace entries *)

Section Ranges.
Variables start end_index : InsnInTrace -> Z.

Lemma ranges_ok_grow (count count' : Z) (trace : list InsnInTrace) :
  ranges_ok start end_index count trace -> count <= count' ->
  ranges_ok start end_index count' trace.
Proof.
  intros (H0 & Hc & Hl) Hle. split; [done|]. split; [done|].
  intros t Ht. specialize (Hl t Ht). lia.
Qed.

Lemma ranges_flush (count : Z) (trace : list InsnInTrace)
    (last last' : InsnInTrace) :
  trace !! (length trace - 1)%nat = Some last ->
  start last' = start last -> end_index last' = count ->
  ranges_ok start end_index count trace ->
  ranges_closed start end_index count (<[(length trace - 1)%nat := last']> trace).
Proof.
  intros Hlast Hs He (H0 & Hc & Hl).
  pose proof (lookup_lt_Some _ _ _ Hlast) as Hlen.
  assert (Hlook : forall i t,
    <[(length trace - 1)%nat := last']> trace !! i = Some t ->
    (i = (length trace - 1)%nat /\ t = last') \/
    (i <> (length trace - 1)%nat /\ trace !! i = Some t)).
  { intros i t Hi. destruct (decide (i = (length trace - 1)%nat)) as [->|Hne].
    - rewrite list_lookup_insert_eq in Hi by done. injection Hi as <-. by left.
    - rewrite list_lookup_insert_ne in Hi by done. by right. }
  split; [split; [|split]|].
  - intros t Ht. apply Hlook in Ht as [[Heq ->]|[_ Ht]]; [|by apply H0].
    rewrite Hs. apply H0. by rewrite Heq.
  - intros i t t' Hi Hi'.
    apply Hlook in Hi as [[-> ->]|[Hne Hi]].
    { apply lookup_lt_Some in Hi'. rewrite length_insert in Hi'. lia. }
    apply Hlook in Hi' as [[Heq ->]|[Hne' Hi']].
    + rewrite Hs. apply (Hc i t last Hi). by rewrite Heq.
    + by apply (Hc i t t').
  - intros t Ht. rewrite length_insert in Ht.
    apply Hlook in Ht as [[_ ->]|[Hne _]]; [|done].
    rewrite Hs. by apply Hl.
  - intros t Ht. rewrite length_insert in Ht.
    apply Hlook in Ht as [[_ ->]|[Hne _]]; done.
Qed.
End Ranges.

Section Ranges2.
Variables start end_index : InsnInTrace -> Z.

Lemma ranges_add (count : Z) (trace : list InsnInTrace) (new : InsnInTrace) :
  trace <> [] -> ranges_closed start end_index count trace ->
  start new = count ->
  ranges_ok start end_index count (trace ++ [new]).
Proof.
  intros Hne [(H0 & Hc & Hl) He] Hs.
  assert (Hlen : (0 < length trace)%nat) by (destruct trace; simpl; [done|lia]).
  split; [|split].
  - intros t Ht. rewrite lookup_app_l in Ht by done. by apply H0.
  - intros i t t' Hi Hi'.
    pose proof (lookup_lt_Some _ _ _ Hi') as Hlt. rewrite length_app in Hlt.
    simpl in Hlt. rewrite lookup_app_l in Hi by lia.
    destruct (decide (S i < length trace)%nat) as [Hin|Hlast].
    + rewrite lookup_app_l in Hi' by done. by apply (Hc i t t').
    + assert (S i = length trace) as Heq by lia.
      rewrite lookup_app_r, Heq, Nat.sub_diag in Hi' by lia.
      injection Hi' as <-.
      assert (i = (length trace - 1)%nat) as -> by lia.
      specialize (Hl t Hi). specialize (He t Hi). lia.
  - intros t Ht. rewrite length_app in Ht. simpl in Ht.
    rewrite lookup_app_r in Ht by lia.
    replace (length trace + 1 - 1 - length trace)%nat with O in Ht by lia.
    injection Ht as <-. lia.
Qed.

End Ranges2.

Section Closed.
Variables start end_index : InsnInTrace -> Z.
Variables (count : Z) (trace : list InsnInTrace).
Hypothesis Hclosed : ranges_closed start end_index count trace.

Lemma closed_le (i : nat) (t : InsnInTrace) :
  trace !! i = Some t -> start t <= end_index t.
Proof.
  destruct Hclosed as [(H0 & Hc & Hl) He]. intros Hi.
  pose proof (lookup_lt_Some _ _ _ Hi) as Hlt.
  destruct (decide (S i < length trace)%nat) as [Hin|Hlast].
  - destruct (lookup_lt_is_Some_2 trace (S i) Hin) as [t' Ht'].
    by destruct (Hc i t t' Hi Ht').
  - assert (i = (length trace - 1)%nat) as -> by lia.
    specialize (Hl t Hi). specialize (He t Hi). lia.
Qed.

Lemma closed_mono (j i : nat) (t t' : InsnInTrace) :
  (i < j)%nat -> trace !! i = Some t -> trace !! j = Some t' ->
  end_index t <= start t'.
Proof.
  destruct Hclosed as [(H0 & Hc & Hl) He]. revert t'.
  induction j as [|j IH]; intros t' Hij Hi Hj; [lia|].
  destruct (decide (i = j)) as [->|Hne].
  - destruct (Hc j t t' Hi Hj). lia.
  - destruct (lookup_lt_is_Some_2 trace j) as [tj Htj].
    { apply lookup_lt_Some in Hj. lia. }
    specialize (IH tj ltac:(lia) Hi Htj).
    pose proof (closed_le j tj Htj). destruct (Hc j tj t' Htj Hj). lia.
Qed.

Lemma closed_bounds (i : nat) (t : InsnInTrace) :
  trace !! i = Some t -> 0 <= start t /\ end_index t <= count.
Proof.
  intros Hi. pose proof Hclosed as [(H0 & Hc & Hl) He].
  pose proof (lookup_lt_Some _ _ _ Hi) as Hlt. split.
  - destruct i as [|i]; [by rewrite (H0 t Hi)|].
    destruct (lookup_lt_is_Some_2 trace O ltac:(lia)) as [t0 Ht0].
    pose proof (closed_mono (S i) O t0 t ltac:(lia) Ht0 Hi).
    pose proof (closed_le O t0 Ht0). rewrite (H0 t0 Ht0) in *. lia.
  - destruct (decide (S i < length trace)%nat) as [Hin|Hlast].
    + destruct (lookup_lt_is_Some_2 trace (length trace - 1)%nat ltac:(lia))
        as [tl Htl].
      pose proof (closed_mono (length trace - 1)%nat i t tl ltac:(lia) Hi Htl).
      specialize (Hl tl Htl). lia.
    + assert (i = (length trace - 1)%nat) as -> by lia.
      by rewrite (He t Hi).
Qed.

Lemma closed_unique (i j : nat) (t t' : InsnInTrace) (u : Z) :
  trace !! i = Some t -> trace !! j = Some t' ->
  start t <= u < end_index t -> start t' <= u < end_index t' -> i = j.
Proof.
  intros Hi Hj Hu Hu'.
  destruct (Nat.lt_trichotomy i j) as [Hlt|[->|Hgt]]; [|done|].
  - pose proof (closed_mono j i t t' Hlt Hi Hj). lia.
  - pose proof (closed_mono i j t' t Hgt Hj Hi). lia.
Qed.

Lemma closed_cover_from (k : nat) :
  forall (n : nat) (t : InsnInTrace) (u : Z),
    (n + k = length trace - 1)%nat -> trace !! n = Some t ->
    start t <= u < count ->
    exists i t', trace !! i = Some t' /\ start t' <= u < end_index t'.
Proof.
  destruct Hclosed as [(H0 & Hc & Hl) He].
  induction k as [|k IH]; intros n t u Hn Ht Hu.
  - exists n, t. split; [done|].
    rewrite Nat.add_0_r in Hn. rewrite Hn in Ht. rewrite (He t Ht). lia.
  - destruct (Z_lt_ge_dec u (end_index t)) as [Hin|Hout].
    + exists n, t. split; [done|lia].
    + destruct (lookup_lt_is_Some_2 trace (S n) ltac:(lia)) as [t' Ht'].
      destruct (Hc n t t' Ht Ht') as [_ Heq].
      apply (IH (S n) t' u); [lia|done|lia].
Qed.

Lemma closed_cover (u : Z) :
  trace <> [] -> 0 <= u < count ->
  exists i t, trace !! i = Some t /\ start t <= u < end_index t.
Proof.
  intros Hne Hu. pose proof Hclosed as [(H0 & Hc & Hl) He].
  assert (Hlen : (0 < length trace)%nat) by (destruct trace; simpl; [done|lia]).
  destruct (lookup_lt_is_Some_2 trace O Hlen) as [t0 Ht0].
  apply (closed_cover_from (length trace - 1)%nat O t0 u); [lia|done|].
  rewrite (H0 t0 Ht0). lia.
Qed.
End Closed.

(** The four kinds of ranges through the steps of the builder. *)

Lemma Flush_ranges (ud ud' : Ud) :
  Flush ud = Some ud' -> Ud_bounded ud -> Ud_small ud ->
  Ud_ranges ranges_ok ud -> Ud_ranges ranges_closed ud'.
Proof.
  unfold Flush. destruct (trace_ ud) as [|t0 tl] eqn:Htr; [done|].
  rewrite <- Htr. destruct (trace_ ud !! _) as [last|] eqn:Hlast; [|done].
  cbn [mbind option_bind]. intros [= <-] [Hbr Hbm] [Hsr Hsm] (Hne & R1 & R2 & R3 & R4).
  assert (UINT32_MAX = 2 ^ 32 - 1) as HU by done.
  pose proof (vsize_nonneg (uses_ (regState_ ud))).
  pose proof (vsize_nonneg (uses_ (memState_ ud))).
  pose proof (vsize_nonneg (defs_ (regState_ ud))).
  pose proof (vsize_nonneg (defs_ (memState_ ud))).
  unfold Ud_ranges. cbn [trace_ regState_ memState_ set_trace].
  split.
  { intros Heq. apply (f_equal length) in Heq. rewrite length_insert in Heq.
    rewrite Htr in Heq. done. }
  split; [|split; [|split]];
    (apply (ranges_flush _ _ _ _ last); [done|done| |done]);
    cbn; apply wrap32_small; lia.
Qed.

Lemma AddTrace_ranges (ud : Ud) (c : Z) :
  Ud_bounded ud -> Ud_small ud ->
  Ud_ranges ranges_closed ud -> Ud_ranges ranges_ok (AddTrace ud c).
Proof.
  intros [Hbr Hbm] [Hsr Hsm] (Hne & R1 & R2 & R3 & R4).
  assert (UINT32_MAX = 2 ^ 32 - 1) as HU by done.
  pose proof (vsize_nonneg (uses_ (regState_ ud))).
  pose proof (vsize_nonneg (uses_ (memState_ ud))).
  pose proof (vsize_nonneg (defs_ (regState_ ud))).
  pose proof (vsize_nonneg (defs_ (memState_ ud))).
  unfold Ud_ranges, AddTrace. cbn [trace_ regState_ memState_ set_trace].
  split; [by destruct (trace_ ud)|].
  split; [|split; [|split]];
    (apply ranges_add; [done|done|]); cbn; apply wrap32_small; lia.
Qed.

Lemma closed_ok (ud : Ud) : Ud_ranges ranges_closed ud -> Ud_ranges ranges_ok ud.
Proof. intros (? & [? _] & [? _] & [? _] & [? _]). done. Qed.

Lemma Ud_step_ranges (ud ud' : Ud) :
  Ud_step ud ud' -> Ud_bounded ud' -> Ud_small ud' ->
  Ud_ranges ranges_ok ud -> Ud_ranges ranges_ok ud'.
Proof.
  induction 1 as [ud|ud ud' Ht Hc Hx Hg Hu|ud pc0 size value|ud ud1 Hf
                 |ud ud1 seq Hf|ud1 ud2 ud3 H12 IH12 H23 IH23];
    intros Hb Hs Hr.
  - done.
  - destruct Hg, Hu, Hr as (Hne & R1 & R2 & R3 & R4). unfold Ud_ranges.
    rewrite Ht. split; [done|].
    split; [|split; [|split]]; eapply ranges_ok_grow; done.
  - done.
  - apply closed_ok. apply (Flush_ranges ud ud1 Hf); [| |done].
    + apply Flush_states in Hf as (Hr' & Hm' & _). unfold Ud_bounded in *.
      by rewrite <- Hr', <- Hm'.
    + apply Flush_states in Hf as (Hr' & Hm' & _). unfold Ud_small in *.
      by rewrite <- Hr', <- Hm'.
  - pose proof (Flush_states _ _ Hf) as (Hr' & Hm' & _).
    assert (Hb1 : Ud_bounded ud1) by (destruct Hb; split; simpl in *; done).
    assert (Hs1 : Ud_small ud1) by (destruct Hs; split; simpl in *; done).
    apply AddTrace_ranges; [done|done|].
    apply (Flush_ranges ud ud1 Hf); [| |done].
    + unfold Ud_bounded in *. by rewrite <- Hr', <- Hm'.
    + unfold Ud_small in *. by rewrite <- Hr', <- Hm'.
  - destruct (Ud_step_grows _ _ H23) as [[G1 G2] [U1 U2]].
    apply IH23; [done|done|]. apply IH12; [|  |done].
    + destruct Hb. split; lia.
    + destruct Hs. split; lia.
Qed.

Lemma Ud_Init_ranges (E : Endianness) (W : Z) (ok : bool) (primes0 : list Z)
    (machineType n ret : Z) (ud : Ud) :
  Ud_Init E W ok primes0 machineType n = Some (ret, ud) ->
  Ud_ranges ranges_ok ud.
Proof.
  unfold Ud_Init. intros H.
  destruct (UdState_Init primes0 _) as [[primes1 rs]|] eqn:Hr; [|done].
  cbn [mbind option_bind] in H.
  destruct (UdState_Init primes1 _) as [[primes2 ms]|] eqn:Hm; [|done].
  cbn [mbind option_bind] in H.
  apply UdState_Init_empty in Hr as (Hru & Hrd & Hrm).
  apply UdState_Init_empty in Hm as (Hmu & Hmd & Hmm).
  cbv zeta in H.
  assert (ud = set_memState
    (set_regState (AddTrace (mkUd [mkInsnInCode 0 0 0] [] [] rs ms primes2)
                     (wrap32 (vsize ([] : list InsnInCode))))
       primes2 (AddDef rs 0 (WMAX W)))
    primes2 (AddDef ms 0 (WMAX W))) as ->.
  { destruct (_ <? 0); by injection H as <- <-. }
  clear H. unfold Ud_ranges. simpl. rewrite Hru, Hrd, Hmu, Hmd.
  change (wrap32 (vsize [])) with 0.
  split; [done|].
  split; [|split; [|split]]; (split; [|split]);
    try (intros t [= <-]; simpl; unfold vsize; simpl; lia);
    intros [|i] t t' ? ?; done.
Qed.

(** The ranges of the graph that a build returns with 0. *)
Lemma UdFile_ranges (ok : bool) (fuel : nat) (data : list byte) (s e : Z) (ud : Ud) :
  UdFile ok fuel data s e = Some (0, Some ud) ->
  Ud_bounded ud -> Ud_small ud -> Ud_ranges ranges_closed ud.
Proof.
  intros H Hb Hs. apply UdFile_cases in H as (E & W & H).
  apply Ud_Visit_steps in H as (mt & n & ud0 & ud1 & Hinit & Hstep & Hflush).
  pose proof (Flush_states _ _ Hflush) as (Hr' & Hm' & _).
  assert (Hb1 : Ud_bounded ud1) by (unfold Ud_bounded in *; by rewrite <- Hr', <- Hm').
  assert (Hs1 : Ud_small ud1) by (unfold Ud_small in *; by rewrite <- Hr', <- Hm').
  apply (Flush_ranges ud1 ud Hflush Hb1 Hs1).
  apply (Ud_step_ranges ud0 ud1 Hstep Hb1 Hs1).
  by apply (Ud_Init_ranges E W ok primes_init mt n 0).
Qed.

(** ** The queries *)

Section RangeQuery.
Variables start end_index : InsnInTrace -> Z.
Variables (count : Z) (trace : list InsnInTrace).

Let get (t : Z) : option (list Z) :=
  entry ← trace !! Z.to_nat t;
  Some (index_range (start entry) (end_index entry)).

Hypothesis Hne : trace <> [].
Hypothesis Hclosed : ranges_closed start end_index count trace.

Lemma index_range_In (a b u : Z) : In u (index_range a b) <-> a <= u < b.
Proof.
  unfold index_range. rewrite <- list_elem_of_In, elem_of_seqZ. lia.
Qed.

Lemma range_query_partition :
  (forall u, 0 <= u < count ->
     exists t l, 0 <= t < vsize trace /\ get t = Some l /\ In u l /\
       forall t' l', 0 <= t' -> get t' = Some l' -> In u l' -> t' = t) /\
  (forall t l u, get t = Some l -> In u l -> 0 <= u < count).
Proof.
  split.
  - intros u Hu.
    destruct (closed_cover start end_index count trace Hclosed u Hne Hu)
      as (i & t & Hi & Hin).
    exists (Z.of_nat i), (index_range (start t) (end_index t)).
    pose proof (lookup_lt_Some _ _ _ Hi) as Hlt.
    split; [unfold vsize; lia|]. unfold get. rewrite Nat2Z.id, Hi.
    split; [done|]. split; [by apply index_range_In|].
    intros t' l' Ht' Hget Hin'.
    destruct (trace !! Z.to_nat t') as [e'|] eqn:He'; [|done].
    injection Hget as <-. apply index_range_In in Hin'.
    pose proof (closed_unique start end_index count trace Hclosed
                  _ _ _ _ u He' Hi Hin' Hin). lia.
  - intros t l u Hget Hin. unfold get in Hget.
    destruct (trace !! Z.to_nat t) as [e'|] eqn:He'; [|done].
    injection Hget as <-. apply index_range_In in Hin.
    pose proof (closed_bounds start end_index count trace Hclosed _ _ He').
    lia.
Qed.
End RangeQuery.

(** X5: in the graph that a build returns with 0, when the counts of
    defs, uses and trace entries fit in [std::uint32_t], the use lists of
    the trace entries split the uses: every register use index below
    [GetUseCount()] is in [GetRegUsesForTrace(t)] for exactly one trace
    index [t], and the lists hold nothing but the indices of recorded
    uses; the same for the memory uses and [GetMemUsesForTrace]. *)
Theorem X5_use_ranges_partition (cs_open_ok : bool) (fuel : nat)
    (data : list byte) (start end_index : Z) (ud : Ud) :
  UdFile cs_open_ok fuel data start end_index = Some (0, Some ud) ->
  Ud_fits ud ->
  ((forall u, 0 <= u < vsize (uses_ (regState_ ud)) ->
      exists t l, 0 <= t < vsize (trace_ ud) /\
        GetRegUsesForTrace ud t = Some l /\ In u l /\
        forall t' l', 0 <= t' -> GetRegUsesForTrace ud t' = Some l' ->
                      In u l' -> t' = t) /\
   (forall t l u, GetRegUsesForTrace ud t = Some l -> In u l ->
                  0 <= u < vsize (uses_ (regState_ ud)))) /\
  ((forall u, 0 <= u < vsize (uses_ (memState_ ud)) ->
      exists t l, 0 <= t < vsize (trace_ ud) /\
        GetMemUsesForTrace ud t = Some l /\ In u l /\
        forall t' l', 0 <= t' -> GetMemUsesForTrace ud t' = Some l' ->
                      In u l' -> t' = t) /\
   (forall t l u, GetMemUsesForTrace ud t = Some l -> In u l ->
                  0 <= u < vsize (uses_ (memState_ ud)))).
Proof.
  intros Hrun (Hb & Hs & _).
  destruct (UdFile_ranges _ _ _ _ _ _ Hrun Hb Hs) as (Hne & Hru & Hmu & _ & _).
  split.
  - apply (range_query_partition regUseStartIndex regUseEndIndex _ _ Hne Hru).
  - apply (range_query_partition memUseStartIndex memUseEndIndex _ _ Hne Hmu).
Qed.

(** The literal trace: its one register use is in the list of trace
    entry 2, the instruction that reads the register. *)
Lemma X5_use_ranges_partition_witness :
  (exists t l, 0 <= t < vsize (trace_ ud_literal) /\
     GetRegUsesForTrace ud_literal t = Some l /\ In 0 l /\
     forall t' l', 0 <= t' -> GetRegUsesForTrace ud_literal t' = Some l' ->
                   In 0 l' -> t' = t) /\
  GetRegUsesForTrace ud_literal 2 = Some [0].
Proof.
  split; [|by vm_compute].
  destruct (X5_use_ranges_partition true 5 (literal_trace x03) 0 SIZE_MAX
              ud_literal ud_literal_run ud_literal_fits) as [[Hreg _] _].
  apply Hreg. by vm_compute.
Defined.

Section Resolved.
Variables defStart defEnd useStart useEnd : InsnInTrace -> Z.
Variables (st : UdState) (trace : list InsnInTrace).

Hypothesis Hinv : trace_inv defStart useStart useEnd st trace.
Hypothesis Hidx : idx_inv st.
Hypothesis Htab : table_inv st.
Hypothesis Hsmall : vsize (uses_ st) <= UINT32_MAX.
Hypothesis Hlen : vsize trace <= 2 ^ 32.
Hypothesis Hne : trace <> [].
Hypothesis Hclosed : ranges_closed defStart defEnd (vsize (defs_ st)) trace.

Lemma resolved_holds_def (u : Z) :
  0 <= u < vsize (uses_ st) ->
  exists d def t entry,
    uses_ st !! Z.to_nat u = Some d /\
    UdState_ResolveUse st u trace defStart = Some (def, t) /\
    0 <= t < vsize trace /\
    trace !! Z.to_nat t = Some entry /\
    defStart entry <= d < defEnd entry.
Proof.
  intros Hu. pose proof Hinv as (Hs & H0 & Hb & Hr).
  destruct Hidx as [Hmap Huses]. destruct Htab as [Hpu Hkeys].
  destruct (lookup_Z_lt (uses_ st) u Hu) as [d Hd].
  assert (HdIn : In d (uses_ st)).
  { apply list_elem_of_In. by apply list_elem_of_lookup_2 with (Z.to_nat u). }
  pose proof (Huses d HdIn) as Hdr.
  destruct (lookup_Z_lt (defs_ st) d Hdr) as [def0 Hdef0].
  assert (Hl0 : (0 < length trace)%nat) by (destruct trace; simpl; [done|lia]).
  destruct (lookup_lt_is_Some_2 trace O Hl0) as [t0 Ht0].
  destruct (ResolveUse_spec st u trace defStart d def0 t0 Hpu) as
    (def & t' & Hrun & _ & (tr & Htr & Hle) & Ht'0 & Hmax); try done.
  - lia.
  - by apply sorted_by_fmap.
  - rewrite (H0 t0 Ht0). lia.
  - exists d, def, t', tr. split; [done|]. split; [done|].
    pose proof (lookup_lt_Some _ _ _ Htr) as Hlt.
    split; [unfold vsize; lia|]. split; [done|]. split; [done|].
    destruct Hclosed as [(_ & Hc & _) He].
    destruct (decide (S (Z.to_nat t') < length trace)%nat) as [Hin|Hlast].
    + destruct (lookup_lt_is_Some_2 trace _ Hin) as [tn Htn].
      destruct (Hc _ tr tn Htr Htn) as [_ ->].
      destruct (Z_lt_ge_dec d (defStart tn)) as [|Hge]; [done|].
      specialize (Hmax _ tn Htn ltac:(lia)). lia.
    + assert (Z.to_nat t' = (length trace - 1)%nat) as Heq by lia.
      rewrite Heq in Htr. rewrite (He tr Htr). lia.
Qed.
End Resolved.

(** X6: in the graph that a build returns with 0 from a trace of at most
    [2^40] bytes, when the counts of defs, uses and trace entries fit in
    [std::uint32_t], [GetTraceForRegUse(u)] returns, for every recorded
    register use [u], a trace index [t] such that the def [uses[u]] lies
    in the def range [[regDefStartIndex, regDefEndIndex)] of trace entry
    [t]: the use is resolved to the instruction that made the def.  The
    same for the memory uses. *)
Theorem X6_resolved_entry_made_the_def (cs_open_ok : bool) (fuel : nat)
    (data : list byte) (start end_index : Z) (ud : Ud) :
  UdFile cs_open_ok fuel data start end_index = Some (0, Some ud) ->
  vsize data <= 2 ^ 40 -> Ud_fits ud ->
  (forall u, 0 <= u < vsize (uses_ (regState_ ud)) ->
     exists d t entry,
       uses_ (regState_ ud) !! Z.to_nat u = Some d /\
       GetTraceForRegUse ud u = Some t /\
       0 <= t < vsize (trace_ ud) /\
       trace_ ud !! Z.to_nat t = Some entry /\
       regDefStartIndex entry <= d < regDefEndIndex entry) /\
  (forall u, 0 <= u < vsize (uses_ (memState_ ud)) ->
     exists d t entry,
       uses_ (memState_ ud) !! Z.to_nat u = Some d /\
       GetTraceForMemUse ud u = Some t /\
       0 <= t < vsize (trace_ ud) /\
       trace_ ud !! Z.to_nat t = Some entry /\
       memDefStartIndex entry <= d < memDefEndIndex entry).
Proof.
  intros Hrun Hdata (Hb & Hs & Hlen).
  destruct (UdFile_ranges _ _ _ _ _ _ Hrun Hb Hs) as (Hne & _ & _ & Hrd & Hmd).
  apply UdFile_cases in Hrun as (E & W & Hrun).
  destruct (Ud_Visit_inv E W _ _ _ _ _ _ _ Hrun Hdata Hb Hs)
    as [(_ & Hir & Him & Htr_r & Htr_m) (_ & Htab_r & Htab_m)].
  destruct Hs as [Hsr Hsm]. split; intros u Hu.
  - destruct (resolved_holds_def _ _ _ _ _ _ Htr_r Hir Htab_r Hsr Hlen Hne Hrd u Hu)
      as (d & def & t & entry & Hd & Hres & Ht & Hentry & Hrange).
    exists d, t, entry. unfold GetTraceForRegUse. rewrite Hres. done.
  - destruct (resolved_holds_def _ _ _ _ _ _ Htr_m Him Htab_m Hsm Hlen Hne Hmd u Hu)
      as (d & def & t & entry & Hd & Hres & Ht & Hentry & Hrange).
    exists d, t, entry. unfold GetTraceForMemUse. rewrite Hres. done.
Qed.

(** The literal trace: the register use 0 is of the def 1, which trace
    entry 1, the instruction that wrote the register, made. *)
Lemma X6_resolved_entry_made_the_def_witness :
  (exists d t entry,
     uses_ (regState_ ud_literal) !! Z.to_nat 0 = Some d /\
     GetTraceForRegUse ud_literal 0 = Some t /\
     0 <= t < vsize (trace_ ud_literal) /\
     trace_ ud_literal !! Z.to_nat t = Some entry /\
     regDefStartIndex entry <= d < regDefEndIndex entry) /\
  GetTraceForRegUse ud_literal 0 = Some 1.
Proof.
  split; [|by vm_compute].
  assert (Hdata : vsize (literal_trace x03) <= 2 ^ 40) by by_eval.
  destruct (X6_resolved_entry_made_the_def true 5 (literal_trace x03) 0 SIZE_MAX
              ud_literal ud_literal_run Hdata ud_literal_fits) as [Hreg _].
  apply Hreg. by vm_compute.
Defined.

Section Scan.
Context {A : Type}.
Variables (test : A -> bool) (v : list A) (size : Z).
Hypothesis Hsize : 0 <= size <= vsize v.
Hypothesis Hfits : size < 2 ^ 32.

Lemma scan_loop_spec (fuel : nat) :
  forall i, 0 <= i <= size -> (Z.to_nat (size - i) <= fuel)%nat ->
  exists l, scan_loop test v fuel i size = Some l /\
    StronglySorted Z.lt l /\
    forall t, In t l <->
      i <= t < size /\ exists entry, v !! Z.to_nat t = Some entry /\
                                     test entry = true.
Proof.
  induction fuel as [|fuel IH]; intros i Hi Hf.
  - assert (i = size) as -> by lia. exists []. simpl.
    rewrite Z.ltb_irrefl. split; [done|]. split; [constructor|].
    intros t. split; [done|lia].
  - cbn [scan_loop]. destruct (Z.ltb_spec i size) as [Hlt|Hge].
    2:{ exists []. split; [done|]. split; [constructor|].
        intros t. split; [done|lia]. }
    destruct (lookup_Z_lt v i ltac:(lia)) as [entry Hentry].
    rewrite Hentry. cbn [mbind option_bind].
    rewrite wrap32_small by lia.
    destruct (IH (i + 1) ltac:(lia) ltac:(lia)) as (rest & -> & Hsorted & Hin).
    cbn [mbind option_bind].
    assert (Hrest : forall t, In t rest -> i < t).
    { intros t Ht. apply Hin in Ht. lia. }
    destruct (test entry) eqn:Htest.
    + exists (i :: rest). split; [done|]. split.
      * constructor; [done|]. apply List.Forall_forall. intros t Ht.
        by apply Hrest.
      * intros t. simpl. rewrite Hin. split.
        -- intros [<-|[Hr He]]; [|split; [lia|done]].
           split; [lia|]. by exists entry.
        -- intros [Hr (e & He & Ht)].
           destruct (decide (t = i)) as [->|Hne]; [by left|].
           right. split; [lia|]. by exists e.
    + exists rest. split; [done|]. split; [done|].
      intros t. rewrite Hin. split.
      * intros [Hr He]. split; [lia|done].
      * intros [Hr (e & He & Ht)]. split; [|by exists e].
        destruct (decide (t = i)) as [->|Hne]; [|lia].
        rewrite Hentry in He. injection He as <-. congruence.
Qed.
End Scan.

Lemma wrap32_size {A} (v : list A) :
  0 <= wrap32 (vsize v) <= vsize v /\ wrap32 (vsize v) < 2 ^ 32.
Proof.
  split; [apply wrap32_bounds, vsize_nonneg|].
  unfold wrap32, wrap. apply Z.mod_pos_bound. lia.
Qed.

(** X7: [GetTracesForCode(code)] returns, in increasing order, exactly
    the trace indices [t] below the 32-bit size of the trace with
    [GetCodeForTrace(t) = code], and [GetCodesForPc(pc)] returns, in
    increasing order, exactly the code indices [c] below the 32-bit size
    of the code with [GetPcForCode(c) = pc]; neither reads out of range. *)
Theorem X7_scans_invert_lookups (ud : Ud) :
  (forall code, exists traces,
     GetTracesForCode ud code = Some traces /\
     StronglySorted Z.lt traces /\
     forall t, In t traces <->
       0 <= t < wrap32 (vsize (trace_ ud)) /\ GetCodeForTrace ud t = Some code) /\
  (forall pc0, exists codes,
     GetCodesForPc ud pc0 = Some codes /\
     StronglySorted Z.lt codes /\
     forall c, In c codes <->
       0 <= c < wrap32 (vsize (code_ ud)) /\ GetPcForCode ud c = Some pc0).
Proof.
  split.
  - intros code. unfold GetTracesForCode, GetCodeForTrace. cbv zeta.
    destruct (wrap32_size (trace_ ud)) as [Hs Hf].
    destruct (scan_loop_spec (fun entry => codeIndex entry =? code) (trace_ ud)
                _ Hs Hf (Z.to_nat (wrap32 (vsize (trace_ ud)))) 0
                ltac:(lia) ltac:(lia)) as (l & Hrun & Hsorted & Hin).
    exists l. split; [done|]. split; [done|]. intros t. rewrite Hin.
    split; intros [Hr H]; (split; [done|]).
    + destruct H as (entry & -> & Ht). simpl. f_equal. lia.
    + destruct (trace_ ud !! Z.to_nat t) as [entry|]; [|done].
      injection H as <-. exists entry. split; [done|]. lia.
  - intros pc0. unfold GetCodesForPc, GetPcForCode. cbv zeta.
    destruct (wrap32_size (code_ ud)) as [Hs Hf].
    destruct (scan_loop_spec (fun entry => pc entry =? pc0) (code_ ud)
                _ Hs Hf (Z.to_nat (wrap32 (vsize (code_ ud)))) 0
                ltac:(lia) ltac:(lia)) as (l & Hrun & Hsorted & Hin).
    exists l. split; [done|]. split; [done|]. intros t. rewrite Hin.
    split; intros [Hr H]; (split; [done|]).
    + destruct H as (entry & -> & Ht). simpl. f_equal. lia.
    + destruct (code_ ud !! Z.to_nat t) as [entry|]; [|done].
      injection H as <-. exists entry. split; [done|]. lia.
Qed.

(** * Further properties of the reader *)

(** ** Alignment *)

Lemma wrap_land (bits x : Z) : 0 <= bits -> wrap bits x = Z.land x (Z.ones bits).
Proof. intros Hb. unfold wrap. by rewrite Z.land_ones. Qed.

Lemma wrap_id (bits x : Z) : 0 <= x < 2 ^ bits -> wrap bits x = x.
Proof. intros Hx. unfold wrap. by apply Z.mod_small. Qed.

(** Clearing the low [k] bits rounds down to a multiple of [2^k]. *)
Lemma align_land (bits k x : Z) :
  0 <= k <= bits -> 0 <= x < 2 ^ bits ->
  Z.land x (wrap bits (Z.lnot (2 ^ k - 1))) = 2 ^ k * (x / 2 ^ k).
Proof.
  intros Hk Hx. rewrite wrap_land by lia.
  replace (2 ^ k - 1) with (Z.ones k) by (rewrite Z.ones_equiv; lia).
  rewrite (Z.land_comm (Z.lnot _)), Z.land_assoc.
  rewrite Z.land_ones by lia. rewrite (Z.mod_small x) by done.
  rewrite <- Z.ldiff_land, Z.ldiff_ones_r by lia.
  rewrite Z.shiftl_mul_pow2, Z.shiftr_div_pow2 by lia. lia.
Qed.

(** Rounding up: the least multiple of [2^k] that is at least [x]. *)
Lemma round_up (k x : Z) :
  0 <= k -> 0 <= x ->
  let a := 2 ^ k * ((x + (2 ^ k - 1)) / 2 ^ k) in
  a mod 2 ^ k = 0 /\ x <= a < x + 2 ^ k.
Proof.
  intros Hk Hx a. assert (0 < 2 ^ k) as Hp by (apply Z.pow_pos_nonneg; lia).
  split.
  - unfold a. rewrite Z.mul_comm. by apply Z.mod_mul; lia.
  - pose proof (Z.div_mod (x + (2 ^ k - 1)) (2 ^ k) ltac:(lia)) as Hdm.
    pose proof (Z.mod_pos_bound (x + (2 ^ k - 1)) (2 ^ k) Hp). unfold a. lia.
Qed.

Lemma GetAligned_spec (bits k pos : Z) :
  0 <= k < bits -> 0 <= pos -> pos + 2 ^ k <= 2 ^ bits ->
  GetAligned bits pos (2 ^ k) mod 2 ^ k = 0 /\
  pos <= GetAligned bits pos (2 ^ k) < pos + 2 ^ k.
Proof.
  intros Hk Hpos Hfit. unfold GetAligned. cbv zeta.
  assert (0 < 2 ^ k) as Hp by (apply Z.pow_pos_nonneg; lia).
  assert (2 ^ k < 2 ^ bits) as Hlt by (apply Z.pow_lt_mono_r; lia).
  rewrite (wrap_id bits pos) by lia.
  rewrite !(wrap_id bits (2 ^ k - 1)) by lia.
  rewrite (wrap_id bits (pos + _)) by lia.
  rewrite align_land; [|lia|lia].
  apply (round_up k pos); lia.
Qed.

(** ** Byte order *)

Lemma byte_val_range (b : byte) : 0 <= byte_val b < 256.
Proof.
  unfold byte_val. pose proof (Byte.to_N_bounded b). lia.
Qed.

Lemma le_decode_range (bytes : list byte) :
  0 <= le_decode bytes < 256 ^ Z.of_nat (length bytes).
Proof.
  induction bytes as [|b bytes IH]; [simpl; lia|].
  cbn [le_decode length]. rewrite Nat2Z.inj_succ, Z.pow_succ_r by lia.
  pose proof (byte_val_range b) as Hb. unfold byte_val in Hb. lia.
Qed.

Lemma le_encode_decode (bytes : list byte) :
  le_encode (length bytes) (le_decode bytes) = byte_val <$> bytes.
Proof.
  induction bytes as [|b bytes IH]; [done|].
  cbn [le_decode length le_encode fmap list_fmap].
  pose proof (byte_val_range b) as Hb. unfold byte_val in *.
  f_equal.
  - rewrite (Z.mul_comm 256), Z.mod_add by lia. by apply Z.mod_small.
  - rewrite (Z.mul_comm 256), Z.div_add by lia.
    rewrite (Z.div_small (Z.of_N (Byte.to_N b))) by lia.
    rewrite Z.add_0_l. apply IH.
Qed.

Lemma be_value_app (ds : list Z) (d : Z) :
  be_value (ds ++ [d]) = 256 * be_value ds + d.
Proof.
  induction ds as [|x ds IH]; [simpl; lia|].
  cbn [app be_value]. rewrite IH, length_app. simpl length.
  replace (Z.of_nat (length ds + 1)) with (Z.succ (Z.of_nat (length ds))) by lia.
  rewrite Z.pow_succ_r by lia. lia.
Qed.

(** The big-endian value of the bytes is the little-endian value of the
    bytes in the opposite order. *)
Lemma be_value_rev (bytes : list byte) :
  be_value (byte_val <$> bytes) = le_decode (rev bytes).
Proof.
  induction bytes as [|b bytes IH] using rev_ind; [done|].
  rewrite fmap_app, rev_app_distr. cbn [fmap list_fmap rev app le_decode].
  rewrite be_value_app, IH. unfold byte_val. lia.
Qed.

Lemma BSwap_le_decode (bytes : list byte) :
  BSwap (length bytes) (le_decode bytes) = le_decode (rev bytes).
Proof. unfold BSwap. by rewrite le_encode_decode, be_value_rev. Qed.

Lemma RawInt_bytes (E : Endianness) (n : nat) (data : list byte) (off v : Z) :
  RawInt E n data off = Some v ->
  let bytes := take n (drop (Z.to_nat off) data) in
  length bytes = n /\
  v = match E with
      | Little => le_decode bytes
      | Big => le_decode (rev bytes)
      end.
Proof.
  intros H bytes. unfold RawInt in H.
  destruct (Z.leb_spec 0 off) as [Hoff|]; [|done].
  destruct (Z.leb_spec (off + Z.of_nat n) (vsize data)) as [Hfit|]; [|done].
  cbn [andb] in H. injection H as <-.
  assert (Hlen : length bytes = n).
  { unfold bytes. rewrite length_take, length_drop. unfold vsize in Hfit. lia. }
  split; [done|]. unfold ConvertToHost. fold bytes.
  destruct E; simpl; [done|]. rewrite <- Hlen at 1. apply BSwap_le_decode.
Qed.

Lemma RawInt_range (E : Endianness) (n : nat) (data : list byte) (off v : Z) :
  RawInt E n data off = Some v -> 0 <= v < 256 ^ Z.of_nat n.
Proof.
  intros H. destruct (RawInt_bytes E n data off v H) as [Hlen ->].
  set (bytes := take n (drop (Z.to_nat off) data)) in *.
  destruct E.
  - pose proof (le_decode_range bytes) as Hr. by rewrite Hlen in Hr.
  - pose proof (le_decode_range (rev bytes)) as Hr.
    by rewrite length_rev, Hlen in Hr.
Qed.

Lemma byte_of_val (x : Z) : 0 <= x < 256 -> exists b, byte_val b = x.
Proof.
  intros Hx. destruct (Byte.of_N (Z.to_N x)) as [b|] eqn:Hb.
  - exists b. unfold byte_val. apply Byte.to_of_N in Hb. lia.
  - apply Byte.of_N_None_iff in Hb. lia.
Qed.

(** Every value of [n] bytes is the little-endian value of [n] bytes. *)
Lemma le_decode_onto (n : nat) :
  forall v, 0 <= v < 256 ^ Z.of_nat n ->
    exists bytes, length bytes = n /\ le_decode bytes = v.
Proof.
  induction n as [|n IH]; intros v Hv.
  - exists []. simpl in *. split; [done|lia].
  - rewrite Nat2Z.inj_succ, Z.pow_succ_r in Hv by lia.
    destruct (IH (v / 256)) as (rest & Hlen & Hrest).
    { split; [apply Z.div_pos; lia|apply Z.div_lt_upper_bound; lia]. }
    destruct (byte_of_val (v mod 256)) as [b Hb].
    { apply Z.mod_pos_bound. lia. }
    exists (b :: rest). split; [simpl; by rewrite Hlen|].
    cbn [le_decode]. unfold byte_val in Hb. rewrite Hb, Hrest.
    pose proof (Z.div_mod v 256 ltac:(lia)). lia.
Qed.

(** X8: the two roundings of the source give the least multiple of the
    alignment that is at least the value.  [Tlv::GetAlignedLength], for a
    word of 4 or of 8 bytes, is the least multiple of the word size that
    is at least the 16-bit length of the record; and [GetAligned(pos, n)]
    on a type of 32 or of 64 bits, for [n] a power of two and [pos + n]
    within the type, is the least multiple of [n] that is at least
    [pos]. *)
Theorem X8_round_up_to_alignment :
  (forall (E : Endianness) (W : Z) (tlv : View) (len : Z),
     W = 4 \/ W = 8 -> Tlv_GetLength E tlv = Some len ->
     exists a, Tlv_GetAlignedLength E W tlv = Some a /\
               a mod W = 0 /\ len <= a < len + W) /\
  (forall bits k pos,
     bits = 32 \/ bits = 64 -> 0 <= k < bits -> 0 <= pos ->
     pos + 2 ^ k <= 2 ^ bits ->
     GetAligned bits pos (2 ^ k) mod 2 ^ k = 0 /\
     pos <= GetAligned bits pos (2 ^ k) < pos + 2 ^ k).
Proof.
  split.
  - intros E W tlv len HW Hlen. unfold Tlv_GetAlignedLength. rewrite Hlen.
    cbn [mbind option_bind]. eexists. split; [done|].
    apply RawInt_range in Hlen. change (256 ^ Z.of_nat 2) with 65536 in Hlen.
    destruct HW as [-> | ->]; unfold wrapW.
    + change (8 * 4) with 32. change (4 - 1) with (2 ^ 2 - 1).
      rewrite (wrap_id 32 (len + _)) by (change (2 ^ 32) with 4294967296; lia).
      rewrite align_land; [|lia|change (2 ^ 32) with 4294967296; lia].
      apply (round_up 2 len); lia.
    + change (8 * 8) with 64. change (8 - 1) with (2 ^ 3 - 1).
      rewrite (wrap_id 64 (len + _)) by (change (2 ^ 64) with 18446744073709551616; lia).
      rewrite align_land; [|lia|change (2 ^ 64) with 18446744073709551616; lia].
      apply (round_up 3 len); lia.
  - intros bits k pos Hbits Hk Hpos Hfit. by apply GetAligned_spec.
Qed.

(** A record of 13 bytes takes 16 bytes of a stream of 4-byte words, and
    a vector that needs 5 bytes more grows by one unit of [2^30] bytes. *)
Lemma X8_round_up_to_alignment_witness :
  (exists a, Tlv_GetAlignedLength Little 4
               (mkView (literal_trace x03) 24) = Some a /\
             a mod 4 = 0 /\ 13 <= a < 13 + 4) /\
  (GetAligned 64 5 (2 ^ 30) mod 2 ^ 30 = 0 /\
   5 <= GetAligned 64 5 (2 ^ 30) < 5 + 2 ^ 30).
Proof.
  destruct X8_round_up_to_alignment as [Htlv Hal]. split.
  - apply (Htlv Little 4 (mkView (literal_trace x03) 24) 13);
      [by left|by vm_compute].
  - apply (Hal 64 30 5); [by right|lia|lia|by vm_compute].
Defined.

(** X9: [RawInt<E, T>::GetValue] on the [n] bytes at [data + off], for a
    [T] of [n] bytes, returns a value below [256^n]: for a little-endian
    stream the little-endian value of the bytes, and for a big-endian
    stream (on the little-endian host of the model) the little-endian
    value of the bytes in the opposite order.  [BSwap] on [n] bytes is
    its own inverse. *)
Theorem X9_RawInt_byte_order :
  (forall (E : Endianness) (n : nat) (data : list byte) (off v : Z),
     RawInt E n data off = Some v ->
     let bytes := take n (drop (Z.to_nat off) data) in
     length bytes = n /\ 0 <= v < 256 ^ Z.of_nat n /\
     v = match E with
         | Little => le_decode bytes
         | Big => le_decode (rev bytes)
         end) /\
  (forall (n : nat) (v : Z),
     0 <= v < 256 ^ Z.of_nat n -> BSwap n (BSwap n v) = v).
Proof.
  split.
  - intros E n data off v H bytes.
    destruct (RawInt_bytes E n data off v H) as [Hlen Hv].
    split; [done|]. split; [by apply (RawInt_range E n data off)|done].
  - intros n v Hv. destruct (le_decode_onto n v Hv) as (bytes & <- & <-).
    rewrite BSwap_le_decode. rewrite <- length_rev at 1.
    by rewrite BSwap_le_decode, rev_involutive.
Qed.

(** The length field of the second record of the literal trace, read as
    little-endian and as big-endian. *)
Lemma X9_RawInt_byte_order_witness :
  (length (take 2 (drop (Z.to_nat 26) (literal_trace x03))) = 2%nat /\
   0 <= 13 < 256 ^ Z.of_nat 2 /\
   13 = le_decode (take 2 (drop (Z.to_nat 26) (literal_trace x03)))) /\
  RawInt Big 2 (literal_trace x03) 26 = Some 3328 /\
  BSwap 2 (BSwap 2 13) = 13.
Proof.
  destruct X9_RawInt_byte_order as [Hraw Hswap]. split; [|split].
  - apply (Hraw Little 2%nat (literal_trace x03) 26 13). by vm_compute.
  - by vm_compute.
  - apply (Hswap 2%nat 13). by vm_compute.
Defined.

(** ** A visit, over the records *)

Section Visiting.
Variable E : Endianness.
Variable W : Z.
Context {V : Type} (Vis : Visitor V).

(** [VisitOne] at a record that lies within the mapping. *)
Lemma VisitOne_at_record (data : list byte) (off e s en tag aligned seq : Z)
    (v : V) :
  0 <= e -> e + 1 < 2 ^ 64 ->
  Tlv_GetTag E (mkView data off) = Some tag ->
  Tlv_GetAlignedLength E W (mkView data off) = Some aligned ->
  8 <= aligned -> off + aligned <= vsize data ->
  @VisitOne E W V Vis (mkTraceMm data off e) s en v =
    '(err, v') ←
      (if (s <=? e) && (e <? en)
       then visit_record data v e (mkTlvRecord off tag seq)
       else Some (0, v));
    if err <? 0 then Some (err, mkTraceMm data off e, v')
    else Some (0, mkTraceMm data (off + aligned) (e + 1), v').
Proof.
  intros He He1 Htag Hal H8 Hfit.
  unfold VisitOne, Have, Advance, length_, Tlv_kFixedLength.
  cbn [cur_ data_ entryIndex_].
  destruct (Z.leb_spec (off + 4) (vsize data)) as [_|]; [|lia].
  cbn [negb]. rewrite Hal. cbn [mbind option_bind].
  destruct (Z.leb_spec (off + aligned) (vsize data)) as [_|]; [|lia].
  cbn [negb]. unfold visit_record. cbn [rec_tag rec_off].
  rewrite Htag. cbn [mbind option_bind].
  match goal with
  | |- mbind _ ?X = mbind _ ?Y => change Y with X; destruct X as [[err v']|]
  end; [|done].
  cbn [mbind option_bind]. destruct (err <? 0); [done|].
  destruct (Z.gtb_spec (off + aligned) (vsize data)) as [|_]; [lia|].
  cbn [data_ cur_ entryIndex_]. by rewrite wrap64_id by lia.
Qed.

Lemma Visit_loop_records (fuel : nat) :
  forall (f : nat) (data : list byte) (off e s en : Z) (v : V)
         (recs : list TlvRecord),
  0 <= e -> e + Z.of_nat (length recs) < 2 ^ 64 ->
  tlv_records E W fuel data off = Some recs ->
  (length recs <= f)%nat ->
  @Visit_loop E W V Vis f (mkTraceMm data off e) s en v =
    visit_records data recs e s en v.
Proof.
  induction fuel as [|fuel IH]; intros f data off e s en v recs He Hlen Hrecs Hf.
  - cbn [tlv_records] in Hrecs.
    destruct (Z.eqb_spec off (vsize data)) as [->|]; [|done].
    injection Hrecs as <-. destruct f; cbn [Visit_loop cur_];
      unfold length_; cbn [data_]; by rewrite Z.eqb_refl.
  - cbn [tlv_records] in Hrecs.
    destruct (Z.eqb_spec off (vsize data)) as [->|Hne].
    { injection Hrecs as <-. destruct f; cbn [Visit_loop cur_];
        unfold length_; cbn [data_]; by rewrite Z.eqb_refl. }
    destruct (Tlv_GetTag _ _) as [tag|] eqn:Htag; [|done].
    cbn [mbind option_bind] in Hrecs.
    destruct (Tlv_GetAlignedLength _ _ _) as [aligned|] eqn:Hal; [|done].
    cbn [mbind option_bind] in Hrecs.
    destruct (GetInsnSeq _ _) as [seq|] eqn:Hseq; [|done].
    cbn [mbind option_bind] in Hrecs.
    destruct (known_tag tag) eqn:Hknown; [|done].
    destruct (Z.leb_spec 8 aligned) as [H8|]; [|done].
    destruct (Z.leb_spec (off + aligned) (vsize data)) as [Hfit|]; [|done].
    cbn [andb] in Hrecs.
    destruct (tlv_records E W fuel data (off + aligned)) as [rest|] eqn:Hrest;
      [|done].
    cbn [mbind option_bind] in Hrecs. injection Hrecs as <-.
    cbn [length] in Hlen, Hf. destruct f as [|f]; [lia|].
    cbn [Visit_loop cur_]. unfold length_. cbn [data_].
    destruct (Z.eqb_spec off (vsize data)) as [|_]; [done|].
    rewrite (VisitOne_at_record data off e s en tag aligned seq v
               He ltac:(lia) Htag Hal H8 Hfit).
    cbn [visit_records rec_off].
    match goal with
    | |- mbind _ (mbind _ ?X) = _ => destruct X as [[err v']|]
    end; [|done].
    cbn [mbind option_bind]. destruct (err <? 0) eqn:Herr.
    + cbn [mbind option_bind]. by rewrite Herr.
    + cbn [mbind option_bind]. change (0 <? 0) with false. cbv iota.
      apply IH; [lia|lia|done|lia].
Qed.
End Visiting.

(** X10: on a mapping whose records from the cursor on all have a tag of
    [enum class Tag] and an aligned length of at least 8 bytes within the
    mapping, the loop of [TraceMm::Visit], for any visitor, is the visit
    of the records one after the other: the visitor is called once for
    each record whose index is in [[start, end)], in the order of the
    stream and with consecutive indices, by the overload of its tag; the
    first call that returns a negative value ends the loop with that
    value, the cursor on that record; otherwise the loop returns 0 with
    the cursor at the end of the mapping and [entryIndex_] advanced by
    the number of records. *)
Theorem X10_Visit_over_records (E : Endianness) (W : Z) {V : Type}
    (Vis : Visitor V) (fuel f : nat) (data : list byte)
    (off e start end_index : Z) (visitor : V) (recs : list TlvRecord) :
  0 <= e -> e + Z.of_nat (length recs) < 2 ^ 64 ->
  tlv_records E W fuel data off = Some recs ->
  (length recs <= f)%nat ->
  @Visit_loop E W V Vis f (mkTraceMm data off e) start end_index visitor =
    visit_records data recs e start end_index visitor.
Proof. intros. by apply (Visit_loop_records E W Vis fuel). Qed.

Lemma literal_recs_run :
  tlv_records Little 4 5 (literal_trace x03) 8 = Some literal_recs.
Proof. by vm_compute. Qed.

(** The five records of the literal trace, visited by the builder from
    the third one on. *)
Lemma X10_Visit_over_records_witness :
  @Visit_loop Little 4 Ud (Ud_Visitor Little 4) 5
    (mkTraceMm (literal_trace x03) 8 0) 2 SIZE_MAX ud_seed =
  @visit_records Ud (Ud_Visitor Little 4) (literal_trace x03) literal_recs
    0 2 SIZE_MAX ud_seed.
Proof.
  apply (X10_Visit_over_records Little 4 (Ud_Visitor Little 4) 5 5
           (literal_trace x03) 8 0 2 SIZE_MAX ud_seed literal_recs);
    [lia|by vm_compute|apply literal_recs_run|by vm_compute].
Defined.

(** ** A record of length 0 *)

Lemma Visit_loop_zero_length (E : Endianness) (W : Z) (fuel : nat) :
  forall (data : list byte) (cur idx s en : Z) (ud : Ud),
    cur + 4 <= vsize data ->
    Tlv_GetAlignedLength E W (mkView data cur) = Some 0 ->
    Tlv_GetTag E (mkView data cur) = Some MT_MMAP ->
    @Visit_loop E W Ud (Ud_Visitor E W) fuel (mkTraceMm data cur idx) s en ud = None.
Proof.
  induction fuel as [|fuel IH]; intros data cur idx s en ud Hhave Hal Htag.
  - cbn [Visit_loop cur_]. unfold length_. cbn [data_].
    destruct (Z.eqb_spec cur (vsize data)); [lia|done].
  - cbn [Visit_loop cur_]. unfold length_. cbn [data_].
    destruct (Z.eqb_spec cur (vsize data)); [lia|].
    unfold VisitOne, Have, Advance, length_, Tlv_kFixedLength.
    cbn [cur_ data_ entryIndex_].
    destruct (Z.leb_spec (cur + 4) (vsize data)) as [_|]; [|lia].
    cbn [negb]. rewrite Hal. cbn [mbind option_bind].
    destruct (Z.leb_spec (cur + 0) (vsize data)) as [_|]; [|lia].
    cbn [negb]. rewrite Htag. cbn [mbind option_bind].
    change (MT_MMAP =? MT_LOAD) with false. change (MT_MMAP =? MT_STORE) with false.
    change (MT_MMAP =? MT_REG) with false. change (MT_MMAP =? MT_GET_REG) with false.
    change (MT_MMAP =? MT_PUT_REG) with false. change (MT_MMAP =? MT_INSN) with false.
    change (MT_MMAP =? MT_INSN_EXEC) with false.
    change (MT_MMAP =? MT_GET_REG_NX) with false.
    change (MT_MMAP =? MT_PUT_REG_NX) with false.
    change (MT_MMAP =? MT_MMAP) with true. cbn [orb].
    cbn [visit_Mmap Ud_Visitor Ud_Mmap].
    assert (Hstep : forall b : bool,
      (if b then Some (0, ud) else Some (0, ud)) = Some (0, ud))
      by (by intros []).
    rewrite Hstep. cbn [mbind option_bind]. change (0 <? 0) with false.
    cbv iota.
    destruct (Z.gtb_spec (cur + 0) (vsize data)) as [|_]; [lia|].
    cbn [data_ cur_ entryIndex_ mbind option_bind].
    change (0 <? 0) with false. cbv iota. rewrite Z.add_0_r.
    by apply IH.
Qed.

(** X12: a record with the tag [MT_MMAP] whose aligned length is 0 stops
    the build for good: [VisitOne] returns 0 at it and leaves the cursor
    where it is, so that the loop of [TraceMm::Visit<Ud>] is not over
    after any number of iterations, whatever the window. *)
Theorem X12_zero_length_record_loops (E : Endianness) (W : Z) (fuel : nat)
    (tr : TraceMm) (start end_index : Z) (ud : Ud) :
  cur_ tr + 4 <= length_ tr ->
  Tlv_GetAlignedLength E W (mkView (data_ tr) (cur_ tr)) = Some 0 ->
  Tlv_GetTag E (mkView (data_ tr) (cur_ tr)) = Some MT_MMAP ->
  @Visit_loop E W Ud (Ud_Visitor E W) fuel tr start end_index ud = None.
Proof.
  destruct tr as [data cur idx]. unfold length_. cbn [data_ cur_].
  apply Visit_loop_zero_length.
Qed.

(** A header and one such record: 1000 iterations do not end the loop,
    nor the build of the file. *)
Lemma X12_zero_length_record_loops_witness :
  @Visit_loop Little 4 Ud (Ud_Visitor Little 4) 1000
    (mkTraceMm zero_length_trace 8 0) 0 SIZE_MAX ud_seed = None /\
  UdFile true 1000 zero_length_trace 0 SIZE_MAX = None.
Proof.
  split; [|by vm_compute].
  apply (X12_zero_length_record_loops Little 4 1000
           (mkTraceMm zero_length_trace 8 0) 0 SIZE_MAX ud_seed);
    by vm_compute.
Defined.

(** * The graph as a function of the records *)

Lemma run_heads_app (prev : Z) (l1 l2 : list Z) :
  run_heads prev (l1 ++ l2) =
    run_heads prev l1 ++ run_heads (List.last (prev :: run_heads prev l1) 0) l2.
Proof.
  revert prev. induction l1 as [|s l1 IH]; intros prev; [done|].
  cbn [app run_heads]. destruct (s =? prev) eqn:Hs.
  - by rewrite IH.
  - by rewrite IH.
Qed.

Lemma last_app_cons {A} (l1 l2 : list A) (x d : A) :
  List.last (l1 ++ x :: l2) d = List.last (x :: l2) d.
Proof.
  induction l1 as [|y l1 IH]; [done|]. cbn [app].
  rewrite <- IH. by destruct (l1 ++ x :: l2) eqn:Heq; [destruct l1|].
Qed.

Lemma last_app_heads (codes : list Z) (heads : list Z) :
  codes <> [] ->
  List.last (codes ++ heads) 0 = List.last (List.last codes 0 :: heads) 0.
Proof.
  intros Hne. destruct (exists_last Hne) as (l & x & ->).
  rewrite List.last_last, <- app_assoc. cbn [app]. apply last_app_cons.
Qed.

Lemma code_of_app (t : Z) (i1 i2 : list (Z * Z * list byte)) :
  code_of t (i1 ++ i2) =
    code_of t i1 ++ code_of (t + vsize (concat ((fun x => snd x) <$> i1))) i2.
Proof.
  revert t. induction i1 as [|[[pc0 size] value] i1 IH]; intros t.
  - simpl. unfold vsize. simpl. by rewrite Z.add_0_r.
  - cbn [app code_of fmap list_fmap concat snd]. rewrite IH. f_equal. f_equal.
    f_equal. rewrite vsize_app. lia.
Qed.

Lemma code_of_length (t : Z) (insns : list (Z * Z * list byte)) :
  length (code_of t insns) = length insns.
Proof.
  revert t. induction insns as [|[[pc0 size] value] insns IH]; intros t; [done|].
  simpl. by rewrite IH.
Qed.

Lemma Ud_effect_refl (ud : Ud) :
  trace_ ud <> [] -> Ud_effect ud ud [] [] [] [] [].
Proof.
  intros Hne. unfold Ud_effect. simpl. rewrite !app_nil_r. done.
Qed.

Lemma Ud_effect_trans (ud1 ud2 ud3 : Ud) (s1 s2 : list Z) (r1 r2 m1 m2 : list Def)
    (i1 i2 : list (Z * Z * list byte)) (q1 q2 : list Z) :
  trace_ ud1 <> [] ->
  Ud_effect ud1 ud2 s1 r1 m1 i1 q1 -> Ud_effect ud2 ud3 s2 r2 m2 i2 q2 ->
  Ud_effect ud1 ud3 (s1 ++ s2) (r1 ++ r2) (m1 ++ m2) (i1 ++ i2) (q1 ++ q2).
Proof.
  intros Hne (Hn1 & Ht1 & Hr1 & Hm1 & Hc1 & Hx1 & Hq1)
             (Hn2 & Ht2 & Hr2 & Hm2 & Hc2 & Hx2 & Hq2).
  unfold Ud_effect. split; [done|]. split; [|split; [|split; [|split; [|split]]]].
  - rewrite Ht2, Ht1, run_heads_app, <- app_assoc. f_equal. f_equal.
    rewrite last_app_heads; [done|]. by destruct (trace_ ud1).
  - by rewrite Hr2, Hr1, app_assoc.
  - by rewrite Hm2, Hm1, app_assoc.
  - rewrite Hc2, Hc1, Hx1, code_of_app, vsize_app, <- app_assoc. done.
  - by rewrite Hx2, Hx1, fmap_app, concat_app, app_assoc.
  - rewrite Hq1, Hq2, Hc1, !vsize_app.
    assert (vsize (code_of (vsize (text_ ud1)) i1) = vsize i1) as ->
      by (unfold vsize; by rewrite code_of_length).
    pose proof (vsize_nonneg i1). pose proof (vsize_nonneg i2).
    rewrite seqZ_app by lia. by rewrite fmap_app.
Qed.

Lemma last_fmap_lookup {A B} (f : A -> B) (l : list A) (x : A) (d : B) :
  l !! (length l - 1)%nat = Some x -> List.last (f <$> l) d = f x.
Proof.
  intros Hx. destruct (decide (l = [])) as [->|Hne]; [done|].
  destruct (exists_last Hne) as (l' & y & ->).
  rewrite length_app in Hx. simpl in Hx.
  rewrite lookup_app_r in Hx by lia.
  replace (length l' + 1 - 1 - length l')%nat with O in Hx by lia.
  injection Hx as ->. rewrite fmap_app. cbn [fmap list_fmap].
  by rewrite List.last_last.
Qed.

Lemma Flush_codes (ud ud1 : Ud) :
  Flush ud = Some ud1 ->
  trace_ ud1 <> [] /\
  codeIndex <$> trace_ ud1 = codeIndex <$> trace_ ud /\
  code_ ud1 = code_ ud /\ text_ ud1 = text_ ud /\
  regState_ ud1 = regState_ ud /\ memState_ ud1 = memState_ ud.
Proof.
  unfold Flush. destruct (trace_ ud) as [|t0 tl] eqn:Htr; [done|].
  rewrite <- Htr. destruct (trace_ ud !! _) as [last|] eqn:Hlast; [|done].
  cbn [mbind option_bind]. intros [= <-]. cbn [trace_ set_trace code_ text_
    regState_ memState_]. split.
  { intros Heq. apply (f_equal length) in Heq. rewrite length_insert in Heq.
    rewrite Htr in Heq. done. }
  split; [|done]. rewrite list_fmap_insert. cbn [codeIndex].
  apply list_insert_id. by rewrite list_lookup_fmap, Hlast.
Qed.

Lemma HandleInsnSeq_effect (ud ud1 : Ud) (seq ret : Z) :
  HandleInsnSeq ud seq = Some (ret, ud1) -> trace_ ud <> [] ->
  ret = 0 /\ Ud_effect ud ud1 [seq] [] [] [] [].
Proof.
  unfold HandleInsnSeq. intros H Hne.
  destruct (List.last _ _) as [bt|] eqn:Hbt; [|done].
  cbn [mbind option_bind] in H. apply last_lookup in Hbt.
  pose proof (last_fmap_lookup codeIndex (trace_ ud) bt 0 Hbt) as Hlast.
  unfold Ud_effect. rewrite Hlast. cbn [run_heads code_of fmap list_fmap concat].
  rewrite (Z.eqb_sym seq). unfold vsize at 2. simpl length.
  destruct (codeIndex bt =? seq) eqn:Hc.
  - injection H as <- <-. rewrite !app_nil_r. done.
  - destruct (Flush ud) as [udf|] eqn:Hf; [|done]. cbn [mbind option_bind] in H.
    injection H as <- <-.
    destruct (Flush_codes _ _ Hf) as (Hnf & Hcodes & Hcode & Htext & Hr & Hm).
    unfold AddTrace. cbn [trace_ set_trace code_ text_ regState_ memState_].
    rewrite fmap_app, Hcodes, Hcode, Htext, Hr, Hm, !app_nil_r.
    split; [done|]. split; [by destruct (trace_ udf)|]. done.
Qed.

Section Effects.
Variable E : Endianness.
Variable W : Z.
Variable data : list byte.

Ltac step_bind H :=
  match type of H with
  | mbind _ ?X = Some _ =>
      let Hx := fresh "Hx" in
      destruct X eqn:Hx; [cbn [mbind option_bind] in H|done]
  end.

Lemma reg_AddUses_effect (ud ud1 : Ud) (a sz ret : Z) :
  reg_AddUses W ud a sz = Some (ret, ud1) -> trace_ ud <> [] ->
  Ud_effect ud ud1 [] [] [] [] [].
Proof.
  unfold reg_AddUses. intros H Hne. step_bind H. destruct p as [p st].
  injection H as <- <-. apply AddUses_keeps in Hx as [_ Hd].
  unfold Ud_effect. cbn. rewrite Hd, !app_nil_r. done.
Qed.

Lemma mem_AddUses_effect (ud ud1 : Ud) (a sz ret : Z) :
  mem_AddUses W ud a sz = Some (ret, ud1) -> trace_ ud <> [] ->
  Ud_effect ud ud1 [] [] [] [] [].
Proof.
  unfold mem_AddUses. intros H Hne. step_bind H. destruct p as [p st].
  injection H as <- <-. apply AddUses_keeps in Hx as [_ Hd].
  unfold Ud_effect. cbn. rewrite Hd, !app_nil_r. done.
Qed.

Lemma AddDefs_defs (st st' : UdState) (a sz ret : Z) :
  AddDefs W st a sz = Some (ret, st') -> (ret <? 0) = false ->
  defs_ st' = defs_ st ++ [mkDef a (wrapW W (a + sz))].
Proof.
  intros H Hret. apply AddDefs_cases in H as [[-> _]|[_ ->]]; [done|].
  done.
Qed.

Lemma reg_AddDefs_effect (ud ud1 : Ud) (a sz ret : Z) :
  reg_AddDefs W ud a sz = Some (ret, ud1) -> (ret <? 0) = false ->
  trace_ ud <> [] ->
  Ud_effect ud ud1 [] [mkDef a (wrapW W (a + sz))] [] [] [].
Proof.
  unfold reg_AddDefs. intros H Hret Hne. step_bind H. destruct p as [r st].
  injection H as -> <-. apply AddDefs_defs in Hx; [|done].
  unfold Ud_effect. cbn. rewrite Hx, !app_nil_r. done.
Qed.

Lemma mem_AddDefs_effect (ud ud1 : Ud) (a sz ret : Z) :
  mem_AddDefs W ud a sz = Some (ret, ud1) -> (ret <? 0) = false ->
  trace_ ud <> [] ->
  Ud_effect ud ud1 [] [] [mkDef a (wrapW W (a + sz))] [] [].
Proof.
  unfold mem_AddDefs. intros H Hret Hne. step_bind H. destruct p as [r st].
  injection H as -> <-. apply AddDefs_defs in Hx; [|done].
  unfold Ud_effect. cbn. rewrite Hx, !app_nil_r. done.
Qed.
End Effects.

Lemma Ud_effect_after (ud udh ud1 : Ud) (seq : Z) (regw memw : list Def) :
  trace_ ud <> [] ->
  Ud_effect ud udh [seq] [] [] [] [] -> Ud_effect udh ud1 [] regw memw [] [] ->
  Ud_effect ud ud1 [seq] regw memw [] [].
Proof.
  intros Hne H1 H2.
  pose proof (Ud_effect_trans ud udh ud1 _ _ _ _ _ _ _ _ _ _ Hne H1 H2) as H.
  by rewrite !app_nil_r in H.
Qed.

Ltac tag_eval :=
  repeat match goal with
  | |- context [Z.eqb ?a ?b] =>
      let v := eval vm_compute in (Z.eqb a b) in
      match v with
      | true => change (Z.eqb a b) with true
      | false => change (Z.eqb a b) with false
      end
  end;
  cbn [orb andb negb].

Section RecordEffect.
Variable E : Endianness.
Variable W : Z.
Variable data : list byte.

Ltac step_bind H :=
  match type of H with
  | mbind _ ?X = Some _ =>
      let Hx := fresh "Hx" in
      destruct X eqn:Hx; [cbn [mbind option_bind] in H|done]
  end.

Lemma Ud_LdSt_effect (ud ud1 : Ud) (i ret off tag seq : Z) :
  Ud_LdSt E W ud i (mkView data off) = Some (ret, ud1) ->
  (ret <? 0) = false -> trace_ ud <> [] ->
  GetInsnSeq E (mkView data off) = Some seq ->
  Tlv_GetTag E (mkView data off) = Some tag ->
  Ud_effect ud ud1 [seq]
    (if tag =? MT_PUT_REG
     then option_list (range_of E W data false (mkTlvRecord off tag seq))
     else [])
    (if tag =? MT_STORE
     then option_list (range_of E W data false (mkTlvRecord off tag seq))
     else []) [] [].
Proof.
  unfold Ud_LdSt. intros H Hret Hne Hseq Htag. rewrite Hseq in H.
  cbn [mbind option_bind] in H. step_bind H. destruct p as [r0 udh].
  destruct (HandleInsnSeq_effect _ _ _ _ Hx Hne) as [-> Hh].
  change (0 <? 0) with false in H. cbv iota in H. rewrite Htag in H.
  cbn [mbind option_bind] in H. cbv zeta in H.
  assert (Hnh : trace_ udh <> []) by (by destruct Hh).
  unfold range_of. cbn [rec_off].
  destruct (Z.eqb_spec tag MT_LOAD) as [->|_].
  { step_bind H. step_bind H. tag_eval.
    apply (Ud_effect_after ud udh); [done|done|].
    by apply (mem_AddUses_effect W udh ud1 z z0 ret). }
  destruct (Z.eqb_spec tag MT_STORE) as [->|_].
  { step_bind H. step_bind H. tag_eval. cbn [mbind option_bind option_list].
    apply (Ud_effect_after ud udh); [done|done|].
    by apply (mem_AddDefs_effect W udh ud1 z z0 ret). }
  destruct (Z.eqb_spec tag MT_REG) as [->|_].
  { injection H as <- <-. tag_eval. done. }
  destruct (Z.eqb_spec tag MT_GET_REG) as [->|_].
  { step_bind H. step_bind H. tag_eval.
    apply (Ud_effect_after ud udh); [done|done|].
    by apply (reg_AddUses_effect W udh ud1 z z0 ret). }
  destruct (Z.eqb_spec tag MT_PUT_REG) as [->|_].
  { step_bind H. step_bind H. tag_eval. cbn [mbind option_bind option_list].
    apply (Ud_effect_after ud udh); [done|done|].
    by apply (reg_AddDefs_effect W udh ud1 z z0 ret). }
  injection H as <- <-. done.
Qed.

Lemma Ud_LdStNx_effect (ud ud1 : Ud) (i ret off tag seq : Z) :
  Ud_LdStNx E W ud i (mkView data off) = Some (ret, ud1) ->
  (ret <? 0) = false -> trace_ ud <> [] ->
  GetInsnSeq E (mkView data off) = Some seq ->
  Tlv_GetTag E (mkView data off) = Some tag ->
  Ud_effect ud ud1 [seq]
    (if tag =? MT_PUT_REG_NX
     then option_list (range_of E W data true (mkTlvRecord off tag seq))
     else []) [] [] [].
Proof.
  unfold Ud_LdStNx. intros H Hret Hne Hseq Htag. rewrite Hseq in H.
  cbn [mbind option_bind] in H. step_bind H. destruct p as [r0 udh].
  destruct (HandleInsnSeq_effect _ _ _ _ Hx Hne) as [-> Hh].
  change (0 <? 0) with false in H. cbv iota in H. rewrite Htag in H.
  cbn [mbind option_bind] in H. cbv zeta in H.
  assert (Hnh : trace_ udh <> []) by (by destruct Hh).
  unfold range_of. cbn [rec_off].
  destruct (Z.eqb_spec tag MT_GET_REG_NX) as [->|_].
  { step_bind H. step_bind H. tag_eval.
    apply (Ud_effect_after ud udh); [done|done|].
    by apply (reg_AddUses_effect W udh ud1 z z0 ret). }
  destruct (Z.eqb_spec tag MT_PUT_REG_NX) as [->|_].
  { step_bind H. step_bind H. tag_eval. cbn [mbind option_bind option_list].
    apply (Ud_effect_after ud udh); [done|done|].
    by apply (reg_AddDefs_effect W udh ud1 z z0 ret). }
  injection H as <- <-. done.
Qed.

Lemma Ud_InsnExec_effect (ud ud1 : Ud) (i ret off seq : Z) :
  Ud_InsnExec E ud i (mkView data off) = Some (ret, ud1) ->
  trace_ ud <> [] ->
  GetInsnSeq E (mkView data off) = Some seq ->
  Ud_effect ud ud1 [seq] [] [] [] [].
Proof.
  unfold Ud_InsnExec. intros H Hne Hseq. rewrite Hseq in H.
  cbn [mbind option_bind] in H. step_bind H. destruct p as [r0 udh].
  destruct (HandleInsnSeq_effect _ _ _ _ Hx Hne) as [-> Hh].
  change (0 <? 0) with false in H. cbv iota in H. by injection H as <- <-.
Qed.

Lemma Ud_Insn_effect (ud ud1 : Ud) (i ret off seq : Z) :
  Ud_Insn E W ud i (mkView data off) = Some (ret, ud1) ->
  (ret <? 0) = false -> trace_ ud <> [] ->
  GetInsnSeq E (mkView data off) = Some seq ->
  Ud_effect ud ud1 [] [] []
    (option_list (insn_of E W data (mkTlvRecord off MT_INSN seq))) [seq].
Proof.
  unfold Ud_Insn. intros H Hret Hne Hseq. rewrite Hseq in H.
  cbn [mbind option_bind] in H.
  destruct (Z.eqb_spec seq (wrap32 (vsize (code_ ud)))) as [Heq|_];
    cbn [negb] in H; [|injection H as <- <-; done].
  unfold insn_of. cbn [rec_tag rec_off]. tag_eval.
  step_bind H. step_bind H. step_bind H. injection H as <- <-.
  cbn [mbind option_bind option_list]. unfold Ud_effect.
  unfold option_list.
  cbn [option_rect trace_ code_ text_ regState_ memState_ run_heads code_of
       fmap list_fmap concat snd]. rewrite !app_nil_r.
  do 6 (split; [done|]). unfold vsize at 2. simpl length.
  change (Z.of_nat 1) with 1. rewrite seqZ_cons by lia.
  change (Z.pred 1) with 0. rewrite seqZ_nil by lia. by rewrite Heq.
Qed.

(** What the record [r] does to the builder. *)
Lemma Ud_record_effect (ud ud1 : Ud) (i ret : Z) (r : TlvRecord) :
  @visit_record Ud (Ud_Visitor E W) data ud i r = Some (ret, ud1) ->
  (ret <? 0) = false -> trace_ ud <> [] ->
  GetInsnSeq E (mkView data (rec_off r)) = Some (rec_insnSeq r) ->
  Tlv_GetTag E (mkView data (rec_off r)) = Some (rec_tag r) ->
  Ud_effect ud ud1
    (if counts_insnSeq (rec_tag r) then [rec_insnSeq r] else [])
    (option_list (reg_write_of E W data r))
    (option_list (mem_write_of E W data r))
    (option_list (insn_of E W data r))
    (if rec_tag r =? MT_INSN then [rec_insnSeq r] else []).
Proof.
  destruct r as [off tag seq]. unfold visit_record.
  cbn [rec_off rec_tag rec_insnSeq]. intros H Hret Hne Hseq Htag.
  unfold counts_insnSeq, reg_write_of, mem_write_of. cbn [rec_tag].
  assert (Hld : forall t, t = tag ->
    (t = MT_LOAD \/ t = MT_STORE \/ t = MT_REG \/ t = MT_GET_REG \/
     t = MT_PUT_REG) ->
    Ud_LdSt E W ud i (mkView data off) = Some (ret, ud1) ->
    Ud_effect ud ud1
      (if (t =? MT_LOAD) || (t =? MT_STORE) || (t =? MT_REG) ||
          (t =? MT_GET_REG) || (t =? MT_PUT_REG) || (t =? MT_INSN_EXEC) ||
          (t =? MT_GET_REG_NX) || (t =? MT_PUT_REG_NX)
       then [seq] else [])
      (option_list
         (if t =? MT_PUT_REG then range_of E W data false (mkTlvRecord off tag seq)
          else if t =? MT_PUT_REG_NX
               then range_of E W data true (mkTlvRecord off tag seq) else None))
      (option_list
         (if t =? MT_STORE then range_of E W data false (mkTlvRecord off tag seq)
          else None))
      (option_list (insn_of E W data (mkTlvRecord off tag seq)))
      (if t =? MT_INSN then [seq] else [])).
  { intros t Ht Hcase Hrun.
    pose proof (Ud_LdSt_effect ud ud1 i ret off tag seq Hrun Hret Hne Hseq Htag)
      as Heff.
    unfold insn_of. cbn [rec_tag]. rewrite <- Ht in *.
    destruct Hcase as [->|[->|[->|[->| ->]]]]; revert Heff; tag_eval;
      cbn [option_list]; done. }
  assert (Hnx : forall t, t = tag ->
    (t = MT_GET_REG_NX \/ t = MT_PUT_REG_NX) ->
    Ud_LdStNx E W ud i (mkView data off) = Some (ret, ud1) ->
    Ud_effect ud ud1
      (if (t =? MT_LOAD) || (t =? MT_STORE) || (t =? MT_REG) ||
          (t =? MT_GET_REG) || (t =? MT_PUT_REG) || (t =? MT_INSN_EXEC) ||
          (t =? MT_GET_REG_NX) || (t =? MT_PUT_REG_NX)
       then [seq] else [])
      (option_list
         (if t =? MT_PUT_REG then range_of E W data false (mkTlvRecord off tag seq)
          else if t =? MT_PUT_REG_NX
               then range_of E W data true (mkTlvRecord off tag seq) else None))
      (option_list
         (if t =? MT_STORE then range_of E W data false (mkTlvRecord off tag seq)
          else None))
      (option_list (insn_of E W data (mkTlvRecord off tag seq)))
      (if t =? MT_INSN then [seq] else [])).
  { intros t Ht Hcase Hrun.
    pose proof (Ud_LdStNx_effect ud ud1 i ret off tag seq Hrun Hret Hne Hseq Htag)
      as Heff.
    unfold insn_of. cbn [rec_tag]. rewrite <- Ht in *.
    destruct Hcase as [->| ->]; revert Heff; tag_eval;
      cbn [option_list]; done. }
  destruct (Z.eq_dec tag MT_LOAD) as [Heq|Hneq];
    [rewrite (proj2 (Z.eqb_eq _ _) Heq) in H; cbn [orb] in H;
     apply (Hld tag eq_refl); [tauto|exact H]
    |rewrite (proj2 (Z.eqb_neq _ _) Hneq) in H; clear Hneq].
  destruct (Z.eq_dec tag MT_STORE) as [Heq|Hneq];
    [rewrite (proj2 (Z.eqb_eq _ _) Heq) in H; cbn [orb] in H;
     apply (Hld tag eq_refl); [tauto|exact H]
    |rewrite (proj2 (Z.eqb_neq _ _) Hneq) in H; clear Hneq].
  destruct (Z.eq_dec tag MT_REG) as [Heq|Hneq];
    [rewrite (proj2 (Z.eqb_eq _ _) Heq) in H; cbn [orb] in H;
     apply (Hld tag eq_refl); [tauto|exact H]
    |rewrite (proj2 (Z.eqb_neq _ _) Hneq) in H; clear Hneq].
  destruct (Z.eq_dec tag MT_GET_REG) as [Heq|Hneq];
    [rewrite (proj2 (Z.eqb_eq _ _) Heq) in H; cbn [orb] in H;
     apply (Hld tag eq_refl); [tauto|exact H]
    |rewrite (proj2 (Z.eqb_neq _ _) Hneq) in H; clear Hneq].
  destruct (Z.eq_dec tag MT_PUT_REG) as [Heq|Hneq];
    [rewrite (proj2 (Z.eqb_eq _ _) Heq) in H; cbn [orb] in H;
     apply (Hld tag eq_refl); [tauto|exact H]
    |rewrite (proj2 (Z.eqb_neq _ _) Hneq) in H; clear Hneq].
  cbn [orb] in H.
  destruct (Z.eq_dec tag MT_INSN) as [Heq|Hneq];
    [rewrite (proj2 (Z.eqb_eq _ _) Heq) in H
    |rewrite (proj2 (Z.eqb_neq _ _) Hneq) in H; clear Hneq].
  { subst tag. cbn [visit_Insn Ud_Visitor] in H.
    pose proof (Ud_Insn_effect ud ud1 i ret off seq H Hret Hne Hseq) as Heff.
    revert Heff. tag_eval. cbn [option_list]. done. }
  destruct (Z.eq_dec tag MT_INSN_EXEC) as [Heq|Hneq];
    [rewrite (proj2 (Z.eqb_eq _ _) Heq) in H
    |rewrite (proj2 (Z.eqb_neq _ _) Hneq) in H; clear Hneq].
  { subst tag. cbn [visit_InsnExec Ud_Visitor] in H.
    pose proof (Ud_InsnExec_effect ud ud1 i ret off seq H Hne Hseq) as Heff.
    revert Heff. unfold insn_of. cbn [rec_tag]. tag_eval. cbn [option_list].
    done. }
  destruct (Z.eq_dec tag MT_GET_REG_NX) as [Heq|Hneq];
    [rewrite (proj2 (Z.eqb_eq _ _) Heq) in H; cbn [orb] in H;
     apply (Hnx tag eq_refl); [tauto|exact H]
    |rewrite (proj2 (Z.eqb_neq _ _) Hneq) in H; clear Hneq].
  destruct (Z.eq_dec tag MT_PUT_REG_NX) as [Heq|Hneq];
    [rewrite (proj2 (Z.eqb_eq _ _) Heq) in H; cbn [orb] in H;
     apply (Hnx tag eq_refl); [tauto|exact H]
    |rewrite (proj2 (Z.eqb_neq _ _) Hneq) in H; clear Hneq].
  cbn [orb] in H.
  destruct (Z.eq_dec tag MT_MMAP) as [Heq|Hneq];
    [rewrite (proj2 (Z.eqb_eq _ _) Heq) in H
    |rewrite (proj2 (Z.eqb_neq _ _) Hneq) in H; clear Hneq].
  { subst tag. cbn [visit_Mmap Ud_Visitor Ud_Mmap] in H. injection H as <- <-.
    unfold insn_of. cbn [rec_tag]. tag_eval. cbn [option_list].
    by apply Ud_effect_refl. }
  injection H as <- <-. done.
Qed.
End RecordEffect.

Section GraphOfRecords.
Variable E : Endianness.
Variable W : Z.

Ltac step_bind H :=
  match type of H with
  | mbind _ ?X = Some _ =>
      let Hx := fresh "Hx" in
      destruct X eqn:Hx; [cbn [mbind option_bind] in H|done]
  end.

Lemma tlv_records_fields (fuel : nat) :
  forall (data : list byte) (off : Z) (recs : list TlvRecord),
    tlv_records E W fuel data off = Some recs ->
    Forall (fun r =>
      Tlv_GetTag E (mkView data (rec_off r)) = Some (rec_tag r) /\
      GetInsnSeq E (mkView data (rec_off r)) = Some (rec_insnSeq r)) recs.
Proof.
  induction fuel as [|fuel IH]; intros data off recs H; cbn [tlv_records] in H.
  - destruct (off =? vsize data); [|done]. injection H as <-. constructor.
  - destruct (off =? vsize data); [injection H as <-; constructor|].
    step_bind H. step_bind H. step_bind H.
    destruct (_ && _); [|done]. step_bind H. injection H as <-.
    constructor; [done|]. by apply (IH data (off + z0) l).
Qed.

Lemma visit_records_ret {V} (Vis : Visitor V) (data : list byte)
    (recs : list TlvRecord) :
  forall (e s en ret : Z) (v v' : V) (tr' : TraceMm),
    @visit_records V Vis data recs e s en v = Some (ret, tr', v') ->
    (ret <? 0) = false -> ret = 0.
Proof.
  induction recs as [|r recs IH]; intros e s en ret v v' tr' H Hret.
  - by injection H as <- _ _.
  - cbn [visit_records] in H. step_bind H. destruct p as [err v1].
    destruct (err <? 0) eqn:Herr.
    + injection H as <- _ _. congruence.
    + by apply (IH _ _ _ _ _ _ _ H).
Qed.

Lemma omap_cons {A B} (f : A -> option B) (x : A) (l : list A) :
  omap f (x :: l) = option_list (f x) ++ omap f l.
Proof. cbn [omap list_omap]. by destruct (f x). Qed.

Lemma visit_records_effect (data : list byte) (recs : list TlvRecord) :
  forall (e s en : Z) (ud ud' : Ud) (tr' : TraceMm),
    Forall (fun r =>
      Tlv_GetTag E (mkView data (rec_off r)) = Some (rec_tag r) /\
      GetInsnSeq E (mkView data (rec_off r)) = Some (rec_insnSeq r)) recs ->
    trace_ ud <> [] ->
    @visit_records Ud (Ud_Visitor E W) data recs e s en ud = Some (0, tr', ud') ->
    Ud_effect ud ud'
      (trace_seqs (window_records recs e s en))
      (omap (reg_write_of E W data) (window_records recs e s en))
      (omap (mem_write_of E W data) (window_records recs e s en))
      (omap (insn_of E W data) (window_records recs e s en))
      (insn_seqs (window_records recs e s en)).
Proof.
  induction recs as [|r recs IH]; intros e s en ud ud' tr' Hall Hne H.
  - injection H as _ <-. by apply Ud_effect_refl.
  - apply Forall_cons_1 in Hall as [[Htag Hseq] Hall].
    cbn [visit_records window_records] in *.
    destruct ((s <=? e) && (e <? en)).
    + step_bind H. destruct p as [err ud1].
      destruct (err <? 0) eqn:Herr; [by injection H as -> _ _|].
      pose proof (Ud_record_effect E W data ud ud1 e err r Hx Herr Hne Hseq Htag)
        as Hr.
      assert (Hne1 : trace_ ud1 <> []) by (by destruct Hr).
      pose proof (IH _ _ _ _ _ _ Hall Hne1 H) as Hrest.
      pose proof (Ud_effect_trans _ _ _ _ _ _ _ _ _ _ _ _ _ Hne Hr Hrest) as Ht.
      cbn [app]. rewrite !omap_cons. unfold trace_seqs, insn_seqs.
      cbn [List.filter].
      destruct (counts_insnSeq (rec_tag r)), (rec_tag r =? MT_INSN);
        exact Ht.
    + cbn [mbind option_bind] in H. change (0 <? 0) with false in H.
      cbv iota in H. cbn [app]. by apply (IH _ _ _ _ _ _ Hall Hne H).
Qed.

Lemma Ud_Init_fields (ok : bool) (primes0 : list Z) (machineType n ret : Z)
    (ud : Ud) :
  Ud_Init E W ok primes0 machineType n = Some (ret, ud) ->
  codeIndex <$> trace_ ud = [0] /\
  defs_ (regState_ ud) = [mkDef 0 (WMAX W)] /\
  defs_ (memState_ ud) = [mkDef 0 (WMAX W)] /\
  code_ ud = [mkInsnInCode 0 0 0] /\ text_ ud = [].
Proof.
  intros H.
  destruct (Ud_Init_catch_all E W ok primes0 machineType n ret ud H)
    as [[Hrd _] [Hmd _]].
  unfold Ud_Init in H. step_bind H. destruct p. step_bind H. destruct p.
  cbv zeta in H. destruct (_ <? 0); injection H as <- <-; done.
Qed.

(** The graph of a visit that returns 0, from the records of the
    stream. *)
Lemma Ud_Visit_effect (ok : bool) (f fuel : nat) (data : list byte)
    (s en n : Z) (ud : Ud) (recs : list TlvRecord) :
  Ud_Visit E W ok f data s en = Some (0, Some ud) ->
  Tlv_GetAlignedLength E W (mkView data 0) = Some n ->
  tlv_records E W fuel data n = Some recs ->
  Z.of_nat (length recs) < 2 ^ 64 ->
  codeIndex <$> trace_ ud =
    0 :: run_heads 0 (trace_seqs (window_records recs 0 s en)) /\
  defs_ (regState_ ud) =
    mkDef 0 (WMAX W) :: omap (reg_write_of E W data) (window_records recs 0 s en) /\
  defs_ (memState_ ud) =
    mkDef 0 (WMAX W) :: omap (mem_write_of E W data) (window_records recs 0 s en) /\
  code_ ud =
    mkInsnInCode 0 0 0 ::
    code_of 0 (omap (insn_of E W data) (window_records recs 0 s en)) /\
  text_ ud =
    concat ((fun x => snd x) <$>
            omap (insn_of E W data) (window_records recs 0 s en)) /\
  insn_seqs (window_records recs 0 s en) =
    wrap32 <$> seqZ 1 (vsize (omap (insn_of E W data)
                                (window_records recs 0 s en))).
Proof.
  unfold Ud_Visit. intros H Hal Hrecs Hlen.
  step_bind H. destruct p as [err tr].
  destruct (err <? 0) eqn:Herr; [done|]. step_bind H. step_bind H.
  destruct p as [err1 ud0].
  destruct (err1 <? 0) eqn:He1; [injection H as Hz _; by rewrite Hz in He1|].
  step_bind H. destruct p as [[err2 tr2] ud2].
  destruct (err2 <? 0) eqn:He2; [injection H as Hz _; by rewrite Hz in He2|].
  step_bind H. destruct p as [err3 ud3]. injection H as _ <-.
  unfold Ud_Complete in Hx3. step_bind Hx3. injection Hx3 as _ <-.
  (* the cursor after [Init] *)
  assert (Htr : tr = mkTraceMm data n 0).
  { unfold TraceMm_Init, header_ in Hx. cbn [data_] in Hx.
    destruct (negb _); [injection Hx as <- _; done|].
    rewrite Hal in Hx. cbn [mbind option_bind] in Hx.
    unfold Advance in Hx. cbn [cur_ data_ entryIndex_] in Hx.
    destruct (_ >? _); injection Hx as <- <-; done. }
  subst tr.
  (* the loop, over the records *)
  apply (Visit_loop_fuel_mono E W _ f (Nat.max f (length recs))) in Hx2; [|lia].
  rewrite (Visit_loop_records E W (Ud_Visitor E W) fuel _ data n 0 s en ud0 recs)
    in Hx2; [|lia|lia|done|lia].
  pose proof (visit_records_ret _ _ _ _ _ _ _ _ _ _ Hx2 He2) as ->.
  destruct (Ud_Init_fields _ _ _ _ _ _ Hx1) as (Hc0 & Hr0 & Hm0 & Hcode0 & Ht0).
  assert (Hne0 : trace_ ud0 <> []) by (by destruct (trace_ ud0)).
  pose proof (visit_records_effect data recs 0 s en ud0 ud2 tr2
                (tlv_records_fields fuel data n recs Hrecs) Hne0 Hx2)
    as (Hne2 & Hc & Hr & Hm & Hcode & Htext & Hseqs).
  destruct (Flush_codes _ _ Hx4) as (_ & Hfc & Hfcode & Hftext & Hfr & Hfm).
  rewrite Hfc, Hfcode, Hftext, Hfr, Hfm, Hc, Hr, Hm, Hcode, Htext, Hseqs.
  rewrite Hc0, Hr0, Hm0, Hcode0, Ht0. done.
Qed.
End GraphOfRecords.

Lemma ud_literal_visit :
  Ud_Visit Little 4 true 5 (literal_trace x03) 0 SIZE_MAX = Some (0, Some ud_literal).
Proof. by vm_compute. Qed.

(** X11: the trace table lists the runs of the stream.  For a build
    ([TraceMm::Visit<Ud>]) that returns 0 on a stream whose records after
    the header all have a tag of [enum class Tag] and an aligned length
    of at least 8 bytes within the mapping, the code indices of the trace
    entries are: 0, for the seed entry of [Ud::Init], and then, of the
    sequence numbers of the records of the window that have one of the
    tags LOAD, STORE, REG, GET_REG, PUT_REG, INSN_EXEC, GET_REG_NX and
    PUT_REG_NX, in the order of the stream, each one that differs from
    the one before it (from 0 for the first). *)
Theorem X11_trace_lists_the_runs (E : Endianness) (W : Z) (cs_open_ok : bool)
    (f fuel : nat) (data : list byte) (start end_index n : Z) (ud : Ud)
    (recs : list TlvRecord) :
  Ud_Visit E W cs_open_ok f data start end_index = Some (0, Some ud) ->
  Tlv_GetAlignedLength E W (mkView data 0) = Some n ->
  tlv_records E W fuel data n = Some recs ->
  Z.of_nat (length recs) < 2 ^ 64 ->
  codeIndex <$> trace_ ud =
    0 :: run_heads 0 (trace_seqs (window_records recs 0 start end_index)).
Proof.
  intros Hrun Hal Hrecs Hlen.
  by destruct (Ud_Visit_effect E W _ _ _ _ _ _ _ _ _ Hrun Hal Hrecs Hlen)
    as (? & _).
Qed.

(** The literal trace: the records carry the sequence numbers 1, 1, 2
    and 2, and the trace entries the code indices 0, 1 and 2. *)
Lemma X11_trace_lists_the_runs_witness :
  codeIndex <$> trace_ ud_literal =
    0 :: run_heads 0 (trace_seqs (window_records literal_recs 0 0 SIZE_MAX)) /\
  trace_seqs (window_records literal_recs 0 0 SIZE_MAX) = [1; 1; 2; 2] /\
  codeIndex <$> trace_ ud_literal = [0; 1; 2].
Proof.
  split; [|by vm_compute].
  apply (X11_trace_lists_the_runs Little 4 true 5 5 (literal_trace x03)
           0 SIZE_MAX 8 ud_literal literal_recs ud_literal_visit);
    [by vm_compute|apply literal_recs_run|by vm_compute].
Defined.

(** X16: the defs are the writes of the stream.  For a build that
    returns 0 on a stream whose records after the header all have a tag
    of [enum class Tag] and an aligned length of at least 8 bytes within
    the mapping, the register defs are the catch-all
    [Def(0, 2^(8W) - 1)] followed by one def [[addr, addr + size)] for each
    PUT_REG and PUT_REG_NX record of the window, in the order of the
    stream, and the memory defs are the catch-all followed by one def for
    each STORE record of the window; the end [addr + size] is taken
    modulo [2^(8W)]. *)
Theorem X16_defs_are_the_writes (E : Endianness) (W : Z) (cs_open_ok : bool)
    (f fuel : nat) (data : list byte) (start end_index n : Z) (ud : Ud)
    (recs : list TlvRecord) :
  Ud_Visit E W cs_open_ok f data start end_index = Some (0, Some ud) ->
  Tlv_GetAlignedLength E W (mkView data 0) = Some n ->
  tlv_records E W fuel data n = Some recs ->
  Z.of_nat (length recs) < 2 ^ 64 ->
  defs_ (regState_ ud) =
    mkDef 0 (WMAX W) ::
    omap (reg_write_of E W data) (window_records recs 0 start end_index) /\
  defs_ (memState_ ud) =
    mkDef 0 (WMAX W) ::
    omap (mem_write_of E W data) (window_records recs 0 start end_index).
Proof.
  intros Hrun Hal Hrecs Hlen.
  by destruct (Ud_Visit_effect E W _ _ _ _ _ _ _ _ _ Hrun Hal Hrecs Hlen)
    as (_ & ? & ? & _).
Qed.

(** The literal trace: one write of the register bytes [[0, 4)], and no
    write of the memory. *)
Lemma X16_defs_are_the_writes_witness :
  (defs_ (regState_ ud_literal) =
     mkDef 0 (WMAX 4) ::
     omap (reg_write_of Little 4 (literal_trace x03))
       (window_records literal_recs 0 0 SIZE_MAX) /\
   defs_ (memState_ ud_literal) =
     mkDef 0 (WMAX 4) ::
     omap (mem_write_of Little 4 (literal_trace x03))
       (window_records literal_recs 0 0 SIZE_MAX)) /\
  omap (reg_write_of Little 4 (literal_trace x03))
    (window_records literal_recs 0 0 SIZE_MAX) = [mkDef 0 4].
Proof.
  split; [|by vm_compute].
  apply (X16_defs_are_the_writes Little 4 true 5 5 (literal_trace x03)
           0 SIZE_MAX 8 ud_literal literal_recs ud_literal_visit);
    [by vm_compute|apply literal_recs_run|by vm_compute].
Defined.

(** X17: the code table is the INSN records of the stream.  For a build
    that returns 0 on a stream whose records after the header all have a
    tag of [enum class Tag] and an aligned length of at least 8 bytes
    within the mapping, the code is the seed entry [InsnInCode{0, 0, 0}]
    followed by one entry for each INSN record of the window, in the
    order of the stream, with the pc of the record, the 32-bit size of
    the text before it and the 32-bit size of its bytes; the text is the
    bytes of these records one after the other; and the sequence numbers
    of the INSN records are their code indices 1, 2, ... (modulo
    [2^32]). *)
Theorem X17_code_is_the_insn_records (E : Endianness) (W : Z)
    (cs_open_ok : bool) (f fuel : nat) (data : list byte)
    (start end_index n : Z) (ud : Ud) (recs : list TlvRecord) :
  Ud_Visit E W cs_open_ok f data start end_index = Some (0, Some ud) ->
  Tlv_GetAlignedLength E W (mkView data 0) = Some n ->
  tlv_records E W fuel data n = Some recs ->
  Z.of_nat (length recs) < 2 ^ 64 ->
  let insns := omap (insn_of E W data) (window_records recs 0 start end_index) in
  code_ ud = mkInsnInCode 0 0 0 :: code_of 0 insns /\
  text_ ud = concat ((fun x => snd x) <$> insns) /\
  insn_seqs (window_records recs 0 start end_index) =
    wrap32 <$> seqZ 1 (vsize insns).
Proof.
  intros Hrun Hal Hrecs Hlen.
  by destruct (Ud_Visit_effect E W _ _ _ _ _ _ _ _ _ Hrun Hal Hrecs Hlen)
    as (_ & _ & _ & ? & ? & ?).
Qed.

(** The literal trace: one instruction, of the one byte [90] at the pc
    [0x400000]. *)
Lemma X17_code_is_the_insn_records_witness :
  (let insns := omap (insn_of Little 4 (literal_trace x03))
                  (window_records literal_recs 0 0 SIZE_MAX) in
   code_ ud_literal = mkInsnInCode 0 0 0 :: code_of 0 insns /\
   text_ ud_literal = concat ((fun x => snd x) <$> insns) /\
   insn_seqs (window_records literal_recs 0 0 SIZE_MAX) =
     wrap32 <$> seqZ 1 (vsize insns)) /\
  code_ ud_literal = [mkInsnInCode 0 0 0; mkInsnInCode 0x400000 0 1] /\
  text_ ud_literal = [x90].
Proof.
  split; [|by vm_compute].
  apply (X17_code_is_the_insn_records Little 4 true 5 5 (literal_trace x03)
           0 SIZE_MAX 8 ud_literal literal_recs ud_literal_visit);
    [by vm_compute|apply literal_recs_run|by vm_compute].
Defined.

(** * The vectors, the paths and the escapes *)

(** ** [MmVector] *)

Section MmVectorProps.
Context {T : Type}.
Variable sizeofT : Z.
Hypothesis Hsz : 1 <= sizeofT <= 2 ^ 30.

Let p30 : 2 ^ 30 = 1073741824 := eq_refl.
Let p32 : 2 ^ 32 = 4294967296 := eq_refl.
Let p62 : 2 ^ 62 = 4611686018427387904 := eq_refl.
Let p64 : 2 ^ 64 = 18446744073709551616 := eq_refl.

(** Growing by the bytes that [need] entries take, rounded up to
    [kGrowAmount], makes room for them. *)
Lemma Grow_aligned (v : MmVector T) (need : Z) :
  0 <= mm_capacity v < 2 ^ 62 -> 0 < need <= 2 ^ 32 ->
  let v1 := MmVector_Grow sizeofT v
              (GetAligned 64 (wrap64 (need * sizeofT)) kGrowAmount) in
  mm_entries v1 = mm_entries v /\
  mm_capacity v + need <= mm_capacity v1 <= mm_capacity v + need + 2 ^ 30.
Proof.
  intros Hcap Hneed v1.
  assert (Hbytes : 0 < need * sizeofT <= 2 ^ 62) by nia.
  unfold v1, MmVector_Grow. rewrite (wrap64_id (need * sizeofT)) by lia.
  change kGrowAmount with (2 ^ 30).
  destruct (GetAligned_spec 64 30 (need * sizeofT)) as [Hmod Hrange];
    [lia|lia|lia|].
  set (aligned := GetAligned 64 (need * sizeofT) (2 ^ 30)) in *.
  assert (Hq : need <= aligned / sizeofT <= need + 2 ^ 30).
  { split.
    - apply Z.div_le_lower_bound; lia.
    - apply Z.lt_succ_r. apply Z.div_lt_upper_bound; [lia|]. nia. }
  rewrite wrap64_id by lia. unfold MmVector_reserve.
  destruct (Z.leb_spec (mm_capacity v + aligned / sizeofT) (mm_capacity v));
    [lia|]. cbn [mm_entries mm_capacity]. split; [done|lia].
Qed.

Lemma Grow_default (v : MmVector T) :
  0 <= mm_capacity v < 2 ^ 62 ->
  let v1 := MmVector_Grow sizeofT v kGrowAmount in
  mm_entries v1 = mm_entries v /\
  mm_capacity v + 1 <= mm_capacity v1 <= mm_capacity v + 2 ^ 30.
Proof.
  intros Hcap v1. unfold v1, MmVector_Grow. change kGrowAmount with (2 ^ 30).
  assert (Hq : 1 <= 2 ^ 30 / sizeofT <= 2 ^ 30).
  { split.
    - apply Z.div_le_lower_bound; lia.
    - apply Z.lt_succ_r. apply Z.div_lt_upper_bound; [lia|]. nia. }
  rewrite wrap64_id by lia. unfold MmVector_reserve.
  destruct (Z.leb_spec (mm_capacity v + 2 ^ 30 / sizeofT) (mm_capacity v));
    [lia|]. cbn [mm_entries mm_capacity]. split; [done|lia].
Qed.

Variable v : MmVector T.
Hypothesis Hinv : mm_size v <= mm_capacity v < 2 ^ 62.

Lemma push_back_spec (val : T) :
  mm_size v < 2 ^ 32 ->
  exists v', MmVector_push_back sizeofT v val = Some v' /\
    mm_entries v' = mm_entries v ++ [val] /\
    mm_size v' <= mm_capacity v' < 2 ^ 62 /\
    mm_capacity v <= mm_capacity v'.
Proof.
  intros Hsize. pose proof (vsize_nonneg (mm_entries v)) as Hnn.
  unfold mm_size in *. unfold MmVector_push_back, mm_size. cbv zeta.
  rewrite wrap64_id by lia.
  destruct (Z.gtb_spec (vsize (mm_entries v) + 1) (mm_capacity v)) as [Hfull|Hroom].
  - destruct (Grow_default v ltac:(lia)) as [He Hc].
    rewrite He. destruct (Z.ltb_spec (vsize (mm_entries v))
      (mm_capacity (MmVector_Grow sizeofT v kGrowAmount))); [|lia].
    eexists. split; [done|]. cbn [mm_entries mm_capacity].
    rewrite vsize_app. unfold vsize at 2. simpl length. split; [done|]. lia.
  - destruct (Z.ltb_spec (vsize (mm_entries v)) (mm_capacity v)); [|lia].
    eexists. split; [done|]. cbn [mm_entries mm_capacity].
    rewrite vsize_app. unfold vsize at 2. simpl length. split; [done|]. lia.
Qed.

Lemma insert_spec (i : Z) (items : list T) :
  0 <= i <= mm_size v -> i + vsize items <= 2 ^ 32 ->
  exists v', MmVector_insert sizeofT v i items = Some v' /\
    mm_entries v' =
      take (Z.to_nat i) (mm_entries v) ++ items ++
      drop (Z.to_nat (i + vsize items)) (mm_entries v) /\
    mm_size v' = Z.max (mm_size v) (i + vsize items) /\
    mm_size v' <= mm_capacity v' < 2 ^ 62 /\
    mm_capacity v <= mm_capacity v'.
Proof.
  intros Hi Hn. pose proof (vsize_nonneg (mm_entries v)) as Hnn.
  pose proof (vsize_nonneg items) as Hnn'.
  unfold mm_size in *.
  assert (Hlen : forall l : list T, l = mm_entries v ->
    vsize (take (Z.to_nat i) l ++ items ++ drop (Z.to_nat (i + vsize items)) l)
      = Z.max (vsize l) (i + vsize items)).
  { intros l ->. unfold vsize in *.
    rewrite !length_app, length_take, length_drop. lia. }
  unfold MmVector_insert, mm_size. cbv zeta.
  rewrite (wrap64_id (i + vsize items)) by lia.
  destruct (Z.gtb_spec (i + vsize items) (mm_capacity v)) as [Hfull|Hroom].
  - rewrite (wrap64_id (i + vsize items - mm_capacity v)) by lia.
    destruct (Grow_aligned v (i + vsize items - mm_capacity v)) as [He Hc];
      [lia|lia|].
    set (v1 := MmVector_Grow _ _ _) in *. rewrite He.
    destruct (Z.leb_spec 0 i); [|lia].
    destruct (Z.leb_spec i (vsize (mm_entries v))); [|lia].
    destruct (Z.leb_spec (i + vsize items) (mm_capacity v1)); [|lia].
    cbn [andb]. eexists. split; [done|]. cbn [mm_entries mm_capacity].
    split; [done|]. rewrite (Hlen _ eq_refl). split; [done|]. lia.
  - destruct (Z.leb_spec 0 i); [|lia].
    destruct (Z.leb_spec i (vsize (mm_entries v))); [|lia].
    destruct (Z.leb_spec (i + vsize items) (mm_capacity v)); [|lia].
    cbn [andb]. eexists. split; [done|]. cbn [mm_entries mm_capacity].
    split; [done|]. rewrite (Hlen _ eq_refl). split; [done|]. lia.
Qed.

Lemma vsize_resize (n : Z) (val : T) (l : list T) :
  0 <= n -> vsize (resize n val l) = n.
Proof.
  intros Hn. unfold resize, vsize.
  rewrite length_app, length_take, length_replicate. lia.
Qed.

Lemma resize_spec (n : Z) (val : T) :
  0 <= n <= 2 ^ 32 ->
  exists v', MmVector_resize sizeofT v n val = Some v' /\
    mm_entries v' = resize n val (mm_entries v) /\
    mm_size v' = n /\
    mm_size v' <= mm_capacity v' < 2 ^ 62 /\
    mm_capacity v <= mm_capacity v'.
Proof.
  intros Hn. pose proof (vsize_nonneg (mm_entries v)) as Hnn.
  unfold mm_size in *. unfold MmVector_resize, mm_size. cbv zeta.
  destruct (Z.gtb_spec n (mm_capacity v)) as [Hfull|Hroom].
  - rewrite (wrap64_id (n - mm_capacity v)) by lia.
    destruct (Grow_aligned v (n - mm_capacity v)) as [He Hc]; [lia|lia|].
    set (v1 := MmVector_Grow _ _ _) in *. rewrite He.
    destruct (Z.leb_spec 0 n); [|lia].
    destruct (Z.leb_spec n (mm_capacity v1)); [|lia].
    cbn [andb]. eexists. split; [done|]. cbn [mm_entries mm_capacity].
    rewrite vsize_resize by lia. split; [done|]. split; [done|]. lia.
  - destruct (Z.leb_spec 0 n); [|lia].
    destruct (Z.leb_spec n (mm_capacity v)); [|lia].
    cbn [andb]. eexists. split; [done|]. cbn [mm_entries mm_capacity].
    rewrite vsize_resize by lia. split; [done|]. split; [done|]. lia.
Qed.
End MmVectorProps.

(** X13: no operation of an [MmVector] writes past its capacity.  On a
    vector whose size is at most its capacity, for an entry type of 1 to
    [2^30] bytes and sizes of at most [2^32] entries, [push_back],
    [insert] at a position of the vector and [resize] first grow the
    capacity to what the result needs, so that the size is at most the
    capacity again; [push_back] appends its value, [insert] at the
    position [i] overwrites the entries from [i] on with the items and
    appends the items that are left, the size becoming
    [max(size, i + n)], and [resize(n, val)] truncates the vector or fills
    it with [val] up to the size [n]; the capacity never shrinks. *)
Theorem X13_MmVector_within_capacity {T : Type} (sizeofT : Z) (v : MmVector T) :
  1 <= sizeofT <= 2 ^ 30 ->
  mm_size v <= mm_capacity v < 2 ^ 62 ->
  (forall val, mm_size v < 2 ^ 32 ->
     exists v', MmVector_push_back sizeofT v val = Some v' /\
       mm_entries v' = mm_entries v ++ [val] /\
       mm_size v' <= mm_capacity v' < 2 ^ 62 /\
       mm_capacity v <= mm_capacity v') /\
  (forall i items, 0 <= i <= mm_size v -> i + vsize items <= 2 ^ 32 ->
     exists v', MmVector_insert sizeofT v i items = Some v' /\
       mm_entries v' =
         take (Z.to_nat i) (mm_entries v) ++ items ++
         drop (Z.to_nat (i + vsize items)) (mm_entries v) /\
       mm_size v' = Z.max (mm_size v) (i + vsize items) /\
       mm_size v' <= mm_capacity v' < 2 ^ 62 /\
       mm_capacity v <= mm_capacity v') /\
  (forall n val, 0 <= n <= 2 ^ 32 ->
     exists v', MmVector_resize sizeofT v n val = Some v' /\
       mm_entries v' = resize n val (mm_entries v) /\
       mm_size v' = n /\
       mm_size v' <= mm_capacity v' < 2 ^ 62 /\
       mm_capacity v <= mm_capacity v').
Proof.
  intros Hsz Hinv. split; [|split].
  - intros val. by apply push_back_spec.
  - intros i items. by apply insert_spec.
  - intros n val. by apply resize_spec.
Qed.

(** A full vector of three 4-byte entries: [push_back] grows it by
    [2^30 / 4] entries, and [insert] at its end appends. *)
Lemma X13_MmVector_within_capacity_witness :
  MmVector_push_back 4 full_vector 40 =
    Some (mkMmVector [10; 20; 30; 40] (3 + 2 ^ 28)) /\
  (exists v', MmVector_insert 4 full_vector 3 [40; 50] = Some v' /\
     mm_entries v' =
       take (Z.to_nat 3) (mm_entries full_vector) ++ [40; 50] ++
       drop (Z.to_nat (3 + vsize [40; 50])) (mm_entries full_vector) /\
     mm_size v' = Z.max (mm_size full_vector) (3 + vsize [40; 50]) /\
     mm_size v' <= mm_capacity v' < 2 ^ 62 /\
     mm_capacity full_vector <= mm_capacity v').
Proof.
  split; [by vm_compute|].
  assert (Hsz : 1 <= 4 <= 2 ^ 30) by (by vm_compute).
  assert (Hinv : mm_size full_vector <= mm_capacity full_vector < 2 ^ 62)
    by (by vm_compute).
  destruct (X13_MmVector_within_capacity 4 full_vector Hsz Hinv) as (_ & Hins & _).
  apply (Hins 3 [40; 50]); by vm_compute.
Defined.

(** ** [PathWithPlaceholder] *)

Lemma starts_with_spec (needle haystack : list byte) :
  starts_with needle haystack = true <-> exists post, haystack = needle ++ post.
Proof.
  revert haystack. induction needle as [|n needle IH]; intros haystack.
  - simpl. split; [by exists haystack|done].
  - destruct haystack as [|h haystack]; simpl.
    + split; [done|]. by intros (post & ?).
    + rewrite andb_true_iff, IH. split.
      * intros [Hb (post & ->)]. apply Byte.byte_dec_bl in Hb as ->.
        by exists post.
      * intros (post & [= -> ->]). split; [by apply Byte.byte_dec_lb|].
        by exists post.
Qed.

Lemma strstr_Some (haystack needle : list byte) (i : nat) :
  strstr haystack needle = Some i ->
  haystack = take i haystack ++ needle ++ drop (i + length needle) haystack /\
  forall pre post, haystack = pre ++ needle ++ post -> (i <= length pre)%nat.
Proof.
  revert i. induction haystack as [|h haystack IH]; intros i; simpl.
  - destruct (starts_with needle []) eqn:Hs; [|done]. intros [= <-].
    apply starts_with_spec in Hs as (post & Hpost).
    destruct needle; [|done]. split; [done|]. intros; lia.
  - destruct (starts_with needle (h :: haystack)) eqn:Hs.
    + intros [= <-]. apply starts_with_spec in Hs as (post & Hpost).
      split; [|intros; lia]. rewrite Hpost at 1. simpl. f_equal.
      rewrite Hpost, drop_app_length. done.
    + destruct (strstr haystack needle) as [j|] eqn:Hj; [|done].
      intros [= <-]. destruct (IH j eq_refl) as [Heq Hmin]. split.
      * simpl. f_equal. done.
      * intros pre post Hpre. destruct pre as [|p pre].
        -- exfalso. simpl in Hpre.
           assert (starts_with needle (h :: haystack) = true) as Ht
             by (apply starts_with_spec; by exists post).
           congruence.
        -- injection Hpre as -> Hpre. simpl. specialize (Hmin pre post Hpre). lia.
Qed.

Lemma strstr_None (haystack needle : list byte) :
  strstr haystack needle = None ->
  forall pre post, haystack <> pre ++ needle ++ post.
Proof.
  induction haystack as [|h haystack IH]; simpl.
  - destruct (starts_with needle []) eqn:Hs; [done|]. intros _ pre post Heq.
    destruct pre; [|done]. simpl in Heq.
    assert (starts_with needle [] = true) as Ht
      by (apply starts_with_spec; by exists post).
    congruence.
  - destruct (starts_with needle (h :: haystack)) eqn:Hs; [done|].
    destruct (strstr haystack needle) as [j|] eqn:Hj; [done|].
    intros _ pre post Heq. destruct pre as [|p pre].
    + simpl in Heq.
      assert (starts_with needle (h :: haystack) = true) as Ht
        by (apply starts_with_spec; by exists post).
      congruence.
    + injection Heq as -> Heq. by apply (IH eq_refl pre post).
Qed.

(** X14: [PathWithPlaceholder::Init] returns [-EINVAL] and leaves the
    object as it is when the path holds no [{}]; otherwise it returns 0
    and splits the path at the first [{}], after which [Get(value)] is
    the part before that [{}], then [before[1]], then the value, then the
    part after it; with an empty [before[1]], [Get] of [{}] itself gives
    the path back. *)
Theorem X14_PathWithPlaceholder (p : PathWithPlaceholder) (path : list byte) :
  ((forall pre post, path <> pre ++ kPlaceholder ++ post) ->
   PathWithPlaceholder_Init p path = (- EINVAL, p)) /\
  (forall pre post, path = pre ++ kPlaceholder ++ post ->
   exists pre' post',
     path = pre' ++ kPlaceholder ++ post' /\
     (length pre' <= length pre)%nat /\
     PathWithPlaceholder_Init p path =
       (0, mkPathWithPlaceholder pre' (before1 p) post') /\
     (forall value,
        PathWithPlaceholder_Get (snd (PathWithPlaceholder_Init p path)) value =
          pre' ++ before1 p ++ value ++ post') /\
     (before1 p = [] ->
      PathWithPlaceholder_Get (snd (PathWithPlaceholder_Init p path))
        kPlaceholder = path)).
Proof.
  unfold PathWithPlaceholder_Init. split.
  - intros Hno. destruct (strstr path kPlaceholder) as [i|] eqn:Hi; [|done].
    exfalso. apply strstr_Some in Hi as [Heq _]. by apply (Hno _ _ Heq).
  - intros pre post Hpath.
    destruct (strstr path kPlaceholder) as [i|] eqn:Hi.
    2:{ exfalso. by apply (strstr_None _ _ Hi pre post). }
    apply strstr_Some in Hi as [Heq Hmin].
    exists (take i path), (drop (i + kPlaceholderLength) path).
    split; [done|]. split.
    { specialize (Hmin pre post Hpath). rewrite length_take. lia. }
    split; [done|]. cbn [snd]. unfold PathWithPlaceholder_Get.
    cbn [before0 before1 after]. split; [done|].
    intros ->. symmetry. exact Heq.
Qed.

(** The path [out/{}.bin] with [Get] of [uses], and the path [out.bin]. *)
Lemma X14_PathWithPlaceholder_witness :
  PathWithPlaceholder_Init (mkPathWithPlaceholder [] [] []) path_without =
    (- EINVAL, mkPathWithPlaceholder [] [] []) /\
  (exists pre' post',
     path_with = pre' ++ kPlaceholder ++ post' /\
     (length pre' <= length [x6f; x75; x74; x2f])%nat /\
     PathWithPlaceholder_Init (mkPathWithPlaceholder [] [] []) path_with =
       (0, mkPathWithPlaceholder pre' [] post') /\
     (forall value,
        PathWithPlaceholder_Get
          (snd (PathWithPlaceholder_Init (mkPathWithPlaceholder [] [] [])
                  path_with)) value =
          pre' ++ [] ++ value ++ post') /\
     (([] : list byte) = [] ->
      PathWithPlaceholder_Get
        (snd (PathWithPlaceholder_Init (mkPathWithPlaceholder [] [] [])
                path_with)) kPlaceholder = path_with)) /\
  PathWithPlaceholder_Get
    (snd (PathWithPlaceholder_Init (mkPathWithPlaceholder [] [] []) path_with))
    [x75; x73; x65; x73] =
    [x6f; x75; x74; x2f; x75; x73; x65; x73; x2e; x62; x69; x6e].
Proof.
  split; [by vm_compute|]. split; [|by vm_compute].
  destruct (X14_PathWithPlaceholder (mkPathWithPlaceholder [] [] []) path_with)
    as [_ Hsome].
  apply (Hsome [x6f; x75; x74; x2f] [x2e; x62; x69; x6e]). by vm_compute.
Defined.

(** ** [HtmlDump] *)

Lemma html_escape_safe (c c' : byte) :
  c <> x00 -> In c' (html_escape c) ->
  c' <> x22 /\ c' <> x27 /\ c' <> x3c /\ c' <> x3e /\ c' <> x00.
Proof.
  intros Hc. unfold html_escape.
  destruct (Byte.eqb c x22) eqn:H22.
  { simpl. intros [<-|[<-|[<-|[<-|[<-|[<-|[]]]]]]]; repeat split; done. }
  destruct (Byte.eqb c x26) eqn:H26.
  { simpl. intros [<-|[<-|[<-|[<-|[<-|[]]]]]]; repeat split; done. }
  destruct (Byte.eqb c x27) eqn:H27.
  { simpl. intros [<-|[<-|[<-|[<-|[<-|[]]]]]]; repeat split; done. }
  destruct (Byte.eqb c x3c) eqn:H3c.
  { simpl. intros [<-|[<-|[<-|[<-|[]]]]]; repeat split; done. }
  destruct (Byte.eqb c x3e) eqn:H3e.
  { simpl. intros [<-|[<-|[<-|[<-|[]]]]]; repeat split; done. }
  intros [<-|[]]. apply Byte.eqb_false in H22, H27, H3c, H3e. done.
Qed.

(** X15: what [HtmlDump] writes holds no double quote, no apostrophe, no
    [<] and no [>] (nor a NUL); and a string without NUL and without the
    five characters that [HtmlDump] replaces is written as it is. *)
Theorem X15_HtmlDump_escapes (s : list byte) :
  (forall c, In c (HtmlDump s) ->
     c <> x22 /\ c <> x27 /\ c <> x3c /\ c <> x3e /\ c <> x00) /\
  ((forall c, In c s -> html_special c = false /\ c <> x00) ->
   HtmlDump s = s).
Proof.
  split.
  - induction s as [|c0 s IH]; [done|]. cbn [HtmlDump].
    destruct (Byte.eqb c0 x00) eqn:H0; [done|]. apply Byte.eqb_false in H0.
    intros c [Hc|Hc]%in_app_or; [by apply (html_escape_safe c0)|by apply IH].
  - induction s as [|c0 s IH]; [done|]. intros Hplain. cbn [HtmlDump].
    destruct (Hplain c0 ltac:(by left)) as [Hs H0].
    destruct (Byte.eqb c0 x00) eqn:Hz; [by apply Byte.byte_dec_bl in Hz|].
    unfold html_special in Hs. apply orb_false_elim in Hs as [Hs H3e].
    apply orb_false_elim in Hs as [Hs H3c].
    apply orb_false_elim in Hs as [Hs H27].
    apply orb_false_elim in Hs as [H22 H26].
    unfold html_escape. rewrite H22, H26, H27, H3c, H3e. simpl. f_equal.
    apply IH. intros c Hc. apply Hplain. by right.
Qed.

(** The string [<a>] is written as [&lt;a&gt;], and [abc] as it is. *)
Lemma X15_HtmlDump_escapes_witness :
  HtmlDump [x3c; x61; x3e] = [x26; x6c; x74; x3b; x61; x26; x67; x74; x3b] /\
  HtmlDump [x61; x62; x63] = [x61; x62; x63].
Proof.
  split; [by vm_compute|].
  destruct (X15_HtmlDump_escapes [x61; x62; x63]) as [_ Hplain].
  apply Hplain. intros c [<-|[<-|[<-|[]]]]; by vm_compute.
Defined.

(** * Accesses of size zero *)

(** The only entry of a sorted map that passes a test is what the filter
    keeps. *)
Lemma filter_single (f : Z * EntryValue.t -> bool) (m : AddressSpace)
    (y : Z * EntryValue.t) :
  map_sorted m -> In y m -> f y = true ->
  (forall x, In x m -> f x = true -> x = y) ->
  List.filter f m = [y].
Proof.
  induction m as [|[e0 v0] m IH]; intros Hs Hin Hy Hall; [done|].
  apply map_sorted_cons in Hs as [Hlt Hs]. cbn [List.filter].
  assert (Hrest : y = (e0, v0) -> List.filter f m = []).
  { intros ->. apply filter_none. intros [e' v'] Hx.
    destruct (f (e', v')) eqn:Hf; [|done]. exfalso.
    assert ((e', v') = (e0, v0)) as Heq by (apply Hall; [by right|done]).
    injection Heq as -> ->. specialize (Hlt e0 v0 Hx). lia. }
  destruct (f (e0, v0)) eqn:H0.
  - assert (y = (e0, v0)) as Heq by (symmetry; apply Hall; [by left|done]).
    rewrite (Hrest Heq). by rewrite Heq.
  - destruct Hin as [<-|Hin]; [congruence|].
    apply IH; try done. intros x Hx. apply Hall. by right.
Qed.

(** Two live intervals that hold the same address have the same key. *)
Lemma live_ok_same_key (m : AddressSpace) (x : Z) (y1 y2 : Z * EntryValue.t) :
  live_ok m -> In y1 m -> In y2 m ->
  EntryValue.startAddr (snd y1) <= x < fst y1 ->
  EntryValue.startAddr (snd y2) <= x < fst y2 ->
  fst y1 = fst y2.
Proof.
  intros (_ & _ & Hd) H1 H2 Hx1 Hx2. destruct y1 as [e1 v1], y2 as [e2 v2].
  simpl in *.
  destruct (Z.lt_trichotomy e1 e2) as [Hlt|[Heq|Hgt]]; [|done|].
  - specialize (Hd e1 v1 e2 v2 H1 H2 Hlt). lia.
  - specialize (Hd e2 v2 e1 v1 H2 H1 Hgt). lia.
Qed.

Section ZeroSize.
Variable W : Z.
Variables (st : UdState) (a e : Z) (v : EntryValue.t).
Let m := addressSpace_ st.
Hypothesis Hinv : map_inv W m.
Hypothesis Hin : In (e, v) m.
Hypothesis Ha : EntryValue.startAddr v < a < e.

Lemma zero_size_bounds : 0 <= a /\ a + 1 <= WMAX W.
Proof.
  destruct Hinv as (_ & _ & Hr). specialize (Hr e v Hin). lia.
Qed.

(** The access goes over the one interval that holds [a - 1] and [a]. *)
Lemma zero_size_walk : walk m (a + 1) a = [(e, v)].
Proof.
  destruct Hinv as (Hl & _ & _). unfold walk. cbv zeta.
  rewrite (affected_filter m a a Hl).
  apply filter_single.
  - by destruct Hl.
  - done.
  - apply overlapsb_spec. unfold overlaps. simpl. lia.
  - intros [e' v'] Hin' Ho. apply overlapsb_spec in Ho.
    unfold overlaps in Ho. simpl in Ho.
    assert (e' = e) as ->.
    { apply (live_ok_same_key m (a - 1) (e', v') (e, v) Hl Hin' Hin);
        simpl; lia. }
    f_equal. by apply (map_sorted_unique m e v' v (proj1 Hl)).
Qed.

Lemma zero_size_count :
  count_affected (drop (map_lower_bound m (a + 1)) m) a = 1%nat.
Proof.
  destruct Hinv as (Hl & _ & _).
  rewrite (affected_length m (a + 1) a).
  change (length (walk m (a + 1) a) = 1%nat). by rewrite zero_size_walk.
Qed.

(** The map after the empty write. *)
Lemma zero_size_map (st' : UdState) (x : Z * EntryValue.t) :
  AddDefs W st a 0 = Some (0, st') ->
  In x (addressSpace_ st') <->
  x = (a, EntryValue.mk a (wrap32 (vsize (defs_ st)))) \/
  x = (e, EntryValue.mk a (EntryValue.defIndex v)) \/
  (fst x <> a /\ fst x <> e /\ In x m /\
   ~ (a + 1 <= fst x /\ EntryValue.startAddr (snd x) < a)).
Proof.
  intros Hrun. destruct Hinv as (Hl & _ & _).
  destruct zero_size_bounds as [Ha0 Ha1].
  apply AddDefs_cases in Hrun as [[Hr _]|[_ ->]]; [done|].
  cbv zeta. rewrite !wrapW_small by lia. rewrite Z.add_0_r.
  fold m. rewrite zero_size_count.
  pose proof zero_size_walk as Hw. unfold walk in Hw. cbv zeta in Hw.
  rewrite zero_size_count in Hw. rewrite Hw.
  pose proof (erased_sorted m (a + 1) a Hl) as Hs1.
  pose proof (erased_In m (a + 1) a Hl x) as Hin1.
  rewrite zero_size_count in Hs1, Hin1.
  set (m1 := map_erase m (map_lower_bound m (a + 1))
               (map_lower_bound m (a + 1) + 1)) in *.
  unfold AddDef. cbn [addressSpace_ defs_ AddDefs_loop]. cbv zeta.
  destruct (Z.leb_spec a (EntryValue.startAddr v)) as [?|_]; [lia|].
  destruct (Z.ltb_spec a e) as [_|?]; [|lia].
  set (d := EntryValue.defIndex v).
  set (s := EntryValue.startAddr v).
  pose proof (map_assign_sorted m1 a (EntryValue.mk s d) Hs1) as Hs2.
  pose proof (map_assign_sorted _ e (EntryValue.mk a d) Hs2) as Hs3.
  rewrite (map_assign_In _ a _ x Hs3), (map_assign_In _ e _ x Hs2),
    (map_assign_In _ a _ x Hs1), Hin1.
  split.
  - intros [->|[Hne [->|[Hne' [->|[_ [Hx Hno]]]]]]]; auto.
    + by simpl in Hne.
    + right. right. done.
  - intros [->|[->|(Hne & Hne' & Hx & Hno)]]; [by left|..].
    + right. split; [simpl; lia|]. by left.
    + right. split; [done|]. right. split; [done|]. right. done.
Qed.
End ZeroSize.

(** X18: an access of size zero at an address [a] strictly inside a live
    interval [[s, e)] of the def [d].  [AddUses(a, 0)] records one use of [d]
    with the empty partial range [[a, a)].  [AddDefs(a, 0)] returns 0 and
    appends the empty def [[a, a)]; afterwards the addresses of [[a, e)] still
    have the live writer [d], and the addresses of [[s, a)] have none. *)
Theorem X18_zero_size_access (W : Z) (primes : list Z) (st : UdState)
    (a e : Z) (v : EntryValue.t) :
  good_primes primes -> state_ok W st ->
  vsize (uses_ st) < UINT32_MAX ->
  In (e, v) (addressSpace_ st) ->
  EntryValue.startAddr v < a < e ->
  (exists primes' st',
     AddUses W primes st a 0 = Some (primes', st') /\
     uses_ st' = uses_ st ++ [EntryValue.defIndex v] /\
     PartialUses_find (partialUses_ st') (vsize (uses_ st)) =
       Some (Some (mkPartialUse (vsize (uses_ st)) (mkDef a a)))) /\
  (exists st',
     AddDefs W st a 0 = Some (0, st') /\
     defs_ st' = defs_ st ++ [mkDef a a] /\
     (forall x, a <= x < e ->
        live_writer (addressSpace_ st') x = Some (EntryValue.defIndex v)) /\
     (forall x, EntryValue.startAddr v <= x < a ->
        live_writer (addressSpace_ st') x = None)).
Proof.
  intros Hg (Hwf & Hinv & Hwithin) Hu Hin Ha.
  destruct (zero_size_bounds W st a e v Hinv Hin Ha) as [Ha0 Ha1].
  pose proof (zero_size_walk W st a e v Hinv Hin Ha) as Hwalk.
  pose proof (zero_size_count W st a e v Hinv Hin Ha) as Hcount.
  pose proof Hinv as (Hl & _ & _).
  split.
  - assert (Hbound : vsize (uses_ st) +
      vsize (walk (addressSpace_ st) (wrapW W (a + 1)) (wrapW W (a + 0)))
      <= UINT32_MAX).
    { rewrite !wrapW_small by lia. rewrite Z.add_0_r, Hwalk.
      unfold vsize at 2. simpl. lia. }
    destruct (AddUses_total W primes st a 0 Hg Hwf Hbound) as
      (primes' & st' & Hrun & _ & _ & _ & _ & Huses & _).
    exists primes', st'. split; [done|].
    rewrite !wrapW_small in Huses by lia. rewrite Z.add_0_r, Hwalk in Huses.
    split; [done|].
    destruct (AddUses_find W primes st a 0 Hg Hwf Hbound primes' st' O (e, v)
                Hrun) as (def & Hdef & Hfind).
    { rewrite !wrapW_small by lia. by rewrite Z.add_0_r, Hwalk. }
    rewrite Z.add_0_r in Hfind. rewrite Hfind.
    rewrite !wrapW_small by lia. rewrite Z.add_0_r.
    destruct (Hwithin e v Hin) as (def' & Hdef' & Hs' & _).
    simpl in Hdef. rewrite Hdef in Hdef'. injection Hdef' as <-.
    unfold overlap_of, Def_eqb. simpl.
    rewrite Z.max_l, Z.min_l by lia.
    destruct (Z.eqb_spec (startAddr def) a) as [?|_]; [lia|]. done.
  - assert (Hrun : exists st', AddDefs W st a 0 = Some (0, st') /\
                               defs_ st' = defs_ st ++ [mkDef a a]).
    { unfold AddDefs. cbv zeta. rewrite !wrapW_small by lia.
      rewrite Z.add_0_r, Hcount.
      change (wrap32 (Z.of_nat 1) >? kMaxAffectedCount) with false.
      change (Z.of_nat 1 >? kMaxAffectedCount) with false. cbv iota.
      eexists. split; [reflexivity|]. done. }
    destruct Hrun as (st' & Hrun & Hdefs). exists st'.
    split; [done|]. split; [done|].
    pose proof (zero_size_map W st a e v Hinv Hin Ha st') as Hmap.
    split.
    + intros x Hx. unfold live_writer.
      destruct (List.find (entry_holds x) (addressSpace_ st')) as [y|] eqn:Hf.
      * apply List.find_some in Hf as [Hy Hh]. simpl. f_equal.
        apply (Hmap y Hrun) in Hy. unfold entry_holds in Hh.
        apply andb_true_iff in Hh as [H1 H2].
        apply Z.leb_le in H1. apply Z.ltb_lt in H2.
        destruct Hy as [->|[->|(Hne & Hne' & Hy & _)]]; [simpl in *; lia|done|].
        exfalso. apply Hne'.
        apply (live_ok_same_key (addressSpace_ st) x y (e, v) Hl Hy Hin);
          simpl; lia.
      * exfalso.
        assert (Hno : entry_holds x
                  (e, EntryValue.mk a (EntryValue.defIndex v)) = false).
        { apply (List.find_none _ _ Hf). apply (Hmap _ Hrun). right. by left. }
        unfold entry_holds in Hno. simpl in Hno.
        apply andb_false_iff in Hno as [Hno|Hno].
        -- apply Z.leb_gt in Hno. lia.
        -- apply Z.ltb_ge in Hno. lia.
    + intros x Hx. unfold live_writer.
      destruct (List.find (entry_holds x) (addressSpace_ st')) as [y|] eqn:Hf;
        [|done].
      exfalso. apply List.find_some in Hf as [Hy Hh].
      apply (Hmap y Hrun) in Hy. unfold entry_holds in Hh.
      apply andb_true_iff in Hh as [H1 H2].
      apply Z.leb_le in H1. apply Z.ltb_lt in H2.
      destruct Hy as [->|[->|(Hne & Hne' & Hy & _)]]; [simpl in *; lia..|].
      apply Hne'.
      apply (live_ok_same_key (addressSpace_ st) x y (e, v) Hl Hy Hin);
        simpl; lia.
Qed.

(** In the register space of a fresh builder, an empty read at 4 is a use
    of the catch-all def with the range [[4, 4)], and an empty write at 4
    leaves the registers below 4 without a live writer. *)
Lemma X18_zero_size_access_witness :
  (exists primes' st',
     AddUses 4 primes_init (regState_ ud_seed) 4 0 = Some (primes', st') /\
     uses_ st' = uses_ (regState_ ud_seed) ++ [0] /\
     PartialUses_find (partialUses_ st') (vsize (uses_ (regState_ ud_seed))) =
       Some (Some (mkPartialUse (vsize (uses_ (regState_ ud_seed)))
                     (mkDef 4 4)))) /\
  (exists st',
     AddDefs 4 (regState_ ud_seed) 4 0 = Some (0, st') /\
     defs_ st' = defs_ (regState_ ud_seed) ++ [mkDef 4 4] /\
     (forall x, 4 <= x < WMAX 4 ->
        live_writer (addressSpace_ st') x = Some 0) /\
     (forall x, 0 <= x < 4 ->
        live_writer (addressSpace_ st') x = None)).
Proof.
  apply (X18_zero_size_access 4 primes_init (regState_ ud_seed) 4 (WMAX 4)
           (EntryValue.mk 0 0) good_primes_init).
  - apply (Ud_Init_state_ok Little 4 true primes_init EM_386 0 0 ud_seed);
      [lia|apply good_primes_init|by vm_compute|apply ud_seed_init].
  - by vm_compute.
  - vm_compute. by left.
  - by vm_compute.
Defined.
